(** * stringutils: the UTF-8 codec, position mapping and the [ustring] buffer

    A shallow embedding of [stringutils.h]: width inference, the unit codec,
    the byte-offset / character-index walks and the growable code-point buffer
    [ustring<_CodeT>], followed by the properties established about them.

    Conventions.
    - A [char] is modelled by its bit pattern, a [Z] in [0, 256).
    - [size_t] is 64 bits wide and [unsigned int] 32 bits wide; wrap-around is
      written out with [size_t] and [uint32].
    - [width_type] is [uint_fast8_t], which libstdc++ on glibc (the library the
      header is written against) defines as [unsigned char]: 8 bits.
    - [_CodeT] is one of the two instantiations at the end of the header,
      [char16_t] and [char32_t]. *)

From Stdlib Require Import ZArith List Lia Bool.
From stdpp Require Import base list option.

Open Scope Z_scope.

(** ** Machine integers *)

Definition size_t (v : Z) : Z := v mod 2 ^ 64.
Definition uint32 (v : Z) : Z := v mod 2 ^ 32.
Definition to_uchar (v : Z) : Z := v mod 256.
Definition to_width (v : Z) : Z := v mod 256.

Definition npos : Z := size_t (-1).

Inductive code_type : Set := Char16 | Char32.

Definition code_bits (T : code_type) : Z :=
  match T with Char16 => 16 | Char32 => 32 end.

Definition sizeof_code (T : code_type) : Z :=
  match T with Char16 => 2 | Char32 => 4 end.

(** Conversion of an integer value to [_CodeT]. *)
Definition to_code (T : code_type) (v : Z) : Z := v mod 2 ^ code_bits T.

(** A shift of a 32-bit operand (an [int] or [unsigned int] after promotion);
    a count of 32 or more is undefined and yields [None]. *)
Definition shr32 (v n : Z) : option Z :=
  if (0 <=? n) && (n <? 32) then Some (Z.shiftr v n) else None.

(** ** Width inference *)

(** [clz_detail::clz] on a 32-bit value ([__builtin_clz]); the argument is
    never zero where the header calls it. *)
Fixpoint clz_from (n : nat) (v : Z) : Z :=
  match n with
  | O => 0
  | S k => if Z.testbit v (Z.of_nat k) then 0 else 1 + clz_from k v
  end.

Definition clz (v : Z) : Z := clz_from 32 v.

(** [get_num_bytes_of_utf8_char]: one plus the number of continuation bytes
    [10xxxxxx] that follow the first byte, counted in a [width_type]. *)
Fixpoint count_continuation (rest : list Z) (num_bytes : Z) : Z :=
  match rest with
  | [] => num_bytes
  | b :: rest' =>
      if Z.land b 0xC0 =? 0x80
      then count_continuation rest' (to_width (num_bytes + 1))
      else num_bytes
  end.

Definition get_num_bytes_of_utf8_char (str : list Z) : Z :=
  count_continuation (tail str) 1.

(** Conversion of a [char] to [unsigned int]: sign extension where [char] is
    signed. *)
Definition char_to_uint (char_signed : bool) (b : Z) : Z :=
  if char_signed && (128 <=? b) then uint32 (b - 256) else b.

(** The operand handed to [clz] by the [STRINGUTILS_USE_CLZ] variant. *)
Definition clz_operand (char_signed : bool) (first_byte : Z) : Z :=
  uint32 (Z.lnot (uint32 (Z.shiftl (char_to_uint char_signed first_byte) 24))).

(** [get_codepoint_bytes(char, size_t)], [STRINGUTILS_USE_CLZ] variant. *)
Definition get_codepoint_bytes_clz
    (char_signed : bool) (first_byte len : Z) : Z :=
  if first_byte =? 0 then 1
  else
    let codepoint_bytes := clz (clz_operand char_signed first_byte) in
    if size_t (codepoint_bytes - 1) <? len
    then to_width codepoint_bytes
    else 1.

(** [get_codepoint_bytes(char, size_t)], the [switch] over [len] whose cases
    fall through from the widest test to the narrowest. *)
Definition get_codepoint_bytes (first_byte len : Z) : Z :=
  let b := to_uchar first_byte in
  let case1 := 1 in
  let case2 := if Z.land b 0xE0 =? 0xC0 then 2 else case1 in
  let case3 := if Z.land b 0xF0 =? 0xE0 then 3 else case2 in
  let case4 := if Z.land b 0xF8 =? 0xF0 then 4 else case3 in
  let case5 := if Z.land b 0xFC =? 0xF8 then 5 else case4 in
  let case6 := if Z.land b 0xFE =? 0xFC then 6 else case5 in
  let default := if Z.land b 0xFF =? 0xFE then 7 else case6 in
  if len =? 6 then case6
  else if len =? 5 then case5
  else if len =? 4 then case4
  else if len =? 3 then case3
  else if len =? 2 then case2
  else if (len =? 1) || (len =? 0) then case1
  else default.

(** The bit pattern by which a lead byte announces a multi-byte width: the
    mask and the marker of the corresponding test in the cascade. *)
Definition lead_pattern (w : Z) : option (Z * Z) :=
  match w with
  | 2 => Some (0xE0, 0xC0)
  | 3 => Some (0xF0, 0xE0)
  | 4 => Some (0xF8, 0xF0)
  | 5 => Some (0xFC, 0xF8)
  | 6 => Some (0xFE, 0xFC)
  | 7 => Some (0xFF, 0xFE)
  | _ => None
  end.

Definition signals_width (first_byte w : Z) : bool :=
  match lead_pattern w with
  | Some (mask, marker) => Z.land first_byte mask =? marker
  | None => false
  end.

(** [get_codepoint_bytes(_CodeT)], the comparison cascade. *)
Definition get_codepoint_bytes_cp (cp : Z) : Z :=
  if cp <=? 0x7F then 1
  else if cp <=? 0x7FF then 2
  else if cp <=? 0xFFFF then 3
  else if cp <=? 0x1FFFFF then 4
  else if cp <=? 0x3FFFFFF then 5
  else if cp <=? 0x7FFFFFFF then 6
  else 7.

(** [get_codepoint_bytes(_CodeT)], [STRINGUTILS_USE_CLZ] variant: a table
    indexed by the position of the highest set bit. *)
Definition lut : list Z :=
  [1; 1; 1; 1; 1; 1; 1; 2; 2; 2; 2; 3; 3; 3; 3; 3;
   4; 4; 4; 4; 4; 5; 5; 5; 5; 5; 6; 6; 6; 6; 6; 7].

Definition get_codepoint_bytes_cp_clz (cp : Z) : Z :=
  if cp =? 0 then 1
  else nth (Z.to_nat (31 - clz cp)) lut 0.

(** ** Unit codec *)

(** [utf8_decode(str, num_bytes)].  The loop folds six bits from each of the
    [num_bytes - 1] bytes after the first; every assignment converts back to
    [_CodeT].  Reading past the end of [str] and the shift [0x7F >> num_bytes]
    with a count of 32 or more are undefined: [None]. *)
Fixpoint utf8_decode_loop
    (T : code_type) (str : list Z) (n : nat) (i cp : Z) : option Z :=
  match n with
  | O => Some cp
  | S k =>
      b ← str !! Z.to_nat i;
      utf8_decode_loop T str k (i + 1)
        (to_code T (Z.lor (Z.shiftl cp 6) (Z.land (to_uchar b) 0x3F)))
  end.

Definition utf8_decode (T : code_type) (str : list Z) (num_bytes : Z)
    : option Z :=
  b0 ← str !! 0%nat;
  let cp := to_code T (to_uchar b0) in
  if 1 <? num_bytes then
    m ← shr32 0x7F num_bytes;
    utf8_decode_loop T str (Z.to_nat (num_bytes - 1)) 1
      (to_code T (Z.land cp m))
  else Some cp.

(** A store of one [char] into a buffer; outside the buffer it is undefined. *)
Definition poke (dest : list Z) (i v : Z) : option (list Z) :=
  if (0 <=? i) && (i <? Z.of_nat (length dest))
  then Some (<[Z.to_nat i := to_uchar v]> dest)
  else None.

(** [utf8_encode(cp, dest, cp_bytes)]: the [switch] enters at [cp_bytes] and
    falls through to case 2, which also writes the lead byte.  The lead byte
    shifts [cp] by [6 * cp_bytes - 6], which for [cp_bytes = 7] exceeds the
    32-bit operand.  No case matches another [cp_bytes]: nothing is written. *)
Definition continuation_unit (cp k : Z) : Z :=
  Z.lor 0x80 (Z.land (Z.shiftr cp k) 0x3F).

Definition utf8_encode_case2 (cp cp_bytes : Z) (dest : list Z)
    : option (list Z) :=
  d ← poke dest (cp_bytes - 1) (continuation_unit cp 0);
  top ← shr32 cp (6 * cp_bytes - 6);
  poke d 0 (Z.lor (Z.shiftr 0xFF00 cp_bytes) top).

Definition utf8_encode_case3 (cp cp_bytes : Z) (dest : list Z) :=
  d ← poke dest (cp_bytes - 2) (continuation_unit cp 6);
  utf8_encode_case2 cp cp_bytes d.

Definition utf8_encode_case4 (cp cp_bytes : Z) (dest : list Z) :=
  d ← poke dest (cp_bytes - 3) (continuation_unit cp 12);
  utf8_encode_case3 cp cp_bytes d.

Definition utf8_encode_case5 (cp cp_bytes : Z) (dest : list Z) :=
  d ← poke dest (cp_bytes - 4) (continuation_unit cp 18);
  utf8_encode_case4 cp cp_bytes d.

Definition utf8_encode_case6 (cp cp_bytes : Z) (dest : list Z) :=
  d ← poke dest (cp_bytes - 5) (continuation_unit cp 24);
  utf8_encode_case5 cp cp_bytes d.

Definition utf8_encode_case7 (cp cp_bytes : Z) (dest : list Z) :=
  d ← poke dest (cp_bytes - 6) (continuation_unit cp 30);
  utf8_encode_case6 cp cp_bytes d.

Definition utf8_encode (cp : Z) (dest : list Z) (cp_bytes : Z)
    : option (list Z) :=
  if cp_bytes =? 7 then utf8_encode_case7 cp cp_bytes dest
  else if cp_bytes =? 6 then utf8_encode_case6 cp cp_bytes dest
  else if cp_bytes =? 5 then utf8_encode_case5 cp cp_bytes dest
  else if cp_bytes =? 4 then utf8_encode_case4 cp cp_bytes dest
  else if cp_bytes =? 3 then utf8_encode_case3 cp cp_bytes dest
  else if cp_bytes =? 2 then utf8_encode_case2 cp cp_bytes dest
  else if cp_bytes =? 1 then poke dest 0 cp
  else Some dest.

(** The test [get_num_bytes_of_utf8_char] applies to the bytes after the
    first: [10xxxxxx] marks a continuation byte. *)
Definition is_continuation (b : Z) : bool := Z.land b 0xC0 =? 0x80.

(** [utf8_decode(str, dest, len)]: the width is measured on the bytes, the
    pair is the code point stored into [dest] and the width returned. *)
Definition utf8_decode_len (T : code_type) (str : list Z) : option (Z * Z) :=
  let num_bytes := get_num_bytes_of_utf8_char str in
  cp ← utf8_decode T str num_bytes;
  Some (cp, num_bytes).

(** The bytes [utf8_encode] writes for a code point at its own width. *)
Definition units (cp : Z) : list Z :=
  match utf8_encode cp (replicate 8 0) (get_codepoint_bytes_cp cp) with
  | Some out => take (Z.to_nat (get_codepoint_bytes_cp cp)) out
  | None => []
  end.

(** What [utf8_encode] writes at each width. *)
Definition unit_image (cp w : Z) : list Z :=
  if w =? 1 then [to_uchar cp]
  else
    to_uchar (Z.lor (Z.shiftr 0xFF00 w) (Z.shiftr cp (6 * w - 6)))
    :: map (fun k => to_uchar (continuation_unit cp (6 * Z.of_nat k)))
         (rev (seq 0 (Z.to_nat (w - 1)))).

(** A code point the codec covers and [_CodeT] can hold. *)
Definition encodable (T : code_type) (cp : Z) : Prop :=
  0 <= cp <= 0x7FFFFFFF /\ cp < 2 ^ code_bits T.

(** [encode(codepoints, n)]: a first pass adds up the widths, the result is
    created with that many zero bytes, and every code point is encoded into
    the eight-byte scratch buffer [dest] and copied from there. *)
Fixpoint encoded_size (cps : list Z) (cur_bytes : Z) : Z :=
  match cps with
  | [] => cur_bytes
  | cp :: rest => encoded_size rest (size_t (cur_bytes + get_codepoint_bytes_cp cp))
  end.

Fixpoint copy_units (n : nat) (j : Z) (dest result : list Z) (cur_bytes : Z)
    : option (list Z) :=
  match n with
  | O => Some result
  | S k =>
      b ← dest !! Z.to_nat j;
      r ← poke result (cur_bytes + j) b;
      copy_units k (j + 1) dest r cur_bytes
  end.

Fixpoint encode_loop (cps : list Z) (dest result : list Z) (cur_bytes : Z)
    : option (list Z) :=
  match cps with
  | [] => Some result
  | cp :: rest =>
      let num_bytes := get_codepoint_bytes_cp cp in
      dest' ← utf8_encode cp dest num_bytes;
      result' ← copy_units (Z.to_nat num_bytes) 0 dest' result cur_bytes;
      encode_loop rest dest' result' (size_t (cur_bytes + num_bytes))
  end.

Definition encode (dest : list Z) (cps : list Z) : option (list Z) :=
  encode_loop cps dest (replicate (Z.to_nat (encoded_size cps 0)) 0) 0.

(** ** Position mapping *)

(** What a call of one of the free functions can do. *)
Inductive outcome (A : Type) : Type :=
| Returns (a : A)
| Raises
| Undefined
| Hangs.

Arguments Returns {A} a.
Arguments Raises {A}.
Arguments Undefined {A}.
Arguments Hangs {A}.

(** [str.size()] and the pointer [str + cur_bytes] with its remaining length
    [len - cur_bytes]. *)
Definition size (str : list Z) : Z := Z.of_nat (length str).

Definition advance (str : list Z) (cur_bytes : Z) : list Z :=
  drop (Z.to_nat cur_bytes) str.

(** The walks below run [while (cur_bytes < len)].  An iteration moves
    [cur_bytes] forward by the width found there, so [S (length str)]
    iterations are enough unless a width wrapped around to zero, and then the
    loop repeats the same state for ever: running out of iterations is
    [Hangs]. *)
Definition iterations (str : list Z) : nat := S (length str).

(** [get_characters_number(str, len)]. *)
Fixpoint get_characters_number_loop
    (fuel : nat) (str : list Z) (cur_bytes cur_index : Z) : outcome Z :=
  match fuel with
  | O => Hangs
  | S fuel' =>
      if cur_bytes <? size str then
        get_characters_number_loop fuel' str
          (size_t (cur_bytes + get_num_bytes_of_utf8_char (advance str cur_bytes)))
          (size_t (cur_index + 1))
      else Returns cur_index
  end.

Definition get_characters_number (str : list Z) : outcome Z :=
  get_characters_number_loop (iterations str) str 0 0.

(** [check_utf16_is_valid(str, len)]: the walk stops at the first character
    of more than three bytes and returns where it stands. *)
Fixpoint check_utf16_is_valid_loop
    (fuel : nat) (str : list Z) (cur_bytes cur_index : Z) : outcome Z :=
  match fuel with
  | O => Hangs
  | S fuel' =>
      if cur_bytes <? size str then
        let num_bytes := get_num_bytes_of_utf8_char (advance str cur_bytes) in
        if 3 <? num_bytes then Returns cur_bytes
        else
          check_utf16_is_valid_loop fuel' str
            (size_t (cur_bytes + num_bytes)) (size_t (cur_index + 1))
      else Returns cur_bytes
  end.

Definition check_utf16_is_valid (str : list Z) : outcome Z :=
  check_utf16_is_valid_loop (iterations str) str 0 0.

(** [byte2index(str, len, bytes)]. *)
Fixpoint byte2index_loop
    (fuel : nat) (str : list Z) (bytes cur_index cur_bytes : Z) : outcome Z :=
  match fuel with
  | O => Hangs
  | S fuel' =>
      if cur_bytes <? size str then
        if cur_bytes =? bytes then Returns cur_index
        else if bytes <? cur_bytes then Returns npos
        else
          byte2index_loop fuel' str bytes
            (size_t (cur_index + 1))
            (size_t (cur_bytes + get_num_bytes_of_utf8_char (advance str cur_bytes)))
      else Returns npos
  end.

Definition byte2index (str : list Z) (bytes : Z) : outcome Z :=
  byte2index_loop (iterations str) str bytes 0 0.

(** [index2byte(str, len, index)]. *)
Fixpoint index2byte_loop
    (fuel : nat) (str : list Z) (index cur_index cur_bytes : Z) : outcome Z :=
  match fuel with
  | O => Hangs
  | S fuel' =>
      if cur_bytes <? size str then
        if cur_index =? index then Returns cur_bytes
        else
          index2byte_loop fuel' str index
            (size_t (cur_index + 1))
            (size_t (cur_bytes + get_num_bytes_of_utf8_char (advance str cur_bytes)))
      else Returns npos
  end.

Definition index2byte (str : list Z) (index : Z) : outcome Z :=
  index2byte_loop (iterations str) str index 0 0.

(** [decode_at<_CodeT>(str, len, index)]. *)
Fixpoint decode_at_loop
    (fuel : nat) (T : code_type) (str : list Z) (index cur_index cur_bytes : Z)
    : outcome Z :=
  match fuel with
  | O => Hangs
  | S fuel' =>
      if cur_bytes <? size str then
        let num_bytes := get_num_bytes_of_utf8_char (advance str cur_bytes) in
        if cur_index =? index then
          match utf8_decode T (advance str cur_bytes) num_bytes with
          | Some cp => Returns cp
          | None => Undefined
          end
        else
          decode_at_loop fuel' T str index
            (size_t (cur_index + 1)) (size_t (cur_bytes + num_bytes))
      else Returns 0
  end.

Definition decode_at (T : code_type) (str : list Z) (index : Z) : outcome Z :=
  decode_at_loop (iterations str) T str index 0 0.

(** [std::string::substr(pos, n)]: throws [std::out_of_range] when [pos]
    exceeds the size, and clips [n] to what is left. *)
Definition std_substr (str : list Z) (pos n : Z) : outcome (list Z) :=
  if size str <? pos then Raises
  else Returns (take (Z.to_nat (Z.min n (size str - pos))) (advance str pos)).

Definition empty_string : list Z := [].

(** [string_at(str, index)]. *)
Fixpoint string_at_loop
    (fuel : nat) (str : list Z) (index cur_index cur_bytes : Z)
    : outcome (list Z) :=
  match fuel with
  | O => Hangs
  | S fuel' =>
      if cur_bytes <? size str then
        let num_bytes := get_num_bytes_of_utf8_char (advance str cur_bytes) in
        if cur_index =? index then std_substr str cur_bytes num_bytes
        else
          string_at_loop fuel' str index
            (size_t (cur_index + 1)) (size_t (cur_bytes + num_bytes))
      else Returns empty_string
  end.

Definition string_at (str : list Z) (index : Z) : outcome (list Z) :=
  string_at_loop (iterations str) str index 0 0.

(** [substr(str, index, n)], the free function. *)
Fixpoint substr_loop
    (fuel : nat) (str : list Z) (index n cur_index cur_bytes start_bytes : Z)
    : outcome (list Z) :=
  match fuel with
  | O => Hangs
  | S fuel' =>
      if cur_bytes <? size str then
        let num_bytes := get_num_bytes_of_utf8_char (advance str cur_bytes) in
        let start_bytes :=
          if cur_index =? index then cur_bytes else start_bytes in
        if (index <? cur_index) && (size_t (cur_index - index) =? n)
        then std_substr str start_bytes (size_t (cur_bytes - start_bytes))
        else
          substr_loop fuel' str index n
            (size_t (cur_index + 1)) (size_t (cur_bytes + num_bytes))
            start_bytes
      else if cur_index <=? index then Returns empty_string
      else std_substr str start_bytes npos
  end.

Definition substr (str : list Z) (index n : Z) : outcome (list Z) :=
  if n =? 0 then Returns empty_string
  else substr_loop (iterations str) str index n 0 0 0.

(** [decode(str, len, std::vector<_CodeT>&)]. *)
Fixpoint decode_loop (fuel : nat) (T : code_type) (str : list Z)
    (cur_bytes : Z) (codepoints : list Z) : outcome (list Z) :=
  match fuel with
  | O => Hangs
  | S fuel' =>
      if cur_bytes <? size str then
        match utf8_decode_len T (advance str cur_bytes) with
        | Some (cp, num_bytes) =>
            decode_loop fuel' T str (size_t (cur_bytes + num_bytes))
              (codepoints ++ [cp])
        | None => Undefined
        end
      else Returns codepoints
  end.

Definition decode (T : code_type) (str : list Z) : outcome (list Z) :=
  decode_loop (iterations str) T str 0 [].

(** [index2byte(str, len, std::vector<T>&)]: the byte offsets of the
    characters, in order. *)
Fixpoint index2byte_map_loop (fuel : nat) (str : list Z) (cur_bytes : Z)
    (idx2byte : list Z) : outcome (list Z) :=
  match fuel with
  | O => Hangs
  | S fuel' =>
      if cur_bytes <? size str then
        index2byte_map_loop fuel' str
          (size_t (cur_bytes + get_num_bytes_of_utf8_char (advance str cur_bytes)))
          (idx2byte ++ [cur_bytes])
      else Returns idx2byte
  end.

Definition index2byte_map (str : list Z) : outcome (list Z) :=
  index2byte_map_loop (iterations str) str 0 [].

(** [byte2index(str, len, std::vector<T>&)] with [T = size_t]: the vector is
    resized to [len] entries [T(-1)], and the entry at the first byte of each
    character receives its index. *)
Fixpoint byte2index_map_loop (fuel : nat) (str : list Z)
    (cur_index cur_bytes : Z) (byte2idx : list Z) : outcome (list Z) :=
  match fuel with
  | O => Hangs
  | S fuel' =>
      if cur_bytes <? size str then
        byte2index_map_loop fuel' str
          (size_t (cur_index + 1))
          (size_t (cur_bytes + get_num_bytes_of_utf8_char (advance str cur_bytes)))
          (<[Z.to_nat cur_bytes := cur_index]> byte2idx)
      else Returns byte2idx
  end.

Definition byte2index_map (str : list Z) : outcome (list Z) :=
  byte2index_map_loop (iterations str) str 0 0 (replicate (length str) npos).

(** The byte offset at which character number [i] starts, following the
    widths the walks themselves use: character 0 starts at offset 0 of a
    non-empty text, and the next one starts where a non-zero width leads to,
    as long as that is inside the text. *)
Fixpoint char_offset (str : list Z) (i : nat) : option Z :=
  match i with
  | O => if 0 <? size str then Some 0 else None
  | S k =>
      o ← char_offset str k;
      let w := get_num_bytes_of_utf8_char (advance str o) in
      if (0 <? w) && (o + w <? size str) then Some (o + w) else None
  end.

(** No character of the text has the width zero that a wrapped [width_type]
    gives: from every character start the walks move forward. *)
Definition steps_forward (str : list Z) : Prop :=
  forall (i : nat) (o : Z),
    char_offset str i = Some o ->
    0 < get_num_bytes_of_utf8_char (advance str o).

(** The text [a], U+4E2D, [b] of the scenarios: 1 + 3 + 1 bytes. *)
Definition a_zhong_b : list Z := [0x61; 0xE4; 0xB8; 0xAD; 0x62].

(** ** Storage

    The heap holds the blocks handed out by [malloc] and [realloc], addressed
    by their position; a released block leaves [None] behind, so a pointer
    kept across a moving [realloc] is recognisably stale.  A slot of a block
    holds one [_CodeT], or [None] while its content is indeterminate. *)

Inductive exn : Set := out_of_range | length_error | bad_alloc.

Definition slot : Type := option Z.
Definition block : Type := list slot.
Definition heap : Type := list (option block).

(** What the C library decides: whether a request fails, and whether a
    [realloc] that succeeds hands back a new block. *)
Record allocator : Type := mk_allocator {
  malloc_fails : heap -> Z -> bool;
  realloc_moves : heap -> nat -> Z -> bool
}.

(** The three data members of [ustring]. *)
Record ustring : Type := mk_ustring {
  _M_allocated_capacity : Z;
  _M_len : Z;
  _M_ptr : option nat
}.

(** A pointer into a block: [_M_ptr + offset]. *)
Record pointer : Type := mk_pointer {
  base : option nat;
  offset : Z
}.

Definition ptr_add (p : pointer) (k : Z) : pointer :=
  mk_pointer (base p) (offset p + k).

Record state : Type := mk_state {
  this : ustring;
  mem : heap
}.

(** A member function either returns, or throws leaving the state it had
    reached, or runs into undefined behaviour. *)
Inductive result (A : Type) : Type :=
| Ok (a : A) (s : state)
| Throw (e : exn) (s : state)
| UB.

Arguments Ok {A} a s.
Arguments Throw {A} e s.
Arguments UB {A}.

Definition M (A : Type) : Type := state -> result A.

Definition ret {A : Type} (a : A) : M A := fun s => Ok a s.

Definition bind {A B : Type} (m : M A) (k : A -> M B) : M B :=
  fun s =>
    match m s with
    | Ok a s' => k a s'
    | Throw e s' => Throw e s'
    | UB => UB
    end.

Definition throw {A : Type} (e : exn) : M A := fun s => Throw e s.

Definition undefined {A : Type} : M A := fun _ => UB.

#[global] Instance M_ret : MRet M := @ret.
#[global] Instance M_bind : MBind M := fun A B k m => bind m k.

Definition when (b : bool) (m : M unit) : M unit :=
  if b then m else ret tt.

Definition size_ : M Z := fun s => Ok (_M_len (this s)) s.
Definition capacity : M Z := fun s => Ok (_M_allocated_capacity (this s)) s.
Definition data : M (option nat) := fun s => Ok (_M_ptr (this s)) s.

Definition _M_capacity (c : Z) : M unit := fun s =>
  Ok tt (mk_state (mk_ustring c (_M_len (this s)) (_M_ptr (this s))) (mem s)).

Definition _M_length (n : Z) : M unit := fun s =>
  Ok tt (mk_state
           (mk_ustring (_M_allocated_capacity (this s)) n (_M_ptr (this s)))
           (mem s)).

Definition _M_data (p : option nat) : M unit := fun s =>
  Ok tt (mk_state
           (mk_ustring (_M_allocated_capacity (this s)) (_M_len (this s)) p)
           (mem s)).

(** *** Access to memory *)

Definition live (h : heap) (a : nat) : option block :=
  match h !! a with
  | Some (Some blk) => Some blk
  | _ => None
  end.

Definition in_block (blk : block) (off n : Z) : bool :=
  (0 <=? off) && (0 <=? n) && (off + n <=? Z.of_nat (length blk)).

Definition splice (blk : block) (off : Z) (vs : list slot) : block :=
  take (Z.to_nat off) blk ++ vs ++
  drop (Z.to_nat off + length vs) blk.

(** Reading and writing [n] consecutive slots; anything outside a live block
    is undefined. *)
Definition read_slots (p : pointer) (n : Z) : M (list slot) := fun s =>
  match base p with
  | None => UB
  | Some a =>
      match live (mem s) a with
      | None => UB
      | Some blk =>
          if in_block blk (offset p) n
          then Ok (take (Z.to_nat n) (drop (Z.to_nat (offset p)) blk)) s
          else UB
      end
  end.

Definition write_slots (p : pointer) (vs : list slot) : M unit := fun s =>
  match base p with
  | None => UB
  | Some a =>
      match live (mem s) a with
      | None => UB
      | Some blk =>
          if in_block blk (offset p) (Z.of_nat (length vs))
          then Ok tt (mk_state (this s)
                        (<[a := Some (splice blk (offset p) vs)]> (mem s)))
          else UB
      end
  end.

(** [*p] as an rvalue, and [*p = v]. *)
Definition peek (p : pointer) : M Z :=
  vs ← read_slots p 1;
  match vs with
  | [Some v] => ret v
  | _ => undefined
  end.

Definition poke_slot (p : pointer) (v : Z) : M unit :=
  write_slots p [Some v].

(** The number of whole [_CodeT] objects in a byte count. *)
Definition slots_of (T : code_type) (bytes : Z) : Z := bytes / sizeof_code T.

(** [memset] stores the byte [(unsigned char)c] into every byte: each slot
    covered ends up holding that byte repeated. *)
Definition splat (T : code_type) (c : Z) : Z :=
  match T with
  | Char16 => to_uchar c * 0x0101
  | Char32 => to_uchar c * 0x01010101
  end.

(** The three library routines move whole slots here, because every byte
    count in the header is a multiple of [sizeof(_CodeT)].  A count of zero
    touches no memory. *)
Definition memset (T : code_type) (d : pointer) (c bytes : Z) : M unit :=
  if slots_of T bytes =? 0 then ret tt
  else write_slots d (replicate (Z.to_nat (slots_of T bytes)) (Some (splat T c))).

Definition memmove (T : code_type) (d s : pointer) (bytes : Z) : M unit :=
  if slots_of T bytes =? 0 then ret tt
  else vs ← read_slots s (slots_of T bytes); write_slots d vs.

(** Two pointers into one block, or two null pointers. *)
Definition same_base (p q : option nat) : bool :=
  match p, q with
  | Some a, Some b => (a =? b)%nat
  | None, None => true
  | _, _ => false
  end.

(** The ranges of [n] slots at [d] and at [s] have a slot in common. *)
Definition overlap (d s : pointer) (n : Z) : bool :=
  same_base (base d) (base s) &&
  (offset d <? offset s + n) && (offset s <? offset d + n).

(** [memcpy]: the source is an array in the heap like the destination, so it
    can be the buffer itself or a block that [realloc] has released;
    overlapping ranges are undefined. *)
Definition memcpy (T : code_type) (d s : pointer) (bytes : Z) : M unit :=
  if slots_of T bytes =? 0 then ret tt
  else if overlap d s (slots_of T bytes) then undefined
  else vs ← read_slots s (slots_of T bytes); write_slots d vs.

(** [codelen(str)]: the number of code units before the first zero.  The
    scan is undefined when it meets an indeterminate slot or leaves the
    block. *)
Fixpoint codelen_loop (vs : list slot) (count : Z) : option Z :=
  match vs with
  | Some v :: rest =>
      if v =? 0 then Some count else codelen_loop rest (size_t (count + 1))
  | _ => None
  end.

Definition codelen (str : pointer) : M Z := fun s =>
  match base str with
  | None => UB
  | Some a =>
      match live (mem s) a with
      | None => UB
      | Some blk =>
          if 0 <=? offset str then
            match codelen_loop (drop (Z.to_nat (offset str)) blk) 0 with
            | Some n => Ok n s
            | None => UB
            end
          else UB
      end
  end.

(** [strlen(str)] on a character array, which is no block of this heap: the
    number of bytes before the first zero, [None] when there is none. *)
Fixpoint strlen_loop (str : list Z) (count : Z) : option Z :=
  match str with
  | [] => None
  | b :: rest =>
      if b =? 0 then Some count else strlen_loop rest (size_t (count + 1))
  end.

Definition strlen (str : list Z) : option Z := strlen_loop str 0.

(** *** Allocation *)

Definition fresh_block (T : code_type) (bytes : Z) : block :=
  replicate (Z.to_nat (slots_of T bytes)) None.

Definition resize_block (T : code_type) (blk : block) (bytes : Z) : block :=
  take (Z.to_nat (slots_of T bytes)) blk ++
  replicate (Z.to_nat (slots_of T bytes) - length blk) None.

Definition malloc (al : allocator) (T : code_type) (bytes : Z)
    : M (option nat) := fun s =>
  if malloc_fails al (mem s) bytes then Ok None s
  else Ok (Some (length (mem s)))
          (mk_state (this s) (mem s ++ [Some (fresh_block T bytes)])).

(** [realloc]: a null pointer makes it [malloc]; a request of zero bytes
    releases the block and returns null (glibc); a failed request leaves the
    block alone and returns null; otherwise the content is kept up to the
    smaller of the two sizes, in place or in a new block. *)
Definition realloc (al : allocator) (T : code_type) (p : option nat)
    (bytes : Z) : M (option nat) := fun s =>
  match p with
  | None => malloc al T bytes s
  | Some a =>
      match live (mem s) a with
      | None => UB
      | Some blk =>
          if bytes =? 0
          then Ok None (mk_state (this s) (<[a := None]> (mem s)))
          else if malloc_fails al (mem s) bytes then Ok None s
          else if realloc_moves al (mem s) a bytes
          then Ok (Some (length (mem s)))
                  (mk_state (this s)
                     (<[a := None]> (mem s) ++ [Some (resize_block T blk bytes)]))
          else Ok (Some a)
                  (mk_state (this s)
                     (<[a := Some (resize_block T blk bytes)]> (mem s)))
      end
  end.

(** The order [compare] is meant to compute: the first position at which the
    two sequences differ decides, and a proper prefix comes first. *)
Fixpoint lexicographic (vs cps : list Z) : Z :=
  match vs, cps with
  | [], [] => 0
  | [], _ :: _ => -1
  | _ :: _, [] => 1
  | v :: vs', cp :: cps' =>
      if v <? cp then -1
      else if cp <? v then 1
      else lexicographic vs' cps'
  end.

(** ** The sequence buffer [ustring<_CodeT>] *)

Definition max_size : Z := Z.shiftr npos 2.

(** A const member called on another [ustring] object [str], whose buffer
    lies in the same heap: [str._M_check(pos)], [str._M_limit(pos, n)]. *)
Definition on {A : Type} (str : ustring) (m : M A) : M A := fun s =>
  match m (mk_state str (mem s)) with
  | Ok a _ => Ok a s
  | Throw e _ => Throw e s
  | UB => UB
  end.

(** A constructor run for a new object: [*this] stays as it is and the
    object built is the result. *)
Definition building (ctor : M unit) : M ustring := fun s =>
  match ctor (mk_state (mk_ustring 0 0 None) (mem s)) with
  | Ok _ s' => Ok (this s') (mk_state (this s) (mem s'))
  | Throw e s' => Throw e (mk_state (this s) (mem s'))
  | UB => UB
  end.

Section Ustring.

Variable al : allocator.
Variable T : code_type.

Definition bytes_of (n : Z) : Z := size_t (n * sizeof_code T).

Definition _M_set_length (n : Z) : M unit :=
  _M_length n;;
  p ← data;
  poke_slot (mk_pointer p n) (to_code T 0).

Definition _M_allocator (cap : Z) : M unit :=
  p ← malloc al T (bytes_of (size_t (cap + 1)));
  _M_data p;;
  match p with
  | None => throw bad_alloc
  | Some _ => ret tt
  end.

Definition _M_realloc (n : Z) : M unit :=
  p ← data;
  tmp ← realloc al T p (bytes_of (size_t (n + 1)));
  match tmp with
  | None => if n =? 0 then _M_data tmp else throw bad_alloc
  | Some _ => _M_data tmp
  end.

Definition _S_move (d s : pointer) (n : Z) : M unit :=
  if n =? 1 then v ← peek s; poke_slot d v
  else memmove T d s (bytes_of n).

Definition _S_copy (d s : pointer) (n : Z) : M unit :=
  if n =? 1 then v ← peek s; poke_slot d v
  else memcpy T d s (bytes_of n).

(** [_M_assign(_CodeT*, size_type, _CodeT)]: a single slot is assigned, any
    other count goes through [memset]. *)
Definition _M_assign_fill (d : pointer) (n c : Z) : M unit :=
  if n =? 1 then poke_slot d c
  else memset T d c (bytes_of n).

(** [_M_assign(_CodeT*, const _CodeT*, size_type)]. *)
Definition _M_assign_arr (d s : pointer) (n : Z) : M unit :=
  if n =? 1 then v ← peek s; poke_slot d v
  else memcpy T d s (bytes_of n).

(** [_M_assign(_CodeT*, const char*, size_type)]: the bytes [s] are decoded
    one character at a time into [d[0]], [d[1]], ...; the result is the
    number of code units stored.  The loop runs [while (cur < n)], so
    [S (length s)] iterations are enough unless a width wrapped around to
    zero; then it stores without end, and runs out of the block. *)
Fixpoint _M_assign_str_loop (fuel : nat) (d : pointer) (s : list Z)
    (cur idx : Z) : M Z :=
  match fuel with
  | O => undefined
  | S fuel' =>
      if cur <? size s then
        let num_bytes := get_num_bytes_of_utf8_char (advance s cur) in
        match utf8_decode T (advance s cur) num_bytes with
        | None => undefined
        | Some cp =>
            poke_slot (ptr_add d idx) cp;;
            _M_assign_str_loop fuel' d s
              (size_t (cur + num_bytes)) (size_t (idx + 1))
        end
      else ret idx
  end.

Definition _M_assign_str (d : pointer) (s : list Z) : M Z :=
  _M_assign_str_loop (iterations s) d s 0 0.

(** The loops [for (i = 0; i < n; i++) dest[i] = *(first + i)] of the
    overloads that take a pair of iterators; [dest] is evaluated in every
    round, as the expression [_M_ptr + _M_len] is. *)
Fixpoint copy_each (n : nat) (dest : M pointer) (first : pointer) (i : Z)
    : M unit :=
  match n with
  | O => ret tt
  | S n' =>
      d ← dest;
      v ← peek (ptr_add first i);
      poke_slot (ptr_add d i) v;;
      copy_each n' dest first (i + 1)
  end.

(** [__first < __last ? __last - __first : 0] for two iterators, which are
    pointers to [_CodeT]; a pair that does not point into one array is no
    range. *)
Definition distance (first last : pointer) : M Z :=
  if same_base (base first) (base last)
  then ret (if offset first <? offset last
            then size_t (offset last - offset first) else 0)
  else undefined.

Definition _M_erase (pos n : Z) : M unit :=
  len ← size_;
  p ← data;
  let how_much := size_t (size_t (len - pos) - n) in
  when (negb (how_much =? 0) && negb (n =? 0))
    (_S_move (mk_pointer p pos) (mk_pointer p (pos + n)) how_much);;
  _M_set_length (size_t (len - n)).

Definition _M_check (pos : Z) : M Z :=
  len ← size_;
  if len <? pos then throw out_of_range else ret pos.

Definition _M_check_length (n1 n2 : Z) : M unit :=
  len ← size_;
  if size_t (max_size - size_t (len - n1)) <? n2
  then throw length_error
  else ret tt.

Definition _M_limit (pos off : Z) : M Z :=
  len ← size_;
  ret (if off <? size_t (len - pos) then off else size_t (len - pos)).

(** [_S_capacity(capacity&, old_capacity)]: the growth rule. *)
Definition _S_capacity (capacity old_capacity : Z) : M Z :=
  if max_size <? capacity then throw length_error
  else if (old_capacity <? capacity) && (capacity <? size_t (2 * old_capacity))
  then
    let doubled := size_t (2 * old_capacity) in
    ret (if max_size <? doubled then max_size else doubled)
  else ret capacity.

Definition reserve (res : Z) : M unit :=
  len ← size_;
  cap ← capacity;
  let res := if res <? len then len else res in
  if res =? cap then ret tt
  else
    res' ← _S_capacity res cap;
    _M_realloc res';;
    _M_capacity res'.

(** [_M_replace(pos, n1, arr, n2)].  The pointer [__p] is taken before
    [reserve] is called and used after it. *)
Definition _M_replace_arr (pos n1 : Z) (arr : pointer) (n2 : Z) : M unit :=
  _M_check_length n1 n2;;
  ptr ← data;
  let p := mk_pointer ptr pos in
  if n1 =? n2 then _S_copy p arr n2
  else
    len ← size_;
    cap ← capacity;
    let new_size := size_t (len + n2 - n1) in
    when (cap <? new_size) (reserve new_size);;
    len ← size_;
    _S_move (ptr_add p n2) (ptr_add p n1) (size_t (size_t (len - pos) - n1));;
    _S_copy p arr n2;;
    _M_set_length new_size.

(** [_M_replace(pos, n1, n2, c)]. *)
Definition _M_replace_fill (pos n1 n2 c : Z) : M unit :=
  _M_check_length n1 n2;;
  ptr ← data;
  let p := mk_pointer ptr pos in
  if n1 =? n2 then _M_assign_fill p n2 c
  else
    len ← size_;
    cap ← capacity;
    let new_size := size_t (len + n2 - n1) in
    when (cap <? new_size) (reserve new_size);;
    len ← size_;
    _S_move (ptr_add p n2) (ptr_add p n1) (size_t (size_t (len - pos) - n1));;
    _M_assign_fill p n2 c;;
    _M_set_length new_size.

(** [_M_replace(pos, n, k1, k2)], which does not call [_M_check_length]. *)
Definition _M_replace_range (pos n : Z) (k1 k2 : pointer) : M unit :=
  size ← distance k1 k2;
  ptr ← data;
  let p := mk_pointer ptr pos in
  if n =? size then copy_each (Z.to_nat n) (ret p) k1 0
  else
    len ← size_;
    cap ← capacity;
    let new_size := size_t (len + size - n) in
    when (cap <? new_size) (reserve new_size);;
    len ← size_;
    _S_move (ptr_add p size) (ptr_add p n) (size_t (size_t (len - pos) - n));;
    copy_each (Z.to_nat size) (ret p) k1 0;;
    _M_set_length new_size.

(** *** Constructors *)

Definition default_ustring : ustring := mk_ustring 0 0 None.

(** [ustring(size_type n, _CodeT c)]. *)
Definition construct_fill (n c : Z) : M unit :=
  _M_capacity (size_t (Z.shiftl n 1));;
  cap ← capacity;
  _M_allocator cap;;
  p ← data;
  _M_assign_fill (mk_pointer p 0) n c;;
  _M_set_length n.

(** [_M_construct(const _CodeT*, size_type)] and
    [_M_construct(const char*, size_type)]. *)
Definition _M_construct_arr (arr : pointer) (n : Z) : M unit :=
  _M_capacity (size_t (Z.shiftl n 1));;
  cap ← capacity;
  _M_allocator cap;;
  p ← data;
  when (negb (n =? 0)) (_M_assign_arr (mk_pointer p 0) arr n);;
  _M_set_length n.

Definition _M_construct_str (str : list Z) : M unit :=
  _M_capacity (size_t (Z.shiftl (size str) 1));;
  cap ← capacity;
  _M_allocator cap;;
  p ← data;
  idx ← _M_assign_str (mk_pointer p 0) str;
  _M_set_length idx.

(** [ustring(const ustring& str, size_type pos, size_type n)]. *)
Definition construct_ustring_pos (str : ustring) (pos n : Z) : M unit :=
  pos' ← on str (_M_check pos);
  n' ← on str (_M_limit pos n);
  _M_construct_arr (mk_pointer (_M_ptr str) pos') n'.

(** [ustring(const std::string& str, size_type pos, size_type n)]. *)
Definition construct_string_pos (str : list Z) (pos n : Z) : M unit :=
  if size str <? pos then throw out_of_range
  else
    let n := Z.min (size_t (size str - pos)) n in
    _M_construct_str (take (Z.to_nat n) (advance str pos)).

(** *** Mutating members *)

Definition append_fill (n c : Z) : M unit :=
  when (negb (n =? 0))
    (_M_check_length 0 n;;
     len0 ← size_;
     let len := size_t (n + len0) in
     cap ← capacity;
     when (cap <? len) (reserve len);;
     p ← data;
     len0 ← size_;
     _M_assign_fill (mk_pointer p len0) n c;;
     _M_set_length len).

(** [append(const _CodeT* arr, size_type n)]. *)
Definition append_arr (arr : pointer) (n : Z) : M unit :=
  when (negb (n =? 0))
    (_M_check_length 0 n;;
     len0 ← size_;
     let len := size_t (n + len0) in
     cap ← capacity;
     when (cap <? len) (reserve len);;
     p ← data;
     len0 ← size_;
     _M_assign_arr (mk_pointer p len0) arr n;;
     _M_set_length len).

(** [append(const char* str, size_type n)], with the [n] bytes [str]; also
    [append(const std::string&)] and [append(std::string_view)], which pass
    [data()] and [size()]. *)
Definition append_str (str : list Z) : M unit :=
  let n := size str in
  when (negb (n =? 0))
    (_M_check_length 0 n;;
     len0 ← size_;
     let len := size_t (n + len0) in
     cap ← capacity;
     when (cap <? len) (reserve len);;
     p ← data;
     len0 ← size_;
     idx ← _M_assign_str (mk_pointer p len0) str;
     len0 ← size_;
     _M_set_length (size_t (idx + len0))).

(** [append(const char* str)]. *)
Definition append_cstr (str : list Z) : M unit :=
  match strlen str with
  | Some n => append_str (take (Z.to_nat n) str)
  | None => undefined
  end.

(** [append(const std::string& str, size_type pos, size_type n)]. *)
Definition append_string_pos (str : list Z) (pos n : Z) : M unit :=
  if size str <? pos then throw out_of_range
  else
    let n := Z.min (size_t (size str - pos)) n in
    append_str (take (Z.to_nat n) (advance str pos)).

(** [append(const ustring& str)]. *)
Definition append_ustring (str : ustring) : M unit :=
  append_arr (mk_pointer (_M_ptr str) 0) (_M_len str).

(** [append(const ustring& str, size_type pos, size_type n)]. *)
Definition append_ustring_pos (str : ustring) (pos n : Z) : M unit :=
  pos' ← on str (_M_check pos);
  n' ← on str (_M_limit pos n);
  append_arr (mk_pointer (_M_ptr str) pos') n'.

(** [append(const _CodeT* arr)]. *)
Definition append_carr (arr : pointer) : M unit :=
  n ← codelen arr;
  append_arr arr n.

(** [append(first, last)]; [append(std::initializer_list<_CodeT>)] passes
    [begin()] and [end()]. *)
Definition append_range (first last : pointer) : M unit :=
  n ← distance first last;
  when (negb (n =? 0))
    (_M_check_length 0 n;;
     len0 ← size_;
     let len := size_t (n + len0) in
     cap ← capacity;
     when (cap <? len) (reserve len);;
     copy_each (Z.to_nat n)
       (p ← data; len0 ← size_; ret (mk_pointer p len0)) first 0;;
     _M_set_length len).

(** The common head of the [assign] overloads: grow to [n], or give back
    storage when twice [n] is still below the capacity. *)
Definition assign_storage (n : Z) : M unit :=
  cap ← capacity;
  if cap <? n then reserve n
  else
    let capacity' := size_t (Z.shiftl n 1) in
    when (capacity' <? cap) (_M_realloc capacity';; _M_capacity capacity').

Definition assign_fill (n c : Z) : M unit :=
  assign_storage n;;
  p ← data;
  when (negb (n =? 0)) (_M_assign_fill (mk_pointer p 0) n c);;
  _M_set_length n.

(** [assign(const _CodeT* arr, size_type n)]. *)
Definition assign_arr (arr : pointer) (n : Z) : M unit :=
  assign_storage n;;
  p ← data;
  when (negb (n =? 0)) (_M_assign_arr (mk_pointer p 0) arr n);;
  _M_set_length n.

(** [assign(const char* str, size_type n)], with the [n] bytes [str]; also
    [assign(const std::string&)] and [assign(std::string_view)]. *)
Definition assign_str (str : list Z) : M unit :=
  let n := size str in
  assign_storage n;;
  p ← data;
  n ← (if n =? 0 then ret n else _M_assign_str (mk_pointer p 0) str);
  _M_set_length n.

(** [assign(const char* str)]. *)
Definition assign_cstr (str : list Z) : M unit :=
  match strlen str with
  | Some n => assign_str (take (Z.to_nat n) str)
  | None => undefined
  end.

(** [assign(const std::string& str, size_type pos, size_type n)]. *)
Definition assign_string_pos (str : list Z) (pos n : Z) : M unit :=
  if size str <? pos then throw out_of_range
  else
    let n := Z.min (size_t (size str - pos)) n in
    assign_str (take (Z.to_nat n) (advance str pos)).

(** [assign(const ustring& str)]. *)
Definition assign_ustring (str : ustring) : M unit :=
  assign_arr (mk_pointer (_M_ptr str) 0) (_M_len str).

(** [assign(const ustring& str, size_type pos, size_type n)]. *)
Definition assign_ustring_pos (str : ustring) (pos n : Z) : M unit :=
  pos' ← on str (_M_check pos);
  n' ← on str (_M_limit pos n);
  assign_arr (mk_pointer (_M_ptr str) pos') n'.

(** [assign(const _CodeT* arr)]. *)
Definition assign_carr (arr : pointer) : M unit :=
  n ← codelen arr;
  assign_arr arr n.

(** [assign(first, last)]; [assign(std::initializer_list<_CodeT>)] passes
    [begin()] and [end()]. *)
Definition assign_range (first last : pointer) : M unit :=
  n ← distance first last;
  assign_storage n;;
  copy_each (Z.to_nat n) (p ← data; ret (mk_pointer p 0)) first 0;;
  _M_set_length n.

Definition resize (n c : Z) : M unit :=
  len ← size_;
  if len <? n then append_fill (size_t (n - len)) c
  else when (n <? len) (_M_set_length n).

Definition clear : M unit := _M_set_length 0.

Definition push_back (c : Z) : M unit :=
  len ← size_;
  cap ← capacity;
  let new_capacity := size_t (len + 1) in
  when (cap <? new_capacity)
    (new_capacity' ← _S_capacity new_capacity cap;
     _M_realloc new_capacity';;
     _M_capacity new_capacity');;
  p ← data;
  poke_slot (mk_pointer p len) c;;
  _M_set_length (size_t (len + 1)).

(** [pop_back]: [__glibcxx_assert(!empty())] states the precondition. *)
Definition pop_back : M unit :=
  len ← size_;
  if len =? 0 then undefined
  else _M_erase (size_t (len - 1)) 1.

(** [replace(pos, n1, arr, n2)]. *)
Definition replace_arr (pos n1 : Z) (arr : pointer) (n2 : Z) : M unit :=
  pos' ← _M_check pos;
  n1' ← _M_limit pos n1;
  _M_replace_arr pos' n1' arr n2.

(** [replace(pos, n, arr)].  The order in which the arguments of the call of
    [_M_replace] are evaluated is unspecified; the array is measured first
    here. *)
Definition replace_carr (pos n : Z) (arr : pointer) : M unit :=
  n2 ← codelen arr;
  pos' ← _M_check pos;
  n' ← _M_limit pos n;
  _M_replace_arr pos' n' arr n2.

Definition replace_fill (pos n1 n2 c : Z) : M unit :=
  pos' ← _M_check pos;
  n1' ← _M_limit pos n1;
  _M_replace_fill pos' n1' n2 c.

(** [replace(pos, n, str)]. *)
Definition replace_ustring (pos n : Z) (str : ustring) : M unit :=
  replace_arr pos n (mk_pointer (_M_ptr str) 0) (_M_len str).

(** [replace(pos1, n1, str, pos2, n2)]. *)
Definition replace_ustring_pos (pos1 n1 : Z) (str : ustring) (pos2 n2 : Z)
    : M unit :=
  pos2' ← on str (_M_check pos2);
  n2' ← on str (_M_limit pos2 n2);
  replace_arr pos1 n1 (mk_pointer (_M_ptr str) pos2') n2'.

(** The iterators of a buffer are pointers into it.  The members that take
    them state their precondition with [__glibcxx_assert]:
    [begin() <= i1 && i1 <= i2 && i2 <= end()]; the result is [i1 - begin()]
    and [i2 - i1]. *)
Definition asserted_range (i1 i2 : pointer) : M (Z * Z) :=
  p ← data;
  len ← size_;
  if same_base (base i1) p && same_base (base i2) p &&
     (0 <=? offset i1) && (offset i1 <=? offset i2) && (offset i2 <=? len)
  then ret (offset i1, offset i2 - offset i1)
  else undefined.

(** [p >= begin() && p <= end()], with the result [p - begin()]. *)
Definition asserted_position (i : pointer) : M Z :=
  p ← data;
  len ← size_;
  if same_base (base i) p && (0 <=? offset i) && (offset i <=? len)
  then ret (offset i)
  else undefined.

(** [replace(i1, i2, arr, n)]; [replace(i1, i2, std::initializer_list)]
    passes [begin()] and [size()]. *)
Definition replace_iter_arr (i1 i2 arr : pointer) (n : Z) : M unit :=
  '(pos, n1) ← asserted_range i1 i2;
  replace_arr pos n1 arr n.

(** [replace(i1, i2, str)]. *)
Definition replace_iter_ustring (i1 i2 : pointer) (str : ustring) : M unit :=
  replace_iter_arr i1 i2 (mk_pointer (_M_ptr str) 0) (_M_len str).

(** [replace(i1, i2, arr)]. *)
Definition replace_iter_carr (i1 i2 arr : pointer) : M unit :=
  n ← codelen arr;
  replace_iter_arr i1 i2 arr n.

(** [replace(i1, i2, n, c)]. *)
Definition replace_iter_fill (i1 i2 : pointer) (n c : Z) : M unit :=
  '(pos, n1) ← asserted_range i1 i2;
  replace_fill pos n1 n c.

(** [replace(i1, i2, k1, k2)]. *)
Definition replace_iter_range (i1 i2 k1 k2 : pointer) : M unit :=
  '(pos, n1) ← asserted_range i1 i2;
  _M_replace_range pos n1 k1 k2.

(** [insert(pos, arr, n)]. *)
Definition insert_arr (pos : Z) (arr : pointer) (n : Z) : M unit :=
  replace_arr pos 0 arr n.

(** [insert(pos, arr)]. *)
Definition insert_carr (pos : Z) (arr : pointer) : M unit :=
  n ← codelen arr;
  replace_arr pos 0 arr n.

Definition insert_fill (pos n c : Z) : M unit :=
  pos' ← _M_check pos;
  _M_replace_fill pos' 0 n c.

(** [insert(pos, str)]. *)
Definition insert_ustring (pos : Z) (str : ustring) : M unit :=
  replace_arr pos 0 (mk_pointer (_M_ptr str) 0) (_M_len str).

(** [insert(pos1, str, pos2, n2)]. *)
Definition insert_ustring_pos (pos1 : Z) (str : ustring) (pos2 n2 : Z)
    : M unit :=
  pos2' ← on str (_M_check pos2);
  n2' ← on str (_M_limit pos2 n2);
  replace_arr pos1 0 (mk_pointer (_M_ptr str) pos2') n2'.

(** [insert(p, n, c)], and [insert(p, c)] with [n = 1]. *)
Definition insert_iter_fill (i : pointer) (n c : Z) : M unit :=
  pos ← asserted_position i;
  _M_replace_fill pos 0 n c.

(** [insert(p, beg, end)]; [insert(p, std::initializer_list)] passes
    [begin()] and [end()]. *)
Definition insert_iter_range (i k1 k2 : pointer) : M unit :=
  pos ← asserted_position i;
  _M_replace_range pos 0 k1 k2.

Definition erase (pos n : Z) : M unit :=
  _M_check pos;;
  if n =? npos then _M_set_length pos
  else
    when (negb (n =? 0))
      (n' ← _M_limit pos n; _M_erase pos n').

(** [erase(position)]: the assertion is
    [position >= begin() && position < end()]. *)
Definition erase_iter (i : pointer) : M unit :=
  pos ← asserted_position i;
  len ← size_;
  if pos <? len then _M_erase pos 1 else undefined.

(** [erase(first, last)]. *)
Definition erase_iter_range (first last : pointer) : M unit :=
  '(pos, n) ← asserted_range first last;
  len ← size_;
  if offset last =? len then _M_set_length pos
  else _M_erase pos n.

(** *** Observers *)

(** [operator[]] within its asserted range, and [at]. *)
Definition index_op (pos : Z) : M Z :=
  len ← size_;
  if len <? pos then undefined
  else p ← data; peek (mk_pointer p pos).

Definition at_ (pos : Z) : M Z :=
  len ← size_;
  if len <=? pos then throw out_of_range
  else p ← data; peek (mk_pointer p pos).

(** [find(_CodeT c, size_type pos)]. *)
Fixpoint find_loop (fuel : nat) (c pos : Z) : M Z :=
  match fuel with
  | O => ret npos
  | S fuel' =>
      p ← data;
      v ← peek (mk_pointer p pos);
      if v =? c then ret pos else find_loop fuel' c (size_t (pos + 1))
  end.

Definition find (c pos : Z) : M Z :=
  len ← size_;
  find_loop (Z.to_nat (len - pos)) c pos.

(** [copy(arr, n, pos)]: the code units go to the array of the caller. *)
Definition copy (arr : pointer) (n pos : Z) : M Z :=
  _M_check pos;;
  n ← _M_limit pos n;
  p ← data;
  when (negb (n =? 0)) (_S_copy arr (mk_pointer p pos) n);;
  ret n.

(** [substr(pos, n)]: a [ustring] constructed from [*this], [_M_check(pos)] and [n]. *)
Definition self : M ustring := fun s => Ok (this s) s.

Definition ustring_substr (pos n : Z) : M ustring :=
  pos' ← _M_check pos;
  str ← self;
  building (construct_ustring_pos str pos' n).

End Ustring.

(** *** Comparison *)

(** The object representation of a [_CodeT] value, which [memcmp] looks at
    byte by byte, depends on the byte order of the target. *)
Inductive byte_order : Set := LittleEndian | BigEndian.

Fixpoint le_bytes (n : nat) (v : Z) : list Z :=
  match n with
  | O => []
  | S k => v mod 256 :: le_bytes k (v / 256)
  end.

Definition object_bytes (bo : byte_order) (T : code_type) (v : Z) : list Z :=
  match bo with
  | LittleEndian => le_bytes (Z.to_nat (sizeof_code T)) v
  | BigEndian => rev (le_bytes (Z.to_nat (sizeof_code T)) v)
  end.

Definition representation (bo : byte_order) (T : code_type) (vs : list Z)
    : list Z :=
  flat_map (object_bytes bo T) vs.

(** [memcmp] on two byte sequences of one length; only the sign of its
    result is specified. *)
Fixpoint memcmp_bytes (a b : list Z) : Z :=
  match a, b with
  | x :: a', y :: b' =>
      if x =? y then memcmp_bytes a' b'
      else if x <? y then -1 else 1
  | _, _ => 0
  end.

Fixpoint determinate (vs : list slot) : option (list Z) :=
  match vs with
  | [] => Some []
  | Some v :: vs' => option_map (cons v) (determinate vs')
  | None :: _ => None
  end.

(** [memcmp] of the buffer with an array of the caller.  It only reads, so
    the array is given by the code units found there. *)
Definition memcmp (bo : byte_order) (T : code_type) (p : pointer)
    (arr : list Z) (bytes : Z) : M Z :=
  if slots_of T bytes =? 0 then ret 0
  else if slots_of T bytes <=? size arr then
    vs ← read_slots p (slots_of T bytes);
    match determinate vs with
    | Some xs =>
        ret (memcmp_bytes (representation bo T xs)
               (representation bo T (take (Z.to_nat (slots_of T bytes)) arr)))
    | None => undefined
    end
  else undefined.

(** [compare(const _CodeT* arr, size_type n)]. *)
Definition compare_arr (bo : byte_order) (T : code_type) (arr : list Z)
    (n : Z) : M Z :=
  len ← size_;
  p ← data;
  let size := if n <? len then n else len in
  r ← memcmp bo T (mk_pointer p 0) arr (bytes_of T size);
  if (r =? 0) && negb (n =? len)
  then ret (if n <? len then 1 else -1)
  else ret r.

(** [compare(pos1, n1, arr, n2)]. *)
Definition compare_pos_arr (bo : byte_order) (T : code_type) (pos1 n1 : Z)
    (arr : list Z) (n2 : Z) : M Z :=
  _M_check pos1;;
  n1 ← _M_limit pos1 n1;
  p ← data;
  let size := if n2 <? n1 then n2 else n1 in
  r ← memcmp bo T (mk_pointer p pos1) arr (bytes_of T size);
  if (r =? 0) && negb (n1 =? n2)
  then ret (if n1 <? n2 then -1 else 1)
  else ret r.

(** The [n] code units of another [ustring] at [arr], as [memcmp] will find
    them. *)
Definition array_at (arr : pointer) (n : Z) : M (list Z) :=
  if n =? 0 then ret []
  else
    vs ← read_slots arr n;
    match determinate vs with
    | Some xs => ret xs
    | None => undefined
    end.

(** [compare(pos, n, str)], [compare(pos1, n1, str, pos2, n2)] and
    [compare(str, pos, n)] with a [ustring] [str]. *)
Definition compare_pos_ustring_pos (bo : byte_order) (T : code_type)
    (pos1 n1 : Z) (str : ustring) (pos2 n2 : Z) : M Z :=
  pos2' ← on str (_M_check pos2);
  n2' ← on str (_M_limit pos2 n2);
  _M_check pos1;;
  n1' ← _M_limit pos1 n1;
  arr ← array_at (mk_pointer (_M_ptr str) pos2')
          (if n2' <? n1' then n2' else n1');
  compare_pos_arr bo T pos1 n1 arr n2'.

Definition compare_pos_ustring (bo : byte_order) (T : code_type)
    (pos n : Z) (str : ustring) : M Z :=
  _M_check pos;;
  n1' ← _M_limit pos n;
  arr ← array_at (mk_pointer (_M_ptr str) 0)
          (if _M_len str <? n1' then _M_len str else n1');
  compare_pos_arr bo T pos n arr (_M_len str).

Definition compare_ustring_pos (bo : byte_order) (T : code_type)
    (str : ustring) (pos n : Z) : M Z :=
  len ← size_;
  compare_pos_ustring_pos bo T 0 len str pos n.

(** [compare(const char* str, size_type n)]: the bytes are decoded one
    character at a time and compared with the buffer as numbers.  The loop is
    the walk of the position mapping, so it gets the same bound. *)
Fixpoint compare_str_loop (fuel : nat) (T : code_type) (str : list Z)
    (cur idx : Z) : M (outcome Z) :=
  match fuel with
  | O => ret Hangs
  | S fuel' =>
      if cur <? size str then
        let num_bytes := get_num_bytes_of_utf8_char (advance str cur) in
        match utf8_decode T (advance str cur) num_bytes with
        | None => undefined
        | Some cp =>
            len ← size_;
            if idx =? len then ret (Returns (-1))
            else
              p ← data;
              v ← peek (mk_pointer p idx);
              if v <? cp then ret (Returns (-1))
              else if cp <? v then ret (Returns 1)
              else
                compare_str_loop fuel' T str
                  (size_t (cur + num_bytes)) (size_t (idx + 1))
        end
      else
        len ← size_;
        ret (Returns (if idx <? len then 1 else 0))
  end.

Definition compare_str (T : code_type) (str : list Z) : M (outcome Z) :=
  compare_str_loop (iterations str) T str 0 0.

(** [compare(const std::string& str, size_type pos, size_type n)]. *)
Definition compare_string_pos (T : code_type) (str : list Z) (pos n : Z)
    : M (outcome Z) :=
  if size str <? pos then throw out_of_range
  else
    let n := Z.min (size_t (size str - pos)) n in
    compare_str T (take (Z.to_nat n) (advance str pos)).

(** *** Moving *)

(** [swap(ustring& str)]: the pair is [*this] and [str] afterwards. *)
Definition swap (this str : ustring) : ustring * ustring :=
  let capacity := _M_allocated_capacity str in
  let len := _M_len str in
  let p := _M_ptr str in
  let str' :=
    mk_ustring (_M_allocated_capacity this) (_M_len this) (_M_ptr this) in
  (mk_ustring capacity len p, str').

(** [ustring(ustring&& str)]: the new object and [str] afterwards. *)
Definition move_construct (str : ustring) : ustring * ustring :=
  (mk_ustring (_M_allocated_capacity str) (_M_len str) (_M_ptr str),
   mk_ustring 0 0 None).

(** [operator=(ustring&& str)]. *)
Definition move_assign (this str : ustring) : ustring * ustring :=
  swap this str.

(** [assign(ustring&& str)]: [*this = std::move(str)], which leaves [*this]
    with the members of [str]. *)
Definition assign_move (str : ustring) : M unit := fun s =>
  Ok tt (mk_state (fst (move_assign (this s) str)) (mem s)).

(** *** The mutating interface as data *)

(** One constructor for every public overload of [assign], [append],
    [push_back], [pop_back], [insert], [erase], [replace], [resize] and
    [clear], except that an overload which only passes [data()] and [size()],
    or [begin()] and [end()], to another one is that other one.  A
    [const _CodeT*], an iterator and the buffer of a [ustring] argument are
    pointers into the heap; a [const char*] with its length, or a
    [std::string], is the list of its bytes. *)
Inductive mutation : Type :=
| Assign_fill (n c : Z)
| Assign_str (str : list Z)
| Assign_cstr (str : list Z)
| Assign_string_pos (str : list Z) (pos n : Z)
| Assign_ustring (str : ustring)
| Assign_ustring_pos (str : ustring) (pos n : Z)
| Assign_arr (arr : pointer) (n : Z)
| Assign_carr (arr : pointer)
| Assign_range (first last : pointer)
| Assign_move (str : ustring)
| Append_fill (n c : Z)
| Append_str (str : list Z)
| Append_cstr (str : list Z)
| Append_string_pos (str : list Z) (pos n : Z)
| Append_ustring (str : ustring)
| Append_ustring_pos (str : ustring) (pos n : Z)
| Append_arr (arr : pointer) (n : Z)
| Append_carr (arr : pointer)
| Append_range (first last : pointer)
| Push_back (c : Z)
| Pop_back
| Insert_fill (pos n c : Z)
| Insert_arr (pos : Z) (arr : pointer) (n : Z)
| Insert_carr (pos : Z) (arr : pointer)
| Insert_ustring (pos : Z) (str : ustring)
| Insert_ustring_pos (pos1 : Z) (str : ustring) (pos2 n2 : Z)
| Insert_iter_fill (i : pointer) (n c : Z)
| Insert_iter_range (i k1 k2 : pointer)
| Erase (pos n : Z)
| Erase_iter (i : pointer)
| Erase_iter_range (first last : pointer)
| Replace_arr (pos n1 : Z) (arr : pointer) (n2 : Z)
| Replace_carr (pos n : Z) (arr : pointer)
| Replace_fill (pos n1 n2 c : Z)
| Replace_ustring (pos n : Z) (str : ustring)
| Replace_ustring_pos (pos1 n1 : Z) (str : ustring) (pos2 n2 : Z)
| Replace_iter_arr (i1 i2 arr : pointer) (n : Z)
| Replace_iter_carr (i1 i2 arr : pointer)
| Replace_iter_ustring (i1 i2 : pointer) (str : ustring)
| Replace_iter_fill (i1 i2 : pointer) (n c : Z)
| Replace_iter_range (i1 i2 k1 k2 : pointer)
| Resize (n c : Z)
| Clear.

Definition run (al : allocator) (T : code_type) (m : mutation) : M unit :=
  match m with
  | Assign_fill n c => assign_fill al T n c
  | Assign_str str => assign_str al T str
  | Assign_cstr str => assign_cstr al T str
  | Assign_string_pos str pos n => assign_string_pos al T str pos n
  | Assign_ustring str => assign_ustring al T str
  | Assign_ustring_pos str pos n => assign_ustring_pos al T str pos n
  | Assign_arr arr n => assign_arr al T arr n
  | Assign_carr arr => assign_carr al T arr
  | Assign_range first last => assign_range al T first last
  | Assign_move str => assign_move str
  | Append_fill n c => append_fill al T n c
  | Append_str str => append_str al T str
  | Append_cstr str => append_cstr al T str
  | Append_string_pos str pos n => append_string_pos al T str pos n
  | Append_ustring str => append_ustring al T str
  | Append_ustring_pos str pos n => append_ustring_pos al T str pos n
  | Append_arr arr n => append_arr al T arr n
  | Append_carr arr => append_carr al T arr
  | Append_range first last => append_range al T first last
  | Push_back c => push_back al T c
  | Pop_back => pop_back T
  | Insert_fill pos n c => insert_fill al T pos n c
  | Insert_arr pos arr n => insert_arr al T pos arr n
  | Insert_carr pos arr => insert_carr al T pos arr
  | Insert_ustring pos str => insert_ustring al T pos str
  | Insert_ustring_pos pos1 str pos2 n2 =>
      insert_ustring_pos al T pos1 str pos2 n2
  | Insert_iter_fill i n c => insert_iter_fill al T i n c
  | Insert_iter_range i k1 k2 => insert_iter_range al T i k1 k2
  | Erase pos n => erase T pos n
  | Erase_iter i => erase_iter T i
  | Erase_iter_range first last => erase_iter_range T first last
  | Replace_arr pos n1 arr n2 => replace_arr al T pos n1 arr n2
  | Replace_carr pos n arr => replace_carr al T pos n arr
  | Replace_fill pos n1 n2 c => replace_fill al T pos n1 n2 c
  | Replace_ustring pos n str => replace_ustring al T pos n str
  | Replace_ustring_pos pos1 n1 str pos2 n2 =>
      replace_ustring_pos al T pos1 n1 str pos2 n2
  | Replace_iter_arr i1 i2 arr n => replace_iter_arr al T i1 i2 arr n
  | Replace_iter_carr i1 i2 arr => replace_iter_carr al T i1 i2 arr
  | Replace_iter_ustring i1 i2 str => replace_iter_ustring al T i1 i2 str
  | Replace_iter_fill i1 i2 n c => replace_iter_fill al T i1 i2 n c
  | Replace_iter_range i1 i2 k1 k2 => replace_iter_range al T i1 i2 k1 k2
  | Resize n c => resize al T n c
  | Clear => clear T
  end.

(** Arguments as the types of the interface admit them: sizes and positions
    are [size_t] values, characters are [_CodeT] values, the members of a
    [ustring] argument are [size_t] values, and the difference of two
    iterators is a [ptrdiff_t], which also bounds the size of an array of
    bytes. *)
Definition is_size (n : Z) : Prop := 0 <= n < 2 ^ 64.
Definition is_code (T : code_type) (c : Z) : Prop := 0 <= c < 2 ^ code_bits T.
Definition is_text (str : list Z) : Prop := size str < 2 ^ 63.
Definition is_ustring (str : ustring) : Prop :=
  is_size (_M_len str) /\ is_size (_M_allocated_capacity str).
Definition is_range (first last : pointer) : Prop :=
  offset last - offset first < 2 ^ 63.

Definition well_typed (T : code_type) (m : mutation) : Prop :=
  match m with
  | Assign_fill n c => is_size n /\ is_code T c
  | Assign_str str => is_text str
  | Assign_cstr str => is_text str
  | Assign_string_pos str pos n => is_text str /\ is_size pos /\ is_size n
  | Assign_ustring str => is_ustring str
  | Assign_ustring_pos str pos n => is_ustring str /\ is_size pos /\ is_size n
  | Assign_arr arr n => is_size n
  | Assign_carr arr => True
  | Assign_range first last => is_range first last
  | Assign_move str => is_ustring str
  | Append_fill n c => is_size n /\ is_code T c
  | Append_str str => is_text str
  | Append_cstr str => is_text str
  | Append_string_pos str pos n => is_text str /\ is_size pos /\ is_size n
  | Append_ustring str => is_ustring str
  | Append_ustring_pos str pos n => is_ustring str /\ is_size pos /\ is_size n
  | Append_arr arr n => is_size n
  | Append_carr arr => True
  | Append_range first last => is_range first last
  | Push_back c => is_code T c
  | Pop_back => True
  | Insert_fill pos n c => is_size pos /\ is_size n /\ is_code T c
  | Insert_arr pos arr n => is_size pos /\ is_size n
  | Insert_carr pos arr => is_size pos
  | Insert_ustring pos str => is_size pos /\ is_ustring str
  | Insert_ustring_pos pos1 str pos2 n2 =>
      is_size pos1 /\ is_ustring str /\ is_size pos2 /\ is_size n2
  | Insert_iter_fill i n c => is_size n /\ is_code T c
  | Insert_iter_range i k1 k2 => is_range k1 k2
  | Erase pos n => is_size pos /\ is_size n
  | Erase_iter i => True
  | Erase_iter_range first last => True
  | Replace_arr pos n1 arr n2 => is_size pos /\ is_size n1 /\ is_size n2
  | Replace_carr pos n arr => is_size pos /\ is_size n
  | Replace_fill pos n1 n2 c =>
      is_size pos /\ is_size n1 /\ is_size n2 /\ is_code T c
  | Replace_ustring pos n str => is_size pos /\ is_size n /\ is_ustring str
  | Replace_ustring_pos pos1 n1 str pos2 n2 =>
      is_size pos1 /\ is_size n1 /\ is_ustring str /\
      is_size pos2 /\ is_size n2
  | Replace_iter_arr i1 i2 arr n => is_size n
  | Replace_iter_carr i1 i2 arr => True
  | Replace_iter_ustring i1 i2 str => is_ustring str
  | Replace_iter_fill i1 i2 n c => is_size n /\ is_code T c
  | Replace_iter_range i1 i2 k1 k2 => is_range k1 k2
  | Resize n c => is_size n /\ is_code T c
  | Clear => True
  end.

(** The buffer's view of its own storage: the slot [_M_ptr[i]]. *)
Definition slot_at (s : state) (i : Z) : option slot :=
  match _M_ptr (this s) with
  | None => None
  | Some a =>
      match live (mem s) a with
      | None => None
      | Some blk => if 0 <=? i then blk !! Z.to_nat i else None
      end
  end.

(** The invariant of the data model: [length <= capacity], and the slot at
    index [length] holds the sentinel [_CodeT(0)]. *)
Definition invariant (s : state) : Prop :=
  0 <= _M_len (this s) <= _M_allocated_capacity (this s) /\
  _M_allocated_capacity (this s) < 2 ^ 64 /\
  slot_at s (_M_len (this s)) = Some (Some 0).

(** The part of the invariant that is about the members alone, with the
    bound on the capacity that the address space sets: a buffer of
    [capacity + 1] code units of two bytes or more has fewer than [2 ^ 64]
    bytes.  A default-constructed [ustring] is within these bounds. *)
Definition bounded (s : state) : Prop :=
  0 <= _M_len (this s) <= _M_allocated_capacity (this s) /\
  _M_allocated_capacity (this s) < 2 ^ 63.

(** [untouched s s']: the three members and the slot at index [length] are
    in [s'] what they were in [s]. *)
Definition untouched (s s' : state) : Prop :=
  this s' = this s /\
  slot_at s' (_M_len (this s)) = slot_at s (_M_len (this s)).

(** The argument whose members a call makes the members of [*this]. *)
Definition taken_over (m : mutation) : option ustring :=
  match m with
  | Assign_move str => Some str
  | _ => None
  end.

(** An allocator that never fails and never moves a block, and the state of a
    default-constructed [ustring] on an empty heap. *)
Definition easy_allocator : allocator :=
  mk_allocator (fun _ _ => false) (fun _ _ _ => false).

Definition moving_allocator : allocator :=
  mk_allocator (fun _ _ => false) (fun _ _ _ => true).

Definition initial_state : state := mk_state default_ustring [].

(** A buffer that holds the code points [vs] in a block of exactly
    [length vs + 1] slots, the last one being the sentinel. *)
Definition holding (vs : list Z) : state :=
  mk_state (mk_ustring (size vs) (size vs) (Some 0%nat))
           [Some (map Some vs ++ [Some 0])].

(** The same buffer, with a second block that holds the array [arr] of the
    caller, and the pointer to that array. *)
Definition holding_beside (vs arr : list Z) : state :=
  mk_state (mk_ustring (size vs) (size vs) (Some 0%nat))
           [Some (map Some vs ++ [Some 0]); Some (map Some arr)].

Definition beside : pointer := mk_pointer (Some 1%nat) 0.

(** The position arguments of a call, each with the length of the string it
    is a position in: [*this] for the position of an [insert], [erase] or
    [replace], the argument [str] for the position of a part of [str]. *)
Definition positions (m : mutation) (len : Z) : list (Z * Z) :=
  match m with
  | Assign_string_pos str pos _ => [(pos, size str)]
  | Assign_ustring_pos str pos _ => [(pos, _M_len str)]
  | Append_string_pos str pos _ => [(pos, size str)]
  | Append_ustring_pos str pos _ => [(pos, _M_len str)]
  | Insert_fill pos _ _ => [(pos, len)]
  | Insert_arr pos _ _ => [(pos, len)]
  | Insert_carr pos _ => [(pos, len)]
  | Insert_ustring pos _ => [(pos, len)]
  | Insert_ustring_pos pos1 str pos2 _ => [(pos1, len); (pos2, _M_len str)]
  | Erase pos _ => [(pos, len)]
  | Replace_arr pos _ _ _ => [(pos, len)]
  | Replace_carr pos _ _ => [(pos, len)]
  | Replace_fill pos _ _ _ => [(pos, len)]
  | Replace_ustring pos _ _ => [(pos, len)]
  | Replace_ustring_pos pos1 _ str pos2 _ =>
      [(pos1, len); (pos2, _M_len str)]
  | _ => []
  end.

(** The value a computation that only reads returns in [s], if it does. *)
Definition value_of {A : Type} (m : M A) (s : state) : option A :=
  match m s with
  | Ok a _ => Some a
  | _ => None
  end.

(** The array with a terminator that a call measures before anything else,
    and what it takes for a call to get past that. *)
Definition measured (m : mutation) : option pointer :=
  match m with
  | Assign_carr arr => Some arr
  | Append_carr arr => Some arr
  | Insert_carr _ arr => Some arr
  | Replace_carr _ _ arr => Some arr
  | Replace_iter_carr _ _ arr => Some arr
  | _ => None
  end.

Definition readable (m : mutation) (s : state) : Prop :=
  match measured m with
  | Some arr => value_of (codelen arr) s <> None
  | None => True
  end.

(** The number of code units a buffer of length [len] is asked to have when
    [n2] of them take the place of [n1] at [pos]. *)
Definition replaced (len pos n1 n2 : Z) : Z :=
  len - Z.min n1 (len - pos) + n2.

(** The length a call computes for the buffer before it stores anything,
    from the length the buffer has in [s]: the length asked for, with one
    code unit for every byte of a byte string.  There is none when the call
    does not get as far: an array without terminator, iterators outside
    their asserted range. *)
Definition post_size (m : mutation) (s : state) : option Z :=
  let len := _M_len (this s) in
  let clip (str : ustring) (pos n : Z) := Z.min n (_M_len str - pos) in
  let cut (str : list Z) (pos n : Z) := Z.min n (size str - pos) in
  match m with
  | Assign_fill n _ => Some n
  | Assign_str str => Some (size str)
  | Assign_cstr str => strlen str
  | Assign_string_pos str pos n => Some (cut str pos n)
  | Assign_ustring str => Some (_M_len str)
  | Assign_ustring_pos str pos n => Some (clip str pos n)
  | Assign_arr _ n => Some n
  | Assign_carr arr => value_of (codelen arr) s
  | Assign_range first last => value_of (distance first last) s
  | Assign_move _ => None
  | Append_fill n _ => Some (len + n)
  | Append_str str => Some (len + size str)
  | Append_cstr str => n ← strlen str; Some (len + n)
  | Append_string_pos str pos n => Some (len + cut str pos n)
  | Append_ustring str => Some (len + _M_len str)
  | Append_ustring_pos str pos n => Some (len + clip str pos n)
  | Append_arr _ n => Some (len + n)
  | Append_carr arr => n ← value_of (codelen arr) s; Some (len + n)
  | Append_range first last =>
      n ← value_of (distance first last) s; Some (len + n)
  | Push_back _ => Some (len + 1)
  | Pop_back => None
  | Insert_fill _ n _ => Some (len + n)
  | Insert_arr _ _ n => Some (len + n)
  | Insert_carr _ arr => n ← value_of (codelen arr) s; Some (len + n)
  | Insert_ustring _ str => Some (len + _M_len str)
  | Insert_ustring_pos _ str pos2 n2 => Some (len + clip str pos2 n2)
  | Insert_iter_fill i n _ =>
      _ ← value_of (asserted_position i) s; Some (len + n)
  | Insert_iter_range i k1 k2 =>
      _ ← value_of (asserted_position i) s;
      n ← value_of (distance k1 k2) s;
      Some (len + n)
  | Erase _ _ => None
  | Erase_iter _ => None
  | Erase_iter_range _ _ => None
  | Replace_arr pos n1 _ n2 => Some (replaced len pos n1 n2)
  | Replace_carr pos n arr =>
      n2 ← value_of (codelen arr) s; Some (replaced len pos n n2)
  | Replace_fill pos n1 n2 _ => Some (replaced len pos n1 n2)
  | Replace_ustring pos n str => Some (replaced len pos n (_M_len str))
  | Replace_ustring_pos pos1 n1 str pos2 n2 =>
      Some (replaced len pos1 n1 (clip str pos2 n2))
  | Replace_iter_arr i1 i2 _ n =>
      '(pos, n1) ← value_of (asserted_range i1 i2) s;
      Some (replaced len pos n1 n)
  | Replace_iter_carr i1 i2 arr =>
      n ← value_of (codelen arr) s;
      '(pos, n1) ← value_of (asserted_range i1 i2) s;
      Some (replaced len pos n1 n)
  | Replace_iter_ustring i1 i2 str =>
      '(pos, n1) ← value_of (asserted_range i1 i2) s;
      Some (replaced len pos n1 (_M_len str))
  | Replace_iter_fill i1 i2 n _ =>
      '(pos, n1) ← value_of (asserted_range i1 i2) s;
      Some (replaced len pos n1 n)
  | Replace_iter_range i1 i2 k1 k2 =>
      '(pos, n1) ← value_of (asserted_range i1 i2) s;
      n ← value_of (distance k1 k2) s;
      Some (replaced len pos n1 n)
  | Resize n _ => Some n
  | Clear => None
  end.

(** *** The other members that take a position

    The observers [at], [copy], [compare] and [substr], and the two
    constructors from a part of a string, which run on the object they
    build. *)
Inductive operation : Type -> Type :=
| At (pos : Z) : operation Z
| Copy (arr : pointer) (n pos : Z) : operation Z
| Compare_pos_arr (bo : byte_order) (pos1 n1 : Z) (arr : list Z) (n2 : Z)
    : operation Z
| Compare_pos_ustring (bo : byte_order) (pos n : Z) (str : ustring)
    : operation Z
| Compare_pos_ustring_pos (bo : byte_order) (pos1 n1 : Z) (str : ustring)
    (pos2 n2 : Z) : operation Z
| Compare_ustring_pos (bo : byte_order) (str : ustring) (pos n : Z)
    : operation Z
| Compare_string_pos (str : list Z) (pos n : Z) : operation (outcome Z)
| Substr (pos n : Z) : operation ustring
| Construct_ustring_pos (str : ustring) (pos n : Z) : operation unit
| Construct_string_pos (str : list Z) (pos n : Z) : operation unit.

Definition perform (al : allocator) (T : code_type) {A : Type}
    (op : operation A) : M A :=
  match op with
  | At pos => at_ pos
  | Copy arr n pos => copy T arr n pos
  | Compare_pos_arr bo pos1 n1 arr n2 => compare_pos_arr bo T pos1 n1 arr n2
  | Compare_pos_ustring bo pos n str => compare_pos_ustring bo T pos n str
  | Compare_pos_ustring_pos bo pos1 n1 str pos2 n2 =>
      compare_pos_ustring_pos bo T pos1 n1 str pos2 n2
  | Compare_ustring_pos bo str pos n => compare_ustring_pos bo T str pos n
  | Compare_string_pos str pos n => compare_string_pos T str pos n
  | Substr pos n => ustring_substr al T pos n
  | Construct_ustring_pos str pos n => construct_ustring_pos al T str pos n
  | Construct_string_pos str pos n => construct_string_pos al T str pos n
  end.

Definition operation_positions {A : Type} (op : operation A) (len : Z)
    : list (Z * Z) :=
  match op with
  | At pos => [(pos, len)]
  | Copy _ _ pos => [(pos, len)]
  | Compare_pos_arr _ pos1 _ _ _ => [(pos1, len)]
  | Compare_pos_ustring _ pos _ _ => [(pos, len)]
  | Compare_pos_ustring_pos _ pos1 _ str pos2 _ =>
      [(pos1, len); (pos2, _M_len str)]
  | Compare_ustring_pos _ str pos _ => [(pos, _M_len str)]
  | Compare_string_pos str pos _ => [(pos, size str)]
  | Substr pos _ => [(pos, len)]
  | Construct_ustring_pos str pos _ => [(pos, _M_len str)]
  | Construct_string_pos str pos _ => [(pos, size str)]
  end.

(** ** Reasoning about member functions

    [wp m s Q E]: started in [s], the computation [m] ends in a state and with
    a value that satisfy [Q] when it returns, and [E] when it throws. *)
Definition wp {A : Type} (m : M A) (s : state)
    (Q : A -> state -> Prop) (E : exn -> state -> Prop) : Prop :=
  match m s with
  | Ok a s' => Q a s'
  | Throw e s' => E e s'
  | UB => True
  end.

(** [frame lo hi s s']: from [s] to [s'] the buffer pointer is the same, the
    slots of the buffer outside [lo, hi) are untouched, and the buffer has the
    same extent. *)
Definition frame (lo hi : Z) (s s' : state) : Prop :=
  _M_ptr (this s') = _M_ptr (this s) /\
  (forall i, i < lo \/ hi <= i -> slot_at s' i = slot_at s i) /\
  (forall i, slot_at s' i = None <-> slot_at s i = None).

(** A computation that returns, or runs into undefined behaviour, without
    touching the members, and writes only slots of [lo, hi). *)
Definition writes (m : M unit) (s : state) (lo hi : Z) : Prop :=
  wp m s (fun _ s' => this s' = this s /\ frame lo hi s s') (fun _ _ => False).

Definition set_len (u : ustring) (n : Z) : ustring :=
  mk_ustring (_M_allocated_capacity u) n (_M_ptr u).

(** After [_M_realloc(n)] the buffer has the slots the request paid for and
    keeps the old content as far as it fits. *)
Definition reallocated (T : code_type) (n : Z) (s s' : state) : Prop :=
  exists tmp,
    this s' = mk_ustring (_M_allocated_capacity (this s)) (_M_len (this s)) tmp /\
    (forall i, slots_of T (bytes_of T (size_t (n + 1))) <= i ->
               slot_at s' i = None) /\
    (tmp <> None ->
     forall i v, i < slots_of T (bytes_of T (size_t (n + 1))) ->
                 slot_at s i = Some v -> slot_at s' i = Some v).

(** What a throwing member may leave behind: only a failed allocation may
    come with a changed state. *)
Definition safe (s : state) : exn -> state -> Prop :=
  fun e s' => e = bad_alloc \/ s' = s.

(** Helpers that only write slots: the members of [this] stay, and so does
    the extent of the buffer. *)
Definition keeps_fields (m : M unit) : Prop :=
  forall s Q E,
    (forall s',
       this s' = this s ->
       (forall i, slot_at s' i = None <-> slot_at s i = None) ->
       Q tt s') ->
    wp m s Q E.

(** [reads m]: [m] ends in the state in which it started.  [quiet m]: the
    only exception [m] throws is [bad_alloc].  [checks_first m]: when [m]
    throws another exception, the state is the one in which it started. *)
Definition reads {A : Type} (m : M A) : Prop :=
  forall s,
    match m s with
    | Ok _ s' => s' = s
    | Throw _ s' => s' = s
    | UB => True
    end.

Definition quiet {A : Type} (m : M A) : Prop :=
  forall s,
    match m s with
    | Throw e _ => e = bad_alloc
    | _ => True
    end.

Definition checks_first {A : Type} (m : M A) : Prop :=
  forall s,
    match m s with
    | Throw e s' => e = bad_alloc \/ s' = s
    | _ => True
    end.

(** [twp m s Q E]: as [wp], and the computation does not run into undefined
    behaviour. *)
Definition twp {A : Type} (m : M A) (s : state)
    (Q : A -> state -> Prop) (E : exn -> state -> Prop) : Prop :=
  match m s with
  | Ok a s' => Q a s'
  | Throw e s' => E e s'
  | UB => False
  end.

(** [owns s a blk]: the buffer pointer of [s] is [a], the address of the
    live block [blk]. *)
Definition owns (s : state) (a : nat) (blk : block) : Prop :=
  _M_ptr (this s) = Some a /\ live (mem s) a = Some blk.

(** [stores s vs rest]: the block of the buffer has [capacity + 1] slots, the
    first [length] of them hold [vs] and the others are [rest]. *)
Definition stores (s : state) (vs : list Z) (rest : list slot) : Prop :=
  _M_len (this s) = size vs /\
  size vs + Z.of_nat (length rest) = _M_allocated_capacity (this s) + 1 /\
  exists a : nat, owns s a (map Some vs ++ rest).

(** [represents s vs]: the buffer of [s] holds the code units [vs], followed
    by the sentinel, or it is the null buffer of a default-constructed
    [ustring] and [vs] is empty. *)
Definition represents (s : state) (vs : list Z) : Prop :=
  (exists rest : list slot, stores s vs (Some 0 :: rest)) \/
  (this s = default_ustring /\ vs = []).

(** [array_holds s arr ws]: the array of the caller at [arr] holds the code
    units [ws], in a live block that is not the block of the buffer. *)
Definition array_holds (s : state) (arr : pointer) (ws : list Z) : Prop :=
  exists (b : nat) (src : list slot),
    base arr = Some b /\
    _M_ptr (this s) <> Some b /\
    live (mem s) b = Some src /\
    0 <= offset arr /\
    take (length ws) (drop (Z.to_nat (offset arr)) src) = map Some ws.

(** * Properties *)

(** ** The scenarios of the specification *)

Example scenario_A_encode :
  utf8_encode 0x4E2D [0; 0; 0] (get_codepoint_bytes_cp 0x4E2D) = Some [0xE4; 0xB8; 0xAD].
Proof. reflexivity. Qed.

Example scenario_A_decode :
  utf8_decode Char32 [0xE4; 0xB8; 0xAD] 3 = Some 0x4E2D.
Proof. reflexivity. Qed.

Example clz_ff : get_codepoint_bytes_clz true 0xFF 8 = 8 /\ get_codepoint_bytes 0xFF 8 = 1.
Proof. split; reflexivity. Qed.

Example gcb_short : get_codepoint_bytes 0xE4 2 = 1 /\ get_codepoint_bytes_clz true 0xE4 2 = 1.
Proof. split; reflexivity. Qed.

Example scenario_B :
  get_characters_number a_zhong_b = Returns 3 /\
  byte2index a_zhong_b 1 = Returns 1 /\
  byte2index a_zhong_b 2 = Returns npos /\
  index2byte a_zhong_b 2 = Returns 4.
Proof. repeat split; reflexivity. Qed.

Example scenario_D :
  substr a_zhong_b 1 5 = Returns [0xE4; 0xB8; 0xAD; 0x62].
Proof. reflexivity. Qed.

Example out_of_range_lookups :
  decode_at Char32 a_zhong_b 3 = Returns 0 /\
  string_at a_zhong_b 7 = Returns [] /\
  substr a_zhong_b 3 2 = Returns [].
Proof. repeat split; reflexivity. Qed.

(** ** Finite checks *)

Lemma forall_below (P : Z -> bool) (n : nat) :
  forallb P (map Z.of_nat (seq 0 n)) = true ->
  forall b, 0 <= b < Z.of_nat n -> P b = true.
Proof.
  intros Hall b Hb.
  rewrite forallb_forall in Hall. apply Hall.
  rewrite in_map_iff. exists (Z.to_nat b). split; [lia|].
  apply in_seq. lia.
Qed.

Lemma clz_operand_width (cs : bool) (b : Z) :
  0 <= b < 256 -> 0 <= clz (clz_operand cs b) <= 8.
Proof.
  intros Hb.
  assert (H : ((0 <=? clz (clz_operand cs b)) && (clz (clz_operand cs b) <=? 8)) = true).
  { apply (forall_below (fun b => (0 <=? clz (clz_operand cs b)) && (clz (clz_operand cs b) <=? 8)) 256); [|lia].
    destruct cs; vm_compute; reflexivity. }
  lia.
Qed.

Lemma get_codepoint_bytes_long (b len : Z) :
  7 <= len -> get_codepoint_bytes b len = get_codepoint_bytes b 7.
Proof.
  intros Hlen. unfold get_codepoint_bytes.
  replace (len =? 6) with false by lia.
  replace (len =? 5) with false by lia.
  replace (len =? 4) with false by lia.
  replace (len =? 3) with false by lia.
  replace (len =? 2) with false by lia.
  replace (len =? 1) with false by lia.
  replace (len =? 0) with false by lia.
  reflexivity.
Qed.

Lemma get_codepoint_bytes_clz_long (cs : bool) (b len : Z) :
  0 <= b < 256 -> 8 <= len < 2 ^ 64 ->
  get_codepoint_bytes_clz cs b len = get_codepoint_bytes_clz cs b 8.
Proof.
  intros Hb Hlen. unfold get_codepoint_bytes_clz.
  destruct (b =? 0); [reflexivity|].
  pose proof (clz_operand_width cs b Hb) as Hw.
  set (w := clz (clz_operand cs b)) in *.
  unfold size_t.
  destruct (Z.eq_dec w 0) as [->|Hne].
  - change ((0 - 1) mod 2 ^ 64) with (2 ^ 64 - 1).
    replace (2 ^ 64 - 1 <? len) with false by lia.
    reflexivity.
  - rewrite Z.mod_small by lia.
    replace (w - 1 <? len) with true by lia.
    replace (w - 1 <? 8) with true by lia.
    reflexivity.
Qed.

Lemma small_length (len : Z) :
  0 <= len < 8 ->
  len = 0 \/ len = 1 \/ len = 2 \/ len = 3 \/
  len = 4 \/ len = 5 \/ len = 6 \/ len = 7.
Proof. lia. Qed.

Lemma variants_agree_short (cs : bool) (b len : Z) :
  0 <= b < 256 -> 0 <= len < 8 ->
  get_codepoint_bytes_clz cs b len = get_codepoint_bytes b len.
Proof.
  intros Hb Hlen.
  apply Z.eqb_eq.
  revert b Hb.
  apply (forall_below
           (fun b => get_codepoint_bytes_clz cs b len =? get_codepoint_bytes b len)
           256).
  destruct (small_length len Hlen) as [->|[->|[->|[->|[->|[->|[->| ->]]]]]]];
    destruct cs; vm_compute; reflexivity.
Qed.

Lemma variants_agree_at_8 (cs : bool) (b : Z) :
  0 <= b < 255 ->
  get_codepoint_bytes_clz cs b 8 = get_codepoint_bytes b 8.
Proof.
  intros Hb. apply Z.eqb_eq. revert b Hb.
  apply (forall_below
           (fun b => get_codepoint_bytes_clz cs b 8 =? get_codepoint_bytes b 8)
           255).
  destruct cs; vm_compute; reflexivity.
Qed.

(** Everywhere else the two variants return the same width. *)
Lemma variants_agree (cs : bool) (b len : Z) :
  0 <= b < 256 -> 0 <= len < 2 ^ 64 -> ~ (b = 255 /\ 8 <= len) ->
  get_codepoint_bytes_clz cs b len = get_codepoint_bytes b len.
Proof.
  intros Hb Hlen Hex.
  destruct (Z_lt_le_dec len 8) as [Hs|Hl].
  - apply variants_agree_short; lia.
  - rewrite get_codepoint_bytes_clz_long by lia.
    rewrite (get_codepoint_bytes_long b len) by lia.
    rewrite <- (get_codepoint_bytes_long b 8) by lia.
    apply variants_agree_at_8. lia.
Qed.

(** C4 at the lead byte [0xFF] with eight bytes left: the variant built on
    leading-zero counting returns 8, the branch cascade returns 1. *)
Theorem get_codepoint_bytes_variants_disagree (cs : bool) :
  get_codepoint_bytes_clz cs 0xFF 8 = 8 /\ get_codepoint_bytes 0xFF 8 = 1.
Proof. destruct cs; split; reflexivity. Qed.

Lemma signalled_widths (b w : Z) :
  signals_width b w = true ->
  w = 2 \/ w = 3 \/ w = 4 \/ w = 5 \/ w = 6 \/ w = 7.
Proof.
  unfold signals_width, lead_pattern.
  destruct w as [|p|p]; try discriminate.
  destruct p as [[[p|p|]|[p|p|]|]|[[p|p|]|[p|p|]|]|];
    try discriminate; intros _; lia.
Qed.

Lemma short_buffer_cascade (b w len : Z) :
  0 <= b < 256 -> signals_width b w = true -> 0 <= len < 8 ->
  get_codepoint_bytes b len = if len <? w then 1 else w.
Proof.
  intros Hb Hs Hlen.
  enough (H : implb (signals_width b w) (get_codepoint_bytes b len =? if len <? w then 1 else w) = true).
  { rewrite Hs in H. simpl in H. lia. }
  clear Hs. revert b Hb.
  apply (forall_below
           (fun b => implb (signals_width b w) (get_codepoint_bytes b len =? if len <? w then 1 else w))
           256).
  destruct (Z.eq_dec w 2) as [->|];
  [|destruct (Z.eq_dec w 3) as [->|];
  [|destruct (Z.eq_dec w 4) as [->|];
  [|destruct (Z.eq_dec w 5) as [->|];
  [|destruct (Z.eq_dec w 6) as [->|];
  [|destruct (Z.eq_dec w 7) as [->|]]]]]].
  1-6: destruct (small_length len Hlen) as [->|[->|[->|[->|[->|[->|[->| ->]]]]]]];
    vm_compute; reflexivity.
  apply forallb_forall. intros x _.
  destruct (signals_width x w) eqn:E; [|reflexivity].
  apply signalled_widths in E. lia.
Qed.

Lemma width_cases (cp : Z) :
  0 <= cp <= 0x7FFFFFFF ->
  (get_codepoint_bytes_cp cp = 1 /\ cp < 2 ^ 7) \/
  (get_codepoint_bytes_cp cp = 2 /\ 2 ^ 7 <= cp < 2 ^ 11) \/
  (get_codepoint_bytes_cp cp = 3 /\ 2 ^ 11 <= cp < 2 ^ 16) \/
  (get_codepoint_bytes_cp cp = 4 /\ 2 ^ 16 <= cp < 2 ^ 21) \/
  (get_codepoint_bytes_cp cp = 5 /\ 2 ^ 21 <= cp < 2 ^ 26) \/
  (get_codepoint_bytes_cp cp = 6 /\ 2 ^ 26 <= cp < 2 ^ 31).
Proof.
  intros H. unfold get_codepoint_bytes_cp.
  repeat match goal with
         | |- context [?a <=? ?b] => destruct (Z.leb_spec a b)
         end; lia.
Qed.

Lemma poke_inside (dest : list Z) (i v : Z) :
  0 <= i < size dest ->
  poke dest i v = Some (<[Z.to_nat i := to_uchar v]> dest).
Proof.
  intros H. unfold poke, size in *.
  replace (0 <=? i) with true by lia.
  replace (i <? Z.of_nat (length dest)) with true by lia.
  reflexivity.
Qed.

Arguments poke : simpl never.

Lemma continuation_payload (cp k : Z) :
  Z.land (to_uchar (to_uchar (continuation_unit cp k))) 0x3F
  = Z.shiftr cp k mod 64.
Proof.
  unfold continuation_unit.
  change 0x3F with (Z.ones 6). rewrite (Z.land_ones (Z.shiftr cp k)) by lia.
  change (2 ^ 6) with 64.
  pose proof (Z.mod_pos_bound (Z.shiftr cp k) 64 ltac:(lia)) as Hr.
  set (r := Z.shiftr cp k mod 64) in *.
  apply Z.eqb_eq. revert r Hr.
  apply (forall_below
           (fun r => Z.land (to_uchar (to_uchar (Z.lor 128 r))) (Z.ones 6) =? r)
           64).
  vm_compute. reflexivity.
Qed.

Lemma lead_payload (T : code_type) (w top : Z) :
  2 <= w <= 6 -> 0 <= top < 2 ^ (7 - w) ->
  to_code T
    (Z.land (to_code T (to_uchar (to_uchar (Z.lor (Z.shiftr 0xFF00 w) top))))
       (Z.shiftr 0x7F w)) = top.
Proof.
  intros Hw Htop.
  assert (Hrange : 0 <= top < Z.of_nat 32).
  { assert (2 ^ (7 - w) <= 2 ^ 5) by (apply Z.pow_le_mono_r; lia). lia. }
  assert (H : implb (top <? 2 ^ (7 - w))
                (to_code T
                   (Z.land
                      (to_code T
                         (to_uchar (to_uchar (Z.lor (Z.shiftr 0xFF00 w) top))))
                      (Z.shiftr 0x7F w)) =? top) = true).
  { revert top Hrange Htop. intros top Hrange _. revert top Hrange.
    apply (forall_below
             (fun top =>
                implb (top <? 2 ^ (7 - w))
                  (to_code T
                     (Z.land
                        (to_code T
                           (to_uchar
                              (to_uchar (Z.lor (Z.shiftr 0xFF00 w) top))))
                        (Z.shiftr 0x7F w)) =? top)) 32).
    assert (Hc : w = 2 \/ w = 3 \/ w = 4 \/ w = 5 \/ w = 6) by lia.
    destruct Hc as [->|[->|[->|[->| ->]]]]; destruct T;
      vm_compute; reflexivity. }
  replace (top <? 2 ^ (7 - w)) with true in H by lia.
  simpl in H. lia.
Qed.

Lemma lor_shiftl_6 (a r : Z) :
  0 <= r < 64 -> Z.lor (Z.shiftl a 6) r = a * 64 + r.
Proof.
  intros Hr.
  assert (Hland : Z.land (Z.shiftl a 6) r = 0).
  { apply Z.bits_inj'. intros n Hn.
    rewrite Z.land_spec, Z.bits_0.
    destruct (Z_lt_le_dec n 6) as [Hlt|Hge].
    - rewrite Z.shiftl_spec_low by lia. reflexivity.
    - replace r with (r mod 2 ^ 6) by (apply Z.mod_small; simpl; lia).
      rewrite Z.testbit_mod_pow2 by lia.
      replace (n <? 6) with false by lia.
      simpl. apply andb_false_r. }
  rewrite <- Z.lxor_lor by exact Hland.
  rewrite <- Z.add_nocarry_lxor by exact Hland.
  rewrite Z.shiftl_mul_pow2 by lia. reflexivity.
Qed.

Lemma fold_unit (T : code_type) (a r : Z) :
  0 <= a -> 0 <= r < 64 -> a * 64 + r < 2 ^ code_bits T ->
  to_code T (Z.lor (Z.shiftl a 6) r) = a * 64 + r.
Proof.
  intros Ha Hr Hb. rewrite lor_shiftl_6 by exact Hr.
  unfold to_code. apply Z.mod_small. lia.
Qed.

Ltac poke_step :=
  rewrite poke_inside
    by (unfold size; rewrite ?length_insert; cbn [length]; clear; lia);
  simpl.

Ltac constant_powers :=
  repeat match goal with
         | |- context [2 ^ ?e] =>
             lazymatch e with
             | code_bits _ => fail
             | _ => let v := eval vm_compute in (2 ^ e) in
                    progress change (2 ^ e) with v
             end
         | H : context [2 ^ ?e] |- _ =>
             lazymatch e with
             | code_bits _ => fail
             | _ => let v := eval vm_compute in (2 ^ e) in
                    progress change (2 ^ e) with v in H
             end
         end.

Ltac chunks :=
  constant_powers;
  try match goal with
      | T : code_type |- _ => generalize dependent (2 ^ code_bits T); intros
      end;
  Z.div_mod_to_equations; lia.

Ltac fold_units :=
  first [ rewrite fold_unit; [fold_units | fold_units ..] | idtac ].

Ltac decode_steps w :=
  unfold utf8_decode; simpl;
  rewrite !continuation_payload;
  match goal with
  | T : code_type |- _ =>
      rewrite (lead_payload T w);
      [|lia|rewrite Z.shiftr_div_pow2 by lia; chunks]
  end;
  rewrite !Z.shiftr_div_pow2 by lia;
  fold_units; try f_equal; chunks.

(** Both variants of [get_codepoint_bytes(char, size_t)] look at the bytes
    that remain before they answer the width the lead byte announces. *)
Lemma width_guarded_by_length (cs : bool) (b w len : Z) :
  0 <= b < 256 -> signals_width b w = true -> 0 <= len < 2 ^ 64 ->
  get_codepoint_bytes b len = (if len <? w then 1 else w) /\
  get_codepoint_bytes_clz cs b len = (if len <? w then 1 else w).
Proof.
  intros Hb Hs Hlen.
  assert (Hcascade : get_codepoint_bytes b len = if len <? w then 1 else w).
  { destruct (Z_lt_le_dec len 8) as [Hshort|Hlong].
    - apply short_buffer_cascade; [exact Hb|exact Hs|lia].
    - rewrite get_codepoint_bytes_long by lia.
      rewrite (short_buffer_cascade b w 7 Hb Hs) by lia.
      pose proof (signalled_widths b w Hs) as Hw.
      replace (7 <? w) with false by lia.
      replace (len <? w) with false by lia.
      reflexivity. }
  split; [exact Hcascade|].
  rewrite <- Hcascade. apply variants_agree; [exact Hb|exact Hlen|].
  intros [-> _].
  apply signalled_widths in Hs as Hw.
  destruct Hw as [->|[->|[->|[->|[->| ->]]]]]; vm_compute in Hs; discriminate.
Qed.

(** C5, as the code behaves: a lead byte that announces width [w] yields [w]
    only when at least [w] bytes remain; with fewer bytes left, none
    included, both variants of [get_codepoint_bytes(char, size_t)] answer
    1. *)
Theorem get_codepoint_bytes_short_buffer (cs : bool) (b w len : Z) :
  0 <= b < 256 -> signals_width b w = true -> 0 <= len < 2 ^ 64 ->
  get_codepoint_bytes b len = (if len <? w then 1 else w) /\
  get_codepoint_bytes_clz cs b len = (if len <? w then 1 else w).
Proof. exact (width_guarded_by_length cs b w len). Qed.

Lemma get_codepoint_bytes_short_buffer_witness :
  get_codepoint_bytes 0xE4 2 = (if 2 <? 3 then 1 else 3) /\
  get_codepoint_bytes_clz true 0xE4 2 = (if 2 <? 3 then 1 else 3).
Proof.
  apply (get_codepoint_bytes_short_buffer true 0xE4 3 2);
    [lia | reflexivity | lia].
Defined.

(** C5 as stated fails: the lead byte [0xE4] announces three bytes, and with
    two bytes left both variants return 1, not 3. *)
Lemma get_codepoint_bytes_clamps :
  signals_width 0xE4 3 = true /\ 2 < 3 /\
  get_codepoint_bytes 0xE4 2 <> 3 /\
  get_codepoint_bytes_clz true 0xE4 2 <> 3 /\
  get_codepoint_bytes_clz false 0xE4 2 <> 3.
Proof. repeat split; vm_compute; congruence. Qed.

Lemma utf8_round_trip_1 (T : code_type) (cp : Z) (dest : list Z) :
  0 <= cp < 2 ^ 7 -> 1 <= size dest ->
  exists out,
    utf8_encode cp dest 1 = Some out /\ utf8_decode T out 1 = Some cp.
Proof.
  intros Hcp Hd.
  destruct dest as [|d0 rest]; [unfold size in Hd; simpl in Hd; lia|].
  eexists. split.
  - unfold utf8_encode; simpl. poke_step. reflexivity.
  - unfold utf8_decode; simpl. f_equal.
    unfold to_code, to_uchar.
    rewrite (Z.mod_small cp 256) by lia.
    rewrite (Z.mod_small cp 256) by lia.
    apply Z.mod_small. destruct T; simpl; lia.
Qed.

Lemma utf8_round_trip_2 (T : code_type) (cp : Z) (dest : list Z) :
  2 ^ 7 <= cp < 2 ^ 11 -> cp < 2 ^ code_bits T -> 2 <= size dest ->
  exists out,
    utf8_encode cp dest 2 = Some out /\ utf8_decode T out 2 = Some cp.
Proof.
  intros Hcp Hb Hd.
  destruct dest as [|d0 [|d1 rest]];
    try (unfold size in Hd; simpl in Hd; lia).
  eexists. split.
  - unfold utf8_encode; simpl. unfold utf8_encode_case2.
    do 2 poke_step. reflexivity.
  - decode_steps 2.
Qed.

Lemma utf8_round_trip_3 (T : code_type) (cp : Z) (dest : list Z) :
  2 ^ 11 <= cp < 2 ^ 16 -> cp < 2 ^ code_bits T -> 3 <= size dest ->
  exists out,
    utf8_encode cp dest 3 = Some out /\ utf8_decode T out 3 = Some cp.
Proof.
  intros Hcp Hb Hd.
  destruct dest as [|d0 [|d1 [|d2 rest]]];
    try (unfold size in Hd; simpl in Hd; lia).
  eexists. split.
  - unfold utf8_encode; simpl.
    unfold utf8_encode_case3, utf8_encode_case2.
    do 3 poke_step. reflexivity.
  - decode_steps 3.
Qed.

Lemma utf8_round_trip_4 (T : code_type) (cp : Z) (dest : list Z) :
  2 ^ 16 <= cp < 2 ^ 21 -> cp < 2 ^ code_bits T -> 4 <= size dest ->
  exists out,
    utf8_encode cp dest 4 = Some out /\ utf8_decode T out 4 = Some cp.
Proof.
  intros Hcp Hb Hd.
  destruct dest as [|d0 [|d1 [|d2 [|d3 rest]]]];
    try (unfold size in Hd; simpl in Hd; lia).
  eexists. split.
  - unfold utf8_encode; simpl.
    unfold utf8_encode_case4, utf8_encode_case3, utf8_encode_case2.
    do 4 poke_step. reflexivity.
  - decode_steps 4.
Qed.

Lemma utf8_round_trip_5 (T : code_type) (cp : Z) (dest : list Z) :
  2 ^ 21 <= cp < 2 ^ 26 -> cp < 2 ^ code_bits T -> 5 <= size dest ->
  exists out,
    utf8_encode cp dest 5 = Some out /\ utf8_decode T out 5 = Some cp.
Proof.
  intros Hcp Hb Hd.
  destruct dest as [|d0 [|d1 [|d2 [|d3 [|d4 rest]]]]];
    try (unfold size in Hd; simpl in Hd; lia).
  eexists. split.
  - unfold utf8_encode; simpl.
    unfold utf8_encode_case5, utf8_encode_case4, utf8_encode_case3,
      utf8_encode_case2.
    do 5 poke_step. reflexivity.
  - decode_steps 5.
Qed.

Lemma utf8_round_trip_6 (T : code_type) (cp : Z) (dest : list Z) :
  2 ^ 26 <= cp < 2 ^ 31 -> cp < 2 ^ code_bits T -> 6 <= size dest ->
  exists out,
    utf8_encode cp dest 6 = Some out /\ utf8_decode T out 6 = Some cp.
Proof.
  intros Hcp Hb Hd.
  destruct dest as [|d0 [|d1 [|d2 [|d3 [|d4 [|d5 rest]]]]]];
    try (unfold size in Hd; simpl in Hd; lia).
  eexists. split.
  - unfold utf8_encode; simpl.
    unfold utf8_encode_case6, utf8_encode_case5, utf8_encode_case4,
      utf8_encode_case3, utf8_encode_case2.
    do 6 poke_step. reflexivity.
  - decode_steps 6.
Qed.

(** C1: encoding a code point of [0, 0x7FFFFFFF] that [_CodeT] can hold, at
    the width [get_codepoint_bytes(cp)] gives it, into a buffer with room for
    that many bytes, and decoding the bytes written at the same width, returns
    the code point. *)
Theorem utf8_round_trip (T : code_type) (cp : Z) (dest : list Z) :
  0 <= cp <= 0x7FFFFFFF -> cp < 2 ^ code_bits T ->
  get_codepoint_bytes_cp cp <= size dest ->
  exists out,
    utf8_encode cp dest (get_codepoint_bytes_cp cp) = Some out /\
    utf8_decode T out (get_codepoint_bytes_cp cp) = Some cp.
Proof.
  intros Hcp Hb Hd.
  destruct (width_cases cp Hcp)
    as [[Hw Hr]|[[Hw Hr]|[[Hw Hr]|[[Hw Hr]|[[Hw Hr]|[Hw Hr]]]]]];
    rewrite Hw in *.
  - apply utf8_round_trip_1; [lia|exact Hd].
  - apply utf8_round_trip_2; assumption.
  - apply utf8_round_trip_3; assumption.
  - apply utf8_round_trip_4; assumption.
  - apply utf8_round_trip_5; assumption.
  - apply utf8_round_trip_6; assumption.
Qed.

Lemma utf8_round_trip_witness :
  exists out,
    utf8_encode 0x4E2D [0; 0; 0; 0; 0; 0; 0; 0]
      (get_codepoint_bytes_cp 0x4E2D) = Some out /\
    utf8_decode Char32 out (get_codepoint_bytes_cp 0x4E2D) = Some 0x4E2D.
Proof.
  apply (utf8_round_trip Char32 0x4E2D [0; 0; 0; 0; 0; 0; 0; 0]);
    [lia | simpl; lia | vm_compute; discriminate].
Defined.

(** ** Position mapping *)

Lemma count_continuation_range (rest : list Z) (n : Z) :
  0 <= n < 256 -> 0 <= count_continuation rest n < 256.
Proof.
  revert n. induction rest as [|b rest IH]; intros n Hn; simpl; [exact Hn|].
  destruct (Z.land b 192 =? 128); [|exact Hn].
  apply IH. unfold to_width. apply Z.mod_pos_bound. lia.
Qed.

Lemma width_range (str : list Z) :
  0 <= get_num_bytes_of_utf8_char str < 256.
Proof. apply count_continuation_range. lia. Qed.

Lemma char_offset_step (str : list Z) (k : nat) (o' : Z) :
  char_offset str (S k) = Some o' ->
  exists o,
    char_offset str k = Some o /\
    0 < get_num_bytes_of_utf8_char (advance str o) /\
    o' = o + get_num_bytes_of_utf8_char (advance str o) /\
    o' < size str.
Proof.
  simpl. destruct (char_offset str k) as [o|]; [|discriminate].
  simpl.
  destruct (0 <? get_num_bytes_of_utf8_char (advance str o)) eqn:Hw;
    [|discriminate].
  destruct (o + get_num_bytes_of_utf8_char (advance str o) <? size str) eqn:Hs;
    [|discriminate].
  simpl. intros [= <-]. exists o. repeat split; lia.
Qed.

Lemma char_offset_bounds (str : list Z) (k : nat) (o : Z) :
  char_offset str k = Some o -> Z.of_nat k <= o < size str.
Proof.
  revert o. induction k as [|k IH]; intros o H.
  - simpl in H. destruct (0 <? size str) eqn:E; [|discriminate].
    injection H as <-. lia.
  - apply char_offset_step in H as (o0 & H0 & Hw & -> & Hs).
    specialize (IH o0 H0). lia.
Qed.

Lemma char_offset_prefix (str : list Z) (j m : nat) (o : Z) :
  char_offset str (j + m) = Some o -> exists oj, char_offset str j = Some oj.
Proof.
  revert o. induction m as [|m IH]; intros o H.
  - rewrite Nat.add_0_r in H. eauto.
  - rewrite Nat.add_succ_r in H.
    apply char_offset_step in H as (o0 & H0 & _). eauto.
Qed.

Lemma char_offset_increasing (str : list Z) (j m : nat) (oj o : Z) :
  char_offset str j = Some oj -> char_offset str (j + S m) = Some o -> oj < o.
Proof.
  revert o. induction m as [|m IH]; intros o Hj H.
  - rewrite Nat.add_1_r in H.
    apply char_offset_step in H as (o0 & H0 & Hw & -> & _).
    rewrite Hj in H0. injection H0 as <-. lia.
  - rewrite Nat.add_succ_r in H.
    apply char_offset_step in H as (o0 & H0 & Hw & -> & _).
    specialize (IH o0 Hj H0). lia.
Qed.

Lemma char_offset_next (str : list Z) (j m : nat) (oj o : Z) :
  char_offset str j = Some oj -> char_offset str (j + S m) = Some o ->
  char_offset str (S j)
  = Some (oj + get_num_bytes_of_utf8_char (advance str oj)).
Proof.
  intros Hj H.
  replace (j + S m)%nat with (S j + m)%nat in H by lia.
  apply char_offset_prefix in H as [o1 H1].
  pose proof H1 as H1'.
  apply char_offset_step in H1 as (o0 & H0 & _ & -> & _).
  rewrite Hj in H0. injection H0 as <-. exact H1'.
Qed.

Lemma size_t_small (v : Z) : 0 <= v < 2 ^ 64 -> size_t v = v.
Proof. intros H. apply Z.mod_small. exact H. Qed.

Lemma byte2index_loop_reaches (str : list Z) (o : Z) (m : nat) :
  size str < 2 ^ 63 ->
  forall (j : nat) (oj : Z) (fuel : nat),
    char_offset str j = Some oj ->
    char_offset str (j + m) = Some o ->
    (m < fuel)%nat ->
    byte2index_loop fuel str o (Z.of_nat j) oj = Returns (Z.of_nat (j + m)).
Proof.
  intros Hsize. induction m as [|m IH]; intros j oj fuel Hj Ho Hfuel.
  - rewrite Nat.add_0_r in *. rewrite Hj in Ho. injection Ho as ->.
    destruct fuel as [|fuel]; [lia|]. simpl.
    apply char_offset_bounds in Hj.
    replace (o <? size str) with true by lia.
    rewrite Z.eqb_refl. reflexivity.
  - destruct fuel as [|fuel]; [lia|]. simpl.
    pose proof (char_offset_increasing str j m oj o Hj Ho) as Hlt.
    pose proof (char_offset_next str j m oj o Hj Ho) as Hnext.
    pose proof (char_offset_bounds str j oj Hj) as Hb.
    pose proof (char_offset_bounds str (S j) _ Hnext) as Hb'.
    replace (oj <? size str) with true by lia.
    replace (oj =? o) with false by lia.
    replace (o <? oj) with false by lia.
    rewrite !size_t_small by lia.
    replace (Z.of_nat j + 1) with (Z.of_nat (S j)) by lia.
    replace (j + S m)%nat with (S j + m)%nat in * by lia.
    apply IH; [exact Hnext|exact Ho|lia].
Qed.

Lemma index2byte_loop_reaches (str : list Z) (o : Z) (m : nat) :
  size str < 2 ^ 63 ->
  forall (j : nat) (oj : Z) (fuel : nat),
    char_offset str j = Some oj ->
    char_offset str (j + m) = Some o ->
    (m < fuel)%nat ->
    index2byte_loop fuel str (Z.of_nat (j + m)) (Z.of_nat j) oj = Returns o.
Proof.
  intros Hsize. induction m as [|m IH]; intros j oj fuel Hj Ho Hfuel.
  - rewrite Nat.add_0_r in *. rewrite Hj in Ho. injection Ho as ->.
    destruct fuel as [|fuel]; [lia|]. cbn [index2byte_loop].
    apply char_offset_bounds in Hj.
    replace (o <? size str) with true by lia.
    rewrite Z.eqb_refl. reflexivity.
  - destruct fuel as [|fuel]; [lia|]. cbn [index2byte_loop].
    pose proof (char_offset_next str j m oj o Hj Ho) as Hnext.
    pose proof (char_offset_bounds str j oj Hj) as Hb.
    pose proof (char_offset_bounds str (S j) _ Hnext) as Hb'.
    replace (oj <? size str) with true by lia.
    replace (Z.of_nat j =? Z.of_nat (j + S m)) with false
      by (symmetry; apply Z.eqb_neq; lia).
    rewrite !size_t_small by lia.
    replace (Z.of_nat j + 1) with (Z.of_nat (S j)) by lia.
    replace (j + S m)%nat with (S j + m)%nat in * by lia.
    apply IH; [exact Hnext|exact Ho|lia].
Qed.

(** C7: at a byte offset [o] where character number [i] starts, [byte2index]
    returns [i], and [index2byte] maps [i] back to [o]. *)
Theorem index2byte_byte2index (str : list Z) (i : nat) (o : Z) :
  size str < 2 ^ 63 ->
  char_offset str i = Some o ->
  byte2index str o = Returns (Z.of_nat i) /\
  index2byte str (Z.of_nat i) = Returns o.
Proof.
  intros Hsize Ho.
  pose proof (char_offset_bounds str i o Ho) as Hb.
  assert (H0 : char_offset str 0 = Some 0).
  { simpl. replace (0 <? size str) with true by lia. reflexivity. }
  unfold byte2index, index2byte, iterations. split.
  - apply (byte2index_loop_reaches str o i Hsize 0%nat 0); auto.
    unfold size in Hb. lia.
  - apply (index2byte_loop_reaches str o i Hsize 0%nat 0); auto.
    unfold size in Hb. lia.
Qed.

Lemma index2byte_byte2index_witness :
  byte2index a_zhong_b 4 = Returns (Z.of_nat 2) /\
  index2byte a_zhong_b (Z.of_nat 2) = Returns 4.
Proof.
  apply (index2byte_byte2index a_zhong_b 2 4);
    [vm_compute; reflexivity | reflexivity].
Defined.

(** *** Lookups past the last character *)

Lemma get_characters_number_loop_ge (str : list Z) (fuel : nat) :
  forall cur idx n,
    0 <= idx -> idx + Z.of_nat fuel < 2 ^ 64 ->
    get_characters_number_loop fuel str cur idx = Returns n ->
    idx <= n.
Proof.
  induction fuel as [|fuel IH]; intros cur idx n Hidx Hfuel H; simpl in H.
  - discriminate.
  - destruct (cur <? size str).
    + rewrite (size_t_small (idx + 1)) in H by lia.
      apply IH in H; lia.
    + injection H as <-. lia.
Qed.

Lemma decode_at_loop_past_end (T : code_type) (str : list Z) (index : Z)
    (fuel : nat) :
  forall cur idx n,
    0 <= idx -> idx + Z.of_nat fuel < 2 ^ 64 ->
    get_characters_number_loop fuel str cur idx = Returns n ->
    n <= index ->
    decode_at_loop fuel T str index idx cur = Returns 0.
Proof.
  induction fuel as [|fuel IH]; intros cur idx n Hidx Hfuel H Hn; simpl in *.
  - discriminate.
  - destruct (cur <? size str); [|reflexivity].
    rewrite (size_t_small (idx + 1)) in * by lia.
    pose proof H as Hge.
    apply get_characters_number_loop_ge in Hge; [|lia|lia].
    replace (idx =? index) with false by lia.
    eapply IH; [| |exact H|exact Hn]; lia.
Qed.

Lemma string_at_loop_past_end (str : list Z) (index : Z) (fuel : nat) :
  forall cur idx n,
    0 <= idx -> idx + Z.of_nat fuel < 2 ^ 64 ->
    get_characters_number_loop fuel str cur idx = Returns n ->
    n <= index ->
    string_at_loop fuel str index idx cur = Returns [].
Proof.
  induction fuel as [|fuel IH]; intros cur idx n Hidx Hfuel H Hn; simpl in *.
  - discriminate.
  - destruct (cur <? size str); [|reflexivity].
    rewrite (size_t_small (idx + 1)) in * by lia.
    pose proof H as Hge.
    apply get_characters_number_loop_ge in Hge; [|lia|lia].
    replace (idx =? index) with false by lia.
    eapply IH; [| |exact H|exact Hn]; lia.
Qed.

Lemma substr_loop_past_end (str : list Z) (index k : Z) (fuel : nat) :
  forall cur idx start n,
    0 <= idx -> idx + Z.of_nat fuel < 2 ^ 64 ->
    get_characters_number_loop fuel str cur idx = Returns n ->
    n <= index ->
    substr_loop fuel str index k idx cur start = Returns [].
Proof.
  induction fuel as [|fuel IH]; intros cur idx start n Hidx Hfuel H Hn;
    simpl in *.
  - discriminate.
  - destruct (cur <? size str).
    + rewrite (size_t_small (idx + 1)) in * by lia.
      pose proof H as Hge.
      apply get_characters_number_loop_ge in Hge; [|lia|lia].
      replace (index <? idx) with false by lia. simpl.
      eapply IH; [| |exact H|exact Hn]; lia.
    + injection H as <-.
      replace (idx <=? index) with true by lia. reflexivity.
Qed.

(** C10: for a text whose characters [get_characters_number] counts as [n],
    and any character index from [n] on, [decode_at] returns 0 and [string_at]
    and [substr] return the empty string; none of them raises. *)
Theorem lookups_past_the_end (T : code_type) (str : list Z) (n index k : Z) :
  size str < 2 ^ 63 ->
  get_characters_number str = Returns n ->
  n <= index ->
  decode_at T str index = Returns 0 /\
  string_at str index = Returns [] /\
  substr str index k = Returns [].
Proof.
  intros Hsize Hn Hidx.
  unfold get_characters_number, decode_at, string_at, substr, iterations in *.
  assert (Hfuel : 0 + Z.of_nat (S (length str)) < 2 ^ 64)
    by (unfold size in Hsize; lia).
  repeat split.
  - eapply decode_at_loop_past_end; [| |exact Hn|exact Hidx]; lia.
  - eapply string_at_loop_past_end; [| |exact Hn|exact Hidx]; lia.
  - destruct (k =? 0); [reflexivity|].
    eapply substr_loop_past_end; [| |exact Hn|exact Hidx]; lia.
Qed.

Lemma lookups_past_the_end_witness :
  decode_at Char32 a_zhong_b 3 = Returns 0 /\
  string_at a_zhong_b 3 = Returns [] /\
  substr a_zhong_b 3 2 = Returns [].
Proof.
  apply (lookups_past_the_end Char32 a_zhong_b 3 3 2);
    [vm_compute; reflexivity | reflexivity | lia].
Defined.

(** ** Moving *)

(** C9, as the code behaves: move construction hands the source's members to
    the new object and leaves the source empty; move assignment is [swap], so
    the source ends up with what the target held. *)
Theorem move_leaves_source (this str : ustring) :
  move_construct str = (str, default_ustring) /\
  move_assign this str = (str, this).
Proof. destruct this, str. split; reflexivity. Qed.

(** C9 as stated fails for move assignment: after assigning to a target that
    holds a buffer, the source is not empty. *)
Lemma move_assign_source_not_empty :
  snd (move_assign (mk_ustring 2 1 (Some 0%nat)) (mk_ustring 4 2 (Some 1%nat)))
  <> default_ustring.
Proof. vm_compute. discriminate. Qed.

(** ** Filling *)

(** C2 at [n = 2], [c = 0x41] with [char32_t]: the three fill operations
    report the right length, and every filled slot holds [0x41414141]. *)
Theorem fill_stores_repeated_byte :
  (exists s,
     construct_fill easy_allocator Char32 2 0x41 initial_state = Ok tt s /\
     _M_len (this s) = 2 /\
     slot_at s 0 = Some (Some 0x41414141) /\
     slot_at s 1 = Some (Some 0x41414141)) /\
  (exists s,
     assign_fill easy_allocator Char32 2 0x41 (holding [0x61]) = Ok tt s /\
     _M_len (this s) = 2 /\
     slot_at s 0 = Some (Some 0x41414141) /\
     slot_at s 1 = Some (Some 0x41414141)) /\
  (exists s,
     append_fill easy_allocator Char32 2 0x41 (holding [0x61]) = Ok tt s /\
     _M_len (this s) = 1 + 2 /\
     slot_at s 1 = Some (Some 0x41414141) /\
     slot_at s 2 = Some (Some 0x41414141)).
Proof. repeat split; eexists; repeat split; vm_compute; reflexivity. Qed.

(** ** Comparison *)

(** C3 on a little-endian target: a buffer holding U+0100 compared with the
    array holding U+00FF is reported as less, because [memcmp] meets the low
    bytes first, while the overload that decodes UTF-8 reports it as greater.
    The shorter of [ab] and [abc] compares less on both paths. *)
Theorem compare_arr_orders_by_bytes :
  0xFF < 0x100 /\
  compare_arr LittleEndian Char32 [0xFF] 1 (holding [0x100])
  = Ok (-1) (holding [0x100]) /\
  compare_str Char32 [0xC3; 0xBF] (holding [0x100])
  = Ok (Returns 1) (holding [0x100]) /\
  compare_arr LittleEndian Char32 [0x61; 0x62; 0x63] 3 (holding [0x61; 0x62])
  = Ok (-1) (holding [0x61; 0x62]) /\
  compare_str Char32 [0x61; 0x62; 0x63] (holding [0x61; 0x62])
  = Ok (Returns (-1)) (holding [0x61; 0x62]).
Proof. repeat split; vm_compute; reflexivity. Qed.

(** C6 as stated fails.  Appending zero characters to a default-constructed
    [ustring] succeeds and leaves it without storage, so there is no slot at
    index [length] to hold the sentinel; and [assign(ustring&&)] from a
    default-constructed argument takes a buffer that satisfies the invariant
    to that same state. *)
Lemma mutation_without_sentinel :
  run easy_allocator Char32 (Append_fill 0 0x41) initial_state
  = Ok tt initial_state /\
  ~ invariant initial_state /\
  invariant (holding [0x61]) /\
  exists s',
    run easy_allocator Char32 (Assign_move default_ustring) (holding [0x61])
    = Ok tt s' /\
    ~ invariant s'.
Proof.
  split; [reflexivity|]. split; [|split].
  - intros (_ & _ & H). vm_compute in H. discriminate.
  - repeat split; vm_compute; congruence.
  - eexists. split; [reflexivity|].
    intros (_ & _ & H). vm_compute in H. discriminate.
Qed.


(** ** Rules for [wp] *)

Section WpRules.

Context {A B : Type}.

Lemma wp_bind (m : M A) (k : A -> M B) s Q E :
  wp m s (fun a s' => wp (k a) s' Q E) E -> wp (m ≫= k) s Q E.
Proof.
  unfold wp, mbind, M_bind, bind. destruct (m s); auto.
Qed.

Lemma wp_ret (a : A) s (Q : A -> state -> Prop) E : Q a s -> wp (ret a) s Q E.
Proof. auto. Qed.

Lemma wp_throw e s (Q : A -> state -> Prop) (E : exn -> state -> Prop) :
  E e s -> wp (throw e) s Q E.
Proof. auto. Qed.

Lemma wp_undefined s (Q : A -> state -> Prop) E : wp undefined s Q E.
Proof. exact I. Qed.

Lemma wp_conseq (m : M A) s (Q Q' : A -> state -> Prop)
    (E E' : exn -> state -> Prop) :
  wp m s Q E ->
  (forall a s', Q a s' -> Q' a s') ->
  (forall e s', E e s' -> E' e s') ->
  wp m s Q' E'.
Proof. unfold wp. intros H HQ HE. destruct (m s); auto. Qed.

Lemma wp_ok (m : M A) s a s' Q E : wp m s Q E -> m s = Ok a s' -> Q a s'.
Proof. unfold wp. intros H Heq. rewrite Heq in H. exact H. Qed.

Lemma wp_thrown (m : M A) s e s' Q E :
  wp m s Q E -> m s = Throw e s' -> E e s'.
Proof. unfold wp. intros H Heq. rewrite Heq in H. exact H. Qed.

End WpRules.

Lemma wp_when (b : bool) (m : M unit) s Q E :
  (b = true -> wp m s Q E) -> (b = false -> Q tt s) -> wp (when b m) s Q E.
Proof.
  intros H1 H2. destruct b; [apply H1|apply (H2 eq_refl)]. reflexivity.
Qed.

Lemma wp_size_ s Q E : Q (_M_len (this s)) s -> wp size_ s Q E.
Proof. auto. Qed.

Lemma wp_capacity s Q E :
  Q (_M_allocated_capacity (this s)) s -> wp capacity s Q E.
Proof. auto. Qed.

Lemma wp_data s Q E : Q (_M_ptr (this s)) s -> wp data s Q E.
Proof. auto. Qed.

Lemma wp__M_capacity c s Q E :
  Q tt (mk_state (mk_ustring c (_M_len (this s)) (_M_ptr (this s))) (mem s)) ->
  wp (_M_capacity c) s Q E.
Proof. auto. Qed.

Lemma wp__M_length n s Q E :
  Q tt (mk_state
          (mk_ustring (_M_allocated_capacity (this s)) n (_M_ptr (this s)))
          (mem s)) ->
  wp (_M_length n) s Q E.
Proof. auto. Qed.

Lemma wp__M_data p s Q E :
  Q tt (mk_state
          (mk_ustring (_M_allocated_capacity (this s)) (_M_len (this s)) p)
          (mem s)) ->
  wp (_M_data p) s Q E.
Proof. auto. Qed.

(** *** Memory *)

Lemma live_insert_eq (h : heap) (a : nat) (blk blk' : block) :
  live h a = Some blk -> live (<[a := Some blk']> h) a = Some blk'.
Proof.
  unfold live, heap, block, slot in *. intros H.
  destruct (h !! a) as [o|] eqn:E; [|discriminate].
  rewrite list_lookup_insert_eq by (apply lookup_lt_Some in E; exact E).
  reflexivity.
Qed.

Lemma live_insert_ne (h : heap) (a a' : nat) (o : option block) :
  a <> a' -> live (<[a := o]> h) a' = live h a'.
Proof.
  unfold live, heap, block, slot in *. intros H.
  rewrite list_lookup_insert_ne by exact H. reflexivity.
Qed.

Lemma live_bound (h : heap) (a : nat) (blk : block) :
  live h a = Some blk -> (a < length h)%nat.
Proof.
  unfold live, heap, block, slot in *.
  destruct (h !! a) eqn:E; [|discriminate].
  intros _. apply lookup_lt_Some in E. exact E.
Qed.

Lemma live_app_new (h : heap) (blk : block) :
  live (h ++ [Some blk]) (length h) = Some blk.
Proof.
  unfold live, heap, block, slot in *. rewrite lookup_app_r by lia.
  rewrite Nat.sub_diag. reflexivity.
Qed.

Lemma in_block_spec (blk : block) (off n : Z) :
  in_block blk off n = true <->
  0 <= off /\ 0 <= n /\ off + n <= Z.of_nat (length blk).
Proof. unfold in_block. rewrite !andb_true_iff. lia. Qed.

Lemma length_splice (blk : block) (off : Z) (vs : list slot) :
  in_block blk off (Z.of_nat (length vs)) = true ->
  length (splice blk off vs) = length blk.
Proof.
  rewrite in_block_spec. intros (H0 & _ & H).
  unfold splice, block, slot in *. rewrite !length_app, length_take, length_drop. lia.
Qed.

Lemma splice_lookup_outside (blk : block) (off : Z) (vs : list slot) (i : nat) :
  in_block blk off (Z.of_nat (length vs)) = true ->
  (Z.of_nat i < off \/ off + Z.of_nat (length vs) <= Z.of_nat i) ->
  splice blk off vs !! i = blk !! i.
Proof.
  rewrite in_block_spec. intros (H0 & _ & H) Hi.
  unfold splice, block, slot in *. destruct Hi as [Hi|Hi].
  - rewrite lookup_app_l by (rewrite length_take; lia).
    apply lookup_take_lt. lia.
  - rewrite lookup_app_r by (rewrite length_take; lia).
    rewrite lookup_app_r by (rewrite length_take; lia).
    rewrite lookup_drop. rewrite length_take. f_equal. lia.
Qed.

Lemma splice_lookup_inside (blk : block) (off : Z) (vs : list slot) (i : nat) :
  in_block blk off (Z.of_nat (length vs)) = true ->
  (i < length vs)%nat ->
  splice blk off vs !! (Z.to_nat off + i)%nat = vs !! i.
Proof.
  rewrite in_block_spec. intros (H0 & _ & H) Hi.
  unfold splice, block, slot in *.
  rewrite lookup_app_r by (rewrite length_take; lia).
  rewrite length_take.
  replace (Z.to_nat off + i - Z.to_nat off `min` length blk)%nat with i by lia.
  apply lookup_app_l. exact Hi.
Qed.

Lemma wp_write_slots p vs s Q E :
  (forall a blk,
     base p = Some a -> live (mem s) a = Some blk ->
     in_block blk (offset p) (Z.of_nat (length vs)) = true ->
     Q tt (mk_state (this s)
             (<[a := Some (splice blk (offset p) vs)]> (mem s)))) ->
  wp (write_slots p vs) s Q E.
Proof.
  intros H. unfold wp, write_slots.
  destruct (base p) as [a|]; [|exact I].
  destruct (live (mem s) a) as [blk|] eqn:Hl; [|exact I].
  destruct (in_block blk (offset p) (Z.of_nat (length vs))) eqn:Hin; [|exact I].
  apply H; auto.
Qed.

Lemma wp_read_slots p n s Q E :
  (forall vs, Z.of_nat (length vs) = n -> Q vs s) -> wp (read_slots p n) s Q E.
Proof.
  intros H. unfold wp, read_slots.
  destruct (base p) as [a|]; [|exact I].
  destruct (live (mem s) a) as [blk|] eqn:Hl; [|exact I].
  destruct (in_block blk (offset p) n) eqn:Hin; [|exact I].
  apply H. apply in_block_spec in Hin.
  rewrite length_take, length_drop. lia.
Qed.

Lemma wp_peek p s Q E : (forall v, Q v s) -> wp (peek p) s Q E.
Proof.
  intros H. unfold peek. apply wp_bind. apply wp_read_slots. intros vs _.
  destruct vs as [|[v|] [|? ?]]; try exact I. apply H.
Qed.

(** *** Frames *)

Lemma frame_refl lo hi s : frame lo hi s s.
Proof. repeat split; auto. Qed.

Lemma frame_weaken lo hi lo' hi' s s' :
  frame lo hi s s' -> lo' <= lo -> hi <= hi' -> frame lo' hi' s s'.
Proof.
  intros (Hp & Ho & Hd) Hlo Hhi. repeat split; auto.
  - intros i Hi. apply Ho. lia.
  - apply Hd.
  - apply Hd.
Qed.

Lemma frame_trans lo hi s s' s'' :
  frame lo hi s s' -> frame lo hi s' s'' -> frame lo hi s s''.
Proof.
  intros (Hp & Ho & Hd) (Hp' & Ho' & Hd'). repeat split.
  - congruence.
  - intros i Hi. rewrite Ho', Ho; auto.
  - intros H. apply Hd, Hd'. exact H.
  - intros H. apply Hd', Hd. exact H.
Qed.

Lemma slot_at_fields s s' :
  _M_ptr (this s') = _M_ptr (this s) -> mem s' = mem s ->
  forall i, slot_at s' i = slot_at s i.
Proof. intros Hp Hm i. unfold slot_at. rewrite Hp, Hm. reflexivity. Qed.

Lemma write_slots_frame p vs s :
  wp (write_slots p vs) s
    (fun _ s' =>
       this s' = this s /\
       frame (offset p) (offset p + Z.of_nat (length vs)) s s' /\
       (base p = _M_ptr (this s) ->
        forall i, (i < length vs)%nat ->
                  slot_at s' (offset p + Z.of_nat i) = vs !! i))
    (fun _ _ => False).
Proof.
  apply wp_write_slots. intros a blk Hbase Hlive Hin.
  pose proof Hin as Hin'. apply in_block_spec in Hin' as (H0 & _ & Hlen).
  split; [reflexivity|]. split; [repeat split|].
  - simpl. intros i Hi. unfold slot_at; simpl.
    destruct (_M_ptr (this s)) as [a0|]; [|reflexivity].
    destruct (Nat.eq_dec a a0) as [->|Hne].
    + rewrite (live_insert_eq _ _ _ _ Hlive), Hlive.
      destruct (0 <=? i) eqn:Hi0; [|reflexivity].
      apply splice_lookup_outside; [exact Hin|lia].
    + rewrite live_insert_ne by exact Hne. reflexivity.
  - unfold slot_at; simpl.
    destruct (_M_ptr (this s)) as [a0|]; [|auto].
    destruct (Nat.eq_dec a a0) as [->|Hne].
    + rewrite (live_insert_eq _ _ _ _ Hlive), Hlive.
      destruct (0 <=? i); [|auto].
      rewrite !lookup_ge_None, length_splice by exact Hin. auto.
    + rewrite live_insert_ne by exact Hne. auto.
  - unfold slot_at; simpl.
    destruct (_M_ptr (this s)) as [a0|]; [|auto].
    destruct (Nat.eq_dec a a0) as [->|Hne].
    + rewrite (live_insert_eq _ _ _ _ Hlive), Hlive.
      destruct (0 <=? i); [|auto].
      rewrite !lookup_ge_None, length_splice by exact Hin. auto.
    + rewrite live_insert_ne by exact Hne. auto.
  - intros Hp i Hi. unfold slot_at; simpl. rewrite <- Hp, Hbase.
    rewrite (live_insert_eq _ _ _ _ Hlive).
    replace (0 <=? offset p + Z.of_nat i) with true by lia.
    replace (Z.to_nat (offset p + Z.of_nat i))
      with (Z.to_nat (offset p) + i)%nat by lia.
    apply splice_lookup_inside; [exact Hin|exact Hi].
Qed.

Lemma writes_ret s lo hi : writes (ret tt) s lo hi.
Proof. split; [reflexivity|apply frame_refl]. Qed.

Lemma writes_undefined s lo hi : writes undefined s lo hi.
Proof. exact I. Qed.

Lemma writes_write_slots p vs s lo hi :
  lo <= offset p -> offset p + Z.of_nat (length vs) <= hi ->
  writes (write_slots p vs) s lo hi.
Proof.
  intros Hlo Hhi. eapply wp_conseq; [apply write_slots_frame| |auto].
  intros _ s' (Ht & Hf & _). split; [exact Ht|].
  eapply frame_weaken; eauto.
Qed.

Lemma sizeof_code_cases (T : code_type) : sizeof_code T = 2 \/ sizeof_code T = 4.
Proof. destruct T; auto. Qed.

Lemma slots_le (T : code_type) (n : Z) :
  0 <= n -> 0 <= slots_of T (bytes_of T n) <= n.
Proof.
  intros Hn. unfold slots_of, bytes_of, size_t.
  destruct (sizeof_code_cases T) as [Hz|Hz]; rewrite Hz.
  - pose proof (Z.mod_pos_bound (n * 2) (2 ^ 64) ltac:(lia)) as Hm.
    pose proof (Z.mod_le (n * 2) (2 ^ 64) ltac:(lia) ltac:(lia)) as Hle.
    split; [apply Z.div_pos; lia|apply Z.div_le_upper_bound; lia].
  - pose proof (Z.mod_pos_bound (n * 4) (2 ^ 64) ltac:(lia)) as Hm.
    pose proof (Z.mod_le (n * 4) (2 ^ 64) ltac:(lia) ltac:(lia)) as Hle.
    split; [apply Z.div_pos; lia|apply Z.div_le_upper_bound; lia].
Qed.

Lemma writes_poke_slot p v s lo hi :
  lo <= offset p -> offset p + 1 <= hi -> writes (poke_slot p v) s lo hi.
Proof. intros. apply writes_write_slots; simpl; lia. Qed.

Lemma writes_memset T d c n s lo hi :
  0 <= n -> lo <= offset d -> offset d + n <= hi ->
  writes (memset T d c (bytes_of T n)) s lo hi.
Proof.
  intros Hn Hlo Hhi. unfold memset.
  pose proof (slots_le T n Hn) as Hs.
  destruct (slots_of T (bytes_of T n) =? 0); [apply writes_ret|].
  apply writes_write_slots; [exact Hlo|].
  rewrite length_replicate. lia.
Qed.

Lemma writes_memcpy T d src n s lo hi :
  0 <= n -> lo <= offset d -> offset d + n <= hi ->
  writes (memcpy T d src (bytes_of T n)) s lo hi.
Proof.
  intros Hn Hlo Hhi. unfold memcpy.
  pose proof (slots_le T n Hn) as Hs.
  destruct (slots_of T (bytes_of T n) =? 0); [apply writes_ret|].
  destruct (overlap d src (slots_of T (bytes_of T n)));
    [apply writes_undefined|].
  apply wp_bind. apply wp_read_slots. intros vs Hvs.
  apply writes_write_slots; lia.
Qed.

Lemma writes_memmove T d src n s lo hi :
  0 <= n -> lo <= offset d -> offset d + n <= hi ->
  writes (memmove T d src (bytes_of T n)) s lo hi.
Proof.
  intros Hn Hlo Hhi. unfold memmove.
  pose proof (slots_le T n Hn) as Hs.
  destruct (slots_of T (bytes_of T n) =? 0); [apply writes_ret|].
  apply wp_bind. apply wp_read_slots. intros vs Hvs.
  apply writes_write_slots; lia.
Qed.

Lemma writes__S_copy T d src n s lo hi :
  0 <= n -> lo <= offset d -> offset d + n <= hi ->
  writes (_S_copy T d src n) s lo hi.
Proof.
  intros Hn Hlo Hhi. unfold _S_copy.
  destruct (n =? 1) eqn:H1.
  - apply wp_bind. apply wp_peek. intros v. apply writes_poke_slot; lia.
  - apply writes_memcpy; assumption.
Qed.

Lemma writes__M_assign_arr T d src n s lo hi :
  0 <= n -> lo <= offset d -> offset d + n <= hi ->
  writes (_M_assign_arr T d src n) s lo hi.
Proof. apply writes__S_copy. Qed.

Lemma writes__M_assign_fill T d n c s lo hi :
  0 <= n -> lo <= offset d -> offset d + n <= hi ->
  writes (_M_assign_fill T d n c) s lo hi.
Proof.
  intros Hn Hlo Hhi. unfold _M_assign_fill.
  destruct (n =? 1) eqn:H1.
  - apply writes_poke_slot; lia.
  - apply writes_memset; assumption.
Qed.

Lemma writes__S_move T d src n s lo hi :
  0 <= n -> lo <= offset d -> offset d + n <= hi ->
  writes (_S_move T d src n) s lo hi.
Proof.
  intros Hn Hlo Hhi. unfold _S_move.
  destruct (n =? 1) eqn:H1.
  - apply wp_bind. apply wp_peek. intros v. apply writes_poke_slot; lia.
  - apply writes_memmove; assumption.
Qed.

(** *** [_M_set_length] *)

Lemma wp__M_set_length T n s Q E :
  0 <= n ->
  (forall s',
     this s' = set_len (this s) n ->
     slot_at s' n = Some (Some 0) ->
     frame n (n + 1) s s' ->
     Q tt s') ->
  wp (_M_set_length T n) s Q E.
Proof.
  intros Hn H. unfold _M_set_length.
  apply wp_bind, wp__M_length. apply wp_bind, wp_data. simpl.
  eapply wp_conseq; [apply write_slots_frame| |intros ? ? []].
  intros [] s' (Ht & Hf & Hv). simpl in *.
  apply H.
  - exact Ht.
  - specialize (Hv eq_refl 0%nat ltac:(simpl; lia)).
    rewrite Z.add_0_r in Hv. rewrite Hv. simpl.
    unfold to_code. rewrite Z.mod_0_l; [reflexivity|].
    destruct T; simpl; lia.
  - destruct Hf as (Hp & Ho & Hd). repeat split.
    + rewrite Hp. reflexivity.
    + intros i Hi. rewrite Ho by exact Hi. apply slot_at_fields; reflexivity.
    + intros Hx. apply Hd in Hx.
      erewrite <- slot_at_fields; [exact Hx|reflexivity|reflexivity].
    + intros Hx. apply Hd.
      erewrite slot_at_fields; [exact Hx|reflexivity|reflexivity].
Qed.

(** *** Growth *)

Lemma max_size_value : max_size = 2 ^ 62 - 1.
Proof. reflexivity. Qed.

Lemma wp__S_capacity (capacity old : Z) s Q E :
  0 <= capacity -> 0 <= old ->
  (forall c', capacity <= c' <= max_size -> Q c' s) ->
  (max_size < capacity -> E length_error s) ->
  wp (_S_capacity capacity old) s Q E.
Proof.
  intros Hc Ho HQ HE. unfold _S_capacity.
  destruct (max_size <? capacity) eqn:Hmax.
  - apply wp_throw, HE. lia.
  - destruct ((old <? capacity) && (capacity <? size_t (2 * old))) eqn:Hd.
    + apply wp_ret, HQ.
      apply andb_true_iff in Hd as [_ Hd].
      destruct (max_size <? size_t (2 * old)) eqn:Hm; lia.
    + apply wp_ret, HQ. lia.
Qed.

Lemma length_resize_block T (blk : block) bytes :
  length (resize_block T blk bytes) = Z.to_nat (slots_of T bytes).
Proof.
  unfold resize_block, block, slot in *.
  rewrite length_app, length_take, length_replicate. lia.
Qed.

Lemma resize_block_keeps T (blk : block) bytes (i : nat) v :
  (i < Z.to_nat (slots_of T bytes))%nat ->
  blk !! i = Some v -> resize_block T blk bytes !! i = Some v.
Proof.
  intros Hi Hv. unfold resize_block, block, slot in *.
  pose proof (lookup_lt_Some _ _ _ Hv) as Hlt.
  rewrite lookup_app_l by (rewrite length_take; lia).
  rewrite lookup_take_lt by exact Hi. exact Hv.
Qed.

Lemma slot_at_beyond s a blk i :
  _M_ptr (this s) = Some a -> live (mem s) a = Some blk ->
  Z.of_nat (length blk) <= i -> slot_at s i = None.
Proof.
  intros Hp Hl Hi. unfold slot_at. rewrite Hp, Hl.
  destruct (0 <=? i); [|reflexivity].
  apply lookup_ge_None. lia.
Qed.

Lemma wp__M_realloc al T n s Q E :
  (forall s', reallocated T n s s' -> Q tt s') ->
  (forall s', E bad_alloc s') ->
  wp (_M_realloc al T n) s Q E.
Proof.
  intros HQ HE. unfold _M_realloc.
  apply wp_bind, wp_data. apply wp_bind.
  set (bytes := bytes_of T (size_t (n + 1))) in *.
  assert (Hslots : 0 <= slots_of T bytes).
  { unfold slots_of, bytes, bytes_of, size_t.
    apply Z.div_pos; [|destruct T; simpl; lia].
    apply Z.mod_pos_bound. lia. }
  assert (Hnull : forall s0, _M_ptr (this s0) = None ->
                             forall i, slot_at s0 i = None).
  { intros s0 H0 i. unfold slot_at. rewrite H0. reflexivity. }
  assert (Hfail : forall s1, this s1 = this s ->
            wp (if n =? 0 then _M_data None else throw bad_alloc) s1 Q E).
  { intros s1 H1. destruct (n =? 0); [|apply wp_throw, HE].
    apply wp__M_data, HQ. exists None. simpl. rewrite H1.
    split; [reflexivity|]. split; [|congruence].
    intros i _. apply Hnull. reflexivity. }
  unfold wp at 1, realloc.
  destruct (_M_ptr (this s)) as [a|] eqn:Hp.
  - destruct (live (mem s) a) as [blk|] eqn:Hl; [|exact I].
    destruct (bytes =? 0).
    { apply Hfail. reflexivity. }
    destruct (malloc_fails al (mem s) bytes).
    { apply Hfail. reflexivity. }
    destruct (realloc_moves al (mem s) a bytes).
    + apply wp__M_data, HQ. exists (Some (length (mem s))). simpl.
      split; [reflexivity|].
      assert (Hnew : live (<[a:=None]> (mem s) ++ [Some (resize_block T blk bytes)])
                       (length (mem s)) = Some (resize_block T blk bytes)).
      { rewrite <- (length_insert (mem s) a None). apply live_app_new. }
      split.
      * intros i Hi. eapply slot_at_beyond; simpl; [reflexivity|exact Hnew|].
        rewrite length_resize_block. fold bytes in Hi. lia.
      * intros _ i v Hi Hv. unfold slot_at in *. simpl.
        rewrite Hp, Hl in Hv. rewrite Hnew.
        destruct (0 <=? i) eqn:H0; [|discriminate].
        apply resize_block_keeps; [fold bytes in Hi; lia|exact Hv].
    + apply wp__M_data, HQ. exists (Some a). simpl.
      split; [reflexivity|].
      pose proof (live_insert_eq _ _ _ (resize_block T blk bytes) Hl) as Hnew.
      split.
      * intros i Hi. eapply slot_at_beyond; simpl; [reflexivity|exact Hnew|].
        rewrite length_resize_block. fold bytes in Hi. lia.
      * intros _ i v Hi Hv. unfold slot_at in *. simpl.
        rewrite Hp, Hl in Hv. rewrite Hnew.
        destruct (0 <=? i) eqn:H0; [|discriminate].
        apply resize_block_keeps; [fold bytes in Hi; lia|exact Hv].
  - unfold malloc. destruct (malloc_fails al (mem s) bytes).
    { apply Hfail. reflexivity. }
    apply wp__M_data, HQ. exists (Some (length (mem s))). simpl.
    split; [reflexivity|]. split.
    + intros i Hi.
      eapply slot_at_beyond; simpl; [reflexivity|apply live_app_new|].
      unfold fresh_block. rewrite length_replicate. fold bytes in Hi. lia.
    + intros _ i v _ Hv. rewrite Hnull in Hv by exact Hp. discriminate.
Qed.

Lemma wp_reserve al T res s Q E :
  0 <= res -> 0 <= _M_len (this s) ->
  0 <= _M_allocated_capacity (this s) < 2 ^ 64 ->
  (forall s',
     _M_len (this s') = _M_len (this s) ->
     Z.max res (_M_len (this s)) <= _M_allocated_capacity (this s') < 2 ^ 64 ->
     Q tt s') ->
  (max_size < Z.max res (_M_len (this s)) -> E length_error s) ->
  (forall s', E bad_alloc s') ->
  wp (reserve al T res) s Q E.
Proof.
  intros Hres Hlen Hcap HQ HEl HEb. unfold reserve.
  apply wp_bind, wp_size_. apply wp_bind, wp_capacity.
  set (r := if res <? _M_len (this s) then _M_len (this s) else res).
  assert (Hr : r = Z.max res (_M_len (this s)))
    by (unfold r; destruct (res <? _M_len (this s)) eqn:E0; lia).
  destruct (r =? _M_allocated_capacity (this s)) eqn:Heq.
  - apply wp_ret, HQ; [reflexivity|lia].
  - apply wp_bind. apply wp__S_capacity; [lia|lia| |intros; apply HEl; lia].
    intros c' Hc'. apply wp_bind.
    apply wp__M_realloc; [|exact HEb].
    intros s1 (tmp & Ht & _). apply wp__M_capacity, HQ; simpl.
    + rewrite Ht. reflexivity.
    + rewrite max_size_value in Hc'. lia.
Qed.

Lemma wp__M_check pos s Q E :
  (pos <= _M_len (this s) -> Q pos s) ->
  (_M_len (this s) < pos -> E out_of_range s) ->
  wp (_M_check pos) s Q E.
Proof.
  intros HQ HE. unfold _M_check. apply wp_bind, wp_size_.
  destruct (_M_len (this s) <? pos) eqn:H.
  - apply wp_throw, HE. lia.
  - apply wp_ret, HQ. lia.
Qed.

Lemma wp__M_check_length n1 n2 s Q E :
  Q tt s -> E length_error s -> wp (_M_check_length n1 n2) s Q E.
Proof.
  intros HQ HE. unfold _M_check_length. apply wp_bind, wp_size_.
  destruct (_ <? _); [apply wp_throw, HE|apply wp_ret, HQ].
Qed.

Lemma wp__M_limit pos off s Q E :
  0 <= pos <= _M_len (this s) -> _M_len (this s) < 2 ^ 64 ->
  Q (Z.min off (_M_len (this s) - pos)) s ->
  wp (_M_limit pos off) s Q E.
Proof.
  intros Hpos Hlen HQ. unfold _M_limit. apply wp_bind, wp_size_.
  apply wp_ret. unfold size_t. rewrite Z.mod_small by lia.
  destruct (off <? _M_len (this s) - pos) eqn:H.
  - rewrite Z.min_l in HQ by lia. exact HQ.
  - rewrite Z.min_r in HQ by lia. exact HQ.
Qed.

(** *** The mutating members *)

Lemma wp_writes (m : M unit) s lo hi Q E :
  writes m s lo hi ->
  (forall s', this s' = this s -> frame lo hi s s' -> Q tt s') ->
  wp m s Q E.
Proof.
  intros Hw HQ. eapply wp_conseq; [exact Hw| |intros ? ? []].
  intros [] s' [Ht Hf]. auto.
Qed.

Lemma wp_grow al T new s Q E :
  0 <= new -> 0 <= _M_len (this s) ->
  0 <= _M_allocated_capacity (this s) < 2 ^ 64 ->
  (forall s',
     _M_len (this s') = _M_len (this s) ->
     new <= _M_allocated_capacity (this s') < 2 ^ 64 ->
     Q tt s') ->
  E length_error s ->
  (forall s', E bad_alloc s') ->
  wp (when (_M_allocated_capacity (this s) <? new) (reserve al T new)) s Q E.
Proof.
  intros Hnew Hlen Hcap HQ HEl HEb. apply wp_when; intros Hb.
  - apply wp_reserve; auto. intros s' Hl Hc. apply HQ; [exact Hl|lia].
  - apply HQ; [reflexivity|lia].
Qed.

Lemma set_length_invariant T n s E :
  0 <= n <= _M_allocated_capacity (this s) ->
  _M_allocated_capacity (this s) < 2 ^ 64 ->
  wp (_M_set_length T n) s (fun _ s' => invariant s') E.
Proof.
  intros Hn Hc. apply wp__M_set_length; [lia|].
  intros s' Ht Hs _. unfold invariant. rewrite Ht. simpl. auto.
Qed.

Lemma size_t_range v : 0 <= size_t v < 2 ^ 64.
Proof. apply Z.mod_pos_bound. lia. Qed.

Lemma keeps_fields_writes (m : M unit) :
  (forall s, exists lo hi, writes m s lo hi) -> keeps_fields m.
Proof.
  intros H s Q E HQ. destruct (H s) as (lo & hi & Hw).
  eapply wp_writes; [exact Hw|].
  intros s' Ht (_ & _ & Hd). auto.
Qed.

Lemma keeps_fields_write_slots p vs : keeps_fields (write_slots p vs).
Proof.
  apply keeps_fields_writes. intros s.
  exists (offset p), (offset p + Z.of_nat (length vs)).
  apply writes_write_slots; lia.
Qed.

Lemma keeps_fields_ret : keeps_fields (ret tt).
Proof. intros s Q E HQ. apply wp_ret, HQ; [reflexivity|tauto]. Qed.

Lemma keeps_fields_undefined : keeps_fields undefined.
Proof. intros s Q E HQ. exact I. Qed.

Lemma keeps_fields_memset T d c bytes : keeps_fields (memset T d c bytes).
Proof.
  unfold memset. destruct (_ =? 0);
    [apply keeps_fields_ret|apply keeps_fields_write_slots].
Qed.

Lemma keeps_fields_memcpy T d src bytes : keeps_fields (memcpy T d src bytes).
Proof.
  unfold memcpy. destruct (_ =? 0); [apply keeps_fields_ret|].
  destruct (overlap _ _ _); [apply keeps_fields_undefined|].
  intros s Q E HQ. apply wp_bind, wp_read_slots. intros vs _.
  apply keeps_fields_write_slots, HQ.
Qed.

Lemma keeps_fields_memmove T d src bytes : keeps_fields (memmove T d src bytes).
Proof.
  unfold memmove. destruct (_ =? 0); [apply keeps_fields_ret|].
  intros s Q E HQ. apply wp_bind, wp_read_slots. intros vs _.
  apply keeps_fields_write_slots, HQ.
Qed.

Lemma keeps_fields__M_assign_fill T d n c : keeps_fields (_M_assign_fill T d n c).
Proof.
  unfold _M_assign_fill, poke_slot. destruct (n =? 1);
    [apply keeps_fields_write_slots|apply keeps_fields_memset].
Qed.

Lemma keeps_fields__S_copy T d src n : keeps_fields (_S_copy T d src n).
Proof.
  unfold _S_copy, poke_slot. destruct (n =? 1); [|apply keeps_fields_memcpy].
  intros s Q E HQ. apply wp_bind, wp_peek. intros v.
  apply keeps_fields_write_slots, HQ.
Qed.

Lemma keeps_fields__M_assign_arr T d src n :
  keeps_fields (_M_assign_arr T d src n).
Proof. apply keeps_fields__S_copy. Qed.

Lemma keeps_fields__S_move T d src n : keeps_fields (_S_move T d src n).
Proof.
  unfold _S_move, poke_slot. destruct (n =? 1); [|apply keeps_fields_memmove].
  intros s Q E HQ. apply wp_bind, wp_peek. intros v.
  apply keeps_fields_write_slots, HQ.
Qed.

Lemma keeps_fields_when b m : keeps_fields m -> keeps_fields (when b m).
Proof. destruct b; [auto|intros _; apply keeps_fields_ret]. Qed.

Lemma set_length_invariant_extent T n s E :
  0 <= n -> 0 <= _M_allocated_capacity (this s) < 2 ^ 64 ->
  (n <= _M_allocated_capacity (this s) \/
   forall i, _M_allocated_capacity (this s) < i -> slot_at s i = None) ->
  wp (_M_set_length T n) s (fun _ s' => invariant s') E.
Proof.
  intros Hn Hc Hext. apply wp__M_set_length; [lia|].
  intros s' Ht Hs (_ & _ & Hd). unfold invariant. rewrite Ht. simpl.
  assert (n <= _M_allocated_capacity (this s)).
  { destruct Hext as [H|H]; [exact H|].
    destruct (Z_le_gt_dec n (_M_allocated_capacity (this s))) as [Hle|Hgt];
      [exact Hle|].
    specialize (H n ltac:(lia)). apply Hd in H. congruence. }
  auto with zarith.
Qed.

(** ** More on the codec *)

Example encode_scenario :
  encode [9; 9; 9; 9; 9; 9; 9; 9] [0x61; 0x4E2D; 0x62] = Some a_zhong_b /\
  decode Char32 a_zhong_b = Returns [0x61; 0x4E2D; 0x62] /\
  index2byte_map a_zhong_b = Returns [0; 1; 4] /\
  byte2index_map a_zhong_b = Returns [0; 1; npos; npos; 2].
Proof. repeat split; vm_compute; reflexivity. Qed.

Lemma clz_from_log2 (v : Z) (n : nat) :
  0 < v -> Z.log2 v < Z.of_nat n ->
  clz_from n v = Z.of_nat n - 1 - Z.log2 v.
Proof.
  intros Hv. induction n as [|n IH]; intros Hn; [pose proof (Z.log2_nonneg v); lia|].
  cbn [clz_from].
  destruct (Z.eq_dec (Z.log2 v) (Z.of_nat n)) as [Heq|Hne].
  - rewrite <- Heq. rewrite Z.bit_log2 by exact Hv. lia.
  - rewrite Z.bits_above_log2 by lia. rewrite IH by lia. lia.
Qed.

Lemma log2_cases (k : Z) :
  0 <= k < 32 ->
  k = 0 \/ k = 1 \/ k = 2 \/ k = 3 \/ k = 4 \/ k = 5 \/ k = 6 \/ k = 7 \/
  k = 8 \/ k = 9 \/ k = 10 \/ k = 11 \/ k = 12 \/ k = 13 \/ k = 14 \/ k = 15 \/
  k = 16 \/ k = 17 \/ k = 18 \/ k = 19 \/ k = 20 \/ k = 21 \/ k = 22 \/
  k = 23 \/ k = 24 \/ k = 25 \/ k = 26 \/ k = 27 \/ k = 28 \/ k = 29 \/
  k = 30 \/ k = 31.
Proof. lia. Qed.

(** X1: on every 32-bit value the table lookup of the [STRINGUTILS_USE_CLZ]
    build and the comparison cascade give the same width. *)
Theorem get_codepoint_bytes_cp_variants_agree (cp : Z) :
  0 <= cp < 2 ^ 32 ->
  get_codepoint_bytes_cp_clz cp = get_codepoint_bytes_cp cp.
Proof.
  intros Hcp. unfold get_codepoint_bytes_cp_clz.
  destruct (cp =? 0) eqn:H0.
  - replace cp with 0 by lia. reflexivity.
  - assert (Hpos : 0 < cp) by lia.
    pose proof (Z.log2_spec cp Hpos) as Hspec.
    assert (Hk : 0 <= Z.log2 cp < 32).
    { split; [apply Z.log2_nonneg|]. apply Z.log2_lt_pow2; lia. }
    unfold clz. rewrite clz_from_log2 by (simpl; lia).
    replace (31 - (Z.of_nat 32 - 1 - Z.log2 cp)) with (Z.log2 cp) by lia.
    unfold get_codepoint_bytes_cp.
    destruct (log2_cases _ Hk) as
      [E|[E|[E|[E|[E|[E|[E|[E|[E|[E|[E|[E|[E|[E|[E|[E|[E|[E|[E|[E|[E|[E|[E|[E|
       [E|[E|[E|[E|[E|[E|[E|E]]]]]]]]]]]]]]]]]]]]]]]]]]]]]]];
      rewrite E in *; cbn [Z.to_nat Pos.to_nat Pos.iter_op Nat.add nth lut];
      change (Z.succ 0) with 1 in *; simpl Z.succ in *;
      repeat match goal with
             | |- context [?a <=? ?b] => destruct (Z.leb_spec a b)
             end; try reflexivity; exfalso;
      repeat match goal with
             | H : context [2 ^ ?e] |- _ =>
                 let v := eval vm_compute in (2 ^ e) in
                 progress change (2 ^ e) with v in H
             end; lia.
Qed.

Lemma get_codepoint_bytes_cp_variants_agree_witness :
  get_codepoint_bytes_cp_clz 0x4E2D = get_codepoint_bytes_cp 0x4E2D.
Proof. apply get_codepoint_bytes_cp_variants_agree. lia. Defined.

(** *** The bytes of one code point *)

Lemma continuation_unit_marked (cp k : Z) :
  is_continuation (to_uchar (continuation_unit cp k)) = true.
Proof.
  unfold continuation_unit.
  change 0x3F with (Z.ones 6). rewrite (Z.land_ones (Z.shiftr cp k)) by lia.
  change (2 ^ 6) with 64.
  pose proof (Z.mod_pos_bound (Z.shiftr cp k) 64 ltac:(lia)) as Hr.
  set (r := Z.shiftr cp k mod 64) in *.
  revert r Hr.
  apply (forall_below
           (fun r => is_continuation (to_uchar (Z.lor 128 r))) 64).
  vm_compute. reflexivity.
Qed.

Lemma lead_unit_marked (w top : Z) :
  2 <= w <= 6 -> 0 <= top < 2 ^ (7 - w) ->
  is_continuation (to_uchar (Z.lor (Z.shiftr 0xFF00 w) top)) = false /\
  signals_width (to_uchar (Z.lor (Z.shiftr 0xFF00 w) top)) w = true /\
  0 <= to_uchar (Z.lor (Z.shiftr 0xFF00 w) top) < 256.
Proof.
  intros Hw Htop.
  assert (Hrange : 0 <= top < Z.of_nat 32).
  { assert (2 ^ (7 - w) <= 2 ^ 5) by (apply Z.pow_le_mono_r; lia). lia. }
  split; [|split; [|apply Z.mod_pos_bound; lia]].
  - enough (H : implb (top <? 2 ^ (7 - w))
                  (negb (is_continuation
                           (to_uchar (Z.lor (Z.shiftr 0xFF00 w) top)))) = true).
    { replace (top <? 2 ^ (7 - w)) with true in H by lia. simpl in H.
      destruct (is_continuation _); [discriminate|reflexivity]. }
    clear Htop. revert top Hrange.
    apply (forall_below
             (fun top =>
                implb (top <? 2 ^ (7 - w))
                  (negb (is_continuation
                           (to_uchar (Z.lor (Z.shiftr 0xFF00 w) top))))) 32).
    assert (Hc : w = 2 \/ w = 3 \/ w = 4 \/ w = 5 \/ w = 6) by lia.
    destruct Hc as [->|[->|[->|[->| ->]]]]; vm_compute; reflexivity.
  - enough (H : implb (top <? 2 ^ (7 - w))
                  (signals_width
                     (to_uchar (Z.lor (Z.shiftr 0xFF00 w) top)) w) = true).
    { replace (top <? 2 ^ (7 - w)) with true in H by lia. exact H. }
    clear Htop. revert top Hrange.
    apply (forall_below
             (fun top =>
                implb (top <? 2 ^ (7 - w))
                  (signals_width
                     (to_uchar (Z.lor (Z.shiftr 0xFF00 w) top)) w)) 32).
    assert (Hc : w = 2 \/ w = 3 \/ w = 4 \/ w = 5 \/ w = 6) by lia.
    destruct Hc as [->|[->|[->|[->| ->]]]]; vm_compute; reflexivity.
Qed.

Ltac encode_steps :=
  unfold utf8_encode; simpl;
  unfold utf8_encode_case6, utf8_encode_case5, utf8_encode_case4,
    utf8_encode_case3, utf8_encode_case2;
  repeat poke_step.

Lemma utf8_encode_image (cp w : Z) (dest : list Z) :
  1 <= w <= 6 -> w <= size dest ->
  utf8_encode cp dest w
  = Some (unit_image cp w ++ drop (Z.to_nat w) dest).
Proof.
  intros Hw Hd.
  assert (Hc : w = 1 \/ w = 2 \/ w = 3 \/ w = 4 \/ w = 5 \/ w = 6) by lia.
  destruct Hc as [->|[->|[->|[->|[->| ->]]]]].
  - destruct dest as [|d0 rest];
      try (unfold size in Hd; simpl in Hd; lia).
    encode_steps. reflexivity.
  - destruct dest as [|d0 [|d1 rest]];
      try (unfold size in Hd; simpl in Hd; lia).
    encode_steps. reflexivity.
  - destruct dest as [|d0 [|d1 [|d2 rest]]];
      try (unfold size in Hd; simpl in Hd; lia).
    encode_steps. reflexivity.
  - destruct dest as [|d0 [|d1 [|d2 [|d3 rest]]]];
      try (unfold size in Hd; simpl in Hd; lia).
    encode_steps. reflexivity.
  - destruct dest as [|d0 [|d1 [|d2 [|d3 [|d4 rest]]]]];
      try (unfold size in Hd; simpl in Hd; lia).
    encode_steps. reflexivity.
  - destruct dest as [|d0 [|d1 [|d2 [|d3 [|d4 [|d5 rest]]]]]];
      try (unfold size in Hd; simpl in Hd; lia).
    encode_steps. reflexivity.
Qed.

Lemma length_unit_image (cp w : Z) :
  1 <= w -> Z.of_nat (length (unit_image cp w)) = w.
Proof.
  intros Hw. unfold unit_image. destruct (w =? 1) eqn:E; simpl; [lia|].
  rewrite length_map, length_rev, length_seq. lia.
Qed.

Lemma width_range_cp (cp : Z) :
  0 <= cp <= 0x7FFFFFFF -> 1 <= get_codepoint_bytes_cp cp <= 6.
Proof.
  intros H. destruct (width_cases cp H)
    as [[Hw _]|[[Hw _]|[[Hw _]|[[Hw _]|[[Hw _]|[Hw _]]]]]]; lia.
Qed.

Lemma units_image (cp : Z) :
  0 <= cp <= 0x7FFFFFFF ->
  units cp = unit_image cp (get_codepoint_bytes_cp cp).
Proof.
  intros Hcp. pose proof (width_range_cp cp Hcp) as Hw.
  unfold units.
  assert (Hd : get_codepoint_bytes_cp cp <= size (replicate 8 0))
    by (change (size (replicate 8 0)) with 8; lia).
  rewrite (utf8_encode_image cp _ (replicate 8 0) Hw Hd).
  apply take_app_length'.
  pose proof (length_unit_image cp (get_codepoint_bytes_cp cp) ltac:(lia)).
  lia.
Qed.

Lemma utf8_encode_units (cp : Z) (dest : list Z) :
  0 <= cp <= 0x7FFFFFFF -> get_codepoint_bytes_cp cp <= size dest ->
  utf8_encode cp dest (get_codepoint_bytes_cp cp)
  = Some (units cp ++ drop (Z.to_nat (get_codepoint_bytes_cp cp)) dest).
Proof.
  intros Hcp Hd. rewrite units_image by exact Hcp.
  apply utf8_encode_image; [apply width_range_cp; exact Hcp|exact Hd].
Qed.

Lemma length_units (cp : Z) :
  0 <= cp <= 0x7FFFFFFF ->
  Z.of_nat (length (units cp)) = get_codepoint_bytes_cp cp.
Proof.
  intros Hcp. rewrite units_image by exact Hcp.
  apply length_unit_image. apply width_range_cp, Hcp.
Qed.

Lemma top_bits_range (cp w : Z) :
  0 <= cp <= 0x7FFFFFFF -> get_codepoint_bytes_cp cp = w -> 2 <= w ->
  0 <= Z.shiftr cp (6 * w - 6) < 2 ^ (7 - w).
Proof.
  intros Hcp Hw H2.
  destruct (width_cases cp Hcp)
    as [[Hw' Hr]|[[Hw' Hr]|[[Hw' Hr]|[[Hw' Hr]|[[Hw' Hr]|[Hw' Hr]]]]]];
    rewrite Hw' in Hw; subst w; try lia;
    rewrite Z.shiftr_div_pow2 by lia; simpl; Z.div_mod_to_equations; lia.
Qed.

Lemma ascii_width (cs : bool) (b len : Z) :
  0 <= b < 128 -> 0 <= len < 2 ^ 64 ->
  get_codepoint_bytes b len = 1 /\ get_codepoint_bytes_clz cs b len = 1.
Proof.
  intros Hb Hlen.
  assert (H : get_codepoint_bytes b len = 1).
  { destruct (Z_lt_le_dec len 8) as [Hs|Hl].
    - apply Z.eqb_eq. revert b Hb.
      apply (forall_below (fun b => get_codepoint_bytes b len =? 1) 128).
      destruct (small_length len ltac:(lia))
        as [->|[->|[->|[->|[->|[->|[->| ->]]]]]]]; vm_compute; reflexivity.
    - rewrite get_codepoint_bytes_long by lia.
      apply Z.eqb_eq. revert b Hb.
      apply (forall_below (fun b => get_codepoint_bytes b 7 =? 1) 128).
      vm_compute. reflexivity. }
  split; [exact H|]. rewrite <- H. apply variants_agree; lia.
Qed.

(** X2: the first byte that [utf8_encode] writes announces the width the
    code point was encoded with: given at least that many remaining bytes,
    both variants of [get_codepoint_bytes(char, size_t)] return it. *)
Theorem lead_byte_announces_width (cs : bool) (cp len : Z) (dest out : list Z) :
  0 <= cp <= 0x7FFFFFFF ->
  get_codepoint_bytes_cp cp <= size dest ->
  utf8_encode cp dest (get_codepoint_bytes_cp cp) = Some out ->
  get_codepoint_bytes_cp cp <= len < 2 ^ 64 ->
  exists b0,
    out !! 0%nat = Some b0 /\
    get_codepoint_bytes b0 len = get_codepoint_bytes_cp cp /\
    get_codepoint_bytes_clz cs b0 len = get_codepoint_bytes_cp cp.
Proof.
  intros Hcp Hd Henc Hlen.
  rewrite utf8_encode_units in Henc by assumption. injection Henc as <-.
  rewrite units_image by exact Hcp.
  pose proof (width_range_cp cp Hcp) as Hw.
  set (w := get_codepoint_bytes_cp cp) in *.
  unfold unit_image. destruct (w =? 1) eqn:E1.
  - exists (to_uchar cp). split; [reflexivity|].
    assert (Hsmall : cp < 128).
    { destruct (width_cases cp Hcp)
        as [[Hw' Hr]|[[Hw' Hr]|[[Hw' Hr]|[[Hw' Hr]|[[Hw' Hr]|[Hw' Hr]]]]]];
        fold w in Hw'; lia. }
    unfold to_uchar. rewrite Z.mod_small by lia.
    replace w with 1 by lia. apply ascii_width; lia.
  - eexists. split; [reflexivity|].
    pose proof (top_bits_range cp w Hcp eq_refl ltac:(lia)) as Htop.
    pose proof (lead_unit_marked w _ ltac:(lia) Htop) as (_ & Hsig & Hb).
    pose proof (width_guarded_by_length cs _ w len Hb Hsig ltac:(lia))
      as [H1 H2].
    replace (len <? w) with false in * by lia. auto.
Qed.

Lemma lead_byte_announces_width_witness :
  exists b0,
    [0xE4; 0xB8; 0xAD] !! 0%nat = Some b0 /\
    get_codepoint_bytes b0 3 = get_codepoint_bytes_cp 0x4E2D /\
    get_codepoint_bytes_clz true b0 3 = get_codepoint_bytes_cp 0x4E2D.
Proof.
  apply (lead_byte_announces_width true 0x4E2D 3 [0; 0; 0] [0xE4; 0xB8; 0xAD]);
    [lia | vm_compute; discriminate | reflexivity | vm_compute; split;
     [discriminate | reflexivity]].
Defined.

(** *** Whole texts *)

Lemma first_unit_not_continuation (cp : Z) :
  0 <= cp <= 0x7FFFFFFF ->
  exists b0 tl,
    units cp = b0 :: tl /\ is_continuation b0 = false /\
    Forall (fun b => is_continuation b = true) tl.
Proof.
  intros Hcp. rewrite units_image by exact Hcp.
  pose proof (width_range_cp cp Hcp) as Hw.
  set (w := get_codepoint_bytes_cp cp) in *.
  unfold unit_image. destruct (w =? 1) eqn:E1.
  - exists (to_uchar cp), []. split; [reflexivity|]. split; [|constructor].
    assert (Hsmall : cp < 128).
    { destruct (width_cases cp Hcp)
        as [[Hw' Hr]|[[Hw' Hr]|[[Hw' Hr]|[[Hw' Hr]|[[Hw' Hr]|[Hw' Hr]]]]]];
        fold w in Hw'; lia. }
    unfold to_uchar. rewrite Z.mod_small by lia.
    assert (Hb : 0 <= cp < Z.of_nat 128) by lia.
    apply negb_true_iff. revert Hb. generalize cp.
    apply (forall_below (fun b => negb (is_continuation b)) 128).
    vm_compute. reflexivity.
  - eexists _, _. split; [reflexivity|].
    pose proof (top_bits_range cp w Hcp eq_refl ltac:(lia)) as Htop.
    pose proof (lead_unit_marked w _ ltac:(lia) Htop) as (Hlead & _ & _).
    split; [exact Hlead|].
    apply Forall_map. apply Forall_forall. intros k _.
    apply continuation_unit_marked.
Qed.

Lemma count_continuation_run (tl rest : list Z) (n : Z) :
  Forall (fun b => is_continuation b = true) tl ->
  match rest with
  | [] => True
  | b :: _ => is_continuation b = false
  end ->
  0 <= n -> n + Z.of_nat (length tl) < 256 ->
  count_continuation (tl ++ rest) n = n + Z.of_nat (length tl).
Proof.
  intros Htl Hrest. revert n.
  induction Htl as [|b tl Hb Htl IH]; intros n Hn Hlt; simpl.
  - destruct rest as [|b rest']; simpl; [lia|].
    unfold is_continuation in Hrest. rewrite Hrest. lia.
  - unfold is_continuation in Hb. rewrite Hb.
    simpl in Hlt. unfold to_width. rewrite Z.mod_small by lia.
    rewrite IH by lia. lia.
Qed.

Lemma utf8_encode_then_decode (T : code_type) (cp : Z) (dest : list Z) :
  0 <= cp <= 0x7FFFFFFF -> cp < 2 ^ code_bits T ->
  get_codepoint_bytes_cp cp <= size dest ->
  exists out,
    utf8_encode cp dest (get_codepoint_bytes_cp cp) = Some out /\
    utf8_decode T out (get_codepoint_bytes_cp cp) = Some cp.
Proof.
  intros Hcp Hb Hd.
  destruct (width_cases cp Hcp)
    as [[Hw Hr]|[[Hw Hr]|[[Hw Hr]|[[Hw Hr]|[[Hw Hr]|[Hw Hr]]]]]];
    rewrite Hw in *.
  - apply utf8_round_trip_1; [lia|exact Hd].
  - apply utf8_round_trip_2; assumption.
  - apply utf8_round_trip_3; assumption.
  - apply utf8_round_trip_4; assumption.
  - apply utf8_round_trip_5; assumption.
  - apply utf8_round_trip_6; assumption.
Qed.

Lemma width_of_units (cp : Z) (rest : list Z) :
  0 <= cp <= 0x7FFFFFFF ->
  match rest with
  | [] => True
  | b :: _ => is_continuation b = false
  end ->
  get_num_bytes_of_utf8_char (units cp ++ rest) = get_codepoint_bytes_cp cp.
Proof.
  intros Hcp Hrest.
  pose proof (length_units cp Hcp) as Hlen.
  pose proof (width_range_cp cp Hcp) as Hw.
  destruct (first_unit_not_continuation cp Hcp) as (b0 & tl & Hu & _ & Htl).
  rewrite Hu in *. simpl in Hlen.
  unfold get_num_bytes_of_utf8_char. simpl.
  rewrite count_continuation_run; auto; lia.
Qed.

Lemma utf8_decode_units (T : code_type) (cp : Z) (rest : list Z) :
  encodable T cp ->
  utf8_decode T (units cp ++ rest) (get_codepoint_bytes_cp cp) = Some cp.
Proof.
  intros [Hcp Hb].
  pose proof (length_units cp Hcp) as Hlen.
  destruct (utf8_encode_then_decode T cp (units cp ++ rest) Hcp Hb) as (out & Henc & Hdec).
  { unfold size. rewrite length_app. lia. }
  rewrite utf8_encode_units in Henc
    by (try exact Hcp; unfold size; rewrite length_app; lia).
  injection Henc as <-.
  rewrite drop_app_length' in Hdec by lia. exact Hdec.
Qed.

Lemma encoded_head (cps : list Z) :
  Forall (fun cp => 0 <= cp <= 0x7FFFFFFF) cps ->
  match concat (map units cps) with
  | [] => True
  | b :: _ => is_continuation b = false
  end.
Proof.
  intros H. destruct H as [|cp cps Hcp _]; simpl; [exact I|].
  destruct (first_unit_not_continuation cp Hcp) as (b0 & tl & -> & Hb & _).
  exact Hb.
Qed.

Lemma poke_middle (pre post : list Z) (old v : Z) :
  0 <= v < 256 ->
  poke (pre ++ old :: post) (Z.of_nat (length pre)) v
  = Some (pre ++ v :: post).
Proof.
  intros Hv. rewrite poke_inside
    by (unfold size; rewrite length_app; simpl; lia).
  rewrite Nat2Z.id. unfold to_uchar. rewrite Z.mod_small by lia.
  f_equal. rewrite insert_app_r_alt by lia.
  rewrite Nat.sub_diag. reflexivity.
Qed.

Lemma copy_units_spec (todo : list Z) :
  forall (done mid tl pre written post : list Z),
    Forall (fun b => 0 <= b < 256) todo ->
    length mid = length todo -> length written = length done ->
    copy_units (length todo) (Z.of_nat (length done))
      (done ++ todo ++ tl) (pre ++ written ++ mid ++ post)
      (Z.of_nat (length pre))
    = Some (pre ++ written ++ todo ++ post).
Proof.
  induction todo as [|b todo IH]; intros done mid tl pre written post Hb Hm Hw.
  - destruct mid; [reflexivity|discriminate].
  - destruct mid as [|m mid]; [discriminate|].
    inversion Hb as [|? ? Hb0 Hb']; subst. cbn [length copy_units].
    rewrite Nat2Z.id.
    rewrite lookup_app_r by lia. rewrite Nat.sub_diag.
    change (((b :: todo) ++ tl) !! 0%nat) with (Some b).
    change (Some b ≫= ?f) with (f b). cbv beta.
    replace (Z.of_nat (length pre) + Z.of_nat (length done))
      with (Z.of_nat (length (pre ++ written)))
      by (rewrite length_app; lia).
    rewrite (app_assoc pre written).
    change ((m :: mid) ++ post) with (m :: mid ++ post).
    rewrite poke_middle by exact Hb0.
    change (Some ?x ≫= ?f) with (f x). cbv beta.
    rewrite <- (app_assoc pre written).
    replace (Z.of_nat (length done) + 1)
      with (Z.of_nat (length (done ++ [b])))
      by (rewrite length_app; simpl; lia).
    specialize (IH (done ++ [b]) mid tl pre (written ++ [b]) post Hb').
    rewrite <- !app_assoc in IH. simpl in IH.
    change ((b :: todo) ++ tl) with (b :: todo ++ tl).
    change ((b :: todo) ++ post) with (b :: todo ++ post).
    rewrite IH; [reflexivity|simpl in Hm; lia|rewrite !length_app; simpl; lia].
Qed.

Lemma units_are_bytes (cp : Z) :
  0 <= cp <= 0x7FFFFFFF -> Forall (fun b => 0 <= b < 256) (units cp).
Proof.
  intros Hcp. rewrite units_image by exact Hcp. unfold unit_image.
  destruct (_ =? 1).
  - repeat constructor; apply Z.mod_pos_bound; lia.
  - constructor; [apply Z.mod_pos_bound; lia|].
    apply Forall_map, Forall_forall. intros k _. apply Z.mod_pos_bound. lia.
Qed.

Lemma encoded_size_sum (cps : list Z) :
  Forall (fun cp => 0 <= cp <= 0x7FFFFFFF) cps ->
  forall cur,
    0 <= cur ->
    cur + Z.of_nat (length (concat (map units cps))) < 2 ^ 64 ->
    encoded_size cps cur = cur + Z.of_nat (length (concat (map units cps))).
Proof.
  induction 1 as [|cp cps Hcp _ IH]; intros cur Hcur Hlt; simpl in *; [lia|].
  rewrite length_app in Hlt. pose proof (length_units cp Hcp) as Hl.
  pose proof (width_range_cp cp Hcp) as Hw.
  rewrite size_t_small by lia. rewrite IH by lia.
  rewrite length_app. lia.
Qed.

Lemma encode_loop_spec (cps : list Z) :
  Forall (fun cp => 0 <= cp <= 0x7FFFFFFF) cps ->
  forall (dest pre mid post : list Z),
    length dest = 8%nat ->
    length mid = length (concat (map units cps)) ->
    Z.of_nat (length pre) + Z.of_nat (length mid) < 2 ^ 64 ->
    encode_loop cps dest (pre ++ mid ++ post) (Z.of_nat (length pre))
    = Some (pre ++ concat (map units cps) ++ post).
Proof.
  induction 1 as [|cp cps Hcp Hcps IH]; intros dest pre mid post Hd Hm Hlt.
  - destruct mid; [reflexivity|discriminate].
  - cbn [encode_loop map concat].
    pose proof (length_units cp Hcp) as Hl.
    pose proof (width_range_cp cp Hcp) as Hw.
    rewrite utf8_encode_units by (try exact Hcp; unfold size; lia).
    cbn [mbind option_bind].
    simpl in Hm. rewrite length_app in Hm.
    replace mid with (take (length (units cp)) mid
                        ++ drop (length (units cp)) mid)
      by apply take_drop.
    rewrite <- (app_assoc _ _ post).
    replace (Z.to_nat (get_codepoint_bytes_cp cp)) with (length (units cp))
      by lia.
    pose proof (copy_units_spec (units cp) [] (take (length (units cp)) mid)
                  (drop (length (units cp)) dest) pre []
                  (drop (length (units cp)) mid ++ post)
                  (units_are_bytes cp Hcp)) as Hcopy.
    change (Z.of_nat (length (@nil Z))) with 0 in Hcopy.
    change (@nil Z ++ ?x) with x in Hcopy.
    rewrite Hcopy by (try rewrite length_take; lia).
    change (Some ?x ≫= ?f) with (f x). cbv beta.
    rewrite size_t_small by lia.
    replace (Z.of_nat (length pre) + get_codepoint_bytes_cp cp)
      with (Z.of_nat (length (pre ++ units cp)))
      by (rewrite length_app; lia).
    rewrite (app_assoc pre (units cp)).
    rewrite IH.
    + rewrite <- !app_assoc. reflexivity.
    + rewrite length_app, length_drop. lia.
    + rewrite length_drop. lia.
    + rewrite length_app, length_drop. lia.
Qed.

Lemma encode_spec (dest cps : list Z) :
  Forall (fun cp => 0 <= cp <= 0x7FFFFFFF) cps ->
  length dest = 8%nat ->
  Z.of_nat (length (concat (map units cps))) < 2 ^ 64 ->
  encode dest cps = Some (concat (map units cps)).
Proof.
  intros Hcps Hd Hlt. unfold encode.
  rewrite encoded_size_sum by (auto; lia).
  change (0 + ?x) with x. rewrite Nat2Z.id.
  pose proof (encode_loop_spec cps Hcps dest []
                (replicate (length (concat (map units cps))) 0) [] Hd) as H.
  change (Z.of_nat (length (@nil Z))) with 0 in H.
  change (@nil Z ++ ?x) with x in H.
  rewrite !app_nil_r in H. apply H.
  - apply length_replicate.
  - rewrite length_replicate. lia.
Qed.

Lemma advance_app (pre rest : list Z) :
  advance (pre ++ rest) (Z.of_nat (length pre)) = rest.
Proof. unfold advance. rewrite Nat2Z.id. apply drop_app_length. Qed.

Lemma units_nonempty (cp : Z) :
  0 <= cp <= 0x7FFFFFFF -> (0 < length (units cp))%nat.
Proof.
  intros Hcp. pose proof (length_units cp Hcp).
  pose proof (width_range_cp cp Hcp). lia.
Qed.

Lemma encodable_range (T : code_type) (cps : list Z) :
  Forall (encodable T) cps -> Forall (fun cp => 0 <= cp <= 0x7FFFFFFF) cps.
Proof. apply Forall_impl. intros cp [H _]. exact H. Qed.

Lemma decode_loop_spec (T : code_type) (rest : list Z) :
  Forall (encodable T) rest ->
  forall (pre acc : list Z) (fuel : nat),
    (length rest < fuel)%nat ->
    size (pre ++ concat (map units rest)) < 2 ^ 63 ->
    decode_loop fuel T (pre ++ concat (map units rest))
      (Z.of_nat (length pre)) acc
    = Returns (acc ++ rest).
Proof.
  induction 1 as [|cp rest Hcp Hrest IH]; intros pre acc fuel Hfuel Hsize;
    (destruct fuel as [|fuel]; [simpl in Hfuel; lia|]); cbn [decode_loop].
  - simpl. rewrite app_nil_r. unfold size.
    rewrite Z.ltb_irrefl. rewrite app_nil_r. reflexivity.
  - pose proof Hcp as [Hr _].
    pose proof (units_nonempty cp Hr) as Hne.
    pose proof (length_units cp Hr) as Hl.
    cbn [map concat] in *.
    unfold size in *. rewrite !length_app in Hsize.
    replace (Z.of_nat (length pre) <?
             Z.of_nat (length (pre ++ units cp ++ concat (map units rest))))
      with true by (symmetry; apply Z.ltb_lt; rewrite !length_app; lia).
    rewrite advance_app. unfold utf8_decode_len.
    rewrite width_of_units
      by (try exact Hr; apply encoded_head, (encodable_range T), Hrest).
    rewrite utf8_decode_units by exact Hcp. cbn [mbind option_bind].
    rewrite size_t_small by lia.
    replace (Z.of_nat (length pre) + get_codepoint_bytes_cp cp)
      with (Z.of_nat (length (pre ++ units cp)))
      by (rewrite length_app; lia).
    rewrite (app_assoc pre (units cp)).
    rewrite IH.
    + rewrite <- app_assoc. reflexivity.
    + simpl in Hfuel. lia.
    + rewrite !length_app. lia.
Qed.

Lemma get_characters_number_loop_spec (rest : list Z) :
  Forall (fun cp => 0 <= cp <= 0x7FFFFFFF) rest ->
  forall (pre : list Z) (idx : Z) (fuel : nat),
    (length rest < fuel)%nat -> 0 <= idx ->
    size (pre ++ concat (map units rest)) < 2 ^ 63 ->
    idx + Z.of_nat (length rest) < 2 ^ 64 ->
    get_characters_number_loop fuel (pre ++ concat (map units rest))
      (Z.of_nat (length pre)) idx
    = Returns (idx + Z.of_nat (length rest)).
Proof.
  induction 1 as [|cp rest Hr Hrest IH]; intros pre idx fuel Hfuel Hidx Hsize Hn;
    (destruct fuel as [|fuel]; [simpl in Hfuel; lia|]);
    cbn [get_characters_number_loop].
  - simpl. rewrite app_nil_r. unfold size.
    rewrite Z.ltb_irrefl. f_equal. lia.
  - pose proof (units_nonempty cp Hr) as Hne.
    pose proof (length_units cp Hr) as Hl.
    cbn [map concat length] in *.
    unfold size in *. rewrite !length_app in Hsize.
    replace (Z.of_nat (length pre) <?
             Z.of_nat (length (pre ++ units cp ++ concat (map units rest))))
      with true by (symmetry; apply Z.ltb_lt; rewrite !length_app; lia).
    rewrite advance_app.
    rewrite width_of_units by (try exact Hr; apply encoded_head, Hrest).
    rewrite !size_t_small by lia.
    replace (Z.of_nat (length pre) + get_codepoint_bytes_cp cp)
      with (Z.of_nat (length (pre ++ units cp)))
      by (rewrite length_app; lia).
    rewrite (app_assoc pre (units cp)).
    rewrite IH; [f_equal; lia|lia|lia|rewrite !length_app; lia|lia].
Qed.

Lemma encoded_length_bounds (cps : list Z) :
  Forall (fun cp => 0 <= cp <= 0x7FFFFFFF) cps ->
  (length cps <= length (concat (map units cps)) <= 6 * length cps)%nat.
Proof.
  induction 1 as [|cp cps Hcp _ IH]; simpl; [lia|].
  rewrite length_app. pose proof (length_units cp Hcp).
  pose proof (width_range_cp cp Hcp). lia.
Qed.

(** X3: what the free function [encode] makes of code points that the codec
    covers, [decode] turns back into the same code points. *)
Theorem decode_encode (T : code_type) (dest cps : list Z) :
  Forall (encodable T) cps -> length dest = 8%nat ->
  Z.of_nat (length cps) < 2 ^ 60 ->
  exists bytes,
    encode dest cps = Some bytes /\ decode T bytes = Returns cps.
Proof.
  intros Hcps Hd Hn.
  pose proof (encodable_range T cps Hcps) as Hr.
  pose proof (encoded_length_bounds cps Hr) as Hb.
  exists (concat (map units cps)). split.
  - apply encode_spec; auto. lia.
  - unfold decode, iterations.
    apply (decode_loop_spec T cps Hcps [] []); simpl; [lia|unfold size; lia].
Qed.

Lemma decode_encode_witness :
  exists bytes,
    encode [0; 0; 0; 0; 0; 0; 0; 0] [0x61; 0x4E2D; 0x62] = Some bytes /\
    decode Char32 bytes = Returns [0x61; 0x4E2D; 0x62].
Proof.
  apply (decode_encode Char32); [|reflexivity|simpl; lia].
  repeat constructor; simpl; lia.
Defined.

(** X4: the text [encode] produces has as many characters, by
    [get_characters_number], as there were code points. *)
Theorem get_characters_number_encode (dest cps bytes : list Z) :
  Forall (fun cp => 0 <= cp <= 0x7FFFFFFF) cps -> length dest = 8%nat ->
  Z.of_nat (length cps) < 2 ^ 60 ->
  encode dest cps = Some bytes ->
  get_characters_number bytes = Returns (Z.of_nat (length cps)).
Proof.
  intros Hr Hd Hn Henc.
  pose proof (encoded_length_bounds cps Hr) as Hb.
  rewrite encode_spec in Henc by (auto; lia). injection Henc as <-.
  unfold get_characters_number, iterations.
  apply (get_characters_number_loop_spec cps Hr [] 0);
    simpl; [lia|lia|unfold size; lia|lia].
Qed.

Lemma get_characters_number_encode_witness :
  get_characters_number a_zhong_b
  = Returns (Z.of_nat (length [0x61; 0x4E2D; 0x62])).
Proof.
  apply (get_characters_number_encode [0; 0; 0; 0; 0; 0; 0; 0]);
    [|reflexivity|simpl; lia|reflexivity].
  repeat constructor; lia.
Defined.

(** ** Walks over a whole text *)

Lemma count_continuation_bounds (rest : list Z) (n : Z) :
  0 <= n -> n + Z.of_nat (length rest) < 256 ->
  n <= count_continuation rest n <= n + Z.of_nat (length rest).
Proof.
  revert n. induction rest as [|b rest IH]; intros n Hn Hlt; simpl in *; [lia|].
  destruct (Z.land b 192 =? 128); [|lia].
  unfold to_width. rewrite Z.mod_small by lia.
  specialize (IH (n + 1)). lia.
Qed.

Lemma width_bounds (str : list Z) :
  size str < 256 ->
  1 <= get_num_bytes_of_utf8_char str <= Z.max 1 (size str).
Proof.
  intros H. unfold get_num_bytes_of_utf8_char, size in *.
  destruct str as [|b rest]; simpl in *; [lia|].
  pose proof (count_continuation_bounds rest 1). lia.
Qed.

Lemma short_text_steps_forward (str : list Z) :
  size str < 256 -> steps_forward str.
Proof.
  intros H i o _.
  assert (size (advance str o) < 256).
  { unfold size, advance in *. rewrite length_drop. lia. }
  pose proof (width_bounds (advance str o)). lia.
Qed.

Lemma char_offset_none (str : list Z) (j m : nat) :
  char_offset str j = None -> char_offset str (j + m) = None.
Proof.
  intros H. destruct (char_offset str (j + m)) as [o|] eqn:E; [|reflexivity].
  apply char_offset_prefix in E as [oj E]. congruence.
Qed.

Lemma char_offset_succ (str : list Z) (j : nat) (oj : Z) :
  char_offset str j = Some oj ->
  0 < get_num_bytes_of_utf8_char (advance str oj) ->
  char_offset str (S j)
  = if oj + get_num_bytes_of_utf8_char (advance str oj) <? size str
    then Some (oj + get_num_bytes_of_utf8_char (advance str oj))
    else None.
Proof.
  intros Hj Hw. cbn [char_offset]. rewrite Hj.
  change (Some oj ≫= ?f) with (f oj). cbv beta zeta.
  replace (0 <? get_num_bytes_of_utf8_char (advance str oj)) with true by lia.
  reflexivity.
Qed.

Lemma get_characters_number_loop_counts (str : list Z) :
  size str < 2 ^ 63 -> steps_forward str ->
  forall (fuel j : nat) (oj : Z),
    char_offset str j = Some oj ->
    size str - oj < Z.of_nat fuel ->
    exists m : nat,
      get_characters_number_loop fuel str oj (Z.of_nat j)
      = Returns (Z.of_nat (S (j + m))) /\
      is_Some (char_offset str (j + m)) /\
      char_offset str (S (j + m)) = None.
Proof.
  intros Hsize Hstep. induction fuel as [|fuel IH]; intros j oj Hj Hfuel.
  - apply char_offset_bounds in Hj. lia.
  - pose proof (char_offset_bounds str j oj Hj) as Hb.
    pose proof (Hstep j oj Hj) as Hw.
    pose proof (width_range (advance str oj)) as Hr.
    pose proof (char_offset_succ str j oj Hj Hw) as Hnext.
    cbn [get_characters_number_loop].
    replace (oj <? size str) with true by lia.
    rewrite !size_t_small by lia.
    replace (Z.of_nat j + 1) with (Z.of_nat (S j)) by lia.
    destruct (oj + get_num_bytes_of_utf8_char (advance str oj) <? size str)
      eqn:Hin.
    + destruct (IH (S j) _ Hnext) as (m & Hrun & Hlast & Hend); [lia|].
      exists (S m). replace (j + S m)%nat with (S j + m)%nat by lia.
      auto.
    + exists 0%nat. rewrite Nat.add_0_r. split; [|split; [eauto|exact Hnext]].
      destruct fuel as [|fuel]; [lia|]. cbn [get_characters_number_loop].
      replace (_ <? size str) with false by lia. reflexivity.
Qed.

(** X5: on a text in which no width wraps to zero, [get_characters_number]
    returns, and what it returns is the number of characters: exactly the
    indices below it have a start offset. *)
Theorem get_characters_number_counts (str : list Z) :
  size str < 2 ^ 63 -> steps_forward str ->
  exists n : nat,
    get_characters_number str = Returns (Z.of_nat n) /\
    Z.of_nat n <= size str /\
    forall i : nat, is_Some (char_offset str i) <-> (i < n)%nat.
Proof.
  intros Hsize Hstep. unfold get_characters_number, iterations.
  destruct (char_offset str 0) as [o|] eqn:H0.
  - assert (o = 0) as ->.
    { simpl in H0. destruct (0 <? size str); congruence. }
    destruct (get_characters_number_loop_counts str Hsize Hstep
                (S (length str)) 0%nat 0 H0) as (m & Hrun & [o Hlast] & Hend).
    { unfold size. lia. }
    exists (S m). simpl in *. split; [exact Hrun|].
    pose proof (char_offset_bounds str m o Hlast) as Hb.
    split; [lia|]. intros i. split.
    + intros [oi Hi]. destruct (decide (i < S m)%nat) as [|Hge]; [assumption|].
      replace i with (S m + (i - S m))%nat in Hi by lia.
      rewrite char_offset_none in Hi by exact Hend. discriminate.
    + intros Hi. replace m with (i + (m - i))%nat in Hlast by lia.
      apply char_offset_prefix in Hlast. exact Hlast.
  - exists 0%nat. simpl in H0.
    destruct (0 <? size str) eqn:E; [discriminate|].
    cbn [get_characters_number_loop]. rewrite E.
    split; [reflexivity|]. split; [unfold size; lia|].
    intros i. split; [|lia]. intros [oi Hi].
    pose proof (char_offset_bounds str i oi Hi). lia.
Qed.

Lemma get_characters_number_counts_witness :
  exists n : nat,
    get_characters_number a_zhong_b = Returns (Z.of_nat n) /\
    Z.of_nat n <= size a_zhong_b /\
    forall i : nat, is_Some (char_offset a_zhong_b i) <-> (i < n)%nat.
Proof.
  apply (get_characters_number_counts a_zhong_b).
  - vm_compute. reflexivity.
  - apply short_text_steps_forward. vm_compute. reflexivity.
Defined.

Lemma get_characters_number_loop_stuck (str : list Z) (o : Z) :
  0 <= o < size str -> size str < 2 ^ 63 ->
  get_num_bytes_of_utf8_char (advance str o) = 0 ->
  forall (fuel : nat) (idx : Z),
    get_characters_number_loop fuel str o idx = Hangs.
Proof.
  intros Ho Hsize Hw. induction fuel as [|fuel IH]; intros idx; [reflexivity|].
  cbn [get_characters_number_loop].
  replace (o <? size str) with true by lia.
  rewrite Hw, Z.add_0_r, (size_t_small o) by lia. apply IH.
Qed.

Lemma byte2index_loop_stuck (str : list Z) (o bytes : Z) :
  0 <= o < size str -> size str < 2 ^ 63 -> o < bytes ->
  get_num_bytes_of_utf8_char (advance str o) = 0 ->
  forall (fuel : nat) (idx : Z),
    byte2index_loop fuel str bytes idx o = Hangs.
Proof.
  intros Ho Hsize Hlt Hw.
  induction fuel as [|fuel IH]; intros idx; [reflexivity|].
  cbn [byte2index_loop].
  replace (o <? size str) with true by lia.
  replace (o =? bytes) with false by lia.
  replace (bytes <? o) with false by lia.
  rewrite Hw, Z.add_0_r, (size_t_small o) by lia. apply IH.
Qed.

Lemma get_characters_number_loop_hangs (str : list Z) (o : Z) (m : nat) :
  size str < 2 ^ 63 ->
  get_num_bytes_of_utf8_char (advance str o) = 0 ->
  forall (j : nat) (oj : Z) (fuel : nat) (idx : Z),
    char_offset str j = Some oj ->
    char_offset str (j + m) = Some o ->
    get_characters_number_loop fuel str oj idx = Hangs.
Proof.
  intros Hsize Hw. induction m as [|m IH]; intros j oj fuel idx Hj Ho.
  - rewrite Nat.add_0_r in Ho. rewrite Hj in Ho. injection Ho as ->.
    apply char_offset_bounds in Hj.
    apply get_characters_number_loop_stuck; auto; lia.
  - destruct fuel as [|fuel]; [reflexivity|].
    cbn [get_characters_number_loop].
    pose proof (char_offset_next str j m oj o Hj Ho) as Hnext.
    pose proof (char_offset_bounds str j oj Hj) as Hb.
    pose proof (char_offset_bounds str (S j) _ Hnext) as Hb'.
    replace (oj <? size str) with true by lia.
    rewrite (size_t_small (oj + _)) by lia.
    replace (j + S m)%nat with (S j + m)%nat in Ho by lia.
    apply (IH (S j)); assumption.
Qed.

Lemma byte2index_loop_hangs (str : list Z) (o bytes : Z) (m : nat) :
  size str < 2 ^ 63 -> o < bytes ->
  get_num_bytes_of_utf8_char (advance str o) = 0 ->
  forall (j : nat) (oj : Z) (fuel : nat) (idx : Z),
    char_offset str j = Some oj ->
    char_offset str (j + m) = Some o ->
    byte2index_loop fuel str bytes idx oj = Hangs.
Proof.
  intros Hsize Hlt Hw. induction m as [|m IH]; intros j oj fuel idx Hj Ho.
  - rewrite Nat.add_0_r in Ho. rewrite Hj in Ho. injection Ho as ->.
    apply char_offset_bounds in Hj.
    apply byte2index_loop_stuck; auto; lia.
  - destruct fuel as [|fuel]; [reflexivity|].
    cbn [byte2index_loop].
    pose proof (char_offset_increasing str j m oj o Hj Ho) as Hinc.
    pose proof (char_offset_next str j m oj o Hj Ho) as Hnext.
    pose proof (char_offset_bounds str j oj Hj) as Hb.
    pose proof (char_offset_bounds str (S j) _ Hnext) as Hb'.
    replace (oj <? size str) with true by lia.
    replace (oj =? bytes) with false by lia.
    replace (bytes <? oj) with false by lia.
    rewrite (size_t_small (oj + _)) by lia.
    replace (j + S m)%nat with (S j + m)%nat in Ho by lia.
    apply (IH (S j)); assumption.
Qed.

(** X6: where the 8-bit [width_type] has wrapped and a character has width
    zero, [get_characters_number] never returns, whatever the number of
    iterations, and neither does [byte2index] for a byte offset behind that
    character. *)
Theorem zero_width_never_returns (str : list Z) (i : nat) (o : Z) :
  size str < 2 ^ 63 ->
  char_offset str i = Some o ->
  get_num_bytes_of_utf8_char (advance str o) = 0 ->
  forall fuel : nat,
    get_characters_number_loop fuel str 0 0 = Hangs /\
    forall bytes : Z, o < bytes -> byte2index_loop fuel str bytes 0 0 = Hangs.
Proof.
  intros Hsize Ho Hw fuel.
  pose proof (char_offset_bounds str i o Ho) as Hb.
  assert (H0 : char_offset str 0 = Some 0).
  { simpl. replace (0 <? size str) with true by lia. reflexivity. }
  split.
  - apply (get_characters_number_loop_hangs str o i Hsize Hw 0%nat); auto.
  - intros bytes Hlt.
    apply (byte2index_loop_hangs str o bytes i Hsize Hlt Hw 0%nat); auto.
Qed.

Lemma zero_width_never_returns_witness :
  get_characters_number_loop 1000 (0x61 :: replicate 255 0x80) 0 0 = Hangs /\
  forall bytes : Z,
    0 < bytes ->
    byte2index_loop 1000 (0x61 :: replicate 255 0x80) bytes 0 0 = Hangs.
Proof.
  refine (zero_width_never_returns (0x61 :: replicate 255 0x80) 0 0
            _ _ _ 1000%nat);
    vm_compute; reflexivity.
Defined.

Lemma byte2index_loop_misses (str : list Z) (bytes : Z) :
  size str < 2 ^ 63 -> steps_forward str ->
  (forall i : nat, char_offset str i <> Some bytes) ->
  forall (fuel j : nat) (oj idx : Z),
    char_offset str j = Some oj ->
    size str - oj < Z.of_nat fuel ->
    byte2index_loop fuel str bytes idx oj = Returns npos.
Proof.
  intros Hsize Hstep Hoff.
  induction fuel as [|fuel IH]; intros j oj idx Hj Hfuel.
  - apply char_offset_bounds in Hj. lia.
  - pose proof (char_offset_bounds str j oj Hj) as Hb.
    pose proof (Hstep j oj Hj) as Hw.
    pose proof (width_range (advance str oj)) as Hr.
    pose proof (char_offset_succ str j oj Hj Hw) as Hnext.
    cbn [byte2index_loop].
    replace (oj <? size str) with true by lia.
    assert (oj <> bytes) by (intros ->; exact (Hoff j Hj)).
    replace (oj =? bytes) with false by lia.
    destruct (bytes <? oj); [reflexivity|].
    rewrite (size_t_small (oj + _)) by lia.
    destruct (oj + get_num_bytes_of_utf8_char (advance str oj) <? size str)
      eqn:Hin.
    + apply (IH (S j)); [exact Hnext|lia].
    + destruct fuel as [|fuel]; [lia|]. cbn [byte2index_loop].
      replace (_ <? size str) with false by lia. reflexivity.
Qed.

(** X7: on a text in which no width wraps to zero, [byte2index] answers
    [npos] for every byte offset at which no character starts, inside the
    text or past its end. *)
Theorem byte2index_off_character (str : list Z) (bytes : Z) :
  size str < 2 ^ 63 -> steps_forward str ->
  (forall i : nat, char_offset str i <> Some bytes) ->
  byte2index str bytes = Returns npos.
Proof.
  intros Hsize Hstep Hoff. unfold byte2index, iterations.
  destruct (0 <? size str) eqn:E.
  - apply (byte2index_loop_misses str bytes Hsize Hstep Hoff _ 0%nat).
    + simpl. rewrite E. reflexivity.
    + unfold size. lia.
  - cbn [byte2index_loop]. rewrite E. reflexivity.
Qed.

Lemma byte2index_off_character_witness :
  byte2index a_zhong_b 2 = Returns npos.
Proof.
  apply (byte2index_off_character a_zhong_b 2).
  - vm_compute. reflexivity.
  - apply short_text_steps_forward. vm_compute. reflexivity.
  - intros i H. pose proof (char_offset_bounds a_zhong_b i 2 H) as Hb.
    assert (Hi : (i = 0 \/ i = 1 \/ i = 2)%nat) by lia.
    destruct Hi as [-> | [-> | ->]]; vm_compute in H; discriminate.
Defined.

Lemma index2byte_loop_past_end (str : list Z) (index : Z) (fuel : nat) :
  forall cur idx n,
    0 <= idx -> idx + Z.of_nat fuel < 2 ^ 64 ->
    get_characters_number_loop fuel str cur idx = Returns n ->
    n <= index ->
    index2byte_loop fuel str index idx cur = Returns npos.
Proof.
  induction fuel as [|fuel IH]; intros cur idx n Hidx Hfuel H Hn; simpl in *.
  - discriminate.
  - destruct (cur <? size str); [|reflexivity].
    rewrite (size_t_small (idx + 1)) in * by lia.
    pose proof H as Hge.
    apply get_characters_number_loop_ge in Hge; [|lia|lia].
    replace (idx =? index) with false by lia.
    eapply IH; [| |exact H|exact Hn]; lia.
Qed.

(** X8: for a text whose characters [get_characters_number] counts as [n],
    [index2byte] answers [npos] for every character index from [n] on. *)
Theorem index2byte_past_the_end (str : list Z) (n index : Z) :
  size str < 2 ^ 63 ->
  get_characters_number str = Returns n ->
  n <= index ->
  index2byte str index = Returns npos.
Proof.
  intros Hsize Hn Hidx.
  unfold get_characters_number, index2byte, iterations in *.
  eapply index2byte_loop_past_end; [| |exact Hn|exact Hidx];
    unfold size in Hsize; lia.
Qed.

Lemma index2byte_past_the_end_witness :
  index2byte a_zhong_b 3 = Returns npos.
Proof.
  apply (index2byte_past_the_end a_zhong_b 3 3);
    [vm_compute; reflexivity | reflexivity | lia].
Defined.

(** ** The bulk maps and the single lookups *)

Lemma index2byte_map_loop_spec (str : list Z) :
  size str < 2 ^ 63 -> steps_forward str ->
  forall (fuel j : nat) (oj : Z) (acc : list Z),
    char_offset str j = Some oj ->
    size str - oj < Z.of_nat fuel ->
    length acc = j ->
    (forall i : nat, (i < j)%nat -> acc !! i = char_offset str i) ->
    exists l,
      index2byte_map_loop fuel str oj acc = Returns l /\
      forall i : nat, l !! i = char_offset str i.
Proof.
  intros Hsize Hstep.
  induction fuel as [|fuel IH]; intros j oj acc Hj Hfuel Hlen Hacc.
  - apply char_offset_bounds in Hj. lia.
  - pose proof (char_offset_bounds str j oj Hj) as Hb.
    pose proof (Hstep j oj Hj) as Hw.
    pose proof (width_range (advance str oj)) as Hr.
    pose proof (char_offset_succ str j oj Hj Hw) as Hnext.
    cbn [index2byte_map_loop].
    replace (oj <? size str) with true by lia.
    rewrite (size_t_small (oj + _)) by lia.
    assert (Hacc' : forall i : nat,
               (i < S j)%nat -> (acc ++ [oj]) !! i = char_offset str i).
    { intros i Hi. destruct (decide (i = j)) as [->|Hne].
      - rewrite lookup_app_r by lia. rewrite Hlen, Nat.sub_diag.
        rewrite Hj. reflexivity.
      - rewrite lookup_app_l by lia. apply Hacc. lia. }
    destruct (oj + get_num_bytes_of_utf8_char (advance str oj) <? size str)
      eqn:Hin.
    + apply (IH (S j)); [exact Hnext|lia| |exact Hacc'].
      rewrite length_app. simpl. lia.
    + destruct fuel as [|fuel]; [lia|]. cbn [index2byte_map_loop].
      replace (_ <? size str) with false by lia.
      eexists. split; [reflexivity|]. intros i.
      destruct (decide (i < S j)%nat) as [Hi|Hi]; [apply Hacc'; exact Hi|].
      rewrite lookup_ge_None_2 by (rewrite length_app; simpl; lia).
      replace i with (S j + (i - S j))%nat by lia.
      symmetry. apply char_offset_none. exact Hnext.
Qed.

(** X9: on a text in which no width wraps to zero, the bulk [index2byte],
    filling an empty vector, lists the start offsets of the characters in
    order, one entry per character and no entry more. *)
Theorem index2byte_map_lists_offsets (str : list Z) :
  size str < 2 ^ 63 -> steps_forward str ->
  exists l,
    index2byte_map str = Returns l /\
    forall i : nat, l !! i = char_offset str i.
Proof.
  intros Hsize Hstep. unfold index2byte_map, iterations.
  destruct (0 <? size str) eqn:E.
  - apply (index2byte_map_loop_spec str Hsize Hstep _ 0%nat).
    + simpl. rewrite E. reflexivity.
    + unfold size. lia.
    + reflexivity.
    + intros i Hi. lia.
  - cbn [index2byte_map_loop]. rewrite E.
    eexists. split; [reflexivity|]. intros i.
    destruct (char_offset str i) as [o|] eqn:Ho; [|reflexivity].
    apply char_offset_bounds in Ho. lia.
Qed.

Lemma index2byte_map_lists_offsets_witness :
  exists l,
    index2byte_map a_zhong_b = Returns l /\
    forall i : nat, l !! i = char_offset a_zhong_b i.
Proof.
  apply (index2byte_map_lists_offsets a_zhong_b).
  - vm_compute. reflexivity.
  - apply short_text_steps_forward. vm_compute. reflexivity.
Defined.

Lemma char_offset_monotone (str : list Z) (i i' : nat) (o o' : Z) :
  char_offset str i = Some o -> char_offset str i' = Some o' ->
  (i < i')%nat -> o < o'.
Proof.
  intros Hi Hi' Hlt.
  replace i' with (i + S (i' - i - 1))%nat in Hi' by lia.
  exact (char_offset_increasing str i _ o o' Hi Hi').
Qed.

Lemma byte2index_at_start (str : list Z) (i : nat) (o : Z) :
  size str < 2 ^ 63 -> char_offset str i = Some o ->
  byte2index str o = Returns (Z.of_nat i).
Proof.
  intros Hsize Ho.
  pose proof (char_offset_bounds str i o Ho) as Hb.
  assert (H0 : char_offset str 0 = Some 0).
  { simpl. replace (0 <? size str) with true by lia. reflexivity. }
  unfold byte2index, iterations.
  apply (byte2index_loop_reaches str o i Hsize 0%nat 0); auto.
  unfold size in Hb. lia.
Qed.

Lemma byte2index_between (str : list Z) (j : nat) (oj k : Z) :
  size str < 2 ^ 63 -> steps_forward str ->
  char_offset str j = Some oj -> oj < k ->
  k < oj + get_num_bytes_of_utf8_char (advance str oj) ->
  byte2index str k = Returns npos.
Proof.
  intros Hsize Hstep Hj Hlo Hhi.
  pose proof (Hstep j oj Hj) as Hw.
  pose proof (char_offset_succ str j oj Hj Hw) as Hnext.
  unfold byte2index, iterations.
  pose proof (char_offset_bounds str j oj Hj) as Hb.
  apply (byte2index_loop_misses str k Hsize Hstep) with (j := 0%nat).
  - intros i Hi.
    destruct (decide (i <= j)%nat) as [Hle|Hgt].
    + destruct (decide (i = j)) as [->|Hne]; [rewrite Hj in Hi; injection Hi; lia|].
      pose proof (char_offset_monotone str i j k oj Hi Hj). lia.
    + destruct (_ <? size str) in Hnext.
      * destruct (decide (i = S j)) as [->|Hne];
          [rewrite Hnext in Hi; injection Hi; lia|].
        pose proof (char_offset_monotone str (S j) i _ k Hnext Hi). lia.
      * replace i with (S j + (i - S j))%nat in Hi by lia.
        rewrite char_offset_none in Hi by exact Hnext. discriminate.
  - simpl. replace (0 <? size str) with true by lia. reflexivity.
  - unfold size. lia.
Qed.

Lemma byte2index_map_loop_spec (str : list Z) :
  size str < 2 ^ 63 -> steps_forward str ->
  forall (fuel j : nat) (oj : Z) (acc : list Z),
    char_offset str j = Some oj ->
    size str - oj < Z.of_nat fuel ->
    length acc = length str ->
    (forall k : nat,
        (k < length str)%nat ->
        if Z.of_nat k <? oj
        then exists v, acc !! k = Some v /\
                       byte2index str (Z.of_nat k) = Returns v
        else acc !! k = Some npos) ->
    exists l,
      byte2index_map_loop fuel str (Z.of_nat j) oj acc = Returns l /\
      length l = length str /\
      forall k : nat,
        (k < length str)%nat ->
        exists v, l !! k = Some v /\ byte2index str (Z.of_nat k) = Returns v.
Proof.
  intros Hsize Hstep.
  induction fuel as [|fuel IH]; intros j oj acc Hj Hfuel Hlen Hacc.
  - apply char_offset_bounds in Hj. lia.
  - pose proof (char_offset_bounds str j oj Hj) as Hb.
    pose proof (Hstep j oj Hj) as Hw.
    pose proof (width_range (advance str oj)) as Hr.
    pose proof (char_offset_succ str j oj Hj Hw) as Hnext.
    cbn [byte2index_map_loop].
    replace (oj <? size str) with true by lia.
    rewrite !size_t_small by lia.
    replace (Z.of_nat j + 1) with (Z.of_nat (S j)) by lia.
    remember (get_num_bytes_of_utf8_char (advance str oj)) as w eqn:Ew.
    assert (Hacc' : forall k : nat,
               (k < length str)%nat ->
               if Z.of_nat k <? oj + w
               then exists v, <[Z.to_nat oj := Z.of_nat j]> acc !! k = Some v /\
                              byte2index str (Z.of_nat k) = Returns v
               else <[Z.to_nat oj := Z.of_nat j]> acc !! k = Some npos).
    { intros k Hk. specialize (Hacc k Hk).
      destruct (decide (k = Z.to_nat oj)) as [->|Hne].
      - rewrite Z2Nat.id by lia.
        replace (oj <? oj + w) with true by (clear - Hw; lia).
        exists (Z.of_nat j). split.
        + apply list_lookup_insert_eq. lia.
        + apply (byte2index_at_start str j oj Hsize Hj).
      - rewrite list_lookup_insert_ne by lia.
        destruct (Z.of_nat k <? oj) eqn:E1.
        + replace (Z.of_nat k <? oj + w) with true by lia. exact Hacc.
        + destruct (Z.of_nat k <? oj + w) eqn:E2; [|exact Hacc].
          exists npos. split; [exact Hacc|].
          apply (byte2index_between str j oj); auto; [lia|].
          rewrite <- Ew. lia. }
    destruct (oj + w <? size str) eqn:Hin.
    + apply (IH (S j)); [exact Hnext|lia| |exact Hacc'].
      rewrite length_insert. exact Hlen.
    + destruct fuel as [|fuel]; [lia|]. cbn [byte2index_map_loop].
      replace (_ <? size str) with false by lia.
      eexists. split; [reflexivity|]. split.
      * rewrite length_insert. exact Hlen.
      * intros k Hk. specialize (Hacc' k Hk).
        replace (Z.of_nat k <? oj + w) with true in Hacc'
          by (unfold size in *; lia).
        exact Hacc'.
Qed.

(** X10: on a text in which no width wraps to zero, the bulk [byte2index],
    filling an empty vector, holds at every byte offset of the text what the
    single [byte2index] returns for that offset: the character index at a
    character start and [npos] elsewhere. *)
Theorem byte2index_map_agrees (str : list Z) :
  size str < 2 ^ 63 -> steps_forward str ->
  exists l,
    byte2index_map str = Returns l /\
    length l = length str /\
    forall k : nat,
      (k < length str)%nat ->
      exists v, l !! k = Some v /\ byte2index str (Z.of_nat k) = Returns v.
Proof.
  intros Hsize Hstep. unfold byte2index_map, iterations.
  destruct (0 <? size str) eqn:E.
  - apply (byte2index_map_loop_spec str Hsize Hstep _ 0%nat 0).
    + simpl. rewrite E. reflexivity.
    + unfold size. lia.
    + apply length_replicate.
    + intros k Hk. replace (Z.of_nat k <? 0) with false by lia.
      apply lookup_replicate_2. exact Hk.
  - cbn [byte2index_map_loop]. rewrite E.
    eexists. split; [reflexivity|]. split; [apply length_replicate|].
    intros k Hk. unfold size in E. lia.
Qed.

Lemma byte2index_map_agrees_witness :
  exists l,
    byte2index_map a_zhong_b = Returns l /\
    length l = length a_zhong_b /\
    forall k : nat,
      (k < length a_zhong_b)%nat ->
      exists v, l !! k = Some v /\
                byte2index a_zhong_b (Z.of_nat k) = Returns v.
Proof.
  apply (byte2index_map_agrees a_zhong_b).
  - vm_compute. reflexivity.
  - apply short_text_steps_forward. vm_compute. reflexivity.
Defined.

(** ** One lookup against the whole decoding *)

Lemma decode_loop_extends (T : code_type) (str : list Z) (fuel : nat) :
  forall (cur : Z) (acc cps : list Z),
    decode_loop fuel T str cur acc = Returns cps ->
    exists rest, cps = acc ++ rest.
Proof.
  induction fuel as [|fuel IH]; intros cur acc cps H; cbn [decode_loop] in H.
  - discriminate.
  - destruct (cur <? size str).
    + destruct (utf8_decode_len T (advance str cur)) as [[cp w]|];
        [|discriminate].
      apply IH in H as [rest ->]. exists (cp :: rest).
      rewrite <- app_assoc. reflexivity.
    + injection H as <-. exists []. rewrite app_nil_r. reflexivity.
Qed.

Lemma decode_at_loop_decode (T : code_type) (str : list Z) (index : Z)
    (fuel : nat) :
  forall (cur idx : Z) (acc cps : list Z),
    0 <= idx <= index -> idx + Z.of_nat fuel < 2 ^ 64 ->
    length acc = Z.to_nat idx ->
    decode_loop fuel T str cur acc = Returns cps ->
    decode_at_loop fuel T str index idx cur
    = Returns (default 0 (cps !! Z.to_nat index)).
Proof.
  induction fuel as [|fuel IH]; intros cur idx acc cps Hidx Hfuel Hlen H;
    cbn [decode_loop decode_at_loop] in *.
  - discriminate.
  - destruct (cur <? size str).
    + unfold utf8_decode_len in H.
      destruct (utf8_decode T (advance str cur)
                  (get_num_bytes_of_utf8_char (advance str cur)))
        as [cp|] eqn:Hcp; [|discriminate].
      change (Some cp ≫= ?f) with (f cp) in H. cbv beta in H.
      destruct (idx =? index) eqn:E.
      * apply decode_loop_extends in H as [rest ->].
        rewrite <- app_assoc. rewrite lookup_app_r by lia.
        replace (Z.to_nat index - length acc)%nat with 0%nat by lia.
        reflexivity.
      * rewrite (size_t_small (idx + 1)) by lia.
        apply (IH _ _ (acc ++ [cp])); [lia|lia| |exact H].
        rewrite length_app. simpl. lia.
    + injection H as <-.
      rewrite lookup_ge_None_2 by lia. reflexivity.
Qed.

(** X11: where [decode] turns a text into the code points [cps], [decode_at]
    at a character index returns the entry of [cps] at that index, and 0
    from the length of [cps] on. *)
Theorem decode_at_decode (T : code_type) (str cps : list Z) (index : Z) :
  size str < 2 ^ 63 -> 0 <= index ->
  decode T str = Returns cps ->
  decode_at T str index = Returns (default 0 (cps !! Z.to_nat index)).
Proof.
  intros Hsize Hidx H. unfold decode, decode_at, iterations in *.
  apply (decode_at_loop_decode T str index _ 0 0 [] cps);
    [lia|unfold size in Hsize; lia|reflexivity|exact H].
Qed.

Lemma decode_at_decode_witness :
  decode_at Char32 a_zhong_b 1
  = Returns (default 0 ([0x61; 0x4E2D; 0x62] !! Z.to_nat 1)).
Proof.
  apply (decode_at_decode Char32 a_zhong_b [0x61; 0x4E2D; 0x62] 1);
    [vm_compute; reflexivity | lia | reflexivity].
Defined.

(** ** Substrings by character index *)

Lemma std_substr_inside (str : list Z) (pos n : Z) :
  0 <= pos <= size str -> 0 <= n ->
  std_substr str pos n = Returns (take (Z.to_nat n) (advance str pos)).
Proof.
  intros Hpos Hn. unfold std_substr.
  replace (size str <? pos) with false by lia. f_equal.
  destruct (Z.min_spec n (size str - pos)) as [[_ ->]|[Hle ->]]; [reflexivity|].
  unfold advance, size in *.
  rewrite !take_ge; [reflexivity| |]; rewrite length_drop; lia.
Qed.

Lemma substr_loop_spec (str : list Z) (i : nat) (s n : Z) :
  size str < 2 ^ 63 -> steps_forward str ->
  0 < n < 2 ^ 64 ->
  char_offset str i = Some s ->
  forall (fuel j : nat) (oj start : Z),
    char_offset str j = Some oj ->
    size str - oj < Z.of_nat fuel ->
    Z.of_nat j <= Z.of_nat i + n ->
    ((i < j)%nat -> start = s) ->
    substr_loop fuel str (Z.of_nat i) n (Z.of_nat j) oj start
    = Returns match char_offset str (i + Z.to_nat n) with
              | Some e => take (Z.to_nat (e - s)) (advance str s)
              | None => advance str s
              end.
Proof.
  intros Hsize Hstep Hn Hi.
  pose proof (char_offset_bounds str i s Hi) as Hs.
  induction fuel as [|fuel IH]; intros j oj start Hj Hfuel Hle Hstart.
  - apply char_offset_bounds in Hj. lia.
  - pose proof (char_offset_bounds str j oj Hj) as Hb.
    pose proof (Hstep j oj Hj) as Hw.
    pose proof (width_range (advance str oj)) as Hr.
    pose proof (char_offset_succ str j oj Hj Hw) as Hnext.
    cbn [substr_loop].
    replace (oj <? size str) with true by lia. cbv zeta.
    assert (Hnow : (i <= j)%nat ->
                   (if Z.of_nat j =? Z.of_nat i then oj else start) = s).
    { intros Hij. destruct (Z.of_nat j =? Z.of_nat i) eqn:E.
      - assert (j = i) as -> by lia. congruence.
      - apply Hstart. lia. }
    destruct ((Z.of_nat i <? Z.of_nat j)
              && (size_t (Z.of_nat j - Z.of_nat i) =? n)) eqn:Hstop.
    + apply andb_true_iff in Hstop as [Hlt Heq].
      rewrite size_t_small in Heq by lia.
      rewrite Hnow by lia.
      replace (i + Z.to_nat n)%nat with j by lia. rewrite Hj.
      pose proof (char_offset_monotone str i j s oj Hi Hj ltac:(lia)).
      rewrite size_t_small by lia.
      apply std_substr_inside; lia.
    + assert (Hless : Z.of_nat j < Z.of_nat i + n).
      { apply andb_false_iff in Hstop as [Hge|Hne]; [lia|].
        destruct (Z.of_nat i <? Z.of_nat j) eqn:E; [|lia].
        rewrite size_t_small in Hne by lia. lia. }
      rewrite !size_t_small by lia.
      replace (Z.of_nat j + 1) with (Z.of_nat (S j)) by lia.
      destruct (oj + get_num_bytes_of_utf8_char (advance str oj) <? size str)
        eqn:Hin.
      * apply (IH (S j)); [exact Hnext|lia|lia|].
        intros Hij. apply Hnow. lia.
      * destruct fuel as [|fuel]; [lia|]. cbn [substr_loop].
        replace (_ <? size str) with false by lia.
        destruct (decide (S j <= i)%nat) as [Hji|Hji].
        { replace i with (S j + (i - S j))%nat in Hi by lia.
          rewrite char_offset_none in Hi by exact Hnext. discriminate. }
        destruct (Z.leb_spec (Z.of_nat (S j)) (Z.of_nat i)) as [Hcontra|_];
          [exfalso; apply Hji; lia|].
        rewrite Hnow by lia.
        replace (i + Z.to_nat n)%nat
          with (S j + (i + Z.to_nat n - S j))%nat by lia.
        rewrite char_offset_none by exact Hnext.
        unfold std_substr. replace (size str <? s) with false by lia.
        f_equal. apply take_ge.
        change npos with 18446744073709551615.
        unfold advance, size in *. rewrite length_drop. lia.
Qed.

(** X12: on a text in which no width wraps to zero, [substr] for [n > 0]
    characters from character [i] on returns the bytes from the start of
    character [i] up to the start of character [i + n], or up to the end of
    the text where there are fewer than [n] characters left. *)
Theorem substr_between_offsets (str : list Z) (i : nat) (s n : Z) :
  size str < 2 ^ 63 -> steps_forward str ->
  0 < n < 2 ^ 64 ->
  char_offset str i = Some s ->
  substr str (Z.of_nat i) n
  = Returns match char_offset str (i + Z.to_nat n) with
            | Some e => take (Z.to_nat (e - s)) (advance str s)
            | None => advance str s
            end.
Proof.
  intros Hsize Hstep Hn Hi. unfold substr, iterations.
  replace (n =? 0) with false by lia.
  pose proof (char_offset_bounds str i s Hi) as Hs.
  apply (substr_loop_spec str i s n Hsize Hstep Hn Hi _ 0%nat 0 0).
  - simpl. replace (0 <? size str) with true by lia. reflexivity.
  - unfold size. lia.
  - lia.
  - intros Hlt. lia.
Qed.

Lemma substr_between_offsets_witness :
  substr a_zhong_b (Z.of_nat 1) 1
  = Returns match char_offset a_zhong_b (1 + Z.to_nat 1) with
            | Some e => take (Z.to_nat (e - 1)) (advance a_zhong_b 1)
            | None => advance a_zhong_b 1
            end.
Proof.
  apply (substr_between_offsets a_zhong_b 1 1 1).
  - vm_compute. reflexivity.
  - apply short_text_steps_forward. vm_compute. reflexivity.
  - lia.
  - reflexivity.
Defined.

Lemma string_at_loop_spec (str : list Z) (i : nat) (s : Z) :
  size str < 2 ^ 63 ->
  char_offset str i = Some s ->
  forall (m : nat) (j : nat) (oj : Z) (fuel : nat),
    char_offset str j = Some oj ->
    i = (j + m)%nat ->
    (m < fuel)%nat ->
    string_at_loop fuel str (Z.of_nat i) (Z.of_nat j) oj
    = Returns (take (Z.to_nat (get_num_bytes_of_utf8_char (advance str s)))
                 (advance str s)).
Proof.
  intros Hsize Hi.
  pose proof (char_offset_bounds str i s Hi) as Hs.
  induction m as [|m IH]; intros j oj fuel Hj Him Hfuel.
  - rewrite Nat.add_0_r in Him. subst j. rewrite Hi in Hj. injection Hj as <-.
    destruct fuel as [|fuel]; [lia|]. cbn [string_at_loop].
    replace (s <? size str) with true by lia. cbv zeta.
    rewrite Z.eqb_refl.
    pose proof (width_range (advance str s)).
    apply std_substr_inside; lia.
  - destruct fuel as [|fuel]; [lia|]. cbn [string_at_loop].
    subst i.
    pose proof (char_offset_next str j m oj s Hj Hi) as Hnext.
    pose proof (char_offset_bounds str j oj Hj) as Hb.
    pose proof (char_offset_bounds str (S j) _ Hnext) as Hb'.
    replace (oj <? size str) with true by lia. cbv zeta.
    replace (Z.of_nat j =? Z.of_nat (j + S m)) with false
      by (symmetry; apply Z.eqb_neq; lia).
    rewrite !size_t_small by lia.
    replace (Z.of_nat j + 1) with (Z.of_nat (S j)) by lia.
    apply (IH (S j)); [exact Hnext|lia|lia].
Qed.

(** X13: on a text in which no width wraps to zero, [substr] for one
    character and [string_at] return the same bytes at every character of
    the text. *)
Theorem substr_one_is_string_at (str : list Z) (i : nat) (s : Z) :
  size str < 2 ^ 63 -> steps_forward str ->
  char_offset str i = Some s ->
  substr str (Z.of_nat i) 1 = string_at str (Z.of_nat i).
Proof.
  intros Hsize Hstep Hi.
  pose proof (char_offset_bounds str i s Hi) as Hs.
  assert (H0 : char_offset str 0 = Some 0).
  { simpl. replace (0 <? size str) with true by lia. reflexivity. }
  unfold substr, string_at, iterations.
  replace (1 =? 0) with false by reflexivity.
  rewrite (substr_loop_spec str i s 1 Hsize Hstep ltac:(lia) Hi _ 0%nat 0 0);
    [|exact H0|unfold size; lia|lia|lia].
  rewrite (string_at_loop_spec str i s Hsize Hi i 0%nat 0);
    [|exact H0|reflexivity|unfold size in *; lia].
  f_equal.
  pose proof (Hstep i s Hi) as Hw.
  pose proof (char_offset_succ str i s Hi Hw) as Hnext.
  replace (i + Z.to_nat 1)%nat with (S i) by lia. rewrite Hnext.
  destruct (_ <? size str) eqn:E.
  - f_equal. lia.
  - symmetry. apply take_ge. unfold advance, size in *.
    rewrite length_drop. lia.
Qed.

Lemma substr_one_is_string_at_witness :
  substr a_zhong_b (Z.of_nat 1) 1 = string_at a_zhong_b (Z.of_nat 1).
Proof.
  apply (substr_one_is_string_at a_zhong_b 1 1).
  - vm_compute. reflexivity.
  - apply short_text_steps_forward. vm_compute. reflexivity.
  - reflexivity.
Defined.

(** ** Characters of more than three bytes *)

Lemma count_continuation_le (rest : list Z) (n : Z) :
  0 <= n < 256 -> count_continuation rest n <= n + Z.of_nat (length rest).
Proof.
  revert n. induction rest as [|b rest IH]; intros n Hn; simpl; [lia|].
  destruct (Z.land b 192 =? 128); [|lia].
  assert (Hw : 0 <= to_width (n + 1) < 256)
    by (unfold to_width; apply Z.mod_pos_bound; lia).
  assert (Hle : to_width (n + 1) <= n + 1)
    by (unfold to_width; apply Z.mod_le; lia).
  specialize (IH _ Hw). lia.
Qed.

Lemma width_within (str : list Z) (o : Z) :
  0 <= o < size str ->
  o + get_num_bytes_of_utf8_char (advance str o) <= size str.
Proof.
  intros Ho. unfold get_num_bytes_of_utf8_char, advance, size in *.
  destruct (drop (Z.to_nat o) str) as [|b rest] eqn:Hd.
  - apply (f_equal (@length Z)) in Hd. rewrite length_drop in Hd.
    simpl in Hd. lia.
  - apply (f_equal (@length Z)) in Hd. rewrite length_drop in Hd.
    simpl in *. pose proof (count_continuation_le rest 1). lia.
Qed.

Lemma check_utf16_is_valid_loop_spec (str : list Z) :
  size str < 2 ^ 63 -> steps_forward str ->
  forall (fuel j : nat) (oj idx : Z),
    char_offset str j = Some oj ->
    size str - oj < Z.of_nat fuel ->
    (forall (j' : nat) (o' : Z),
        (j' < j)%nat -> char_offset str j' = Some o' ->
        get_num_bytes_of_utf8_char (advance str o') <= 3) ->
    exists r,
      check_utf16_is_valid_loop fuel str oj idx = Returns r /\
      ((r = size str /\
        forall (i : nat) (o : Z),
          char_offset str i = Some o ->
          get_num_bytes_of_utf8_char (advance str o) <= 3) \/
       (exists i : nat,
          char_offset str i = Some r /\
          3 < get_num_bytes_of_utf8_char (advance str r) /\
          forall (j' : nat) (o' : Z),
            (j' < i)%nat -> char_offset str j' = Some o' ->
            get_num_bytes_of_utf8_char (advance str o') <= 3)).
Proof.
  intros Hsize Hstep.
  induction fuel as [|fuel IH]; intros j oj idx Hj Hfuel Hbefore.
  - apply char_offset_bounds in Hj. lia.
  - pose proof (char_offset_bounds str j oj Hj) as Hb.
    pose proof (Hstep j oj Hj) as Hw.
    pose proof (width_range (advance str oj)) as Hr.
    pose proof (width_within str oj ltac:(lia)) as Hin.
    pose proof (char_offset_succ str j oj Hj Hw) as Hnext.
    cbn [check_utf16_is_valid_loop].
    replace (oj <? size str) with true by lia. cbv zeta.
    destruct (3 <? get_num_bytes_of_utf8_char (advance str oj)) eqn:Hwide.
    + exists oj. split; [reflexivity|]. right. exists j.
      split; [exact Hj|]. split; [lia|exact Hbefore].
    + rewrite (size_t_small (oj + _)) by lia.
      assert (Hbefore' :
                forall (j' : nat) (o' : Z),
                  (j' < S j)%nat -> char_offset str j' = Some o' ->
                  get_num_bytes_of_utf8_char (advance str o') <= 3).
      { intros j' o' Hj' Ho'.
        destruct (decide (j' = j)) as [->|Hne].
        - rewrite Hj in Ho'. injection Ho' as <-. lia.
        - apply (Hbefore j'); [lia|exact Ho']. }
      destruct (oj + get_num_bytes_of_utf8_char (advance str oj) <? size str)
        eqn:Hlt.
      * apply (IH (S j)); [exact Hnext|lia|exact Hbefore'].
      * destruct fuel as [|fuel]; [lia|].
        cbn [check_utf16_is_valid_loop].
        replace (_ <? size str) with false by lia.
        eexists. split; [reflexivity|]. left. split; [lia|].
        intros i o Ho.
        destruct (decide (i < S j)%nat) as [Hi|Hi];
          [exact (Hbefore' i o Hi Ho)|].
        replace i with (S j + (i - S j))%nat in Ho by lia.
        rewrite char_offset_none in Ho by exact Hnext. discriminate.
Qed.

(** X28: on a text in which no width wraps to zero, [check_utf16_is_valid]
    returns the length of the text when every character has at most three
    bytes, and otherwise the start offset of the first character that has
    more. *)
Theorem check_utf16_is_valid_finds_first_wide (str : list Z) :
  size str < 2 ^ 63 -> steps_forward str ->
  exists r,
    check_utf16_is_valid str = Returns r /\
    ((r = size str /\
      forall (i : nat) (o : Z),
        char_offset str i = Some o ->
        get_num_bytes_of_utf8_char (advance str o) <= 3) \/
     (exists i : nat,
        char_offset str i = Some r /\
        3 < get_num_bytes_of_utf8_char (advance str r) /\
        forall (j' : nat) (o' : Z),
          (j' < i)%nat -> char_offset str j' = Some o' ->
          get_num_bytes_of_utf8_char (advance str o') <= 3)).
Proof.
  intros Hsize Hstep. unfold check_utf16_is_valid, iterations.
  destruct (0 <? size str) eqn:E.
  - apply (check_utf16_is_valid_loop_spec str Hsize Hstep _ 0%nat).
    + simpl. rewrite E. reflexivity.
    + unfold size. lia.
    + intros j' o' Hj'. lia.
  - cbn [check_utf16_is_valid_loop]. rewrite E.
    eexists. split; [reflexivity|]. left. split; [unfold size in *; lia|].
    intros i o Ho. apply char_offset_bounds in Ho. lia.
Qed.

Lemma check_utf16_is_valid_finds_first_wide_witness :
  exists r,
    check_utf16_is_valid [0x61; 0xF0; 0x9F; 0x98; 0x80] = Returns r /\
    ((r = size [0x61; 0xF0; 0x9F; 0x98; 0x80] /\
      forall (i : nat) (o : Z),
        char_offset [0x61; 0xF0; 0x9F; 0x98; 0x80] i = Some o ->
        get_num_bytes_of_utf8_char
          (advance [0x61; 0xF0; 0x9F; 0x98; 0x80] o) <= 3) \/
     (exists i : nat,
        char_offset [0x61; 0xF0; 0x9F; 0x98; 0x80] i = Some r /\
        3 < get_num_bytes_of_utf8_char
              (advance [0x61; 0xF0; 0x9F; 0x98; 0x80] r) /\
        forall (j' : nat) (o' : Z),
          (j' < i)%nat ->
          char_offset [0x61; 0xF0; 0x9F; 0x98; 0x80] j' = Some o' ->
          get_num_bytes_of_utf8_char
            (advance [0x61; 0xF0; 0x9F; 0x98; 0x80] o') <= 3)).
Proof.
  apply (check_utf16_is_valid_finds_first_wide
           [0x61; 0xF0; 0x9F; 0x98; 0x80]).
  - vm_compute. reflexivity.
  - apply short_text_steps_forward. vm_compute. reflexivity.
Defined.

(** ** The mutating members and the invariant *)

(** *** Reading helpers *)

Lemma wp_on {A : Type} (str : ustring) (m : M A) s Q E :
  wp m (mk_state str (mem s)) (fun a _ => Q a s) (fun e _ => E e s) ->
  wp (on str m) s Q E.
Proof. unfold wp, on. destruct (m _); auto. Qed.

Lemma wp_on_check str pos s Q E :
  (pos <= _M_len str -> Q pos s) ->
  (_M_len str < pos -> E out_of_range s) ->
  wp (on str (_M_check pos)) s Q E.
Proof. intros HQ HE. apply wp_on, wp__M_check; simpl; auto. Qed.

Lemma wp_on_limit str pos off s Q E :
  0 <= pos <= _M_len str -> _M_len str < 2 ^ 64 ->
  Q (Z.min off (_M_len str - pos)) s ->
  wp (on str (_M_limit pos off)) s Q E.
Proof. intros Hpos Hlen HQ. apply wp_on, wp__M_limit; simpl; auto. Qed.

Lemma codelen_loop_range (vs : list slot) (count n : Z) :
  0 <= count < 2 ^ 64 -> codelen_loop vs count = Some n -> 0 <= n < 2 ^ 64.
Proof.
  revert count. induction vs as [|[v|] vs IH]; intros count Hc H; simpl in H;
    try discriminate.
  destruct (v =? 0).
  - injection H as <-. exact Hc.
  - eapply IH; [|exact H]. apply size_t_range.
Qed.

Lemma wp_codelen arr s Q E :
  (forall n, 0 <= n < 2 ^ 64 -> Q n s) -> wp (codelen arr) s Q E.
Proof.
  intros H. unfold wp, codelen.
  destruct (base arr) as [a|]; [|exact I].
  destruct (live (mem s) a) as [blk|]; [|exact I].
  destruct (0 <=? offset arr); [|exact I].
  destruct (codelen_loop _ 0) as [n|] eqn:Hn; [|exact I].
  apply H. eapply codelen_loop_range; [|exact Hn]. lia.
Qed.

Lemma strlen_loop_bound (str : list Z) (count n : Z) :
  0 <= count -> count + size str < 2 ^ 64 ->
  strlen_loop str count = Some n -> count <= n < count + size str.
Proof.
  unfold size. revert count.
  induction str as [|b str IH]; intros count Hc Hlt H; simpl in H;
    [discriminate|].
  cbn [length] in *. destruct (b =? 0).
  - injection H as <-. lia.
  - rewrite size_t_small in H by lia.
    specialize (IH (count + 1) ltac:(lia) ltac:(lia) H). lia.
Qed.

Lemma strlen_bound (str : list Z) (n : Z) :
  size str < 2 ^ 64 -> strlen str = Some n -> 0 <= n < size str.
Proof. intros Hs H. apply (strlen_loop_bound str 0 n); auto; lia. Qed.

Lemma size_take (str : list Z) (n : Z) :
  0 <= n <= size str -> size (take (Z.to_nat n) str) = n.
Proof. unfold size. intros H. rewrite length_take. lia. Qed.

Lemma size_part (str : list Z) (pos n : Z) :
  0 <= pos <= size str -> 0 <= n ->
  size (take (Z.to_nat (Z.min (size str - pos) n)) (advance str pos))
  = Z.min (size str - pos) n.
Proof.
  unfold size, advance. intros Hp Hn. rewrite length_take, length_drop. lia.
Qed.

Lemma wp_distance first last s Q E :
  offset last - offset first < 2 ^ 63 ->
  (forall n, 0 <= n < 2 ^ 63 -> Q n s) -> wp (distance first last) s Q E.
Proof.
  intros Hr H. unfold distance.
  destruct (same_base _ _); [|exact I].
  apply wp_ret, H. destruct (offset first <? offset last) eqn:Hlt; [|lia].
  rewrite size_t_small by lia. lia.
Qed.

Lemma wp_asserted_range i1 i2 s Q E :
  (forall pos n1,
     0 <= pos -> 0 <= n1 -> pos + n1 <= _M_len (this s) ->
     offset i2 = pos + n1 -> Q (pos, n1) s) ->
  wp (asserted_range i1 i2) s Q E.
Proof.
  intros H. unfold asserted_range.
  apply wp_bind, wp_data. apply wp_bind, wp_size_.
  destruct (_ && _) eqn:Hc; [|exact I].
  rewrite !andb_true_iff in Hc. destruct Hc as ((((_ & _) & H0) & H1) & H2).
  apply wp_ret, H; lia.
Qed.

Lemma wp_asserted_position i s Q E :
  (forall pos, 0 <= pos <= _M_len (this s) -> Q pos s) ->
  wp (asserted_position i) s Q E.
Proof.
  intros H. unfold asserted_position.
  apply wp_bind, wp_data. apply wp_bind, wp_size_.
  destruct (_ && _) eqn:Hc; [|exact I].
  rewrite !andb_true_iff in Hc. destruct Hc as ((_ & H0) & H1).
  apply wp_ret, H; lia.
Qed.

(** *** The two loops that store *)

Lemma keeps_fields_copy_each (n : nat) (dest : M pointer) first i :
  (forall s Q E, (forall d, Q d s) -> wp dest s Q E) ->
  keeps_fields (copy_each n dest first i).
Proof.
  intros Hdest. revert i. induction n as [|n IH]; intros i; simpl.
  - apply keeps_fields_ret.
  - intros s Q E HQ. apply wp_bind, Hdest. intros d.
    apply wp_bind, wp_peek. intros v. apply wp_bind.
    apply keeps_fields_write_slots. intros s1 Ht1 Hd1.
    apply IH. intros s2 Ht2 Hd2. apply HQ; [congruence|].
    intros j. rewrite Hd2. apply Hd1.
Qed.

Lemma width_nonneg (str : list Z) : 0 <= get_num_bytes_of_utf8_char str.
Proof.
  unfold get_num_bytes_of_utf8_char.
  assert (H : forall rest n, 0 <= n -> 0 <= count_continuation rest n).
  { induction rest as [|b rest IH]; intros n Hn; simpl; [exact Hn|].
    destruct (_ =? _); [|exact Hn].
    apply IH. unfold to_width. apply Z.mod_pos_bound. lia. }
  apply H. lia.
Qed.

(** A width of zero keeps [_M_assign] at the same byte: it stores until it
    leaves the block. *)
Lemma _M_assign_str_loop_stuck T (fuel : nat) d (str : list Z) cur :
  0 <= cur < 2 ^ 64 -> cur < size str ->
  get_num_bytes_of_utf8_char (advance str cur) = 0 ->
  forall idx s, _M_assign_str_loop T fuel d str cur idx s = UB.
Proof.
  intros Hc Hlt Hw. induction fuel as [|fuel IH]; intros idx s; simpl;
    [reflexivity|].
  replace (cur <? size str) with true by lia.
  rewrite Hw. destruct (utf8_decode _ _ _) as [cp|]; [|reflexivity].
  unfold mbind, M_bind, bind.
  destruct (poke_slot _ _ s) as [[] s1|e s1|] eqn:Hp.
  - rewrite Z.add_0_r, size_t_small by lia. apply IH.
  - unfold poke_slot, write_slots in Hp.
    repeat match type of Hp with
           | context [match ?x with _ => _ end] => destruct x
           end; discriminate.
  - reflexivity.
Qed.

Lemma wp__M_assign_str_loop T (fuel : nat) d (str : list Z) :
  size str < 2 ^ 64 ->
  forall cur idx s Q E,
    0 <= idx <= cur -> cur <= size str ->
    (forall r s',
       this s' = this s ->
       (forall i, slot_at s' i = None <-> slot_at s i = None) ->
       idx <= r <= idx + (size str - cur) ->
       Q r s') ->
    wp (_M_assign_str_loop T fuel d str cur idx) s Q E.
Proof.
  intros Hsize. induction fuel as [|fuel IH]; intros cur idx s Q E Hi Hc HQ;
    simpl; [exact I|].
  destruct (cur <? size str) eqn:Hlt.
  2:{ apply wp_ret, HQ; [reflexivity|tauto|lia]. }
  pose proof (width_nonneg (advance str cur)) as Hw0.
  pose proof (width_within str cur ltac:(lia)) as Hw1.
  destruct (Z.eq_dec (get_num_bytes_of_utf8_char (advance str cur)) 0)
    as [Hz|Hnz].
  { pose proof (_M_assign_str_loop_stuck T (S fuel) d str cur
                  ltac:(lia) ltac:(lia) Hz idx s) as Hs.
    simpl in Hs. rewrite Hlt in Hs. unfold wp. rewrite Hs. exact I. }
  destruct (utf8_decode _ _ _) as [cp|]; [|exact I].
  apply wp_bind. apply keeps_fields_write_slots. intros s1 Ht1 Hd1.
  rewrite !size_t_small by lia.
  apply IH; [lia|lia|].
  intros r s2 Ht2 Hd2 Hr. apply HQ; [congruence| |lia].
  intros j. rewrite Hd2. apply Hd1.
Qed.

Lemma wp__M_assign_str T d (str : list Z) s Q E :
  size str < 2 ^ 64 ->
  (forall r s',
     this s' = this s ->
     (forall i, slot_at s' i = None <-> slot_at s i = None) ->
     0 <= r <= size str ->
     Q r s') ->
  wp (_M_assign_str T d str) s Q E.
Proof.
  intros Hs HQ. unfold _M_assign_str.
  apply wp__M_assign_str_loop; [exact Hs|lia|unfold size; lia|].
  intros r s' Ht Hd Hr. apply HQ; auto. lia.
Qed.

(** *** The members, one by one *)

Lemma writes_copy_each (k : nat) (p first : pointer) :
  forall i s lo hi,
    lo <= offset p + i -> offset p + i + Z.of_nat k <= hi ->
    writes (copy_each k (ret p) first i) s lo hi.
Proof.
  induction k as [|k IH]; intros i s lo hi Hlo Hhi; simpl.
  - apply writes_ret.
  - unfold writes. apply wp_bind, wp_ret. apply wp_bind, wp_peek. intros v.
    apply wp_bind.
    eapply wp_writes; [apply (writes_poke_slot _ _ _ lo hi); simpl; lia|].
    intros s1 Ht1 Hf1.
    eapply wp_conseq; [apply (IH (i + 1) s1 lo hi); lia| |intros ? ? []].
    intros _ s2 (Ht2 & Hf2). split; [congruence|].
    eapply frame_trans; eauto.
Qed.

Section Members.

Variable al : allocator.
Variable T : code_type.
Variable s : state.
Hypothesis Hbounded : bounded s.

Let Hlen : 0 <= _M_len (this s) <= _M_allocated_capacity (this s).
Proof. apply Hbounded. Qed.

Let Hcap63 : _M_allocated_capacity (this s) < 2 ^ 63.
Proof. apply Hbounded. Qed.

Let Hcap : _M_allocated_capacity (this s) < 2 ^ 64.
Proof. pose proof Hcap63. lia. Qed.

Abbreviation good := (fun (_ : unit) s' => invariant s' \/ untouched s s').

Ltac fin := first [right; reflexivity | left; reflexivity].

Lemma as_it_was : invariant s \/ untouched s s.
Proof. right. split; reflexivity. Qed.

Lemma set_length_good n s1 E :
  0 <= n <= _M_allocated_capacity (this s1) ->
  _M_allocated_capacity (this s1) < 2 ^ 64 ->
  wp (_M_set_length T n) s1 good E.
Proof.
  intros Hn Hc.
  eapply wp_conseq; [apply (set_length_invariant T n s1 E); auto| |auto].
  intros u s' H. left. exact H.
Qed.

Lemma set_length_good_extent n s1 E :
  0 <= n -> 0 <= _M_allocated_capacity (this s1) < 2 ^ 64 ->
  (n <= _M_allocated_capacity (this s1) \/
   forall i, _M_allocated_capacity (this s1) < i -> slot_at s1 i = None) ->
  wp (_M_set_length T n) s1 good E.
Proof.
  intros Hn Hc Hext.
  eapply wp_conseq; [apply (set_length_invariant_extent T n s1 E); auto| |auto].
  intros u s' H. left. exact H.
Qed.

(** **** [append] *)

Lemma append_fill_spec n c : wp (append_fill al T n c) s good (safe s).
Proof.
  unfold append_fill. apply wp_when; [intros _|intros _; apply as_it_was].
  apply wp_bind, wp__M_check_length; [|fin].
  apply wp_bind, wp_size_. apply wp_bind, wp_capacity. apply wp_bind.
  pose proof (size_t_range (n + _M_len (this s))) as Hnew.
  apply wp_grow; [lia|lia|lia| |fin|intros; fin].
  intros s1 Hl1 Hc1.
  apply wp_bind, wp_data. apply wp_bind, wp_size_. apply wp_bind.
  apply keeps_fields__M_assign_fill. intros s2 Ht2 _.
  apply set_length_good; rewrite Ht2; lia.
Qed.

Lemma append_arr_spec arr n : wp (append_arr al T arr n) s good (safe s).
Proof.
  unfold append_arr. apply wp_when; [intros _|intros _; apply as_it_was].
  apply wp_bind, wp__M_check_length; [|fin].
  apply wp_bind, wp_size_. apply wp_bind, wp_capacity. apply wp_bind.
  pose proof (size_t_range (n + _M_len (this s))) as Hnew.
  apply wp_grow; [lia|lia|lia| |fin|intros; fin].
  intros s1 Hl1 Hc1.
  apply wp_bind, wp_data. apply wp_bind, wp_size_. apply wp_bind.
  apply keeps_fields__M_assign_arr. intros s2 Ht2 _.
  apply set_length_good; rewrite Ht2; lia.
Qed.

Lemma append_str_spec (str : list Z) :
  size str < 2 ^ 63 -> wp (append_str al T str) s good (safe s).
Proof.
  intros Hs. unfold append_str. cbv zeta.
  assert (0 <= size str) by (unfold size; lia).
  apply wp_when; [intros _|intros _; apply as_it_was].
  apply wp_bind, wp__M_check_length; [|fin].
  apply wp_bind, wp_size_. apply wp_bind, wp_capacity. apply wp_bind.
  rewrite (size_t_small (size str + _M_len (this s))) by lia.
  apply wp_grow; [lia|lia|lia| |fin|intros; fin].
  intros s1 Hl1 Hc1.
  apply wp_bind, wp_data. apply wp_bind, wp_size_. apply wp_bind.
  apply wp__M_assign_str; [lia|]. intros r s2 Ht2 _ Hr.
  apply wp_bind, wp_size_. rewrite Ht2, Hl1.
  rewrite size_t_small by lia.
  apply set_length_good; rewrite Ht2; lia.
Qed.

Lemma append_cstr_spec (str : list Z) :
  size str < 2 ^ 63 -> wp (append_cstr al T str) s good (safe s).
Proof.
  intros Hs. unfold append_cstr.
  destruct (strlen str) as [n|] eqn:Hn; [|exact I].
  apply append_str_spec. unfold size in *. rewrite length_take. lia.
Qed.

Lemma append_string_pos_spec (str : list Z) pos n :
  size str < 2 ^ 63 -> wp (append_string_pos al T str pos n) s good (safe s).
Proof.
  intros Hs. unfold append_string_pos.
  destruct (size str <? pos); [apply wp_throw; fin|].
  apply append_str_spec. unfold size, advance in *.
  rewrite length_take, length_drop. lia.
Qed.

Lemma append_ustring_spec str :
  wp (append_ustring al T str) s good (safe s).
Proof. apply append_arr_spec. Qed.

Lemma append_ustring_pos_spec str pos n :
  is_ustring str -> 0 <= pos ->
  wp (append_ustring_pos al T str pos n) s good (safe s).
Proof.
  intros [Hl _] Hpos. unfold append_ustring_pos, is_size in *.
  apply wp_bind, wp_on_check; [intros Hle|intros; fin].
  apply wp_bind, wp_on_limit; [lia|lia|].
  apply append_arr_spec.
Qed.

Lemma append_carr_spec arr : wp (append_carr al T arr) s good (safe s).
Proof.
  unfold append_carr. apply wp_bind, wp_codelen. intros n Hn.
  apply append_arr_spec.
Qed.

Lemma append_range_spec first last :
  is_range first last -> wp (append_range al T first last) s good (safe s).
Proof.
  intros Hr. unfold append_range.
  apply wp_bind, wp_distance; [exact Hr|]. intros n Hn.
  apply wp_when; [intros _|intros _; apply as_it_was].
  apply wp_bind, wp__M_check_length; [|fin].
  apply wp_bind, wp_size_. apply wp_bind, wp_capacity. apply wp_bind.
  pose proof (size_t_range (n + _M_len (this s))) as Hnew.
  apply wp_grow; [lia|lia|lia| |fin|intros; fin].
  intros s1 Hl1 Hc1. apply wp_bind.
  apply keeps_fields_copy_each.
  { intros s0 Q E H. apply wp_bind, wp_data. apply wp_bind, wp_size_.
    apply wp_ret, H. }
  intros s2 Ht2 _.
  apply set_length_good; rewrite Ht2; lia.
Qed.

(** **** [assign] *)

Lemma assign_storage_spec n Q :
  0 <= n ->
  (forall s',
     0 <= _M_allocated_capacity (this s') < 2 ^ 64 ->
     (n <= _M_allocated_capacity (this s') \/
      forall i, _M_allocated_capacity (this s') < i -> slot_at s' i = None) ->
     Q tt s') ->
  wp (assign_storage al T n) s Q (safe s).
Proof.
  intros Hn HQ. unfold assign_storage. apply wp_bind, wp_capacity.
  destruct (_M_allocated_capacity (this s) <? n) eqn:Hgrow.
  - apply wp_reserve; [lia|lia|lia| |intros; fin|intros; fin].
    intros s1 Hl1 Hc1. apply HQ; [lia|left; lia].
  - pose proof (size_t_range (Z.shiftl n 1)) as Hc'.
    apply wp_when; intros Hshrink.
    + apply wp_bind, wp__M_realloc; [|intros; fin].
      intros s1 (tmp & Ht1 & Hbeyond & _).
      apply wp__M_capacity, HQ; simpl; [lia|right].
      intros i Hi.
      erewrite slot_at_fields; [apply Hbeyond| |]; simpl; try reflexivity.
      pose proof (slots_le T (size_t (size_t (Z.shiftl n 1) + 1))
                    ltac:(apply size_t_range)) as Hs.
      assert (size_t (size_t (n ≪ 1) + 1) <= size_t (n ≪ 1) + 1)
        by (apply Z.mod_le; lia).
      lia.
    + apply HQ; [lia|left; lia].
Qed.

Lemma assign_fill_spec n c :
  0 <= n -> wp (assign_fill al T n c) s good (safe s).
Proof.
  intros Hn. unfold assign_fill. apply wp_bind.
  apply assign_storage_spec; [exact Hn|]. intros s1 Hc1 Hext.
  apply wp_bind, wp_data. apply wp_bind.
  apply keeps_fields_when; [apply keeps_fields__M_assign_fill|].
  intros s2 Ht2 Hd2.
  apply set_length_good_extent; rewrite ?Ht2; [lia|lia|].
  destruct Hext as [H|H]; [left; exact H|right].
  intros i Hi. apply Hd2. auto.
Qed.

Lemma assign_arr_spec arr n :
  0 <= n -> wp (assign_arr al T arr n) s good (safe s).
Proof.
  intros Hn. unfold assign_arr. apply wp_bind.
  apply assign_storage_spec; [exact Hn|]. intros s1 Hc1 Hext.
  apply wp_bind, wp_data. apply wp_bind.
  apply keeps_fields_when; [apply keeps_fields__M_assign_arr|].
  intros s2 Ht2 Hd2.
  apply set_length_good_extent; rewrite ?Ht2; [lia|lia|].
  destruct Hext as [H|H]; [left; exact H|right].
  intros i Hi. apply Hd2. auto.
Qed.

Lemma assign_str_spec (str : list Z) :
  size str < 2 ^ 63 -> wp (assign_str al T str) s good (safe s).
Proof.
  intros Hs. unfold assign_str. cbv zeta.
  assert (H0 : 0 <= size str) by (unfold size; lia).
  apply wp_bind.
  apply assign_storage_spec; [exact H0|]. intros s1 Hc1 Hext.
  apply wp_bind, wp_data. apply wp_bind.
  destruct (size str =? 0) eqn:Hz.
  - apply wp_ret. apply set_length_good_extent; [lia|lia|exact Hext].
  - apply wp__M_assign_str; [lia|]. intros r s2 Ht2 Hd2 Hr.
    apply set_length_good_extent; rewrite ?Ht2; [lia|lia|].
    destruct Hext as [H|H]; [left; lia|right].
    intros i Hi. apply Hd2. auto.
Qed.

Lemma assign_cstr_spec (str : list Z) :
  size str < 2 ^ 63 -> wp (assign_cstr al T str) s good (safe s).
Proof.
  intros Hs. unfold assign_cstr.
  destruct (strlen str) as [n|] eqn:Hn; [|exact I].
  apply assign_str_spec. unfold size in *. rewrite length_take. lia.
Qed.

Lemma assign_string_pos_spec (str : list Z) pos n :
  size str < 2 ^ 63 -> wp (assign_string_pos al T str pos n) s good (safe s).
Proof.
  intros Hs. unfold assign_string_pos.
  destruct (size str <? pos); [apply wp_throw; fin|].
  apply assign_str_spec. unfold size, advance in *.
  rewrite length_take, length_drop. lia.
Qed.

Lemma assign_ustring_spec str :
  is_ustring str -> wp (assign_ustring al T str) s good (safe s).
Proof. intros [Hl _]. apply assign_arr_spec. apply Hl. Qed.

Lemma assign_ustring_pos_spec str pos n :
  is_ustring str -> 0 <= pos -> 0 <= n ->
  wp (assign_ustring_pos al T str pos n) s good (safe s).
Proof.
  intros [Hl _] Hpos Hn. unfold assign_ustring_pos, is_size in *.
  apply wp_bind, wp_on_check; [intros Hle|intros; fin].
  apply wp_bind, wp_on_limit; [lia|lia|].
  apply assign_arr_spec. lia.
Qed.

Lemma assign_carr_spec arr : wp (assign_carr al T arr) s good (safe s).
Proof.
  unfold assign_carr. apply wp_bind, wp_codelen. intros n Hn.
  apply assign_arr_spec. lia.
Qed.

Lemma assign_range_spec first last :
  is_range first last -> wp (assign_range al T first last) s good (safe s).
Proof.
  intros Hr. unfold assign_range.
  apply wp_bind, wp_distance; [exact Hr|]. intros n Hn. apply wp_bind.
  apply assign_storage_spec; [lia|]. intros s1 Hc1 Hext. apply wp_bind.
  apply keeps_fields_copy_each.
  { intros s0 Q E H. apply wp_bind, wp_data. apply wp_ret, H. }
  intros s2 Ht2 Hd2.
  apply set_length_good_extent; rewrite ?Ht2; [lia|lia|].
  destruct Hext as [H|H]; [left; exact H|right].
  intros i Hi. apply Hd2. auto.
Qed.

(** **** [resize], [clear], [push_back], [pop_back], [erase] *)

Lemma resize_spec n c : 0 <= n -> wp (resize al T n c) s good (safe s).
Proof.
  intros Hn. unfold resize. apply wp_bind, wp_size_.
  destruct (_M_len (this s) <? n) eqn:Hgrow; [apply append_fill_spec|].
  apply wp_when; [intros Hshrink|intros _; apply as_it_was].
  apply set_length_good; lia.
Qed.

Lemma clear_spec : wp (clear T) s good (safe s).
Proof. apply set_length_good; lia. Qed.

Lemma push_back_spec c : wp (push_back al T c) s good (safe s).
Proof.
  unfold push_back. apply wp_bind, wp_size_. apply wp_bind, wp_capacity.
  pose proof (size_t_range (_M_len (this s) + 1)) as Hnew.
  apply wp_bind.
  apply (wp_conseq _ _
           (fun _ s1 =>
              _M_len (this s1) = _M_len (this s) /\
              size_t (_M_len (this s) + 1) <= _M_allocated_capacity (this s1)
              < 2 ^ 64)
           _ (safe s)); [| |auto].
  - apply wp_when; intros Hb; [|repeat split; lia].
    apply wp_bind, wp__S_capacity; [lia|lia| |intros; fin].
    intros c' Hc'. apply wp_bind, wp__M_realloc; [|intros; fin].
    intros s1 (tmp & Ht1 & _). apply wp__M_capacity. simpl.
    rewrite Ht1. simpl. rewrite max_size_value in Hc'. lia.
  - intros [] s1 (Hl1 & Hc1).
    apply wp_bind, wp_data. apply wp_bind.
    apply keeps_fields_write_slots. intros s2 Ht2 _.
    apply set_length_good; rewrite Ht2; lia.
Qed.

Lemma _M_erase_spec pos n :
  0 <= n <= _M_len (this s) -> wp (_M_erase T pos n) s good (safe s).
Proof.
  intros Hn. unfold _M_erase. apply wp_bind, wp_size_. apply wp_bind, wp_data.
  apply wp_bind. apply keeps_fields_when; [apply keeps_fields__S_move|].
  intros s1 Ht1 _.
  rewrite size_t_small by lia.
  apply set_length_good; rewrite Ht1; lia.
Qed.

Lemma pop_back_spec : wp (pop_back T) s good (safe s).
Proof.
  unfold pop_back. apply wp_bind, wp_size_.
  destruct (_M_len (this s) =? 0) eqn:H0; [exact I|].
  apply _M_erase_spec. lia.
Qed.

Lemma erase_spec pos n :
  0 <= pos -> 0 <= n -> wp (erase T pos n) s good (safe s).
Proof.
  intros Hpos Hn. unfold erase. apply wp_bind.
  apply wp__M_check; [intros Hle|intros; fin].
  destruct (n =? npos); [apply set_length_good; lia|].
  apply wp_when; [intros _|intros _; apply as_it_was].
  apply wp_bind, wp__M_limit; [lia|lia|].
  apply _M_erase_spec. lia.
Qed.

Lemma erase_iter_spec i : wp (erase_iter T i) s good (safe s).
Proof.
  unfold erase_iter. apply wp_bind, wp_asserted_position. intros pos Hpos.
  apply wp_bind, wp_size_.
  destruct (pos <? _M_len (this s)) eqn:Hlt; [|exact I].
  apply _M_erase_spec. lia.
Qed.

Lemma erase_iter_range_spec first last :
  wp (erase_iter_range T first last) s good (safe s).
Proof.
  unfold erase_iter_range. apply wp_bind, wp_asserted_range.
  intros pos n H0 H1 H2 Hoff. cbv beta iota.
  apply wp_bind, wp_size_.
  destruct (offset last =? _M_len (this s));
    [apply set_length_good; lia|apply _M_erase_spec; lia].
Qed.

(** **** [replace] and [insert] *)

Lemma in_place_good (m : M unit) pos n E :
  0 <= pos -> 0 <= n -> pos + n <= _M_len (this s) ->
  writes m s pos (pos + n) ->
  wp m s good E.
Proof.
  intros Hpos Hn Hfit Hw. eapply wp_writes; [exact Hw|].
  intros s' Ht (_ & Ho & _). right. split; [exact Ht|].
  apply Ho. lia.
Qed.

Lemma _M_replace_arr_spec pos n1 arr n2 :
  0 <= pos -> 0 <= n1 -> pos + n1 <= _M_len (this s) -> 0 <= n2 ->
  wp (_M_replace_arr al T pos n1 arr n2) s good (safe s).
Proof.
  intros Hpos Hn1 Hfit Hn2. unfold _M_replace_arr.
  apply wp_bind, wp__M_check_length; [|fin]. apply wp_bind, wp_data.
  destruct (n1 =? n2) eqn:Heq.
  - apply (in_place_good _ pos n2); [lia|lia|lia|].
    apply writes__S_copy; simpl; lia.
  - apply wp_bind, wp_size_. apply wp_bind, wp_capacity. apply wp_bind.
    pose proof (size_t_range (_M_len (this s) + n2 - n1)) as Hnew.
    apply wp_grow; [lia|lia|lia| |fin|intros; fin].
    intros s1 Hl1 Hc1. apply wp_bind, wp_size_. apply wp_bind.
    apply keeps_fields__S_move. intros s2 Ht2 _. apply wp_bind.
    apply keeps_fields__S_copy. intros s3 Ht3 _.
    apply set_length_good; rewrite Ht3, Ht2; lia.
Qed.

Lemma _M_replace_fill_spec pos n1 n2 c :
  0 <= pos -> 0 <= n1 -> pos + n1 <= _M_len (this s) -> 0 <= n2 ->
  wp (_M_replace_fill al T pos n1 n2 c) s good (safe s).
Proof.
  intros Hpos Hn1 Hfit Hn2. unfold _M_replace_fill.
  apply wp_bind, wp__M_check_length; [|fin]. apply wp_bind, wp_data.
  destruct (n1 =? n2) eqn:Heq.
  - apply (in_place_good _ pos n2); [lia|lia|lia|].
    apply writes__M_assign_fill; simpl; lia.
  - apply wp_bind, wp_size_. apply wp_bind, wp_capacity. apply wp_bind.
    pose proof (size_t_range (_M_len (this s) + n2 - n1)) as Hnew.
    apply wp_grow; [lia|lia|lia| |fin|intros; fin].
    intros s1 Hl1 Hc1. apply wp_bind, wp_size_. apply wp_bind.
    apply keeps_fields__S_move. intros s2 Ht2 _. apply wp_bind.
    apply keeps_fields__M_assign_fill. intros s3 Ht3 _.
    apply set_length_good; rewrite Ht3, Ht2; lia.
Qed.

Lemma _M_replace_range_spec pos n k1 k2 :
  0 <= pos -> 0 <= n -> pos + n <= _M_len (this s) -> is_range k1 k2 ->
  wp (_M_replace_range al T pos n k1 k2) s good (safe s).
Proof.
  intros Hpos Hn Hfit Hr. unfold _M_replace_range.
  apply wp_bind, wp_distance; [exact Hr|]. intros size Hsize.
  apply wp_bind, wp_data.
  destruct (n =? size) eqn:Heq.
  - apply (in_place_good _ pos n); [lia|lia|lia|].
    apply writes_copy_each; simpl; lia.
  - apply wp_bind, wp_size_. apply wp_bind, wp_capacity. apply wp_bind.
    pose proof (size_t_range (_M_len (this s) + size - n)) as Hnew.
    apply wp_grow; [lia|lia|lia| |fin|intros; fin].
    intros s1 Hl1 Hc1. apply wp_bind, wp_size_. apply wp_bind.
    apply keeps_fields__S_move. intros s2 Ht2 _. apply wp_bind.
    apply keeps_fields_copy_each.
    { intros s0 Q E H. apply wp_ret, H. }
    intros s3 Ht3 _.
    apply set_length_good; rewrite Ht3, Ht2; lia.
Qed.

Lemma replace_arr_spec pos n1 arr n2 :
  0 <= pos -> 0 <= n1 -> 0 <= n2 ->
  wp (replace_arr al T pos n1 arr n2) s good (safe s).
Proof.
  intros Hpos Hn1 Hn2. unfold replace_arr. apply wp_bind.
  apply wp__M_check; [intros Hle|intros; fin].
  apply wp_bind, wp__M_limit; [lia|lia|].
  apply _M_replace_arr_spec; lia.
Qed.

Lemma replace_carr_spec pos n arr :
  0 <= pos -> 0 <= n -> wp (replace_carr al T pos n arr) s good (safe s).
Proof.
  intros Hpos Hn. unfold replace_carr.
  apply wp_bind, wp_codelen. intros n2 Hn2. apply wp_bind.
  apply wp__M_check; [intros Hle|intros; fin].
  apply wp_bind, wp__M_limit; [lia|lia|].
  apply _M_replace_arr_spec; lia.
Qed.

Lemma replace_fill_spec pos n1 n2 c :
  0 <= pos -> 0 <= n1 -> 0 <= n2 ->
  wp (replace_fill al T pos n1 n2 c) s good (safe s).
Proof.
  intros Hpos Hn1 Hn2. unfold replace_fill. apply wp_bind.
  apply wp__M_check; [intros Hle|intros; fin].
  apply wp_bind, wp__M_limit; [lia|lia|].
  apply _M_replace_fill_spec; lia.
Qed.

Lemma replace_ustring_spec pos n str :
  0 <= pos -> 0 <= n -> is_ustring str ->
  wp (replace_ustring al T pos n str) s good (safe s).
Proof. intros Hpos Hn [Hl _]. apply replace_arr_spec; auto. apply Hl. Qed.

Lemma replace_ustring_pos_spec pos1 n1 str pos2 n2 :
  0 <= pos1 -> 0 <= n1 -> is_ustring str -> 0 <= pos2 -> 0 <= n2 ->
  wp (replace_ustring_pos al T pos1 n1 str pos2 n2) s good (safe s).
Proof.
  intros Hpos1 Hn1 [Hl _] Hpos2 Hn2. unfold replace_ustring_pos, is_size in *.
  apply wp_bind, wp_on_check; [intros Hle|intros; fin].
  apply wp_bind, wp_on_limit; [lia|lia|].
  apply replace_arr_spec; lia.
Qed.

Lemma replace_iter_arr_spec i1 i2 arr n :
  0 <= n -> wp (replace_iter_arr al T i1 i2 arr n) s good (safe s).
Proof.
  intros Hn. unfold replace_iter_arr. apply wp_bind, wp_asserted_range.
  intros pos n1 H0 H1 H2 _. cbv beta iota. apply replace_arr_spec; lia.
Qed.

Lemma replace_iter_carr_spec i1 i2 arr :
  wp (replace_iter_carr al T i1 i2 arr) s good (safe s).
Proof.
  unfold replace_iter_carr. apply wp_bind, wp_codelen. intros n Hn.
  apply replace_iter_arr_spec. lia.
Qed.

Lemma replace_iter_ustring_spec i1 i2 str :
  is_ustring str -> wp (replace_iter_ustring al T i1 i2 str) s good (safe s).
Proof. intros [Hl _]. apply replace_iter_arr_spec. apply Hl. Qed.

Lemma replace_iter_fill_spec i1 i2 n c :
  0 <= n -> wp (replace_iter_fill al T i1 i2 n c) s good (safe s).
Proof.
  intros Hn. unfold replace_iter_fill. apply wp_bind, wp_asserted_range.
  intros pos n1 H0 H1 H2 _. cbv beta iota. apply replace_fill_spec; lia.
Qed.

Lemma replace_iter_range_spec i1 i2 k1 k2 :
  is_range k1 k2 ->
  wp (replace_iter_range al T i1 i2 k1 k2) s good (safe s).
Proof.
  intros Hr. unfold replace_iter_range. apply wp_bind, wp_asserted_range.
  intros pos n1 H0 H1 H2 _. cbv beta iota.
  apply _M_replace_range_spec; auto.
Qed.

Lemma insert_fill_spec pos n c :
  0 <= pos -> 0 <= n -> wp (insert_fill al T pos n c) s good (safe s).
Proof.
  intros Hpos Hn. unfold insert_fill. apply wp_bind.
  apply wp__M_check; [intros Hle|intros; fin].
  apply _M_replace_fill_spec; lia.
Qed.

Lemma insert_carr_spec pos arr :
  0 <= pos -> wp (insert_carr al T pos arr) s good (safe s).
Proof.
  intros Hpos. unfold insert_carr. apply wp_bind, wp_codelen. intros n Hn.
  apply replace_arr_spec; lia.
Qed.

Lemma insert_ustring_pos_spec pos1 str pos2 n2 :
  0 <= pos1 -> is_ustring str -> 0 <= pos2 -> 0 <= n2 ->
  wp (insert_ustring_pos al T pos1 str pos2 n2) s good (safe s).
Proof.
  intros Hpos1 [Hl _] Hpos2 Hn2. unfold insert_ustring_pos, is_size in *.
  apply wp_bind, wp_on_check; [intros Hle|intros; fin].
  apply wp_bind, wp_on_limit; [lia|lia|].
  apply replace_arr_spec; lia.
Qed.

Lemma insert_iter_fill_spec i n c :
  0 <= n -> wp (insert_iter_fill al T i n c) s good (safe s).
Proof.
  intros Hn. unfold insert_iter_fill. apply wp_bind, wp_asserted_position.
  intros pos Hpos. apply _M_replace_fill_spec; lia.
Qed.

Lemma insert_iter_range_spec i k1 k2 :
  is_range k1 k2 -> wp (insert_iter_range al T i k1 k2) s good (safe s).
Proof.
  intros Hr. unfold insert_iter_range. apply wp_bind, wp_asserted_position.
  intros pos Hpos. apply _M_replace_range_spec; auto; lia.
Qed.

Lemma run_spec m :
  well_typed T m -> taken_over m = None ->
  wp (run al T m) s good (safe s).
Proof.
  destruct m; simpl; unfold is_size, is_code, is_text; intros Hwt Hto;
    try discriminate.
  - apply assign_fill_spec; lia.
  - apply assign_str_spec; lia.
  - apply assign_cstr_spec; lia.
  - apply assign_string_pos_spec; lia.
  - apply assign_ustring_spec; auto.
  - apply assign_ustring_pos_spec; tauto || lia.
  - apply assign_arr_spec; lia.
  - apply assign_carr_spec.
  - apply assign_range_spec; auto.
  - apply append_fill_spec.
  - apply append_str_spec; lia.
  - apply append_cstr_spec; lia.
  - apply append_string_pos_spec; lia.
  - apply append_ustring_spec.
  - apply append_ustring_pos_spec; tauto || lia.
  - apply append_arr_spec.
  - apply append_carr_spec.
  - apply append_range_spec; auto.
  - apply push_back_spec.
  - apply pop_back_spec.
  - apply insert_fill_spec; lia.
  - apply replace_arr_spec; lia.
  - apply insert_carr_spec; lia.
  - apply replace_ustring_spec; tauto || lia.
  - apply insert_ustring_pos_spec; tauto || lia.
  - apply insert_iter_fill_spec; lia.
  - apply insert_iter_range_spec; auto.
  - apply erase_spec; lia.
  - apply erase_iter_spec.
  - apply erase_iter_range_spec.
  - apply replace_arr_spec; lia.
  - apply replace_carr_spec; lia.
  - apply replace_fill_spec; lia.
  - apply replace_ustring_spec; tauto || lia.
  - apply replace_ustring_pos_spec; tauto || lia.
  - apply replace_iter_arr_spec; lia.
  - apply replace_iter_carr_spec.
  - apply replace_iter_ustring_spec; auto.
  - apply replace_iter_fill_spec; lia.
  - apply replace_iter_range_spec; auto.
  - apply resize_spec; lia.
  - apply clear_spec.
Qed.

End Members.

(** C6, as the code behaves.  A mutating member that returns, called on a
    [ustring] whose length is at most its capacity, leaves the invariant
    ([length <= capacity], sentinel at index [length]) in force, or leaves
    the three members and the slot at index [length] as they were, or is
    [assign(ustring&&)], which hands over the members of its argument.  So
    every other member keeps the invariant of a buffer that has it, and on a
    default-constructed [ustring], which has no slot at index [length], it
    either establishes the invariant or leaves the [ustring]
    default-constructed. *)
Theorem mutation_establishes_invariant
    (al : allocator) (T : code_type) (m : mutation) (s s' : state) :
  well_typed T m -> bounded s -> run al T m s = Ok tt s' ->
  (invariant s' \/ untouched s s' \/ taken_over m = Some (this s')) /\
  (taken_over m = None -> invariant s -> invariant s') /\
  (taken_over m = None -> this s = default_ustring ->
   invariant s' \/ this s' = default_ustring).
Proof.
  intros Hwt Hb Hrun.
  destruct (taken_over m) as [str|] eqn:Hto.
  - split; [|split; discriminate].
    right. right. destruct m; try discriminate. injection Hto as ->.
    simpl in Hrun. unfold assign_move in Hrun. injection Hrun as <-.
    simpl. destruct str. reflexivity.
  - pose proof (wp_ok _ _ _ _ _ _ (run_spec al T s Hb m Hwt Hto) Hrun) as H.
    split; [|split].
    + destruct H as [H|H]; auto.
    + intros _ (Hl & Hc & Hs). destruct H as [H|[Ht Hu]]; [exact H|].
      unfold invariant. rewrite Ht, Hu. auto.
    + intros _ Hd. destruct H as [H|[Ht Hu]]; [left; exact H|right].
      congruence.
Qed.

Lemma mutation_establishes_invariant_witness :
  exists s',
    run easy_allocator Char32 (Push_back 0x41) initial_state = Ok tt s' /\
    (invariant s' \/ this s' = default_ustring).
Proof.
  eexists. split; [vm_compute; reflexivity|].
  refine (proj2 (proj2 (mutation_establishes_invariant easy_allocator Char32
                          (Push_back 0x41) initial_state _ _ _ _))
            eq_refl eq_refl).
  - simpl. unfold is_code. simpl. lia.
  - split; vm_compute; [split; discriminate|reflexivity].
  - vm_compute. reflexivity.
Defined.

(** ** Failing calls *)

(** *** Where a member can throw *)

Create HintDb reads.
Create HintDb quiet.
Create HintDb early.

Section Throwing.

Context {A B : Type}.

Lemma reads_ret (a : A) : reads (ret a).
Proof. intros s. reflexivity. Qed.

Lemma reads_throw e : reads (@throw A e).
Proof. intros s. reflexivity. Qed.

Lemma reads_undefined : reads (@undefined A).
Proof. intros s. exact I. Qed.

Lemma reads_bind (m : M A) (k : A -> M B) :
  reads m -> (forall a, reads (k a)) -> reads (m ≫= k).
Proof.
  intros Hm Hk s. unfold mbind, M_bind, bind. specialize (Hm s).
  destruct (m s) as [a s1|e s1|]; subst; auto. apply Hk.
Qed.

Lemma quiet_ret (a : A) : quiet (ret a).
Proof. intros s. exact I. Qed.

Lemma quiet_undefined : quiet (@undefined A).
Proof. intros s. exact I. Qed.

Lemma quiet_bad_alloc : quiet (@throw A bad_alloc).
Proof. intros s. reflexivity. Qed.

Lemma quiet_bind (m : M A) (k : A -> M B) :
  quiet m -> (forall a, quiet (k a)) -> quiet (m ≫= k).
Proof.
  intros Hm Hk s. unfold mbind, M_bind, bind. specialize (Hm s).
  destruct (m s) as [a s1|e s1|]; auto. apply Hk.
Qed.

Lemma checks_first_reads (m : M A) : reads m -> checks_first m.
Proof. intros H s. specialize (H s). destruct (m s); auto. Qed.

Lemma checks_first_quiet (m : M A) : quiet m -> checks_first m.
Proof. intros H s. specialize (H s). destruct (m s); auto. Qed.

Lemma checks_first_bind_reads (m : M A) (k : A -> M B) :
  reads m -> (forall a, checks_first (k a)) -> checks_first (m ≫= k).
Proof.
  intros Hm Hk s. unfold mbind, M_bind, bind. specialize (Hm s).
  destruct (m s) as [a s1|e s1|]; subst; auto. apply Hk.
Qed.

Lemma checks_first_bind_quiet (m : M A) (k : A -> M B) :
  checks_first m -> (forall a, quiet (k a)) -> checks_first (m ≫= k).
Proof.
  intros Hm Hk s. unfold mbind, M_bind, bind. specialize (Hm s).
  destruct (m s) as [a s1|e s1|]; auto.
  specialize (Hk a s1). destruct (k a s1); auto.
Qed.

End Throwing.

(** Case analysis on the innermost scrutinee of the goal. *)
Ltac innermost x :=
  lazymatch x with
  | context [match ?y with _ => _ end] => innermost y
  | _ => destruct x
  end.

Ltac cases :=
  repeat (cbn beta iota;
          match goal with
          | |- context [match ?x with _ => _ end] => innermost x
          end);
  cbn beta iota.

Lemma reads_on {A : Type} (str : ustring) (m : M A) : reads (on str m).
Proof. intros s. unfold on. destruct (m _); auto. Qed.

Lemma reads_size_ : reads size_.
Proof. intros s. reflexivity. Qed.

Lemma reads_capacity : reads capacity.
Proof. intros s. reflexivity. Qed.

Lemma reads_data : reads data.
Proof. intros s. reflexivity. Qed.

Lemma reads_self : reads self.
Proof. intros s. reflexivity. Qed.

Lemma reads_read_slots p n : reads (read_slots p n).
Proof.
  intros s. unfold read_slots.
  cases; auto.
Qed.

Lemma reads_codelen arr : reads (codelen arr).
Proof.
  intros s. unfold codelen.
  cases; auto.
Qed.

#[export] Hint Resolve reads_ret reads_throw reads_undefined reads_on
  reads_size_ reads_capacity reads_data reads_self reads_read_slots
  reads_codelen : reads.

Ltac reads_tac :=
  lazymatch goal with
  | |- reads (_ ≫= _) => apply reads_bind; [reads_tac|intros; reads_tac]
  | |- reads (if ?b then _ else _) => destruct b; reads_tac
  | |- reads (match ?x with _ => _ end) => destruct x; reads_tac
  | |- _ => solve [auto with reads]
  end.

Lemma reads_peek p : reads (peek p).
Proof. unfold peek. reads_tac. Qed.

Lemma reads__M_check pos : reads (_M_check pos).
Proof. unfold _M_check. reads_tac. Qed.

Lemma reads__M_limit pos off : reads (_M_limit pos off).
Proof. unfold _M_limit. reads_tac. Qed.

Lemma reads__M_check_length n1 n2 : reads (_M_check_length n1 n2).
Proof. unfold _M_check_length. reads_tac. Qed.

Lemma reads__S_capacity c old : reads (_S_capacity c old).
Proof. unfold _S_capacity. reads_tac. Qed.

Lemma reads_distance first last : reads (distance first last).
Proof. unfold distance. reads_tac. Qed.

Lemma reads_asserted_range i1 i2 : reads (asserted_range i1 i2).
Proof. unfold asserted_range. reads_tac. Qed.

Lemma reads_asserted_position i : reads (asserted_position i).
Proof. unfold asserted_position. reads_tac. Qed.

#[export] Hint Resolve reads_peek reads__M_check reads__M_limit
  reads__M_check_length reads__S_capacity reads_distance
  reads_asserted_range reads_asserted_position : reads.

Lemma reads_memcmp bo T p arr bytes : reads (memcmp bo T p arr bytes).
Proof. unfold memcmp. reads_tac. Qed.

Lemma reads_array_at arr n : reads (array_at arr n).
Proof. unfold array_at. reads_tac. Qed.

#[export] Hint Resolve reads_memcmp reads_array_at : reads.

Lemma reads_compare_pos_arr bo T pos1 n1 arr n2 :
  reads (compare_pos_arr bo T pos1 n1 arr n2).
Proof. unfold compare_pos_arr. reads_tac. Qed.

#[export] Hint Resolve reads_compare_pos_arr : reads.

Lemma reads_compare_pos_ustring_pos bo T pos1 n1 str pos2 n2 :
  reads (compare_pos_ustring_pos bo T pos1 n1 str pos2 n2).
Proof. unfold compare_pos_ustring_pos. reads_tac. Qed.

#[export] Hint Resolve reads_compare_pos_ustring_pos : reads.

Lemma reads_compare_pos_ustring bo T pos n str :
  reads (compare_pos_ustring bo T pos n str).
Proof. unfold compare_pos_ustring. reads_tac. Qed.

Lemma reads_compare_ustring_pos bo T str pos n :
  reads (compare_ustring_pos bo T str pos n).
Proof. unfold compare_ustring_pos. reads_tac. Qed.

Lemma reads_compare_str_loop fuel T str :
  forall cur idx, reads (compare_str_loop fuel T str cur idx).
Proof.
  induction fuel as [|fuel IH]; intros cur idx; simpl; [apply reads_ret|].
  destruct (cur <? size str); [|reads_tac].
  destruct (utf8_decode _ _ _); [|apply reads_undefined].
  apply reads_bind; [apply reads_size_|]. intros len.
  destruct (idx =? len); [apply reads_ret|].
  apply reads_bind; [apply reads_data|]. intros p.
  apply reads_bind; [apply reads_peek|]. intros v.
  destruct (v <? z); [apply reads_ret|].
  destruct (z <? v); [apply reads_ret|]. apply IH.
Qed.

Lemma reads_compare_string_pos T str pos n :
  reads (compare_string_pos T str pos n).
Proof.
  unfold compare_string_pos. destruct (_ <? _); [apply reads_throw|].
  apply reads_compare_str_loop.
Qed.

Lemma reads_at_ pos : reads (at_ pos).
Proof. unfold at_. reads_tac. Qed.

#[export] Hint Resolve reads_compare_pos_ustring reads_compare_ustring_pos
  reads_compare_string_pos reads_at_ : reads.

(** The helpers that write, allocate or set a member throw nothing but
    [bad_alloc]. *)

Lemma quiet_reads_total {A : Type} (m : M A) :
  (forall s e s', m s <> Throw e s') -> quiet m.
Proof.
  intros H s. destruct (m s) as [a s1|e s1|] eqn:Hm; auto.
  exfalso. exact (H _ _ _ Hm).
Qed.

Ltac never_throws :=
  apply quiet_reads_total; intros s e s';
  cbv beta delta [size_ capacity data self _M_capacity _M_length _M_data
                  read_slots write_slots poke_slot malloc realloc codelen];
  cases; discriminate.

Lemma quiet_size_ : quiet size_.
Proof. never_throws. Qed.

Lemma quiet_capacity : quiet capacity.
Proof. never_throws. Qed.

Lemma quiet_data : quiet data.
Proof. never_throws. Qed.

Lemma quiet__M_capacity c : quiet (_M_capacity c).
Proof. never_throws. Qed.

Lemma quiet__M_length n : quiet (_M_length n).
Proof. never_throws. Qed.

Lemma quiet__M_data p : quiet (_M_data p).
Proof. never_throws. Qed.

Lemma quiet_read_slots p n : quiet (read_slots p n).
Proof. never_throws. Qed.

Lemma quiet_write_slots p vs : quiet (write_slots p vs).
Proof. never_throws. Qed.

Lemma quiet_poke_slot p v : quiet (poke_slot p v).
Proof. never_throws. Qed.

Lemma quiet_malloc al T bytes : quiet (malloc al T bytes).
Proof. never_throws. Qed.

Lemma quiet_realloc al T p bytes : quiet (realloc al T p bytes).
Proof. never_throws. Qed.

Lemma quiet_codelen arr : quiet (codelen arr).
Proof. never_throws. Qed.

#[export] Hint Resolve quiet_ret quiet_undefined quiet_bad_alloc quiet_size_
  quiet_capacity quiet_data quiet__M_capacity quiet__M_length quiet__M_data
  quiet_read_slots quiet_write_slots quiet_poke_slot quiet_malloc
  quiet_realloc quiet_codelen : quiet.

Ltac quiet_tac :=
  lazymatch goal with
  | |- quiet (_ ≫= _) => apply quiet_bind; [quiet_tac|intros; quiet_tac]
  | |- quiet (when ?b _) => destruct b; simpl; quiet_tac
  | |- quiet (if ?b then _ else _) => destruct b; quiet_tac
  | |- quiet (match ?x with _ => _ end) => destruct x; quiet_tac
  | |- _ => solve [auto with quiet]
  end.

Lemma quiet_peek p : quiet (peek p).
Proof. unfold peek. quiet_tac. Qed.

Lemma quiet_memset T d c bytes : quiet (memset T d c bytes).
Proof. unfold memset. quiet_tac. Qed.

Lemma quiet_memmove T d src bytes : quiet (memmove T d src bytes).
Proof. unfold memmove. quiet_tac. Qed.

Lemma quiet_memcpy T d src bytes : quiet (memcpy T d src bytes).
Proof. unfold memcpy. quiet_tac. Qed.

#[export] Hint Resolve quiet_peek quiet_memset quiet_memmove quiet_memcpy
  : quiet.

Lemma quiet__S_move T d src n : quiet (_S_move T d src n).
Proof. unfold _S_move. quiet_tac. Qed.

Lemma quiet__S_copy T d src n : quiet (_S_copy T d src n).
Proof. unfold _S_copy. quiet_tac. Qed.

Lemma quiet__M_assign_fill T d n c : quiet (_M_assign_fill T d n c).
Proof. unfold _M_assign_fill. quiet_tac. Qed.

Lemma quiet__M_assign_arr T d src n : quiet (_M_assign_arr T d src n).
Proof. unfold _M_assign_arr. quiet_tac. Qed.

Lemma quiet__M_set_length T n : quiet (_M_set_length T n).
Proof. unfold _M_set_length. quiet_tac. Qed.

Lemma quiet__M_realloc al T n : quiet (_M_realloc al T n).
Proof. unfold _M_realloc. quiet_tac. Qed.

Lemma quiet__M_allocator al T cap : quiet (_M_allocator al T cap).
Proof. unfold _M_allocator. quiet_tac. Qed.

#[export] Hint Resolve quiet__S_move quiet__S_copy quiet__M_assign_fill
  quiet__M_assign_arr quiet__M_set_length quiet__M_realloc
  quiet__M_allocator : quiet.

Lemma quiet__M_assign_str_loop T fuel d str :
  forall cur idx, quiet (_M_assign_str_loop T fuel d str cur idx).
Proof.
  induction fuel as [|fuel IH]; intros cur idx; simpl;
    [apply quiet_undefined|].
  destruct (cur <? size str); [|apply quiet_ret].
  destruct (utf8_decode _ _ _); [|apply quiet_undefined].
  apply quiet_bind; [apply quiet_poke_slot|]. intros _. apply IH.
Qed.

Lemma quiet__M_assign_str T d str : quiet (_M_assign_str T d str).
Proof. apply quiet__M_assign_str_loop. Qed.

Lemma quiet_copy_each n dest first :
  quiet dest -> forall i, quiet (copy_each n dest first i).
Proof.
  intros Hd. induction n as [|n IH]; intros i; simpl; [apply quiet_ret|].
  apply quiet_bind; [exact Hd|]. intros d.
  apply quiet_bind; [apply quiet_peek|]. intros v.
  apply quiet_bind; [apply quiet_poke_slot|]. intros _. apply IH.
Qed.

Lemma quiet__M_erase T pos n : quiet (_M_erase T pos n).
Proof. unfold _M_erase. quiet_tac. Qed.

Lemma quiet__M_construct_arr al T arr n : quiet (_M_construct_arr al T arr n).
Proof. unfold _M_construct_arr. quiet_tac. Qed.

#[export] Hint Resolve quiet__M_assign_str quiet__M_erase
  quiet__M_construct_arr : quiet.

Lemma quiet__M_construct_str al T str : quiet (_M_construct_str al T str).
Proof. unfold _M_construct_str. quiet_tac. Qed.

#[export] Hint Resolve quiet__M_construct_str : quiet.

(** The members check, grow the buffer, and only then store. *)

#[export] Hint Resolve checks_first_reads checks_first_quiet : early.

Ltac early_tac :=
  lazymatch goal with
  | |- checks_first (_ ≫= _) =>
      first
        [ apply checks_first_bind_reads;
          [solve [reads_tac]|intros; early_tac]
        | apply checks_first_bind_quiet;
          [early_tac|intros; solve [quiet_tac]] ]
  | |- checks_first (when ?b _) => destruct b; simpl; early_tac
  | |- checks_first (if ?b then _ else _) => destruct b; early_tac
  | |- checks_first (match ?x with _ => _ end) => destruct x; early_tac
  | |- _ =>
      first
        [ solve [auto with early]
        | apply checks_first_reads; solve [reads_tac]
        | apply checks_first_quiet; solve [quiet_tac] ]
  end.

Lemma checks_first_reserve al T res : checks_first (reserve al T res).
Proof. unfold reserve. early_tac. Qed.

#[export] Hint Resolve checks_first_reserve : early.

Lemma checks_first_assign_storage al T n :
  checks_first (assign_storage al T n).
Proof. unfold assign_storage. early_tac. Qed.

#[export] Hint Resolve checks_first_assign_storage : early.

Lemma quiet_copy_each_ret n p first i : quiet (copy_each n (ret p) first i).
Proof. apply quiet_copy_each, quiet_ret. Qed.

Lemma quiet_copy_each_end n first i :
  quiet (copy_each n (p ← data; len0 ← size_; ret (mk_pointer p len0))
           first i).
Proof. apply quiet_copy_each. quiet_tac. Qed.

Lemma quiet_copy_each_start n first i :
  quiet (copy_each n (p ← data; ret (mk_pointer p 0)) first i).
Proof. apply quiet_copy_each. quiet_tac. Qed.

#[export] Hint Resolve quiet_copy_each_ret quiet_copy_each_end
  quiet_copy_each_start : quiet.

Section Early.

Variable al : allocator.
Variable T : code_type.

Lemma checks_first__M_replace_arr pos n1 arr n2 :
  checks_first (_M_replace_arr al T pos n1 arr n2).
Proof. unfold _M_replace_arr. early_tac. Qed.

Lemma checks_first__M_replace_fill pos n1 n2 c :
  checks_first (_M_replace_fill al T pos n1 n2 c).
Proof. unfold _M_replace_fill. early_tac. Qed.

Lemma checks_first__M_replace_range pos n k1 k2 :
  checks_first (_M_replace_range al T pos n k1 k2).
Proof. unfold _M_replace_range. early_tac. Qed.

Hint Resolve checks_first__M_replace_arr checks_first__M_replace_fill
  checks_first__M_replace_range : early.

Lemma checks_first_append_fill n c : checks_first (append_fill al T n c).
Proof. unfold append_fill. early_tac. Qed.

Lemma checks_first_append_arr arr n : checks_first (append_arr al T arr n).
Proof. unfold append_arr. early_tac. Qed.

Lemma checks_first_append_str str : checks_first (append_str al T str).
Proof. unfold append_str. cbv zeta. early_tac. Qed.

Lemma checks_first_assign_fill n c : checks_first (assign_fill al T n c).
Proof. unfold assign_fill. early_tac. Qed.

Lemma checks_first_assign_arr arr n : checks_first (assign_arr al T arr n).
Proof. unfold assign_arr. early_tac. Qed.

Lemma checks_first_assign_str str : checks_first (assign_str al T str).
Proof. unfold assign_str. cbv zeta. early_tac. Qed.

Lemma checks_first_replace_arr pos n1 arr n2 :
  checks_first (replace_arr al T pos n1 arr n2).
Proof. unfold replace_arr. early_tac. Qed.

Lemma checks_first_replace_fill pos n1 n2 c :
  checks_first (replace_fill al T pos n1 n2 c).
Proof. unfold replace_fill. early_tac. Qed.

Hint Resolve checks_first_append_fill checks_first_append_arr
  checks_first_append_str checks_first_assign_fill checks_first_assign_arr
  checks_first_assign_str checks_first_replace_arr checks_first_replace_fill
  : early.

Lemma checks_first_replace_iter_arr i1 i2 arr n :
  checks_first (replace_iter_arr al T i1 i2 arr n).
Proof. unfold replace_iter_arr. early_tac. Qed.

Hint Resolve checks_first_replace_iter_arr : early.

Lemma checks_first_run m : checks_first (run al T m).
Proof.
  destruct m; simpl;
    unfold assign_cstr, assign_string_pos, assign_ustring,
      assign_ustring_pos, assign_carr, assign_range, assign_move,
      append_cstr, append_string_pos, append_ustring, append_ustring_pos,
      append_carr, append_range, push_back, pop_back, insert_fill,
      insert_arr, insert_carr, insert_ustring, insert_ustring_pos,
      insert_iter_fill, insert_iter_range, erase, erase_iter,
      erase_iter_range, replace_carr, replace_ustring, replace_ustring_pos,
      replace_iter_carr, replace_iter_ustring, replace_iter_fill,
      replace_iter_range, resize, clear;
    cbv zeta; try solve [early_tac].
Qed.

Lemma checks_first_building ctor :
  checks_first ctor -> checks_first (building ctor).
Proof.
  intros H s. unfold building.
  specialize (H (mk_state (mk_ustring 0 0 None) (mem s))).
  destruct (ctor _) as [a s1|e s1|]; auto.
  destruct H as [H|H]; [left; exact H|right].
  subst s1. destruct s. reflexivity.
Qed.

Lemma checks_first_construct_ustring_pos str pos n :
  checks_first (construct_ustring_pos al T str pos n).
Proof. unfold construct_ustring_pos. early_tac. Qed.

Lemma checks_first_perform {A : Type} (op : operation A) :
  checks_first (perform al T op).
Proof.
  destruct op; simpl; try solve [apply checks_first_reads; auto with reads].
  - unfold copy. early_tac.
  - unfold ustring_substr.
    apply checks_first_bind_reads; [auto with reads|]. intros pos'.
    apply checks_first_bind_reads; [auto with reads|]. intros str.
    apply checks_first_building, checks_first_construct_ustring_pos.
  - apply checks_first_construct_ustring_pos.
  - unfold construct_string_pos. early_tac.
Qed.

End Early.

(** *** Checks that fail *)

Lemma bind_ok {A B : Type} (m : M A) (k : A -> M B) s a s' :
  m s = Ok a s' -> (m ≫= k) s = k a s'.
Proof. unfold mbind, M_bind, bind. intros ->. reflexivity. Qed.

Lemma bind_throw {A B : Type} (m : M A) (k : A -> M B) s e s' :
  m s = Throw e s' -> (m ≫= k) s = Throw e s'.
Proof. unfold mbind, M_bind, bind. intros ->. reflexivity. Qed.

Lemma value_of_reads {A : Type} (m : M A) s a :
  reads m -> value_of m s = Some a -> m s = Ok a s.
Proof.
  intros Hr Hv. unfold value_of in Hv. specialize (Hr s).
  destruct (m s) as [a' s'|e s'|]; try discriminate.
  injection Hv as ->. subst s'. reflexivity.
Qed.

Lemma _M_check_ok pos s :
  pos <= _M_len (this s) -> _M_check pos s = Ok pos s.
Proof.
  intros H. unfold _M_check, mbind, M_bind, bind, size_.
  replace (_M_len (this s) <? pos) with false by lia. reflexivity.
Qed.

Lemma _M_check_throws pos s :
  _M_len (this s) < pos -> _M_check pos s = Throw out_of_range s.
Proof.
  intros H. unfold _M_check, mbind, M_bind, bind, size_.
  replace (_M_len (this s) <? pos) with true by lia. reflexivity.
Qed.

Lemma on_check_ok str pos s :
  pos <= _M_len str -> on str (_M_check pos) s = Ok pos s.
Proof. intros H. unfold on. rewrite _M_check_ok by exact H. reflexivity. Qed.

Lemma on_check_throws str pos s :
  _M_len str < pos -> on str (_M_check pos) s = Throw out_of_range s.
Proof.
  intros H. unfold on. rewrite _M_check_throws by exact H. reflexivity.
Qed.

Lemma _M_limit_ok pos off s :
  0 <= pos <= _M_len (this s) -> _M_len (this s) < 2 ^ 64 ->
  _M_limit pos off s = Ok (Z.min off (_M_len (this s) - pos)) s.
Proof.
  intros Hpos Hlen. unfold _M_limit, mbind, M_bind, bind, size_, ret.
  rewrite size_t_small by lia. f_equal.
  destruct (off <? _M_len (this s) - pos) eqn:H; lia.
Qed.

Lemma on_limit_ok str pos off s :
  0 <= pos <= _M_len str -> _M_len str < 2 ^ 64 ->
  on str (_M_limit pos off) s = Ok (Z.min off (_M_len str - pos)) s.
Proof.
  intros Hpos Hlen. unfold on. rewrite _M_limit_ok by (simpl; lia).
  reflexivity.
Qed.

Lemma _M_limit_returns pos off s : exists n, _M_limit pos off s = Ok n s.
Proof. eexists. reflexivity. Qed.

Lemma on_limit_returns str pos off s :
  exists n, on str (_M_limit pos off) s = Ok n s.
Proof. eexists. reflexivity. Qed.

Lemma codelen_returns arr s :
  value_of (codelen arr) s <> None -> exists n, codelen arr s = Ok n s.
Proof.
  intros H. destruct (value_of (codelen arr) s) as [n|] eqn:Hv;
    [|contradiction].
  exists n. apply value_of_reads; [apply reads_codelen|exact Hv].
Qed.

Lemma codelen_value arr s n :
  value_of (codelen arr) s = Some n ->
  codelen arr s = Ok n s /\ 0 <= n < 2 ^ 64.
Proof.
  intros Hv. pose proof (value_of_reads _ _ _ (reads_codelen arr) Hv) as H.
  split; [exact H|].
  exact (wp_ok _ _ _ _ (fun n _ => 0 <= n < 2 ^ 64) (fun _ _ => True)
           (wp_codelen arr s _ _ (fun n Hn => Hn)) H).
Qed.

Lemma distance_value first last s n :
  is_range first last -> value_of (distance first last) s = Some n ->
  distance first last s = Ok n s /\ 0 <= n < 2 ^ 63.
Proof.
  intros Hr Hv.
  pose proof (value_of_reads _ _ _ (reads_distance first last) Hv) as H.
  split; [exact H|].
  exact (wp_ok _ _ _ _ (fun n _ => 0 <= n < 2 ^ 63) (fun _ _ => True)
           (wp_distance first last s _ _ Hr (fun n Hn => Hn)) H).
Qed.

Lemma asserted_position_value i s pos :
  value_of (asserted_position i) s = Some pos ->
  asserted_position i s = Ok pos s /\ 0 <= pos <= _M_len (this s).
Proof.
  intros Hv.
  pose proof (value_of_reads _ _ _ (reads_asserted_position i) Hv) as H.
  split; [exact H|].
  exact (wp_ok _ _ _ _ (fun pos _ => 0 <= pos <= _M_len (this s))
           (fun _ _ => True)
           (wp_asserted_position i s _ _ (fun pos Hp => Hp)) H).
Qed.

Lemma asserted_range_value i1 i2 s pos n1 :
  value_of (asserted_range i1 i2) s = Some (pos, n1) ->
  asserted_range i1 i2 s = Ok (pos, n1) s /\
  0 <= pos /\ 0 <= n1 /\ pos + n1 <= _M_len (this s).
Proof.
  intros Hv.
  pose proof (value_of_reads _ _ _ (reads_asserted_range i1 i2) Hv) as H.
  split; [exact H|].
  exact (wp_ok _ _ _ _
           (fun r _ => 0 <= fst r /\ 0 <= snd r /\
                       fst r + snd r <= _M_len (this s))
           (fun _ _ => True)
           (wp_asserted_range i1 i2 s _ _
              (fun pos n1 H0 H1 H2 _ => conj H0 (conj H1 H2))) H).
Qed.

Lemma _M_check_length_throws n1 n2 s :
  0 <= n1 <= _M_len (this s) -> _M_len (this s) <= max_size ->
  max_size < _M_len (this s) - n1 + n2 ->
  _M_check_length n1 n2 s = Throw length_error s.
Proof.
  intros Hn1 Hlen Hbig. rewrite max_size_value in *.
  unfold _M_check_length, mbind, M_bind, bind, size_.
  rewrite (size_t_small (_M_len (this s) - n1)) by lia.
  rewrite max_size_value. rewrite size_t_small by lia.
  replace (2 ^ 62 - 1 - (_M_len (this s) - n1) <? n2) with true by lia.
  reflexivity.
Qed.

Lemma reserve_throws al T res s :
  _M_len (this s) <= _M_allocated_capacity (this s) <= max_size ->
  max_size < res ->
  reserve al T res s = Throw length_error s.
Proof.
  intros Hlen Hbig.
  unfold reserve, mbind, M_bind, bind, size_, capacity, _S_capacity.
  replace (res <? _M_len (this s)) with false by lia.
  replace (res =? _M_allocated_capacity (this s)) with false by lia.
  replace (max_size <? res) with true by lia. reflexivity.
Qed.

Section Failing.

Variable al : allocator.
Variable T : code_type.
Variable s : state.

Hypothesis Hlen :
  0 <= _M_len (this s) <= _M_allocated_capacity (this s).
Hypothesis Hcap : _M_allocated_capacity (this s) <= max_size.

Lemma append_fill_throws n c :
  max_size < _M_len (this s) + n ->
  append_fill al T n c s = Throw length_error s.
Proof.
  intros Hbig. unfold append_fill.
  replace (n =? 0) with false by lia. simpl.
  apply bind_throw, _M_check_length_throws; lia.
Qed.

Lemma append_arr_throws arr n :
  max_size < _M_len (this s) + n ->
  append_arr al T arr n s = Throw length_error s.
Proof.
  intros Hbig. unfold append_arr.
  replace (n =? 0) with false by lia. simpl.
  apply bind_throw, _M_check_length_throws; lia.
Qed.

Lemma append_str_throws str :
  max_size < _M_len (this s) + size str ->
  append_str al T str s = Throw length_error s.
Proof.
  intros Hbig. unfold append_str. cbv zeta.
  replace (size str =? 0) with false by lia. simpl.
  apply bind_throw, _M_check_length_throws; lia.
Qed.

Lemma append_range_throws first last n :
  distance first last s = Ok n s ->
  max_size < _M_len (this s) + n ->
  append_range al T first last s = Throw length_error s.
Proof.
  intros Hd Hbig. unfold append_range.
  erewrite bind_ok by exact Hd.
  replace (n =? 0) with false by lia. simpl.
  apply bind_throw, _M_check_length_throws; lia.
Qed.

Lemma assign_storage_throws n :
  max_size < n -> assign_storage al T n s = Throw length_error s.
Proof.
  intros Hbig. unfold assign_storage.
  unfold mbind at 1, M_bind, bind at 1, capacity.
  replace (_M_allocated_capacity (this s) <? n) with true by lia.
  apply reserve_throws; lia.
Qed.

Lemma assign_fill_throws n c :
  max_size < n -> assign_fill al T n c s = Throw length_error s.
Proof. intros H. apply bind_throw, assign_storage_throws, H. Qed.

Lemma assign_arr_throws arr n :
  max_size < n -> assign_arr al T arr n s = Throw length_error s.
Proof. intros H. apply bind_throw, assign_storage_throws, H. Qed.

Lemma assign_str_throws str :
  max_size < size str -> assign_str al T str s = Throw length_error s.
Proof.
  intros H. unfold assign_str. cbv zeta.
  apply bind_throw, assign_storage_throws, H.
Qed.

Lemma assign_range_throws first last n :
  distance first last s = Ok n s -> max_size < n ->
  assign_range al T first last s = Throw length_error s.
Proof.
  intros Hd H. unfold assign_range. erewrite bind_ok by exact Hd.
  apply bind_throw, assign_storage_throws, H.
Qed.

Lemma push_back_throws c :
  max_size < _M_len (this s) + 1 ->
  push_back al T c s = Throw length_error s.
Proof.
  intros Hbig. pose proof max_size_value as Hmax.
  unfold push_back, mbind, M_bind, bind, size_, capacity, when, _S_capacity.
  rewrite size_t_small by lia.
  replace (_M_allocated_capacity (this s) <? _M_len (this s) + 1)
    with true by lia.
  replace (max_size <? _M_len (this s) + 1) with true by lia.
  reflexivity.
Qed.

Lemma _M_replace_arr_throws pos n1 arr n2 :
  0 <= n1 <= _M_len (this s) ->
  max_size < _M_len (this s) - n1 + n2 ->
  _M_replace_arr al T pos n1 arr n2 s = Throw length_error s.
Proof.
  intros Hn1 Hbig. unfold _M_replace_arr.
  apply bind_throw, _M_check_length_throws; lia.
Qed.

Lemma _M_replace_fill_throws pos n1 n2 c :
  0 <= n1 <= _M_len (this s) ->
  max_size < _M_len (this s) - n1 + n2 ->
  _M_replace_fill al T pos n1 n2 c s = Throw length_error s.
Proof.
  intros Hn1 Hbig. unfold _M_replace_fill.
  apply bind_throw, _M_check_length_throws; lia.
Qed.

Lemma _M_replace_range_throws pos n k1 k2 size :
  distance k1 k2 s = Ok size s -> 0 <= size < 2 ^ 63 ->
  0 <= n <= _M_len (this s) ->
  max_size < _M_len (this s) - n + size ->
  _M_replace_range al T pos n k1 k2 s = Throw length_error s.
Proof.
  intros Hd Hsize Hn Hbig. pose proof max_size_value as Hmax.
  unfold _M_replace_range. erewrite bind_ok by exact Hd.
  unfold mbind, M_bind, bind, data, size_, capacity.
  replace (n =? size) with false by lia.
  rewrite size_t_small by lia.
  replace (_M_allocated_capacity (this s) <? _M_len (this s) + size - n)
    with true by lia.
  unfold when. rewrite reserve_throws by lia.
  reflexivity.
Qed.

Lemma replace_arr_throws pos n1 arr n2 :
  0 <= pos <= _M_len (this s) -> 0 <= n1 ->
  max_size < replaced (_M_len (this s)) pos n1 n2 ->
  replace_arr al T pos n1 arr n2 s = Throw length_error s.
Proof.
  intros Hpos Hn1 Hbig. pose proof max_size_value as Hmax.
  unfold replaced in Hbig. unfold replace_arr.
  erewrite bind_ok by (apply _M_check_ok; lia).
  erewrite bind_ok by (apply _M_limit_ok; lia).
  apply _M_replace_arr_throws; lia.
Qed.

Lemma replace_fill_throws pos n1 n2 c :
  0 <= pos <= _M_len (this s) -> 0 <= n1 ->
  max_size < replaced (_M_len (this s)) pos n1 n2 ->
  replace_fill al T pos n1 n2 c s = Throw length_error s.
Proof.
  intros Hpos Hn1 Hbig. pose proof max_size_value as Hmax.
  unfold replaced in Hbig. unfold replace_fill.
  erewrite bind_ok by (apply _M_check_ok; lia).
  erewrite bind_ok by (apply _M_limit_ok; lia).
  apply _M_replace_fill_throws; lia.
Qed.

End Failing.

Lemma run_position_throws al T m s pos limit :
  In (pos, limit) (positions m (_M_len (this s))) -> limit < pos ->
  readable m s ->
  run al T m s = Throw out_of_range s.
Proof.
  intros HIn Hlt Hr.
  assert (Hstr : forall (str : list Z) (k1 k2 : M unit),
            size str < pos ->
            (if size str <? pos then k1 else k2) = k1).
  { intros str k1 k2 H. replace (size str <? pos) with true by lia.
    reflexivity. }
  destruct m; simpl in HIn; try contradiction; unfold readable in Hr;
    simpl in Hr; simpl;
    try (destruct (codelen_returns _ _ Hr) as [n2 Hn2]).
  - destruct HIn as [H|[]]. injection H as <- <-.
    unfold assign_string_pos. rewrite Hstr by exact Hlt. reflexivity.
  - destruct HIn as [H|[]]. injection H as <- <-.
    apply bind_throw, on_check_throws, Hlt.
  - destruct HIn as [H|[]]. injection H as <- <-.
    unfold append_string_pos. rewrite Hstr by exact Hlt. reflexivity.
  - destruct HIn as [H|[]]. injection H as <- <-.
    apply bind_throw, on_check_throws, Hlt.
  - destruct HIn as [H|[]]. injection H as <- <-.
    apply bind_throw, _M_check_throws, Hlt.
  - destruct HIn as [H|[]]. injection H as <- <-.
    apply bind_throw, _M_check_throws, Hlt.
  - destruct HIn as [H|[]]. injection H as <- <-.
    unfold insert_carr. erewrite bind_ok by exact Hn2.
    apply bind_throw, _M_check_throws, Hlt.
  - destruct HIn as [H|[]]. injection H as <- <-.
    apply bind_throw, _M_check_throws, Hlt.
  - unfold insert_ustring_pos.
    destruct (Z_lt_le_dec (_M_len str) pos2) as [Hbad|Hok].
    { apply bind_throw, on_check_throws, Hbad. }
    destruct HIn as [H|[H|[]]]; injection H as <- <-; [|lia].
    erewrite bind_ok by (apply on_check_ok, Hok).
    destruct (on_limit_returns str pos2 n2 s) as [n' Hn'].
    erewrite bind_ok by exact Hn'.
    apply bind_throw, _M_check_throws, Hlt.
  - destruct HIn as [H|[]]. injection H as <- <-.
    apply bind_throw, _M_check_throws, Hlt.
  - destruct HIn as [H|[]]. injection H as <- <-.
    apply bind_throw, _M_check_throws, Hlt.
  - destruct HIn as [H|[]]. injection H as <- <-.
    unfold replace_carr. erewrite bind_ok by exact Hn2.
    apply bind_throw, _M_check_throws, Hlt.
  - destruct HIn as [H|[]]. injection H as <- <-.
    apply bind_throw, _M_check_throws, Hlt.
  - destruct HIn as [H|[]]. injection H as <- <-.
    apply bind_throw, _M_check_throws, Hlt.
  - unfold replace_ustring_pos.
    destruct (Z_lt_le_dec (_M_len str) pos2) as [Hbad|Hok].
    { apply bind_throw, on_check_throws, Hbad. }
    destruct HIn as [H|[H|[]]]; injection H as <- <-; [|lia].
    erewrite bind_ok by (apply on_check_ok, Hok).
    destruct (on_limit_returns str pos2 n2 s) as [n' Hn'].
    erewrite bind_ok by exact Hn'.
    apply bind_throw, _M_check_throws, Hlt.
Qed.

Lemma perform_position_throws al T {A : Type} (op : operation A) s pos limit :
  In (pos, limit) (operation_positions op (_M_len (this s))) ->
  limit < pos ->
  perform al T op s = Throw out_of_range s.
Proof.
  intros HIn Hlt.
  destruct op; simpl in HIn; simpl.
  - destruct HIn as [H|[]]. injection H as <- <-.
    unfold at_, mbind, M_bind, bind, size_.
    replace (_ <=? _) with true by lia. reflexivity.
  - destruct HIn as [H|[]]. injection H as <- <-.
    apply bind_throw, _M_check_throws, Hlt.
  - destruct HIn as [H|[]]. injection H as <- <-.
    apply bind_throw, _M_check_throws, Hlt.
  - destruct HIn as [H|[]]. injection H as <- <-.
    apply bind_throw, _M_check_throws, Hlt.
  - unfold compare_pos_ustring_pos.
    destruct (Z_lt_le_dec (_M_len str) pos2) as [Hbad|Hok].
    { apply bind_throw, on_check_throws, Hbad. }
    destruct HIn as [H|[H|[]]]; injection H as <- <-; [|lia].
    erewrite bind_ok by (apply on_check_ok, Hok).
    destruct (on_limit_returns str pos2 n2 s) as [n' Hn'].
    erewrite bind_ok by exact Hn'.
    apply bind_throw, _M_check_throws, Hlt.
  - destruct HIn as [H|[]]. injection H as <- <-.
    unfold compare_ustring_pos. unfold mbind at 1, M_bind, bind at 1, size_.
    apply bind_throw, on_check_throws, Hlt.
  - destruct HIn as [H|[]]. injection H as <- <-.
    unfold compare_string_pos.
    replace (_ <? _) with true by lia. reflexivity.
  - destruct HIn as [H|[]]. injection H as <- <-.
    apply bind_throw, _M_check_throws, Hlt.
  - destruct HIn as [H|[]]. injection H as <- <-.
    apply bind_throw, on_check_throws, Hlt.
  - destruct HIn as [H|[]]. injection H as <- <-.
    unfold construct_string_pos.
    replace (_ <? _) with true by lia. reflexivity.
Qed.

Lemma size_prefix (str : list Z) (n : Z) :
  0 <= n <= size str -> size (take (Z.to_nat n) str) = n.
Proof. unfold size. intros H. rewrite length_take. lia. Qed.

Lemma size_cut (str : list Z) (pos n : Z) :
  0 <= pos <= size str -> size str < 2 ^ 64 -> 0 <= n ->
  size (take (Z.to_nat (Z.min (size_t (size str - pos)) n)) (advance str pos))
  = Z.min n (size str - pos).
Proof.
  intros Hp Hs Hn. rewrite size_t_small by lia.
  unfold size, advance in *. rewrite length_take, length_drop. lia.
Qed.

Lemma run_length_throws al T m s k :
  well_typed T m ->
  0 <= _M_len (this s) <= _M_allocated_capacity (this s) ->
  _M_allocated_capacity (this s) <= max_size ->
  post_size m s = Some k -> max_size < k ->
  (forall pos limit,
     In (pos, limit) (positions m (_M_len (this s))) -> pos <= limit) ->
  run al T m s = Throw length_error s.
Proof.
  intros Hwt Hlen Hcap Hk Hbig Hpos. pose proof max_size_value as Hmax.
  destruct m; simpl in Hk; try discriminate;
    simpl in Hwt; unfold is_ustring, is_text in Hwt; unfold is_size in Hwt;
    simpl in Hpos; simpl.
  - (* Assign_fill *)
    injection Hk as <-. apply assign_fill_throws; lia.
  - (* Assign_str *)
    injection Hk as <-. apply assign_str_throws; lia.
  - (* Assign_cstr *)
    unfold assign_cstr. rewrite Hk.
    pose proof (strlen_bound str k ltac:(lia) Hk).
    apply assign_str_throws; rewrite ?size_prefix; lia.
  - (* Assign_string_pos *)
    injection Hk as <-.
    pose proof (Hpos _ _ (or_introl eq_refl)) as Hp.
    unfold assign_string_pos.
    replace (size str <? pos) with false by lia.
    apply assign_str_throws; rewrite ?size_cut; lia.
  - (* Assign_ustring *)
    injection Hk as <-. apply assign_arr_throws; lia.
  - (* Assign_ustring_pos *)
    injection Hk as <-.
    pose proof (Hpos _ _ (or_introl eq_refl)) as Hp.
    unfold assign_ustring_pos.
    erewrite bind_ok by (apply on_check_ok; lia).
    erewrite bind_ok by (apply on_limit_ok; lia).
    apply assign_arr_throws; lia.
  - (* Assign_arr *)
    injection Hk as <-. apply assign_arr_throws; lia.
  - (* Assign_carr *)
    destruct (codelen_value _ _ _ Hk) as [Hc Hr].
    unfold assign_carr. erewrite bind_ok by exact Hc.
    apply assign_arr_throws; lia.
  - (* Assign_range *)
    destruct (distance_value _ _ _ _ Hwt Hk) as [Hd Hr].
    eapply assign_range_throws; eauto.
  - (* Append_fill *)
    injection Hk as <-. apply append_fill_throws; lia.
  - (* Append_str *)
    injection Hk as <-. apply append_str_throws; lia.
  - (* Append_cstr *)
    destruct (strlen str) as [n|] eqn:Hn; [|discriminate].
    simpl in Hk. injection Hk as <-.
    pose proof (strlen_bound str n ltac:(lia) Hn).
    unfold append_cstr. rewrite Hn.
    apply append_str_throws; rewrite ?size_prefix; lia.
  - (* Append_string_pos *)
    injection Hk as <-.
    pose proof (Hpos _ _ (or_introl eq_refl)) as Hp.
    unfold append_string_pos.
    replace (size str <? pos) with false by lia.
    apply append_str_throws; rewrite ?size_cut; lia.
  - (* Append_ustring *)
    injection Hk as <-. apply append_arr_throws; lia.
  - (* Append_ustring_pos *)
    injection Hk as <-.
    pose proof (Hpos _ _ (or_introl eq_refl)) as Hp.
    unfold append_ustring_pos.
    erewrite bind_ok by (apply on_check_ok; lia).
    erewrite bind_ok by (apply on_limit_ok; lia).
    apply append_arr_throws; lia.
  - (* Append_arr *)
    injection Hk as <-. apply append_arr_throws; lia.
  - (* Append_carr *)
    destruct (value_of (codelen arr) s) as [n|] eqn:Hn; [|discriminate].
    simpl in Hk. injection Hk as <-.
    destruct (codelen_value _ _ _ Hn) as [Hc Hr].
    unfold append_carr. erewrite bind_ok by exact Hc.
    apply append_arr_throws; lia.
  - (* Append_range *)
    destruct (value_of (distance first last) s) as [n|] eqn:Hn;
      [|discriminate].
    simpl in Hk. injection Hk as <-.
    destruct (distance_value _ _ _ _ Hwt Hn) as [Hd Hr].
    eapply append_range_throws; eauto.
  - (* Push_back *)
    injection Hk as <-. apply push_back_throws; lia.
  - (* Insert_fill *)
    injection Hk as <-.
    pose proof (Hpos _ _ (or_introl eq_refl)) as Hp.
    unfold insert_fill. erewrite bind_ok by (apply _M_check_ok; lia).
    apply _M_replace_fill_throws; lia.
  - (* Insert_arr *)
    injection Hk as <-.
    pose proof (Hpos _ _ (or_introl eq_refl)) as Hp.
    apply replace_arr_throws; unfold replaced; lia.
  - (* Insert_carr *)
    destruct (value_of (codelen arr) s) as [n|] eqn:Hn; [|discriminate].
    simpl in Hk. injection Hk as <-.
    destruct (codelen_value _ _ _ Hn) as [Hc Hr].
    pose proof (Hpos _ _ (or_introl eq_refl)) as Hp.
    unfold insert_carr. erewrite bind_ok by exact Hc.
    apply replace_arr_throws; unfold replaced; lia.
  - (* Insert_ustring *)
    injection Hk as <-.
    pose proof (Hpos _ _ (or_introl eq_refl)) as Hp.
    apply replace_arr_throws; unfold replaced; lia.
  - (* Insert_ustring_pos *)
    injection Hk as <-.
    pose proof (Hpos _ _ (or_introl eq_refl)) as Hp1.
    pose proof (Hpos _ _ (or_intror (or_introl eq_refl))) as Hp2.
    unfold insert_ustring_pos.
    erewrite bind_ok by (apply on_check_ok; lia).
    erewrite bind_ok by (apply on_limit_ok; lia).
    apply replace_arr_throws; unfold replaced; lia.
  - (* Insert_iter_fill *)
    destruct (value_of (asserted_position i) s) as [pos|] eqn:Hi;
      [|discriminate].
    simpl in Hk. injection Hk as <-.
    destruct (asserted_position_value _ _ _ Hi) as [Ha Hr].
    unfold insert_iter_fill. erewrite bind_ok by exact Ha.
    apply _M_replace_fill_throws; lia.
  - (* Insert_iter_range *)
    destruct (value_of (asserted_position i) s) as [pos|] eqn:Hi;
      [|discriminate].
    simpl in Hk.
    destruct (value_of (distance k1 k2) s) as [n|] eqn:Hn; [|discriminate].
    simpl in Hk. injection Hk as <-.
    destruct (asserted_position_value _ _ _ Hi) as [Ha Hr].
    destruct (distance_value _ _ _ _ Hwt Hn) as [Hd Hrn].
    unfold insert_iter_range. erewrite bind_ok by exact Ha.
    eapply _M_replace_range_throws; eauto; lia.
  - (* Replace_arr *)
    injection Hk as <-.
    pose proof (Hpos _ _ (or_introl eq_refl)) as Hp.
    apply replace_arr_throws; lia.
  - (* Replace_carr *)
    destruct (value_of (codelen arr) s) as [n2|] eqn:Hn; [|discriminate].
    simpl in Hk. injection Hk as <-.
    destruct (codelen_value _ _ _ Hn) as [Hc Hr].
    pose proof (Hpos _ _ (or_introl eq_refl)) as Hp.
    unfold replace_carr. erewrite bind_ok by exact Hc.
    apply (replace_arr_throws al T s Hlen Hcap pos n arr n2); lia.
  - (* Replace_fill *)
    injection Hk as <-.
    pose proof (Hpos _ _ (or_introl eq_refl)) as Hp.
    apply replace_fill_throws; lia.
  - (* Replace_ustring *)
    injection Hk as <-.
    pose proof (Hpos _ _ (or_introl eq_refl)) as Hp.
    apply replace_arr_throws; lia.
  - (* Replace_ustring_pos *)
    injection Hk as <-.
    pose proof (Hpos _ _ (or_introl eq_refl)) as Hp1.
    pose proof (Hpos _ _ (or_intror (or_introl eq_refl))) as Hp2.
    unfold replace_ustring_pos.
    erewrite bind_ok by (apply on_check_ok; lia).
    erewrite bind_ok by (apply on_limit_ok; lia).
    apply replace_arr_throws; lia.
  - (* Replace_iter_arr *)
    destruct (value_of (asserted_range i1 i2) s) as [[pos n1]|] eqn:Hi;
      [|discriminate].
    simpl in Hk. injection Hk as <-.
    destruct (asserted_range_value _ _ _ _ _ Hi) as [Ha Hr].
    unfold replace_iter_arr. erewrite bind_ok by exact Ha. cbv beta iota.
    apply replace_arr_throws; lia.
  - (* Replace_iter_carr *)
    destruct (value_of (codelen arr) s) as [n|] eqn:Hn; [|discriminate].
    simpl in Hk.
    destruct (value_of (asserted_range i1 i2) s) as [[pos n1]|] eqn:Hi;
      [|discriminate].
    simpl in Hk. injection Hk as <-.
    destruct (codelen_value _ _ _ Hn) as [Hc Hrn].
    destruct (asserted_range_value _ _ _ _ _ Hi) as [Ha Hr].
    unfold replace_iter_carr. erewrite bind_ok by exact Hc.
    unfold replace_iter_arr. erewrite bind_ok by exact Ha. cbv beta iota.
    apply replace_arr_throws; lia.
  - (* Replace_iter_ustring *)
    destruct (value_of (asserted_range i1 i2) s) as [[pos n1]|] eqn:Hi;
      [|discriminate].
    simpl in Hk. injection Hk as <-.
    destruct (asserted_range_value _ _ _ _ _ Hi) as [Ha Hr].
    unfold replace_iter_ustring, replace_iter_arr.
    erewrite bind_ok by exact Ha. cbv beta iota.
    apply replace_arr_throws; lia.
  - (* Replace_iter_fill *)
    destruct (value_of (asserted_range i1 i2) s) as [[pos n1]|] eqn:Hi;
      [|discriminate].
    simpl in Hk. injection Hk as <-.
    destruct (asserted_range_value _ _ _ _ _ Hi) as [Ha Hr].
    unfold replace_iter_fill. erewrite bind_ok by exact Ha. cbv beta iota.
    apply replace_fill_throws; lia.
  - (* Replace_iter_range *)
    destruct (value_of (asserted_range i1 i2) s) as [[pos n1]|] eqn:Hi;
      [|discriminate].
    simpl in Hk.
    destruct (value_of (distance k1 k2) s) as [n|] eqn:Hn; [|discriminate].
    simpl in Hk. injection Hk as <-.
    destruct (asserted_range_value _ _ _ _ _ Hi) as [Ha Hr].
    destruct (distance_value _ _ _ _ Hwt Hn) as [Hd Hrn].
    unfold replace_iter_range. erewrite bind_ok by exact Ha. cbv beta iota.
    unfold replaced in Hbig.
    eapply _M_replace_range_throws; eauto; lia.
  - (* Resize *)
    injection Hk as <-.
    unfold resize. unfold mbind at 1, M_bind, bind at 1, size_.
    replace (_M_len (this s) <? n) with true by lia.
    rewrite size_t_small by lia.
    apply append_fill_throws; lia.
Qed.



(** ** Member functions that return: what the buffer holds afterwards *)

Section TwpRules.

Context {A B : Type}.

Lemma twp_bind (m : M A) (k : A -> M B) s Q E :
  twp m s (fun a s' => twp (k a) s' Q E) E -> twp (m ≫= k) s Q E.
Proof.
  unfold twp, mbind, M_bind, bind. destruct (m s); auto.
Qed.

Lemma twp_ret (a : A) s (Q : A -> state -> Prop) E : Q a s -> twp (ret a) s Q E.
Proof. auto. Qed.

Lemma twp_throw e s (Q : A -> state -> Prop) (E : exn -> state -> Prop) :
  E e s -> twp (throw e) s Q E.
Proof. auto. Qed.

Lemma twp_conseq (m : M A) s (Q Q' : A -> state -> Prop)
    (E E' : exn -> state -> Prop) :
  twp m s Q E ->
  (forall a s', Q a s' -> Q' a s') ->
  (forall e s', E e s' -> E' e s') ->
  twp m s Q' E'.
Proof. unfold twp. intros H HQ HE. destruct (m s); auto. Qed.

End TwpRules.

Lemma twp_when (b : bool) (m : M unit) s Q E :
  (b = true -> twp m s Q E) -> (b = false -> Q tt s) -> twp (when b m) s Q E.
Proof.
  intros H1 H2. destruct b; [apply H1|apply (H2 eq_refl)]. reflexivity.
Qed.

Lemma twp_size_ s Q E : Q (_M_len (this s)) s -> twp size_ s Q E.
Proof. auto. Qed.

Lemma twp_capacity s Q E :
  Q (_M_allocated_capacity (this s)) s -> twp capacity s Q E.
Proof. auto. Qed.

Lemma twp_data s Q E : Q (_M_ptr (this s)) s -> twp data s Q E.
Proof. auto. Qed.

Lemma twp_write_slots a off (vs blk : list (option Z)) s Q E :
  live (mem s) a = Some blk ->
  0 <= off -> off + Z.of_nat (length vs) <= Z.of_nat (length blk) ->
  (forall s',
     this s' = this s ->
     live (mem s') a = Some (splice blk off vs) ->
     Q tt s') ->
  twp (write_slots (mk_pointer (Some a) off) vs) s Q E.
Proof.
  intros Hl H0 Hin H. unfold twp, write_slots. simpl. rewrite Hl.
  assert (Hin' : in_block blk off (Z.of_nat (length vs)) = true)
    by (apply in_block_spec; unfold block, slot in *; lia).
  unfold block, slot in *. rewrite Hin'.
  apply H; [reflexivity|]. simpl. eapply live_insert_eq. exact Hl.
Qed.

Lemma twp_read_slots a off n (blk : list (option Z)) s Q E :
  live (mem s) a = Some blk ->
  0 <= off -> 0 <= n -> off + n <= Z.of_nat (length blk) ->
  Q (take (Z.to_nat n) (drop (Z.to_nat off) blk)) s ->
  twp (read_slots (mk_pointer (Some a) off) n) s Q E.
Proof.
  intros Hl H0 Hn Hin H. unfold twp, read_slots. simpl. rewrite Hl.
  assert (Hin' : in_block blk off n = true)
    by (apply in_block_spec; unfold block, slot in *; lia).
  unfold block, slot in *. rewrite Hin'.
  exact H.
Qed.

(** What a step leaves alone: a fact [R] about the state it ends in can be
    brought into the postcondition. *)
Lemma twp_with {A : Type} (m : M A) s (R : state -> Prop) Q E :
  (forall a s', m s = Ok a s' -> R s') ->
  twp m s (fun a s' => R s' -> Q a s') E ->
  twp m s Q E.
Proof.
  unfold twp. intros HR H. destruct (m s) as [a s'|e s'|] eqn:Hm; auto.
  apply H. eapply HR. reflexivity.
Qed.

Lemma twp_write_slots_beside a off (vs blk : list (option Z)) b
    (src : list (option Z)) s Q E :
  live (mem s) a = Some blk -> live (mem s) b = Some src -> a <> b ->
  0 <= off -> off + Z.of_nat (length vs) <= Z.of_nat (length blk) ->
  (forall s',
     this s' = this s ->
     live (mem s') a = Some (splice blk off vs) ->
     live (mem s') b = Some src ->
     Q tt s') ->
  twp (write_slots (mk_pointer (Some a) off) vs) s Q E.
Proof.
  intros Hl Hb Hne H0 Hin H. unfold twp, write_slots. simpl. rewrite Hl.
  assert (Hin' : in_block blk off (Z.of_nat (length vs)) = true)
    by (apply in_block_spec; unfold block, slot in *; lia).
  unfold block, slot in *. rewrite Hin'.
  apply H; [reflexivity| |]; simpl.
  - eapply live_insert_eq. exact Hl.
  - rewrite live_insert_ne by exact Hne. exact Hb.
Qed.

Lemma write_slots_others a off vs s E :
  wp (write_slots (mk_pointer (Some a) off) vs) s
    (fun _ s' => forall b, b <> a -> live (mem s') b = live (mem s) b) E.
Proof.
  apply wp_write_slots. simpl. intros a0 blk Ha _ _ b Hb.
  injection Ha as <-. simpl. apply live_insert_ne. auto.
Qed.

Lemma _S_move_others T a d src n s s' :
  _S_move T (mk_pointer (Some a) d) src n s = Ok tt s' ->
  forall b, b <> a -> live (mem s') b = live (mem s) b.
Proof.
  intros Hr.
  refine (wp_ok _ _ _ _
            (fun _ s' => forall b, b <> a -> live (mem s') b = live (mem s) b)
            (fun _ _ => True) _ Hr).
  unfold _S_move.
  destruct (n =? 1).
  - apply wp_bind, wp_peek. intros v. apply write_slots_others.
  - unfold memmove. destruct (_ =? 0); [apply wp_ret; auto|].
    apply wp_bind, wp_read_slots. intros vs _. apply write_slots_others.
Qed.

Lemma _M_realloc_others al T n s s' :
  _M_realloc al T n s = Ok tt s' ->
  forall b (src : block),
    _M_ptr (this s) <> Some b -> live (mem s) b = Some src ->
    live (mem s') b = Some src /\ _M_ptr (this s') <> Some b.
Proof.
  intros Hr b src Hne Hb. pose proof (live_bound _ _ _ Hb) as Hlt.
  assert (Hnew : Some (length (mem s)) <> Some b)
    by (intros H; injection H; lia).
  assert (Hgrow : forall (h : heap) (new : block),
            live h b = Some src -> live (h ++ [Some new]) b = Some src).
  { intros h new H. pose proof (live_bound _ _ _ H).
    unfold live, heap, block, slot in *. rewrite lookup_app_l by lia.
    exact H. }
  unfold _M_realloc, mbind, M_bind, bind, data, realloc, malloc in Hr.
  destruct (_M_ptr (this s)) as [a|] eqn:Hp.
  - assert (a <> b) by congruence.
    destruct (live (mem s) a) as [blk|]; [|discriminate].
    destruct (_ =? 0) eqn:Hz.
    { destruct (n =? 0); [|discriminate]. injection Hr as <-. simpl.
      rewrite live_insert_ne by assumption. split; [exact Hb|discriminate]. }
    destruct (malloc_fails _ _ _).
    { destruct (n =? 0); [|discriminate]. injection Hr as <-. simpl.
      split; [exact Hb|discriminate]. }
    destruct (realloc_moves _ _ _ _); injection Hr as <-; simpl.
    + split; [|exact Hnew].
      apply Hgrow. rewrite live_insert_ne by assumption. exact Hb.
    + rewrite live_insert_ne by assumption. split; [exact Hb|congruence].
  - destruct (malloc_fails _ _ _).
    { destruct (n =? 0); [|discriminate]. injection Hr as <-. simpl.
      split; [exact Hb|discriminate]. }
    injection Hr as <-. simpl. split; [apply Hgrow, Hb|exact Hnew].
Qed.

Lemma reserve_others al T res s s' :
  reserve al T res s = Ok tt s' ->
  forall b (src : block),
    _M_ptr (this s) <> Some b -> live (mem s) b = Some src ->
    live (mem s') b = Some src /\ _M_ptr (this s') <> Some b.
Proof.
  intros Hr b src Hne Hb.
  unfold reserve, mbind, M_bind, bind, size_, capacity in Hr.
  destruct (_ =? _); [injection Hr as <-; auto|].
  unfold _S_capacity in Hr.
  destruct (max_size <? _); [discriminate|].
  destruct (_ && _); unfold ret in Hr;
    match type of Hr with
    | context [_M_realloc al T ?c s] =>
        destruct (_M_realloc al T c s) as [[] s1|e s1|] eqn:Hre;
          try discriminate;
        unfold _M_capacity in Hr; injection Hr as <-; simpl;
        eapply _M_realloc_others; eauto
    end.
Qed.

Lemma splice_middle (pre mid post new : list (option Z)) :
  length new = length mid ->
  splice (pre ++ mid ++ post) (Z.of_nat (length pre)) new = pre ++ new ++ post.
Proof.
  intros Hlen. unfold splice, block, slot in *. rewrite Nat2Z.id.
  rewrite take_app_length. f_equal. f_equal.
  rewrite Hlen, <- length_app, app_assoc. apply drop_app_length.
Qed.

Lemma to_code_0 (T : code_type) : to_code T 0 = 0.
Proof. destruct T; reflexivity. Qed.

(** [_M_set_length(n)] on a block that holds [vs] then [old] at index [n]. *)
Lemma twp__M_set_length (T : code_type) (front : list (option Z))
    (old : option Z) (back : list (option Z)) n a s Q E :
  owns s a (front ++ old :: back) ->
  n = Z.of_nat (length front) ->
  (forall s',
     this s' = set_len (this s) n ->
     live (mem s') a = Some (front ++ Some 0 :: back) ->
     Q tt s') ->
  twp (_M_set_length T n) s Q E.
Proof.
  intros [Hp Hl] -> H. unfold _M_set_length, _M_length.
  apply twp_bind. unfold twp at 1. apply twp_bind, twp_data. simpl.
  rewrite Hp. unfold poke_slot.
  eapply twp_write_slots; [exact Hl|lia| |].
  - unfold block, slot in *. rewrite length_app. simpl. lia.
  - intros s' Ht Hl'. apply H; [rewrite Ht; unfold set_len; simpl; rewrite Hp; reflexivity|].
    rewrite Hl'. f_equal. rewrite to_code_0.
    apply (splice_middle front [old] back [Some 0]). reflexivity.
Qed.

Lemma slots_exact (T : code_type) (n : Z) :
  0 <= n < 2 ^ 61 -> slots_of T (bytes_of T n) = n.
Proof.
  intros Hn. unfold slots_of, bytes_of.
  destruct (sizeof_code_cases T) as [Hz|Hz]; rewrite Hz;
    rewrite size_t_small by lia; apply Z.div_mul; lia.
Qed.

Lemma bytes_positive (T : code_type) (n : Z) :
  0 < n < 2 ^ 61 -> bytes_of T n <> 0.
Proof.
  intros Hn. unfold bytes_of.
  destruct (sizeof_code_cases T) as [Hz|Hz]; rewrite Hz;
    rewrite size_t_small by lia; lia.
Qed.

Lemma resize_block_grows (T : code_type) (blk : block) (n : Z) :
  Z.of_nat (length blk) <= n < 2 ^ 61 ->
  resize_block T blk (bytes_of T n)
  = blk ++ replicate (Z.to_nat n - length blk) None.
Proof.
  intros Hn. unfold resize_block. rewrite slots_exact by lia.
  unfold block, slot in *. rewrite take_ge by lia. reflexivity.
Qed.

(** [_M_realloc(n)] that grows the block [blk] of the buffer, or makes the
    first block of a null buffer ([blk] empty). *)
Lemma twp__M_realloc (al : allocator) (T : code_type) (blk : block) n s Q E :
  match _M_ptr (this s) with
  | Some a => live (mem s) a = Some blk
  | None => blk = []
  end ->
  Z.of_nat (length blk) <= n + 1 -> 0 < n < 2 ^ 60 ->
  (forall s' a',
     this s' = mk_ustring (_M_allocated_capacity (this s)) (_M_len (this s))
                 (Some a') ->
     live (mem s') a'
     = Some (blk ++ replicate (Z.to_nat (n + 1) - length blk) None) ->
     Q tt s') ->
  E bad_alloc s ->
  twp (_M_realloc al T n) s Q E.
Proof.
  intros Hblk Hfit Hn HQ HE. unfold _M_realloc.
  apply twp_bind, twp_data. apply twp_bind.
  rewrite (size_t_small (n + 1)) by lia.
  pose proof (bytes_positive T (n + 1) ltac:(lia)) as Hb.
  pose proof (resize_block_grows T blk (n + 1) ltac:(lia)) as Hgrow.
  replace (n =? 0) with false by lia.
  unfold twp at 1, realloc.
  destruct (_M_ptr (this s)) as [a|] eqn:Hp.
  - rewrite Hblk.
    replace (bytes_of T (n + 1) =? 0) with false by lia.
    destruct (malloc_fails al (mem s) (bytes_of T (n + 1))) eqn:Hmf.
    { exact HE. }
    destruct (realloc_moves al (mem s) a (bytes_of T (n + 1))).
    + unfold twp, _M_data. simpl. apply (HQ _ (length (mem s))).
      * reflexivity.
      * simpl. rewrite Hgrow.
        rewrite <- (length_insert (mem s) a None). apply live_app_new.
    + unfold twp, _M_data. simpl. apply (HQ _ a).
      * reflexivity.
      * simpl. rewrite Hgrow. eapply live_insert_eq. exact Hblk.
  - subst blk. unfold malloc.
    destruct (malloc_fails al (mem s) (bytes_of T (n + 1))) eqn:Hmf.
    { exact HE. }
    unfold twp, _M_data. simpl. apply (HQ _ (length (mem s))).
    + reflexivity.
    + simpl. unfold fresh_block. rewrite slots_exact by lia.
      rewrite Nat.sub_0_r. apply live_app_new.
Qed.

Lemma twp__S_capacity (capacity old : Z) s Q E :
  0 <= capacity <= max_size -> 0 <= old < 2 ^ 62 ->
  (forall c', capacity <= c' <= Z.max capacity (2 * old) ->
              c' <= max_size -> Q c' s) ->
  twp (_S_capacity capacity old) s Q E.
Proof.
  intros Hc Ho H. unfold _S_capacity. rewrite max_size_value in *.
  replace (2 ^ 62 - 1 <? capacity) with false by lia.
  rewrite (size_t_small (2 * old)) by lia.
  destruct ((old <? capacity) && (capacity <? 2 * old)) eqn:Hd.
  - apply andb_true_iff in Hd as [H1 H2].
    destruct (2 ^ 62 - 1 <? 2 * old) eqn:Hm; apply twp_ret, H; lia.
  - apply twp_ret, H; lia.
Qed.

Lemma map_Some_snoc (vs : list Z) (c : Z) (back : list slot) :
  (map Some vs ++ [Some c]) ++ back = map Some (vs ++ [c]) ++ back.
Proof. rewrite map_app. reflexivity. Qed.

(** [reserve]'s reallocation to at least [res] slots, from a buffer that has
    fewer. *)
Lemma twp_regrow (al : allocator) (T : code_type) (vs : list Z) res s Q E :
  represents s vs ->
  _M_allocated_capacity (this s) < res < 2 ^ 59 ->
  (forall s' x back,
     stores s' vs (x :: back) ->
     res <= _M_allocated_capacity (this s')
     <= Z.max res (2 * _M_allocated_capacity (this s)) ->
     x = match _M_ptr (this s) with Some _ => Some 0 | None => None end ->
     Q tt s') ->
  E bad_alloc s ->
  twp (res' ← _S_capacity res (_M_allocated_capacity (this s));
       _M_realloc al T res';;
       _M_capacity res') s Q E.
Proof.
  intros Hrep Hres HQ HE.
  assert (Hlen : 0 <= _M_len (this s) <= _M_allocated_capacity (this s)).
  { destruct Hrep as [(rest & Hl & Hc & _)|[Hd _]].
    - unfold size in *. simpl in Hc. lia.
    - rewrite Hd. simpl. lia. }
  apply twp_bind, twp__S_capacity; [rewrite max_size_value; lia|lia|].
  intros c' Hc' _. apply twp_bind.
  destruct Hrep as [(rest & Hl & Hc & a & Hp & Hlive)|[Hd ->]].
  - unfold block, slot, size in *. simpl in Hc.
    apply (twp__M_realloc al T (map Some vs ++ Some 0 :: rest));
      [rewrite Hp; exact Hlive| | | |exact HE].
    + unfold block, slot in *. rewrite length_app, length_map. simpl. lia.
    + lia.
    + intros s1 a1 Ht1 Hl1. unfold twp, _M_capacity.
      unfold block, slot in *.
      rewrite length_app, length_map in Hl1. simpl in Hl1.
      apply (HQ _ (Some 0) (rest ++ replicate
                              (Z.to_nat (c' + 1) - (length vs + S (length rest)))
                              None)).
      * rewrite Ht1. simpl. split; [exact Hl|]. split.
        -- unfold size. simpl. rewrite length_app, length_replicate. lia.
        -- exists a1. split; [reflexivity|]. simpl. rewrite Hl1.
           rewrite <- app_assoc. reflexivity.
      * simpl. lia.
      * rewrite Hp. reflexivity.
  - rewrite Hd in *. simpl in *.
    apply (twp__M_realloc al T []);
      [rewrite Hd; reflexivity|simpl; lia|lia| |exact HE].
    intros s1 a1 Ht1 Hl1. unfold twp, _M_capacity.
    destruct (Z.to_nat (c' + 1) - length (@nil slot))%nat
      as [|k] eqn:Hk; [simpl in Hk; lia|].
    apply (HQ _ None (replicate k None)).
    + rewrite Ht1, Hd. simpl. split; [reflexivity|]. split.
      * unfold size. simpl in *. rewrite length_replicate. lia.
      * exists a1. split; [reflexivity|]. simpl. rewrite Hl1. reflexivity.
    + simpl. lia.
    + reflexivity.
Qed.

Lemma represents_bounds (s : state) (vs : list Z) :
  represents s vs ->
  _M_len (this s) = size vs /\
  0 <= size vs <= _M_allocated_capacity (this s).
Proof.
  intros [(rest & Hl & Hc & _)|[Hd ->]].
  - unfold size in *. simpl in Hc. lia.
  - rewrite Hd. unfold size. simpl. lia.
Qed.

(** [_M_set_length(n)] at the end of a member: the block holds the new
    content in its first [n] slots. *)
Lemma twp_finish (T : code_type) (vs' : list Z) (blk : list (option Z)) n a s
    (E : exn -> state -> Prop) :
  owns s a blk ->
  Z.of_nat (length blk) = _M_allocated_capacity (this s) + 1 ->
  n = size vs' -> n <= _M_allocated_capacity (this s) ->
  take (length vs') blk = map Some vs' ->
  twp (_M_set_length T n) s
    (fun _ s' =>
       represents s' vs' /\
       _M_allocated_capacity (this s') = _M_allocated_capacity (this s))
    E.
Proof.
  intros Hown Hlen -> Hcap Htake. unfold size in *.
  assert (Hlt : (length vs' < length blk)%nat) by lia.
  destruct (lookup_lt_is_Some_2 blk (length vs') Hlt) as [old Hold].
  pose proof (take_drop_middle blk (length vs') old Hold) as Hsplit.
  rewrite Htake in Hsplit.
  apply (twp__M_set_length T (map Some vs') old (drop (S (length vs')) blk) _ a).
  - rewrite Hsplit. exact Hown.
  - rewrite length_map. reflexivity.
  - intros s' Ht Hl. split; [|rewrite Ht; reflexivity].
    left. exists (drop (S (length vs')) blk).
    unfold stores, owns, size. rewrite Ht. simpl.
    split; [reflexivity|]. split.
    + cbn [length]. rewrite length_drop. unfold block, slot in *. lia.
    + exists a. split; [apply Hown|exact Hl].
Qed.

(** X14: [push_back] on a buffer that holds [vs] returns with the buffer
    holding [vs] followed by the new code unit, or throws [bad_alloc] and
    leaves the state as it was; it does not run into undefined behaviour. *)
Theorem push_back_appends (al : allocator) (T : code_type) (vs : list Z) c s :
  represents s vs ->
  _M_allocated_capacity (this s) < 2 ^ 58 ->
  twp (push_back al T c) s
    (fun _ s' => represents s' (vs ++ [c]))
    (fun e s' => e = bad_alloc /\ s' = s).
Proof.
  intros Hrep Hcap. unfold push_back.
  destruct (represents_bounds s vs Hrep) as [Hlen Hsmall].
  apply twp_bind, twp_size_. apply twp_bind, twp_capacity.
  apply twp_bind. cbv zeta.
  rewrite (size_t_small (_M_len (this s) + 1)) by lia.
  apply (twp_conseq _ _
           (fun _ s1 =>
              exists x r0 back,
                stores s1 vs (x :: r0 :: back) /\
                _M_allocated_capacity (this s1) < 2 ^ 59)
           _ (fun e s' => e = bad_alloc /\ s' = s)); [| |auto].
  { apply twp_when; intros Hb.
    - apply (twp_regrow al T vs); auto; [lia|].
      intros s1 x back Hst Hc1 _. pose proof Hst as (Hl1 & Hc & _).
      destruct back as [|r0 back];
        [unfold size in *; simpl in Hc; lia|].
      exists x, r0, back. split; [exact Hst|lia].
    - destruct Hrep as [(rest & Hst)|[Hd ->]].
      + pose proof Hst as (_ & Hc & _).
        destruct rest as [|r0 back];
          [unfold size in *; simpl in Hc; lia|].
        exists (Some 0), r0, back. split; [exact Hst|lia].
      + rewrite Hd in Hb. simpl in Hb. lia. }
  intros [] s1 (x & r0 & back & (Hl & Hc & a & Hp & Hlive) & Hcap1).
  apply twp_bind, twp_data. rewrite Hp. apply twp_bind.
  rewrite Hlen. unfold poke_slot, size in *. unfold block, slot in *.
  eapply twp_write_slots; [exact Hlive|lia| |].
  { rewrite length_app, length_map. simpl. lia. }
  intros s2 Ht2 Hl2.
  rewrite <- (length_map Some vs) in Hl2.
  change (x :: r0 :: back) with ([x] ++ r0 :: back) in Hl2.
  pose proof (splice_middle (map Some vs) [x] (r0 :: back) [Some c] eq_refl)
    as Hsp.
  unfold block, slot in *. rewrite Hsp in Hl2. clear Hsp.
  eapply twp_conseq;
    [apply (twp_finish T (vs ++ [c])
              (map Some vs ++ [Some c] ++ r0 :: back) _ a _
              (fun e s' => e = bad_alloc /\ s' = s))| |auto].
  - split; [rewrite Ht2; exact Hp|exact Hl2].
  - rewrite Ht2. rewrite !length_app, length_map. simpl in *. lia.
  - unfold size. rewrite length_app. simpl. lia.
  - rewrite Ht2. simpl in Hc. lia.
  - rewrite (app_assoc _ [Some c]), map_Some_snoc.
    rewrite <- (length_map Some (vs ++ [c])). apply take_app_length.
  - intros [] s3 [H3 _]. exact H3.
Qed.

Lemma push_back_appends_witness :
  twp (push_back easy_allocator Char32 0x4E2D) (holding [0x61; 0x62])
    (fun _ s' => represents s' ([0x61; 0x62] ++ [0x4E2D]))
    (fun e s' => e = bad_alloc /\ s' = holding [0x61; 0x62]).
Proof.
  apply (push_back_appends easy_allocator Char32 [0x61; 0x62]).
  - left. exists []. repeat split. exists 0%nat. split; reflexivity.
  - vm_compute. reflexivity.
Defined.

Lemma twp_peek a off v (blk : list (option Z)) s Q E :
  live (mem s) a = Some blk ->
  0 <= off -> blk !! Z.to_nat off = Some (Some v) ->
  Q v s ->
  twp (peek (mk_pointer (Some a) off)) s Q E.
Proof.
  intros Hl H0 Hv H. unfold peek. apply twp_bind.
  pose proof (lookup_lt_Some _ _ _ Hv) as Hlt.
  eapply twp_read_slots; [exact Hl|lia|lia|lia|].
  unfold block, slot in *.
  rewrite (drop_S _ _ _ Hv). simpl. exact H.
Qed.

Lemma twp__S_move (T : code_type) a (blk : list (option Z)) (ws : list Z)
    d src n s Q E :
  live (mem s) a = Some blk ->
  0 <= d -> 0 <= src -> 0 < n < 2 ^ 61 ->
  src + n <= Z.of_nat (length blk) -> d + n <= Z.of_nat (length blk) ->
  take (Z.to_nat n) (drop (Z.to_nat src) blk) = map Some ws ->
  (forall s',
     this s' = this s ->
     live (mem s') a = Some (splice blk d (map Some ws)) ->
     Q tt s') ->
  twp (_S_move T (mk_pointer (Some a) d) (mk_pointer (Some a) src) n) s Q E.
Proof.
  intros Hl Hd Hsrc Hn Hs Hdn Hws H. unfold _S_move.
  assert (Hlen : length ws = Z.to_nat n).
  { rewrite <- (length_map Some ws), <- Hws.
    rewrite length_take, length_drop. lia. }
  destruct (n =? 1) eqn:E1.
  - assert (n = 1) as -> by lia.
    destruct ws as [|w [|? ?]]; simpl in Hlen; try lia.
    change (Z.to_nat 1) with 1%nat in Hws.
    assert (Hv : blk !! Z.to_nat src = Some (Some w)).
    { destruct (drop (Z.to_nat src) blk) as [|x l] eqn:Hdrop;
        [discriminate|].
      simpl in Hws. rewrite take_0 in Hws. injection Hws as ->.
      rewrite <- (Nat.add_0_r (Z.to_nat src)), <- lookup_drop, Hdrop.
      reflexivity. }
    apply twp_bind. eapply twp_peek; [exact Hl|lia|exact Hv|].
    unfold poke_slot.
    eapply twp_write_slots; [exact Hl|lia|simpl; lia|exact H].
  - unfold memmove. rewrite slots_exact by lia.
    replace (n =? 0) with false by lia.
    apply twp_bind. eapply twp_read_slots; [exact Hl|lia|lia|lia|].
    unfold block, slot in *. rewrite Hws.
    eapply twp_write_slots; [exact Hl|lia| |exact H].
    rewrite length_map. lia.
Qed.

(** X15: [pop_back] on a buffer that holds at least one code unit returns
    with the buffer holding all but the last; it does not run into undefined
    behaviour. *)
Theorem pop_back_removes_last (T : code_type) (vs : list Z) c s :
  represents s (vs ++ [c]) ->
  _M_allocated_capacity (this s) < 2 ^ 63 ->
  twp (pop_back T) s (fun _ s' => represents s' vs) (fun _ _ => False).
Proof.
  intros Hrep Hcap.
  destruct (represents_bounds _ _ Hrep) as [Hlen Hb].
  destruct Hrep as [(rest & _ & Hc & a & Hp & Hlive)|[_ Hnil]];
    [|destruct vs; discriminate].
  unfold size in *. rewrite length_app in *. simpl in *.
  unfold pop_back. apply twp_bind, twp_size_.
  replace (_M_len (this s) =? 0) with false by lia.
  unfold _M_erase. apply twp_bind, twp_size_. apply twp_bind, twp_data.
  rewrite (size_t_small (_M_len (this s) - 1)) by lia.
  replace (_M_len (this s) - (_M_len (this s) - 1)) with 1 by lia.
  change (size_t (size_t 1 - 1)) with 0. apply twp_bind. simpl.
  apply twp_ret.
  eapply twp_conseq;
    [apply (twp_finish T vs (map Some (vs ++ [c]) ++ Some 0 :: rest) _ a _
              (fun _ _ => False));
     [split; [exact Hp|exact Hlive]| | | |]
    | |auto].
  - unfold block, slot in *.
    rewrite !length_app, length_map, length_app. simpl in *. lia.
  - unfold size. lia.
  - lia.
  - rewrite map_app, <- app_assoc.
    rewrite <- (length_map Some vs). apply take_app_length.
  - intros [] s' [H _]. exact H.
Qed.

Lemma pop_back_removes_last_witness :
  twp (pop_back Char32) (holding ([0x61] ++ [0x62]))
    (fun _ s' => represents s' [0x61]) (fun _ _ => False).
Proof.
  apply (pop_back_removes_last Char32 [0x61] 0x62).
  - left. exists []. repeat split. exists 0%nat. split; reflexivity.
  - vm_compute. reflexivity.
Defined.

Lemma take_map_Some (vs : list Z) (rest : list (option Z)) (n : nat) :
  (n <= length vs)%nat ->
  take n (map Some vs ++ rest) = map Some (take n vs).
Proof.
  intros Hn. rewrite take_app_le by (rewrite length_map; exact Hn).
  apply firstn_map.
Qed.

(** X16: [erase(pos, n)] with [pos] inside a non-null buffer that holds [vs]
    returns with the buffer holding [vs] without the [n] code units from
    [pos] on (all of them from [pos] on where fewer are left, or where [n] is
    [npos]); it does not run into undefined behaviour. *)
Theorem erase_removes (T : code_type) (vs : list Z) (rest : list slot)
    pos n s :
  stores s vs (Some 0 :: rest) ->
  _M_allocated_capacity (this s) < 2 ^ 60 ->
  0 <= pos <= size vs -> 0 <= n < 2 ^ 64 ->
  twp (erase T pos n) s
    (fun _ s' =>
       represents s'
         (take (Z.to_nat pos) vs ++ drop (Z.to_nat pos + Z.to_nat n) vs))
    (fun _ _ => False).
Proof.
  intros (Hlen & Hc & a & Hp & Hlive) Hcap Hpos Hn.
  unfold size, block, slot in *. simpl in Hc.
  assert (Hblk : Z.of_nat (length (map Some vs ++ Some 0 :: rest))
                 = _M_allocated_capacity (this s) + 1).
  { rewrite length_app, length_map. simpl. lia. }
  unfold erase. apply twp_bind. unfold _M_check.
  apply twp_bind, twp_size_.
  replace (_M_len (this s) <? pos) with false by lia.
  apply twp_ret.
  destruct (n =? npos) eqn:Enpos.
  { assert (n = 18446744073709551615) as -> by (apply Z.eqb_eq in Enpos; exact Enpos).
    rewrite drop_ge by lia. rewrite app_nil_r.
    eapply twp_conseq;
      [apply (twp_finish T (take (Z.to_nat pos) vs)
                (map Some vs ++ Some 0 :: rest) _ a _ (fun _ _ => False));
       [split; [exact Hp|exact Hlive]|exact Hblk| | |]
      | |auto].
    - unfold size. rewrite length_take. lia.
    - lia.
    - rewrite length_take_le by lia. apply take_map_Some. lia.
    - intros [] s' [H _]. exact H. }
  apply twp_when; intros Hn0.
  2:{ assert (n = 0) as -> by (destruct (n =? 0) eqn:E0; [lia|discriminate]).
      rewrite Nat.add_0_r, take_drop.
      left. exists rest. unfold stores, owns, size. simpl. eauto. }
  assert (0 < n) by (destruct (n =? 0) eqn:E0; [discriminate|lia]).
  apply twp_bind. unfold _M_limit. apply twp_bind, twp_size_. apply twp_ret.
  rewrite (size_t_small (_M_len (this s) - pos)) by lia.
  set (n' := if n <? _M_len (this s) - pos then n else _M_len (this s) - pos).
  assert (Hn' : n' = Z.min n (_M_len (this s) - pos))
    by (unfold n'; destruct (n <? _M_len (this s) - pos) eqn:E0; lia).
  clearbody n'.
  assert (Hdrop : drop (Z.to_nat pos + Z.to_nat n) vs
                  = drop (Z.to_nat (pos + n')) vs).
  { destruct (Z.min_spec n (_M_len (this s) - pos)) as [[Hlt Hm]|[Hge Hm]];
      rewrite Hn', Hm.
    - f_equal. lia.
    - rewrite !drop_ge by lia. reflexivity. }
  rewrite Hdrop.
  unfold _M_erase. apply twp_bind, twp_size_. apply twp_bind, twp_data.
  rewrite Hp. rewrite (size_t_small (_M_len (this s) - pos)) by lia.
  rewrite (size_t_small (_M_len (this s) - pos - n')) by lia.
  rewrite (size_t_small (_M_len (this s) - n')) by lia.
  set (moved := drop (Z.to_nat (pos + n')) vs).
  assert (Hmoved : length moved = Z.to_nat (_M_len (this s) - pos - n')).
  { unfold moved. rewrite length_drop. lia. }
  apply twp_bind.
  apply (twp_conseq _ _
           (fun _ s1 =>
              this s1 = this s /\
              exists blk1,
                live (mem s1) a = Some blk1 /\
                length blk1 = length (map Some vs ++ Some 0 :: rest) /\
                take (length (take (Z.to_nat pos) vs ++ moved)) blk1
                = map Some (take (Z.to_nat pos) vs ++ moved))
           _ (fun _ _ => False)); [| |auto].
  - apply twp_when; intros Hmove.
    + apply andb_true_iff in Hmove as [Hm1 Hm2].
      apply negb_true_iff in Hm1, Hm2.
      assert (0 < _M_len (this s) - pos - n' /\ 0 < n') as [Hhow Hpos']
        by lia.
      eapply (twp__S_move T a _ moved); [exact Hlive|lia|lia|lia| | | |].
      * rewrite Hblk. lia.
      * rewrite Hblk. lia.
      * rewrite <- Hmoved. unfold moved.
        rewrite drop_app_le by (rewrite length_map; lia).
        rewrite skipn_map. rewrite take_app_le by (rewrite length_map; lia).
        rewrite take_ge by (rewrite length_map; lia). reflexivity.
      * intros s1 Ht1 Hl1. split; [exact Ht1|].
        eexists. split; [exact Hl1|]. split.
        -- apply length_splice. apply in_block_spec.
           unfold block, slot in *. rewrite length_map, Hblk. lia.
        -- unfold splice. rewrite app_assoc.
           rewrite take_app_le
             by (rewrite !length_app, length_take, length_map, length_take,
                   length_app, length_map; lia).
           rewrite take_ge
             by (rewrite !length_app, length_take, length_map, length_take,
                   length_app, length_map; lia).
           rewrite map_app. f_equal.
           rewrite take_map_Some by lia. reflexivity.
    + split; [reflexivity|]. eexists. split; [exact Hlive|].
      split; [reflexivity|].
      assert (moved = []) as ->.
      { apply nil_length_inv. rewrite Hmoved.
        apply andb_false_iff in Hmove as [Hm|Hm]; apply negb_false_iff in Hm;
          lia. }
      rewrite app_nil_r, length_take_le by lia.
      apply take_map_Some. lia.
  - intros [] s1 (Ht1 & blk1 & Hl1 & Hlen1 & Htake1).
    eapply twp_conseq;
      [apply (twp_finish T (take (Z.to_nat pos) vs ++ moved) blk1 _ a _
                (fun _ _ => False));
       [split; [rewrite Ht1; exact Hp|exact Hl1]| | | |exact Htake1]
      | |auto].
    + rewrite Ht1. unfold block, slot in *. rewrite Hlen1. exact Hblk.
    + unfold size. rewrite length_app, length_take, Hmoved. lia.
    + rewrite Ht1. lia.
    + intros [] s' [H' _]. exact H'.
Qed.

Lemma erase_removes_witness :
  twp (erase Char32 1 2) (holding [0x61; 0x62; 0x63; 0x64])
    (fun _ s' =>
       represents s'
         (take (Z.to_nat 1) [0x61; 0x62; 0x63; 0x64]
          ++ drop (Z.to_nat 1 + Z.to_nat 2) [0x61; 0x62; 0x63; 0x64]))
    (fun _ _ => False).
Proof.
  apply (erase_removes Char32 [0x61; 0x62; 0x63; 0x64] []).
  - repeat split. exists 0%nat. split; reflexivity.
  - vm_compute. reflexivity.
  - vm_compute. split; discriminate.
  - lia.
Defined.

Lemma splice_front (pre rest new : list (option Z)) :
  (length new <= length rest)%nat ->
  splice (pre ++ rest) (Z.of_nat (length pre)) new
  = pre ++ new ++ drop (length new) rest.
Proof.
  intros Hlen. unfold splice, block, slot in *. rewrite Nat2Z.id.
  rewrite take_app_length. f_equal. f_equal.
  rewrite drop_app_ge by lia. f_equal. lia.
Qed.

Lemma slots_held (src : list (option Z)) (ws : list Z) o n :
  0 <= o -> 0 <= n -> o + n <= Z.of_nat (length src) ->
  take (Z.to_nat n) (drop (Z.to_nat o) src) = map Some ws ->
  Z.of_nat (length ws) = n.
Proof.
  intros Ho Hn Hfit Hws. rewrite <- (length_map Some ws), <- Hws.
  rewrite length_take, length_drop. lia.
Qed.

(** The copy from an array [ws] of the caller that lies in another block
    than the destination. *)
Lemma twp__M_assign_arr (T : code_type) a (blk : list (option Z)) d
    b (src : list (option Z)) o (ws : list Z) n s Q E :
  live (mem s) a = Some blk ->
  live (mem s) b = Some src -> a <> b ->
  0 <= d -> 0 < n < 2 ^ 61 ->
  d + n <= Z.of_nat (length blk) ->
  0 <= o -> o + n <= Z.of_nat (length src) ->
  take (Z.to_nat n) (drop (Z.to_nat o) src) = map Some ws ->
  (forall s',
     this s' = this s ->
     live (mem s') a = Some (splice blk d (map Some ws)) ->
     live (mem s') b = Some src ->
     Q tt s') ->
  twp (_M_assign_arr T (mk_pointer (Some a) d) (mk_pointer (Some b) o) n)
    s Q E.
Proof.
  intros Hl Hb Hne Hd Hn Hfit Ho Hsrc Hws H. unfold _M_assign_arr.
  pose proof (slots_held src ws o n Ho ltac:(lia) Hsrc Hws) as Hlen.
  destruct (n =? 1) eqn:E1.
  - assert (n = 1) as -> by lia.
    destruct ws as [|w [|? ?]]; simpl in Hlen; try lia.
    change (Z.to_nat 1) with 1%nat in Hws.
    assert (Hv : src !! Z.to_nat o = Some (Some w)).
    { destruct (drop (Z.to_nat o) src) as [|x l] eqn:Hdrop;
        [discriminate|].
      simpl in Hws. rewrite take_0 in Hws. injection Hws as ->.
      rewrite <- (Nat.add_0_r (Z.to_nat o)), <- lookup_drop, Hdrop.
      reflexivity. }
    apply twp_bind. eapply twp_peek; [exact Hb|lia|exact Hv|].
    unfold poke_slot.
    eapply twp_write_slots_beside; [exact Hl|exact Hb|exact Hne|lia| |exact H].
    simpl. lia.
  - unfold memcpy. rewrite slots_exact by lia.
    replace (n =? 0) with false by lia.
    unfold overlap, same_base. simpl.
    replace (a =? b)%nat with false by (symmetry; apply Nat.eqb_neq; exact Hne).
    simpl.
    apply twp_bind. eapply twp_read_slots; [exact Hb|lia|lia|lia|].
    unfold block, slot in *. rewrite Hws.
    eapply twp_write_slots_beside; [exact Hl|exact Hb|exact Hne|lia| |exact H].
    rewrite length_map. lia.
Qed.

Lemma twp__M_assign_fill (T : code_type) a (blk : list (option Z)) d n c
    s Q E :
  live (mem s) a = Some blk ->
  0 <= d -> 0 < n < 2 ^ 61 ->
  d + n <= Z.of_nat (length blk) ->
  (forall s',
     this s' = this s ->
     live (mem s') a
     = Some (splice blk d
               (map Some (replicate (Z.to_nat n)
                            (if n =? 1 then c else splat T c)))) ->
     Q tt s') ->
  twp (_M_assign_fill T (mk_pointer (Some a) d) n c) s Q E.
Proof.
  intros Hl Hd Hn Hfit H. unfold _M_assign_fill.
  destruct (n =? 1) eqn:E1.
  - assert (n = 1) as -> by lia. unfold poke_slot.
    eapply twp_write_slots; [exact Hl|lia|simpl; lia|exact H].
  - unfold memset. rewrite slots_exact by lia.
    replace (n =? 0) with false by lia.
    eapply twp_write_slots; [exact Hl|lia| |].
    + rewrite length_replicate. lia.
    + intros s' Ht Hl'. apply H; [exact Ht|].
      rewrite Hl'. rewrite <- fmap_replicate. reflexivity.
Qed.

(** The two [append] overloads differ in the store only: [store] writes the
    [n] code units [new] at the end of the content. *)
Lemma twp_append (al : allocator) (T : code_type) (vs new : list Z) n
    (store : pointer -> M unit) (R : state -> Prop) s :
  represents s vs ->
  0 <= n -> size new = n -> size vs + n < 2 ^ 58 ->
  _M_allocated_capacity (this s) < 2 ^ 58 ->
  R s ->
  (forall res s1, reserve al T res s = Ok tt s1 -> R s1) ->
  (forall a (blk : list (option Z)) d s1 Q E,
     R s1 -> _M_ptr (this s1) = Some a ->
     live (mem s1) a = Some blk ->
     0 <= d -> 0 < n -> d + n <= Z.of_nat (length blk) ->
     (forall s',
        this s' = this s1 ->
        live (mem s') a = Some (splice blk d (map Some new)) ->
        Q tt s') ->
     twp (store (mk_pointer (Some a) d)) s1 Q E) ->
  twp (when (negb (n =? 0))
         (_M_check_length 0 n;;
          len0 ← size_;
          let len := size_t (n + len0) in
          cap ← capacity;
          when (cap <? len) (reserve al T len);;
          p ← data;
          len0 ← size_;
          store (mk_pointer p len0);;
          _M_set_length T len)) s
    (fun _ s' => represents s' (vs ++ new))
    (fun e s' => e = bad_alloc /\ s' = s).
Proof.
  intros Hrep Hn Hnew Hsum Hcap HR HRres Hstore.
  destruct (represents_bounds s vs Hrep) as [Hlen Hsmall].
  apply twp_when; intros Hn0.
  2:{ assert (n = 0) by (destruct (n =? 0) eqn:E0; [lia|discriminate]).
      assert (new = []) as ->
        by (apply nil_length_inv; unfold size in Hnew; lia).
      rewrite app_nil_r. exact Hrep. }
  assert (0 < n) by (destruct (n =? 0) eqn:E0; [discriminate|lia]).
  apply twp_bind. unfold _M_check_length. apply twp_bind, twp_size_.
  rewrite max_size_value, Z.sub_0_r, (size_t_small (_M_len (this s))) by lia.
  rewrite size_t_small by lia.
  replace (2 ^ 62 - 1 - _M_len (this s) <? n) with false by lia.
  apply twp_ret. apply twp_bind, twp_size_. apply twp_bind, twp_capacity.
  cbv zeta. rewrite (size_t_small (n + _M_len (this s))) by lia.
  apply twp_bind.
  apply (twp_conseq _ _
           (fun _ s1 =>
              R s1 /\
              exists x back,
                stores s1 vs (x :: back) /\
                size vs + n <= _M_allocated_capacity (this s1) < 2 ^ 60)
           _ (fun e s' => e = bad_alloc /\ s' = s)); [| |auto].
  { apply twp_when; intros Hb.
    - apply (twp_with _ _ R); [intros [] s1 Hs1; eapply HRres; exact Hs1|].
      unfold reserve. apply twp_bind, twp_size_. apply twp_bind, twp_capacity.
      replace (n + _M_len (this s) <? _M_len (this s)) with false by lia.
      replace (n + _M_len (this s) =? _M_allocated_capacity (this s))
        with false by lia.
      apply (twp_regrow al T vs); auto; [lia|].
      intros s1 x back Hst Hc1 _ HR1. split; [exact HR1|].
      exists x, back. split; [exact Hst|lia].
    - split; [exact HR|]. destruct Hrep as [(rest & Hst)|[Hd ->]].
      + exists (Some 0), rest. split; [exact Hst|lia].
      + rewrite Hd in *. simpl in *. lia. }
  intros [] s1 (HR1 & x & back & (Hl & Hc & a & Hp & Hlive) & Hcap1).
  apply twp_bind, twp_data. rewrite Hp. apply twp_bind, twp_size_.
  rewrite Hl. apply twp_bind. unfold size, block, slot in *.
  cbn [length] in Hc.
  apply (Hstore a (map Some vs ++ x :: back));
    [exact HR1|exact Hp|exact Hlive|lia|lia| |].
  { rewrite length_app, length_map. cbn [length]. lia. }
  intros s2 Ht2 Hl2.
  rewrite <- (length_map Some vs) in Hl2.
  rewrite splice_front in Hl2 by (rewrite length_map; cbn [length]; lia).
  eapply twp_conseq;
    [apply (twp_finish T (vs ++ new)
              (map Some vs ++ map Some new
                 ++ drop (length (map Some new)) (x :: back)) _ a _
              (fun e s' => e = bad_alloc /\ s' = s))| |auto].
  - split; [rewrite Ht2; exact Hp|exact Hl2].
  - rewrite Ht2. rewrite !length_app, length_drop, !length_map.
    cbn [length]. lia.
  - unfold size. rewrite length_app. lia.
  - rewrite Ht2. lia.
  - rewrite app_assoc, <- map_app.
    rewrite <- (length_map Some (vs ++ new)).
    apply take_app_length.
  - intros [] s3 [H3 _]. exact H3.
Qed.

(** What [array_holds] says about the block of the array. *)
Lemma array_holds_fits (src : list (option Z)) (ws : list Z) o :
  0 <= o -> (0 < length ws)%nat ->
  take (length ws) (drop (Z.to_nat o) src) = map Some ws ->
  o + Z.of_nat (length ws) <= Z.of_nat (length src).
Proof.
  intros Ho Hpos H. apply (f_equal (@length (option Z))) in H.
  rewrite length_take, length_drop, length_map in H. lia.
Qed.

(** X17: [append(arr, n)] on a buffer that holds [vs], from an array of [n]
    code units [ws] that lies in a block of its own, returns with the buffer
    holding [vs] followed by [ws], or throws [bad_alloc] and leaves the state
    as it was; it does not run into undefined behaviour. *)
Theorem append_arr_appends (al : allocator) (T : code_type) (vs ws : list Z)
    arr s :
  represents s vs -> array_holds s arr ws ->
  size vs + size ws < 2 ^ 58 ->
  _M_allocated_capacity (this s) < 2 ^ 58 ->
  twp (append_arr al T arr (size ws)) s
    (fun _ s' => represents s' (vs ++ ws))
    (fun e s' => e = bad_alloc /\ s' = s).
Proof.
  intros Hrep (b & src & Hbase & Hne & Hb & Ho & Hws) Hsum Hcap.
  unfold append_arr. destruct arr as [p o]. simpl in *. subst p.
  apply (twp_append al T vs ws (size ws)
           (fun p => _M_assign_arr T p (mk_pointer (Some b) o) (size ws))
           (fun s1 => live (mem s1) b = Some src /\
                      _M_ptr (this s1) <> Some b));
    auto; try (unfold size; lia).
  - intros res s1 Hres. eapply reserve_others; eauto.
  - intros a blk d s1 Q E [Hb1 Hne1] Hp1 Hl Hd Hn0 Hfit H.
    pose proof (array_holds_fits src ws o Ho ltac:(unfold size in *; lia) Hws)
      as Hfits.
    apply (twp__M_assign_arr T a blk d b src o ws); auto;
      unfold size in *; try lia.
    + congruence.
    + rewrite Nat2Z.id. exact Hws.
Qed.

Lemma append_arr_appends_witness :
  twp (append_arr easy_allocator Char32 beside (size [0x4E2D; 0x62]))
    (holding_beside [0x61] [0x4E2D; 0x62])
    (fun _ s' => represents s' ([0x61] ++ [0x4E2D; 0x62]))
    (fun e s' => e = bad_alloc /\ s' = holding_beside [0x61] [0x4E2D; 0x62]).
Proof.
  apply (append_arr_appends easy_allocator Char32 [0x61] [0x4E2D; 0x62]).
  - left. exists []. repeat split. exists 0%nat. split; reflexivity.
  - exists 1%nat, [Some 0x4E2D; Some 0x62].
    split; [reflexivity|]. split; [vm_compute; discriminate|].
    split; [reflexivity|]. split; [vm_compute; discriminate|reflexivity].
  - vm_compute. reflexivity.
  - vm_compute. reflexivity.
Defined.

(** ** Observers *)

Lemma twp_result {A : Type} (m : M A) (s : state) (r : result A) :
  twp m s (fun a s' => r = Ok a s') (fun e s' => r = Throw e s') -> m s = r.
Proof.
  unfold twp. destruct (m s); intros H; [symmetry; exact H|symmetry; exact H|].
  contradiction.
Qed.

Lemma lookup_content (vs : list Z) (rest : list (option Z)) (i : nat) v :
  vs !! i = Some v -> (map Some vs ++ rest) !! i = Some (Some v).
Proof.
  intros Hv. rewrite lookup_app_l
    by (rewrite length_map; apply lookup_lt_Some in Hv; exact Hv).
  rewrite list_lookup_fmap, Hv. reflexivity.
Qed.

(** X18: [at(pos)] on a buffer that holds [vs] returns the code unit of [vs]
    at [pos] and throws [out_of_range] from the length on; the state is as
    it was. *)
Theorem at_reads (vs : list Z) pos s :
  represents s vs -> 0 <= pos ->
  at_ pos s = match vs !! Z.to_nat pos with
                | Some v => Ok v s
                | None => Throw out_of_range s
                end.
Proof.
  intros Hrep Hpos. apply twp_result.
  destruct (represents_bounds s vs Hrep) as [Hlen Hsmall].
  unfold at_. apply twp_bind, twp_size_. rewrite Hlen. unfold size in *.
  destruct (Z.of_nat (length vs) <=? pos) eqn:Hle.
  - rewrite lookup_ge_None_2 by lia. reflexivity.
  - destruct (lookup_lt_is_Some_2 vs (Z.to_nat pos) ltac:(lia)) as [v Hv].
    rewrite Hv.
    destruct Hrep as [(rest & _ & _ & a & Hp & Hlive)|[_ ->]];
      [|discriminate].
    apply twp_bind, twp_data. rewrite Hp.
    eapply twp_peek; [exact Hlive|lia| |reflexivity].
    apply lookup_content. exact Hv.
Qed.

Lemma at_reads_witness :
  at_ 1 (holding [0x61; 0x4E2D])
  = match [0x61; 0x4E2D] !! Z.to_nat 1 with
    | Some v => Ok v (holding [0x61; 0x4E2D])
    | None => Throw out_of_range (holding [0x61; 0x4E2D])
    end.
Proof.
  apply (at_reads [0x61; 0x4E2D] 1); [|lia].
  left. exists []. repeat split. exists 0%nat. split; reflexivity.
Defined.

Lemma find_loop_spec (vs : list Z) (rest : list (option Z))
    c a s :
  owns s a (map Some vs ++ rest) -> size vs < 2 ^ 63 ->
  forall (fuel : nat) (pos : Z),
    0 <= pos -> pos + Z.of_nat fuel = size vs ->
    exists r,
      find_loop fuel c pos s = Ok r s /\
      ((r = npos /\
        forall i : nat, (Z.to_nat pos <= i)%nat -> vs !! i <> Some c) \/
       (pos <= r /\ vs !! Z.to_nat r = Some c /\
        forall i : nat,
          (Z.to_nat pos <= i < Z.to_nat r)%nat -> vs !! i <> Some c)).
Proof.
  intros [Hp Hlive] Hsize. unfold size in *.
  induction fuel as [|fuel IH]; intros pos Hpos Hfuel.
  - exists npos. split; [reflexivity|]. left. split; [reflexivity|].
    intros i Hi. rewrite lookup_ge_None_2 by lia. discriminate.
  - destruct (lookup_lt_is_Some_2 vs (Z.to_nat pos) ltac:(lia)) as [v Hv].
    cbn [find_loop].
    assert (Hpeek : peek (mk_pointer (Some a) pos) s = Ok v s).
    { apply twp_result.
      eapply twp_peek; [exact Hlive|lia| |reflexivity].
      apply lookup_content. exact Hv. }
    unfold mbind, M_bind, bind, data. rewrite Hp, Hpeek.
    destruct (v =? c) eqn:Hvc.
    + exists pos. split; [reflexivity|]. right.
      split; [lia|]. split; [rewrite Hv; f_equal; lia|].
      intros i Hi. lia.
    + rewrite size_t_small by lia.
      destruct (IH (pos + 1) ltac:(lia) ltac:(lia)) as (r & Hr & Hspec).
      exists r. split; [exact Hr|].
      assert (Hhere : vs !! Z.to_nat pos <> Some c)
        by (rewrite Hv; intros [= ->]; lia).
      destruct Hspec as [[-> Hnone]|(Hle & Hat & Hnone)].
      * left. split; [reflexivity|]. intros i Hi.
        destruct (decide (i = Z.to_nat pos)) as [->|Hne]; [exact Hhere|].
        apply Hnone. lia.
      * right. split; [lia|]. split; [exact Hat|]. intros i Hi.
        destruct (decide (i = Z.to_nat pos)) as [->|Hne]; [exact Hhere|].
        apply Hnone. lia.
Qed.

(** X19: [find(c, pos)] on a buffer that holds [vs] returns the first
    position from [pos] on at which [vs] has [c], and [npos] where there is
    none; the state is as it was. *)
Theorem find_first_occurrence (vs : list Z) c pos s :
  represents s vs -> size vs < 2 ^ 63 -> 0 <= pos ->
  exists r,
    find c pos s = Ok r s /\
    ((r = npos /\
      forall i : nat, (Z.to_nat pos <= i)%nat -> vs !! i <> Some c) \/
     (pos <= r /\ vs !! Z.to_nat r = Some c /\
      forall i : nat,
        (Z.to_nat pos <= i < Z.to_nat r)%nat -> vs !! i <> Some c)).
Proof.
  intros Hrep Hsize Hpos.
  destruct (represents_bounds s vs Hrep) as [Hlen Hsmall].
  unfold find, mbind, M_bind, bind, size_. rewrite Hlen.
  destruct (decide (pos <= size vs)) as [Hle|Hgt].
  - destruct Hrep as [(rest & _ & _ & a & Hown)|[_ ->]].
    + apply (find_loop_spec vs (Some 0 :: rest) c a s Hown Hsize);
        [exact Hpos|lia].
    + replace (Z.to_nat (size [] - pos)) with 0%nat by (unfold size; simpl; lia).
      exists npos. split; [reflexivity|]. left. split; [reflexivity|].
      intros i _. rewrite lookup_nil. discriminate.
  - replace (Z.to_nat (size vs - pos)) with 0%nat by lia.
    exists npos. split; [reflexivity|]. left. split; [reflexivity|].
    intros i Hi. unfold size in *. rewrite lookup_ge_None_2 by lia.
    discriminate.
Qed.

Lemma find_first_occurrence_witness :
  exists r,
    find 0x62 1 (holding [0x62; 0x61; 0x62])
    = Ok r (holding [0x62; 0x61; 0x62]) /\
    ((r = npos /\
      forall i : nat,
        (Z.to_nat 1 <= i)%nat -> [0x62; 0x61; 0x62] !! i <> Some 0x62) \/
     (1 <= r /\ [0x62; 0x61; 0x62] !! Z.to_nat r = Some 0x62 /\
      forall i : nat,
        (Z.to_nat 1 <= i < Z.to_nat r)%nat ->
        [0x62; 0x61; 0x62] !! i <> Some 0x62)).
Proof.
  apply (find_first_occurrence [0x62; 0x61; 0x62] 0x62 1).
  - left. exists []. repeat split. exists 0%nat. split; reflexivity.
  - vm_compute. reflexivity.
  - lia.
Defined.

(** ** The pointer [__p] of [_M_replace] after a reallocation *)

Lemma twp_returns {A : Type} (m : M A) (s : state) (Q : A -> state -> Prop) :
  twp m s Q (fun _ _ => False) -> exists a s', m s = Ok a s' /\ Q a s'.
Proof.
  unfold twp. destruct (m s) as [a s'| |]; intros H; try contradiction.
  eauto.
Qed.

Lemma live_released (h : heap) (a : nat) (blk new : block) :
  live h a = Some blk -> live (<[a := None]> h ++ [Some new]) a = None.
Proof.
  intros Hl. pose proof (live_bound _ _ _ Hl) as Hlt.
  unfold live, heap, block, slot in *.
  rewrite lookup_app_l by (rewrite length_insert; exact Hlt).
  rewrite list_lookup_insert_eq by exact Hlt. reflexivity.
Qed.

Lemma reserve_moves (al : allocator) (T : code_type) (vs : list Z) res s :
  represents s vs ->
  (forall h b, malloc_fails al h b = false) ->
  (forall h a b, realloc_moves al h a b = true) ->
  _M_allocated_capacity (this s) < res < 2 ^ 59 ->
  exists s1,
    reserve al T res s = Ok tt s1 /\
    _M_len (this s1) = _M_len (this s) /\
    match _M_ptr (this s) with
    | Some a => live (mem s1) a = None
    | None => True
    end.
Proof.
  intros Hrep Hmf Hmv Hres.
  destruct (represents_bounds s vs Hrep) as [Hlen Hsmall].
  unfold reserve, mbind, M_bind, bind, size_, capacity.
  replace (res <? _M_len (this s)) with false by lia.
  replace (res =? _M_allocated_capacity (this s)) with false by lia.
  destruct (twp_returns (_S_capacity res (_M_allocated_capacity (this s))) s
              (fun c' s' => s' = s /\ res <= c' < 2 ^ 60))
    as (c' & s' & Hcap & -> & Hc').
  { apply twp__S_capacity; [rewrite max_size_value; lia|lia|].
    intros c' Hc' _. split; [reflexivity|lia]. }
  rewrite Hcap. unfold _M_realloc, mbind, M_bind, bind, data, realloc.
  rewrite (size_t_small (c' + 1)) by lia.
  pose proof (bytes_positive T (c' + 1) ltac:(lia)) as Hb.
  replace (c' =? 0) with false by lia.
  destruct Hrep as [(rest & _ & _ & a & Hp & Hlive)|[Hd _]].
  - rewrite Hp, Hlive.
    replace (bytes_of T (c' + 1) =? 0) with false by lia.
    rewrite Hmf, Hmv. simpl. eexists. split; [reflexivity|]. simpl.
    split; [reflexivity|]. eapply live_released. exact Hlive.
  - rewrite Hd. simpl. unfold malloc. rewrite Hmf. simpl.
    eexists. split; [reflexivity|]. simpl. split; [rewrite Hd|]; reflexivity.
Qed.

Lemma dangling_read (p : option nat) off n s :
  match p with Some a => live (mem s) a = None | None => True end ->
  read_slots (mk_pointer p off) n s = UB.
Proof.
  intros H. unfold read_slots. simpl. destruct p as [a|]; [|reflexivity].
  rewrite H. reflexivity.
Qed.

Lemma dangling_write (p : option nat) off vs s :
  match p with Some a => live (mem s) a = None | None => True end ->
  write_slots (mk_pointer p off) vs s = UB.
Proof.
  intros H. unfold write_slots. simpl. destruct p as [a|]; [|reflexivity].
  rewrite H. reflexivity.
Qed.

Lemma dangling__S_move (T : code_type) (p : option nat) d src k s :
  match p with Some a => live (mem s) a = None | None => True end ->
  _S_move T (mk_pointer p d) (mk_pointer p src) k s = UB \/
  _S_move T (mk_pointer p d) (mk_pointer p src) k s = Ok tt s.
Proof.
  intros H. unfold _S_move. destruct (k =? 1).
  - left. unfold peek, mbind, M_bind, bind. rewrite dangling_read by exact H.
    reflexivity.
  - unfold memmove. destruct (slots_of T (bytes_of T k) =? 0).
    + right. reflexivity.
    + left. unfold mbind, M_bind, bind. rewrite dangling_read by exact H.
      reflexivity.
Qed.

Lemma read_slots_returns p n s vs s' :
  read_slots p n s = Ok vs s' -> s' = s.
Proof.
  unfold read_slots. destruct (base p); [|discriminate].
  destruct (live _ _); [|discriminate].
  destruct (in_block _ _ _); [|discriminate].
  intros H. injection H as _ <-. reflexivity.
Qed.

Lemma read_slots_no_throw p n s e s' : read_slots p n s <> Throw e s'.
Proof.
  unfold read_slots. destruct (base p); [|discriminate].
  destruct (live _ _); [|discriminate].
  destruct (in_block _ _ _); discriminate.
Qed.

Lemma dangling__S_copy (T : code_type) (p : option nat) d arr n s :
  match p with Some a => live (mem s) a = None | None => True end ->
  0 < n < 2 ^ 61 ->
  _S_copy T (mk_pointer p d) arr n s = UB.
Proof.
  intros H Hn. unfold _S_copy. destruct (n =? 1).
  - unfold peek, mbind, M_bind, bind.
    destruct (read_slots arr 1 s) as [vs s1|e s1|] eqn:Hr; [| |reflexivity].
    + apply read_slots_returns in Hr. subst s1.
      destruct vs as [|[v|] [|? ?]]; try reflexivity.
      unfold ret, poke_slot. apply dangling_write. exact H.
    + exfalso. exact (read_slots_no_throw _ _ _ _ _ Hr).
  - unfold memcpy. rewrite slots_exact by lia.
    replace (n =? 0) with false by lia.
    destruct (overlap _ _ _); [reflexivity|].
    unfold mbind, M_bind, bind.
    destruct (read_slots arr n s) as [vs s1|e s1|] eqn:Hr; [| |reflexivity].
    + apply read_slots_returns in Hr. subst s1.
      apply dangling_write. exact H.
    + exfalso. exact (read_slots_no_throw _ _ _ _ _ Hr).
Qed.

Lemma dangling__M_assign_fill (T : code_type) (p : option nat) d n c s :
  match p with Some a => live (mem s) a = None | None => True end ->
  0 < n < 2 ^ 61 ->
  _M_assign_fill T (mk_pointer p d) n c s = UB.
Proof.
  intros H Hn. unfold _M_assign_fill. destruct (n =? 1).
  - unfold poke_slot. apply dangling_write. exact H.
  - unfold memset. rewrite slots_exact by lia.
    replace (n =? 0) with false by lia.
    apply dangling_write. exact H.
Qed.



(** X21: on a default-constructed [ustring], whose buffer is null, [clear],
    [erase] with its default arguments, and [assign] of nothing all run into
    undefined behaviour: [_M_set_length] stores the sentinel through the null
    pointer. *)
Theorem null_buffer_sentinel_undefined (al : allocator) (T : code_type)
    (arr : pointer) c s :
  this s = default_ustring ->
  clear T s = UB /\
  erase T 0 npos s = UB /\
  assign_arr al T arr 0 s = UB /\
  assign_fill al T 0 c s = UB.
Proof.
  intros Hd.
  assert (Hset : forall s', this s' = default_ustring ->
                            _M_set_length T 0 s' = UB).
  { intros s' Hs'.
    unfold _M_set_length, mbind, M_bind, bind, _M_length, data, poke_slot.
    simpl. rewrite Hs'. reflexivity. }
  repeat split.
  - apply Hset, Hd.
  - unfold erase, _M_check, mbind, M_bind, bind, size_. rewrite Hd. simpl.
    apply Hset, Hd.
  - unfold assign_arr, assign_storage, mbind, M_bind, bind, capacity, data.
    rewrite Hd. simpl. apply Hset, Hd.
  - unfold assign_fill, assign_storage, mbind, M_bind, bind, capacity, data.
    rewrite Hd. simpl. apply Hset, Hd.
Qed.

Lemma null_buffer_sentinel_undefined_witness :
  clear Char32 initial_state = UB /\
  erase Char32 0 npos initial_state = UB /\
  assign_arr easy_allocator Char32 (mk_pointer None 0) 0 initial_state = UB /\
  assign_fill easy_allocator Char32 0 0 initial_state = UB.
Proof.
  apply (null_buffer_sentinel_undefined easy_allocator Char32
           (mk_pointer None 0) 0).
  reflexivity.
Defined.

(** The array can also be the buffer itself, as in [u.append(u)].  When the
    buffer has to grow and [realloc] hands back a new block, [_M_assign]
    reads the code units from the block that has been released. *)
Lemma append_own_buffer_undefined (al : allocator) (T : code_type)
    (vs : list Z) (rest : list slot) o n s :
  stores s vs (Some 0 :: rest) ->
  (forall h b, malloc_fails al h b = false) ->
  (forall h a b, realloc_moves al h a b = true) ->
  0 < n -> _M_allocated_capacity (this s) < size vs + n ->
  size vs + n < 2 ^ 58 ->
  append_arr al T (mk_pointer (_M_ptr (this s)) o) n s = UB.
Proof.
  intros Hst Hmf Hmv Hn Hgrow Hsum.
  assert (Hrep : represents s vs) by (left; exists rest; exact Hst).
  destruct (represents_bounds s vs Hrep) as [Hlen Hsmall].
  destruct (reserve_moves al T vs (n + _M_len (this s)) s Hrep Hmf Hmv
              ltac:(lia)) as (s1 & Hres & Hlen1 & Hstale).
  destruct Hst as (_ & _ & a & Hp & Hlive). rewrite Hp in *.
  unfold append_arr. replace (n =? 0) with false by lia. simpl.
  unfold mbind, M_bind, bind.
  assert (Hlength : _M_check_length 0 n s = Ok tt s).
  { unfold _M_check_length, mbind, M_bind, bind, size_.
    rewrite max_size_value, Z.sub_0_r, (size_t_small (_M_len (this s)))
      by lia.
    rewrite size_t_small by lia.
    replace (2 ^ 62 - 1 - _M_len (this s) <? n) with false by lia.
    reflexivity. }
  rewrite Hlength. unfold size_, capacity.
  rewrite (size_t_small (n + _M_len (this s))) by lia.
  replace (_M_allocated_capacity (this s) <? n + _M_len (this s))
    with true by lia.
  unfold when. rewrite Hres. unfold data.
  unfold _M_assign_arr. destruct (n =? 1).
  - unfold peek, mbind, M_bind, bind, read_slots. simpl. rewrite Hstale.
    reflexivity.
  - unfold memcpy. rewrite slots_exact by lia.
    replace (n =? 0) with false by lia.
    destruct (overlap _ _ _); [reflexivity|].
    unfold mbind, M_bind, bind, read_slots. simpl. rewrite Hstale.
    reflexivity.
Qed.

(** X22: [append(n, c)] on a buffer that holds [vs] returns with [n] more
    code units, or throws [bad_alloc] and leaves the state as it was.  A
    single unit is [c]; two or more are the low byte of [c] repeated in every
    byte of the unit, which is what [memset] stores. *)
Theorem append_fill_appends (al : allocator) (T : code_type) (vs : list Z)
    n c s :
  represents s vs ->
  0 <= n -> size vs + n < 2 ^ 58 ->
  _M_allocated_capacity (this s) < 2 ^ 58 ->
  twp (append_fill al T n c) s
    (fun _ s' =>
       represents s'
         (vs ++ replicate (Z.to_nat n) (if n =? 1 then c else splat T c)))
    (fun e s' => e = bad_alloc /\ s' = s).
Proof.
  intros Hrep Hn Hsum Hcap. unfold append_fill.
  apply (twp_append al T vs
           (replicate (Z.to_nat n) (if n =? 1 then c else splat T c)) n
           (fun p => _M_assign_fill T p n c) (fun _ => True)); auto.
  - unfold size. rewrite length_replicate. lia.
  - intros a blk d s1 Q E _ _ Hl Hd Hn0 Hfit H.
    apply (twp__M_assign_fill T a blk); auto; unfold size in *; lia.
Qed.

Lemma append_fill_appends_witness :
  twp (append_fill easy_allocator Char32 2 0x4E2D) (holding [0x61])
    (fun _ s' =>
       represents s'
         ([0x61] ++ replicate (Z.to_nat 2)
                      (if 2 =? 1 then 0x4E2D else splat Char32 0x4E2D)))
    (fun e s' => e = bad_alloc /\ s' = holding [0x61]).
Proof.
  apply (append_fill_appends easy_allocator Char32 [0x61]).
  - left. exists []. repeat split. exists 0%nat. split; reflexivity.
  - lia.
  - vm_compute. reflexivity.
  - vm_compute. reflexivity.
Defined.

(** ** [replace] and [insert] where the capacity suffices *)

Lemma splice_nothing (blk : list (option Z)) d :
  0 <= d -> splice blk d [] = blk.
Proof.
  intros Hd. unfold splice, block, slot in *. simpl.
  rewrite Nat.add_0_r. apply take_drop.
Qed.

Lemma length_splice_fit (blk new : list (option Z)) d :
  0 <= d -> d + Z.of_nat (length new) <= Z.of_nat (length blk) ->
  length (splice blk d new) = length blk.
Proof.
  intros Hd Hfit. apply length_splice. apply in_block_spec.
  unfold block, slot in *. lia.
Qed.

Lemma take_splice_before (blk new : list (option Z)) d (k : nat) :
  0 <= d -> Z.of_nat k <= d <= Z.of_nat (length blk) ->
  take k (splice blk d new) = take k blk.
Proof.
  intros Hd Hk. unfold splice, block, slot in *.
  rewrite take_app_le by (rewrite length_take; lia).
  rewrite take_take. f_equal. lia.
Qed.

Lemma drop_splice_at (blk new : list (option Z)) d :
  0 <= d <= Z.of_nat (length blk) ->
  drop (Z.to_nat d) (splice blk d new)
  = new ++ drop (Z.to_nat d + length new) blk.
Proof.
  intros Hd. unfold splice, block, slot in *.
  rewrite drop_app_ge by (rewrite length_take; lia).
  rewrite length_take. replace (Z.to_nat d - _)%nat with 0%nat by lia.
  reflexivity.
Qed.

Lemma take_splice_through (blk new : list (option Z)) d (k : nat) :
  0 <= d <= Z.of_nat (length blk) -> (Z.to_nat d <= k)%nat ->
  take k (splice blk d new)
  = take (Z.to_nat d) blk
    ++ take (k - Z.to_nat d) (new ++ drop (Z.to_nat d + length new) blk).
Proof.
  intros Hd Hk. unfold splice, block, slot in *.
  rewrite take_app_ge by (rewrite length_take; lia).
  rewrite length_take. f_equal. f_equal. lia.
Qed.

Lemma twp__S_move_any (T : code_type) a (blk : list (option Z)) (ws : list Z)
    d src n s Q E :
  live (mem s) a = Some blk ->
  0 <= d -> 0 <= src -> 0 <= n < 2 ^ 61 ->
  src + n <= Z.of_nat (length blk) -> d + n <= Z.of_nat (length blk) ->
  take (Z.to_nat n) (drop (Z.to_nat src) blk) = map Some ws ->
  (forall s',
     this s' = this s ->
     live (mem s') a = Some (splice blk d (map Some ws)) ->
     Q tt s') ->
  twp (_S_move T (mk_pointer (Some a) d) (mk_pointer (Some a) src) n) s Q E.
Proof.
  intros Hl Hd Hsrc Hn Hs Hdn Hws H.
  destruct (decide (n = 0)) as [->|Hne].
  - destruct ws; [|discriminate].
    assert (Hnop : _S_move T (mk_pointer (Some a) d) (mk_pointer (Some a) src)
                     0 s = Ok tt s) by (destruct T; reflexivity).
    unfold twp. rewrite Hnop. apply H; [reflexivity|].
    simpl. rewrite splice_nothing by lia. exact Hl.
  - eapply twp__S_move; eauto. lia.
Qed.

Lemma twp__S_copy_any (T : code_type) a (blk : list (option Z)) d
    b (src : list (option Z)) o (ws : list Z) n s Q E :
  live (mem s) a = Some blk ->
  live (mem s) b = Some src -> a <> b ->
  0 <= d -> 0 <= n < 2 ^ 61 ->
  d + n <= Z.of_nat (length blk) ->
  0 <= o -> (0 < n -> o + n <= Z.of_nat (length src)) ->
  take (Z.to_nat n) (drop (Z.to_nat o) src) = map Some ws ->
  (forall s',
     this s' = this s ->
     live (mem s') a = Some (splice blk d (map Some ws)) ->
     Q tt s') ->
  twp (_S_copy T (mk_pointer (Some a) d) (mk_pointer (Some b) o) n) s Q E.
Proof.
  intros Hl Hb Hne Hd Hn Hfit Ho Hsrc Hws H.
  destruct (decide (n = 0)) as [->|Hn0].
  - destruct ws; [|discriminate].
    assert (Hnop : _S_copy T (mk_pointer (Some a) d) (mk_pointer (Some b) o)
                     0 s = Ok tt s) by (destruct T; reflexivity).
    unfold twp. rewrite Hnop. apply H; [reflexivity|].
    simpl. rewrite splice_nothing by lia. exact Hl.
  - change (_S_copy T (mk_pointer (Some a) d) (mk_pointer (Some b) o) n)
      with (_M_assign_arr T (mk_pointer (Some a) d) (mk_pointer (Some b) o) n).
    eapply twp__M_assign_arr; eauto; lia.
Qed.

(** X23: [replace(pos, n1, arr, n2)] on a non-null buffer that holds [vs],
    from an array of [n2] code units [ws] that lies in a block of its own,
    where the capacity suffices for the result, returns with the buffer
    holding [vs] with the [n1] code units from [pos] on (or those that are
    left) replaced by [ws]; it neither throws nor runs into undefined
    behaviour.  With [n1 = 0] this is [insert]. *)
Theorem replace_arr_within_capacity (al : allocator) (T : code_type)
    (vs ws : list Z) (rest : list slot) arr pos n1 s :
  stores s vs (Some 0 :: rest) -> array_holds s arr ws ->
  _M_allocated_capacity (this s) < 2 ^ 58 ->
  0 <= pos <= size vs -> 0 <= n1 < 2 ^ 64 ->
  size vs - Z.min n1 (size vs - pos) + size ws
  <= _M_allocated_capacity (this s) ->
  twp (replace_arr al T pos n1 arr (size ws)) s
    (fun _ s' =>
       represents s'
         (take (Z.to_nat pos) vs ++ ws
          ++ drop (Z.to_nat (pos + Z.min n1 (size vs - pos))) vs))
    (fun _ _ => False).
Proof.
  intros (Hlen & Hc & a & Hp & Hlive) (b & src & Hbase & Hne & Hb & Ho & Hws)
    Hcap Hpos Hn1 Hfit.
  assert (Hfits : 0 < size ws ->
            offset arr + Z.of_nat (length ws) <= Z.of_nat (length src)).
  { intros Hsome. apply array_holds_fits; [exact Ho| |exact Hws].
    unfold size in Hsome. lia. }
  destruct arr as [pb o]. simpl in Hbase, Ho, Hws, Hfits. subst pb.
  assert (Hab : a <> b) by congruence.
  remember (size ws) as n2 eqn:Hn2o.
  assert (Hn2 : 0 <= n2) by (subst n2; unfold size; lia).
  unfold size, block, slot in *. cbn [length] in Hc.
  set (B := map Some vs ++ Some 0 :: rest) in *.
  assert (HB : Z.of_nat (length B) = _M_allocated_capacity (this s) + 1).
  { unfold B. rewrite length_app, length_map. cbn [length]. lia. }
  unfold replace_arr. apply twp_bind. unfold _M_check.
  apply twp_bind, twp_size_.
  replace (_M_len (this s) <? pos) with false by lia.
  apply twp_ret. apply twp_bind. unfold _M_limit.
  apply twp_bind, twp_size_. apply twp_ret.
  rewrite (size_t_small (_M_len (this s) - pos)) by lia.
  rewrite <- Hlen in *.
  set (k := Z.min n1 (_M_len (this s) - pos)) in *.
  replace (if n1 <? _M_len (this s) - pos then n1 else _M_len (this s) - pos)
    with k
    by (unfold k; destruct (n1 <? _M_len (this s) - pos) eqn:E0; lia).
  assert (Hk : 0 <= k <= _M_len (this s) - pos) by (unfold k; lia).
  clearbody k.
  set (tail := drop (Z.to_nat (pos + k)) vs).
  set (new := ws).
  assert (Hnew : Z.of_nat (length new) = n2) by (unfold new; lia).
  assert (Hheld : take (Z.to_nat n2) (drop (Z.to_nat o) src) = map Some new).
  { unfold new. rewrite Hn2o, Nat2Z.id. exact Hws. }
  assert (Htail : Z.of_nat (length tail) = _M_len (this s) - pos - k)
    by (unfold tail; rewrite length_drop; lia).
  assert (Hfront : Z.of_nat (length (take (Z.to_nat pos) vs)) = pos)
    by (rewrite length_take; lia).
  assert (Hprefix : take (Z.to_nat pos) B = map Some (take (Z.to_nat pos) vs))
    by (apply take_map_Some; lia).
  assert (Htaken : take (length tail) (drop (Z.to_nat (pos + k)) B)
                   = map Some tail).
  { unfold B, tail. rewrite drop_app_le by (rewrite length_map; lia).
    rewrite skipn_map. rewrite take_app_le
      by (rewrite length_map; lia).
    apply take_ge. rewrite length_map. lia. }
  unfold _M_replace_arr. apply twp_bind. unfold _M_check_length.
  apply twp_bind, twp_size_.
  rewrite max_size_value, (size_t_small (_M_len (this s) - k)) by lia.
  rewrite size_t_small by lia.
  replace (2 ^ 62 - 1 - (_M_len (this s) - k) <? n2) with false by lia.
  apply twp_ret. apply twp_bind, twp_data. rewrite Hp. cbv zeta.
  destruct (k =? n2) eqn:Hsame.
  - apply Z.eqb_eq in Hsame. subst k.
    apply (twp__S_copy_any T a B pos b src o new);
      [exact Hlive|exact Hb|exact Hab|lia|lia| |lia|lia|exact Hheld|].
    { rewrite HB. lia. }
    intros s1 Ht1 Hl1. left. exists rest.
    unfold stores, owns, size, block, slot. rewrite Ht1.
    rewrite !length_app. fold new tail.
    rewrite !Nat2Z.inj_add, Hfront, Hnew, Htail.
    split; [lia|]. split; [cbn [length]; lia|].
    exists a. split; [exact Hp|]. rewrite Hl1. f_equal. fold new.
    unfold splice, block, slot in *. rewrite Hprefix, length_map.
    rewrite !map_app, <- !app_assoc. f_equal. f_equal.
    replace (Z.to_nat pos + length new)%nat with (Z.to_nat (pos + n2))
      by lia.
    unfold B, tail. rewrite drop_app_le by (rewrite length_map; lia).
    rewrite skipn_map. reflexivity.
  - apply twp_bind, twp_size_. apply twp_bind, twp_capacity.
    rewrite (size_t_small (_M_len (this s) + n2 - k)) by lia.
    apply twp_bind.
    replace (_M_allocated_capacity (this s) <? _M_len (this s) + n2 - k)
      with false by lia.
    apply twp_ret. apply twp_bind, twp_size_. apply twp_bind.
    rewrite (size_t_small (_M_len (this s) - pos)) by lia.
    rewrite size_t_small by lia.
    unfold ptr_add. simpl.
    apply (twp_with _ _ (fun s1 => live (mem s1) b = Some src)).
    { intros [] s1 Hs1. rewrite (_S_move_others _ _ _ _ _ _ _ Hs1) by auto.
      exact Hb. }
    apply (twp__S_move_any T a B tail); [exact Hlive|lia|lia|lia| | | |].
    { rewrite HB. lia. }
    { rewrite HB. lia. }
    { rewrite <- Htail, Nat2Z.id. exact Htaken. }
    intros s1 Ht1 Hl1 Hb1. apply twp_bind.
    set (B1 := splice B (pos + n2) (map Some tail)) in *.
    assert (HB1 : length B1 = length B).
    { apply length_splice_fit; [lia|]. rewrite length_map, Htail, HB. lia. }
    unfold block, slot in *.
    apply (twp__S_copy_any T a B1 pos b src o new);
      [exact Hl1|exact Hb1|exact Hab|lia|lia| |lia|lia|exact Hheld|].
    { rewrite HB1, HB. lia. }
    intros s2 Ht2 Hl2.
    set (B2 := splice B1 pos (map Some new)) in *.
    assert (HB2 : length B2 = length B1).
    { apply length_splice_fit; [lia|]. rewrite length_map, Hnew, HB1, HB. lia. }
    unfold block, slot in *.
    assert (Hdrop1 : drop (Z.to_nat pos + length (map Some new)) B1
                     = map Some tail
                       ++ drop (Z.to_nat (pos + n2) + length (map Some tail)) B).
    { replace (Z.to_nat pos + length (map Some new))%nat
        with (Z.to_nat (pos + n2)) by (rewrite length_map; lia).
      apply drop_splice_at. rewrite HB. lia. }
    assert (Hcontent : take (length (take (Z.to_nat pos) vs ++ new ++ tail)) B2
                       = map Some (take (Z.to_nat pos) vs ++ new ++ tail)).
    { unfold B2.
      rewrite take_splice_through
        by (rewrite ?HB1, ?HB, ?length_app; lia).
      unfold B1 at 1.
      rewrite take_splice_before by (rewrite ?HB; lia).
      rewrite Hprefix, !map_app. f_equal.
      replace (length (take (Z.to_nat pos) vs ++ new ++ tail) - Z.to_nat pos)%nat
        with (length (map Some new) + length tail)%nat
        by (rewrite !length_app, length_map; lia).
      rewrite take_app_ge by lia.
      f_equal. rewrite Hdrop1.
      replace (length (map Some new) + length tail - length (map Some new))%nat
        with (length (map Some tail)) by (rewrite !length_map; lia).
      apply take_app_length. }
    clearbody B2 B1 tail new.
    eapply twp_conseq;
      [apply (twp_finish T (take (Z.to_nat pos) vs ++ new ++ tail) B2 _ a _
                (fun _ _ => False))| |auto].
    + split; [rewrite Ht2, Ht1; exact Hp|exact Hl2].
    + rewrite Ht2, Ht1, HB2, HB1. exact HB.
    + unfold size. rewrite !length_app, !Nat2Z.inj_add, Hfront, Hnew, Htail.
      lia.
    + rewrite Ht2, Ht1. lia.
    + exact Hcontent.
    + intros [] s3 [H3 _]. exact H3.
Qed.

Lemma replace_arr_within_capacity_witness :
  twp (replace_arr easy_allocator Char32 1 2 beside (size [0x4E2D]))
    (holding_beside [0x61; 0x62; 0x63; 0x64] [0x4E2D])
    (fun _ s' =>
       represents s'
         (take (Z.to_nat 1) [0x61; 0x62; 0x63; 0x64] ++ [0x4E2D]
          ++ drop (Z.to_nat (1 + Z.min 2 (size [0x61; 0x62; 0x63; 0x64] - 1)))
               [0x61; 0x62; 0x63; 0x64]))
    (fun _ _ => False).
Proof.
  apply (replace_arr_within_capacity easy_allocator Char32
           [0x61; 0x62; 0x63; 0x64] [0x4E2D] []).
  - repeat split. exists 0%nat. split; reflexivity.
  - exists 1%nat, [Some 0x4E2D].
    split; [reflexivity|]. split; [vm_compute; discriminate|].
    split; [reflexivity|]. split; [vm_compute; discriminate|reflexivity].
  - vm_compute. reflexivity.
  - vm_compute. split; discriminate.
  - lia.
  - vm_compute. discriminate.
Defined.

(** The array can also lie inside the buffer, as in [u.replace(0, 3, u, 2, 2)]
    on [abcde]: [_S_move] shifts the tail before [_S_copy] reads the array,
    so the call takes the code units it finds at the old place of [cd], which
    are [de] by then. *)
Example replace_from_own_buffer :
  run easy_allocator Char32
    (Replace_ustring_pos 0 3 (this (holding [0x61; 0x62; 0x63; 0x64; 0x65]))
       2 2)
    (holding [0x61; 0x62; 0x63; 0x64; 0x65])
  = Ok tt (mk_state (mk_ustring 5 4 (Some 0%nat))
             [Some (map Some [0x64; 0x65; 0x64; 0x65; 0] ++ [Some 0])]).
Proof. vm_compute. reflexivity. Qed.

(** ** Capacity *)

(** X24: [reserve(res)] above the capacity returns with the content kept and
    a capacity of at least [res] and at most the larger of [res] and twice
    the old one, or throws [bad_alloc] and leaves the state as it was.  On a
    non-null buffer the sentinel is kept; on the null buffer of a
    default-constructed [ustring] the new block is left without one: its
    first slot is indeterminate. *)
Theorem reserve_grows (al : allocator) (T : code_type) (vs : list Z) res s :
  represents s vs ->
  _M_allocated_capacity (this s) < res < 2 ^ 58 ->
  twp (reserve al T res) s
    (fun _ s' =>
       res <= _M_allocated_capacity (this s')
       <= Z.max res (2 * _M_allocated_capacity (this s)) /\
       match _M_ptr (this s) with
       | Some _ => represents s' vs
       | None => exists back, stores s' [] (None :: back)
       end)
    (fun e s' => e = bad_alloc /\ s' = s).
Proof.
  intros Hrep Hres.
  destruct (represents_bounds s vs Hrep) as [Hlen Hsmall].
  unfold reserve. apply twp_bind, twp_size_. apply twp_bind, twp_capacity.
  replace (res <? _M_len (this s)) with false by lia.
  replace (res =? _M_allocated_capacity (this s)) with false by lia.
  apply (twp_regrow al T vs); auto; [lia|].
  intros s1 x back Hst Hc1 Hx. split; [exact Hc1|].
  destruct (_M_ptr (this s)) eqn:Hp.
  - subst x. left. exists back. exact Hst.
  - subst x. exists back.
    destruct Hrep as [(rest & _ & _ & a & Hp' & _)|[_ ->]];
      [congruence|exact Hst].
Qed.

Lemma reserve_grows_witness :
  twp (reserve easy_allocator Char32 8) initial_state
    (fun _ s' =>
       8 <= _M_allocated_capacity (this s')
       <= Z.max 8 (2 * _M_allocated_capacity (this initial_state)) /\
       match _M_ptr (this initial_state) with
       | Some _ => represents s' []
       | None => exists back, stores s' [] (None :: back)
       end)
    (fun e s' => e = bad_alloc /\ s' = initial_state).
Proof.
  apply (reserve_grows easy_allocator Char32 [] 8).
  - right. split; reflexivity.
  - vm_compute. split; reflexivity.
Defined.

(** ** Construction *)

(** X25: the constructor [ustring(n, c)] returns with a buffer of capacity
    [2 * n] that holds [n] code units and the sentinel, or throws
    [bad_alloc].  A single unit is [c]; two or more are the low byte of [c]
    repeated in every byte of the unit. *)
Theorem construct_fill_holds (al : allocator) (T : code_type) n c s :
  0 <= n < 2 ^ 57 ->
  twp (construct_fill al T n c) s
    (fun _ s' =>
       represents s'
         (replicate (Z.to_nat n) (if n =? 1 then c else splat T c)) /\
       _M_allocated_capacity (this s') = 2 * n)
    (fun e _ => e = bad_alloc).
Proof.
  intros Hn. unfold construct_fill.
  rewrite Z.shiftl_mul_pow2 by lia. change (2 ^ 1) with 2.
  rewrite (size_t_small (n * 2)) by lia.
  apply twp_bind. unfold twp at 1, _M_capacity.
  apply twp_bind, twp_capacity. cbn [this _M_allocated_capacity].
  apply twp_bind. unfold _M_allocator.
  rewrite (size_t_small (n * 2 + 1)) by lia.
  apply twp_bind. unfold twp at 1, malloc. cbn [mem this].
  destruct (malloc_fails al (mem s) (bytes_of T (n * 2 + 1))).
  { apply twp_bind. unfold twp at 1, _M_data. apply twp_throw. reflexivity. }
  apply twp_bind. unfold twp at 1, _M_data. cbn [mem this _M_len
    _M_allocated_capacity]. apply twp_ret.
  apply twp_bind, twp_data. cbn [this _M_ptr].
  set (blk := fresh_block T (bytes_of T (n * 2 + 1))).
  assert (Hblk : Z.of_nat (length blk) = n * 2 + 1).
  { unfold blk, fresh_block. rewrite length_replicate, slots_exact by lia.
    lia. }
  set (fill := if n =? 1 then c else splat T c).
  set (s1 := mk_state _ _).
  assert (Hl1 : live (mem s1) (length (mem s)) = Some blk)
    by apply live_app_new.
  apply twp_bind.
  apply (twp_conseq _ _
           (fun _ s2 =>
              this s2 = this s1 /\
              exists blk2 : list (option Z),
                live (mem s2) (length (mem s)) = Some blk2 /\
                length blk2 = length blk /\
                take (Z.to_nat n) blk2
                = map Some (replicate (Z.to_nat n) fill))
           _ (fun e _ => e = bad_alloc)); [| |auto].
  - destruct (decide (n = 0)) as [->|Hne].
    + assert (Hnop : _M_assign_fill T (mk_pointer (Some (length (mem s))) 0)
                       0 c s1 = Ok tt s1) by (destruct T; reflexivity).
      unfold twp. rewrite Hnop. split; [reflexivity|].
      exists blk. repeat split; auto.
    + apply (twp__M_assign_fill T _ blk); [exact Hl1|lia|lia| |].
      { unfold block, slot in *. lia. }
      intros s2 Ht2 Hl2. split; [exact Ht2|].
      eexists. split; [exact Hl2|]. fold fill. split.
      * apply length_splice_fit; [lia|].
        rewrite length_map, length_replicate. unfold block, slot in *. lia.
      * unfold splice. simpl.
        apply take_app_length'.
        rewrite length_map, length_replicate. reflexivity.
  - intros [] s2 (Ht2 & blk2 & Hl2 & Hlen2 & Htake2).
    eapply twp_conseq;
      [apply (twp_finish T (replicate (Z.to_nat n) fill) blk2 _
                (length (mem s)) _ (fun e _ => e = bad_alloc))| |auto].
    + split; [rewrite Ht2; reflexivity|exact Hl2].
    + rewrite Ht2. unfold block, slot in *. rewrite Hlen2, Hblk.
      unfold s1. simpl. lia.
    + unfold size. rewrite length_replicate. lia.
    + rewrite Ht2. unfold s1. simpl. lia.
    + rewrite length_replicate. exact Htake2.
    + intros [] s3 [H3 Hc3]. split; [exact H3|].
      rewrite Hc3, Ht2. unfold s1. simpl. lia.
Qed.

Lemma construct_fill_holds_witness :
  twp (construct_fill easy_allocator Char32 1 0x4E2D) initial_state
    (fun _ s' =>
       represents s'
         (replicate (Z.to_nat 1) (if 1 =? 1 then 0x4E2D else splat Char32 0x4E2D)) /\
       _M_allocated_capacity (this s') = 2 * 1)
    (fun e _ => e = bad_alloc).
Proof.
  apply (construct_fill_holds easy_allocator Char32 1 0x4E2D). lia.
Defined.

(** ** Resizing *)

(** X26: [resize(n, c)] on a buffer that holds [vs] returns with the buffer
    holding the first [n] code units of [vs] where [vs] has that many, and
    otherwise [vs] followed by the units [append(n - size(), c)] stores; or
    it throws [bad_alloc] and leaves the state as it was. *)
Theorem resize_truncates_or_fills (al : allocator) (T : code_type)
    (vs : list Z) n c s :
  represents s vs ->
  0 <= n < 2 ^ 58 -> _M_allocated_capacity (this s) < 2 ^ 58 ->
  twp (resize al T n c) s
    (fun _ s' =>
       represents s'
         (take (Z.to_nat n) vs
          ++ replicate (Z.to_nat (n - size vs))
               (if n - size vs =? 1 then c else splat T c)))
    (fun e s' => e = bad_alloc /\ s' = s).
Proof.
  intros Hrep Hn Hcap.
  destruct (represents_bounds s vs Hrep) as [Hlen Hsmall].
  unfold resize. apply twp_bind, twp_size_. rewrite Hlen.
  destruct (size vs <? n) eqn:Hgrow.
  - rewrite size_t_small by lia. rewrite take_ge by (unfold size in *; lia).
    unfold append_fill.
    apply (twp_append al T vs
             (replicate (Z.to_nat (n - size vs))
                (if n - size vs =? 1 then c else splat T c)) (n - size vs)
             (fun p => _M_assign_fill T p (n - size vs) c)
             (fun _ => True)); auto; try lia.
    + unfold size in *. rewrite length_replicate. lia.
    + intros a blk d s1 Q E _ _ Hl Hd Hn0 Hfit H.
      apply (twp__M_assign_fill T a blk); auto; unfold size in *; lia.
  - replace (Z.to_nat (n - size vs)) with 0%nat by lia.
    simpl. rewrite app_nil_r.
    apply twp_when; intros Hshrink.
    + destruct Hrep as [(rest & _ & Hc & a & Hp & Hlive)|[_ ->]];
        [|exfalso; unfold size in *; cbn [length] in *;
          change (Z.of_nat 0) with 0 in *; clear - Hshrink Hn; lia].
      unfold size, block, slot in *. cbn [length] in Hc.
      eapply twp_conseq;
        [apply (twp_finish T (take (Z.to_nat n) vs)
                  (map Some vs ++ Some 0 :: rest) _ a _
                  (fun e s' => e = bad_alloc /\ s' = s))| |auto].
      * split; [exact Hp|exact Hlive].
      * rewrite length_app, length_map. cbn [length]. lia.
      * unfold size. rewrite length_take. lia.
      * lia.
      * rewrite length_take_le by lia. apply take_map_Some. lia.
      * intros [] s' [H' _]. exact H'.
    + rewrite take_ge by (unfold size in *; lia). exact Hrep.
Qed.

Lemma resize_truncates_or_fills_witness :
  twp (resize easy_allocator Char32 1 0) (holding [0x61; 0x62])
    (fun _ s' =>
       represents s'
         (take (Z.to_nat 1) [0x61; 0x62]
          ++ replicate (Z.to_nat (1 - size [0x61; 0x62]))
               (if 1 - size [0x61; 0x62] =? 1 then 0 else splat Char32 0)))
    (fun e s' => e = bad_alloc /\ s' = holding [0x61; 0x62]).
Proof.
  apply (resize_truncates_or_fills easy_allocator Char32 [0x61; 0x62]).
  - left. exists []. repeat split. exists 0%nat. split; reflexivity.
  - lia.
  - vm_compute. reflexivity.
Defined.

(** ** Comparison for equality *)

Lemma memcmp_bytes_zero (a : list Z) :
  forall b, length a = length b -> (memcmp_bytes a b = 0 <-> a = b).
Proof.
  induction a as [|x a IH]; intros [|y b] Hlen; try discriminate.
  - split; reflexivity.
  - simpl. destruct (x =? y) eqn:Hxy.
    + apply Z.eqb_eq in Hxy. subst y. rewrite IH by (simpl in Hlen; lia).
      split; [intros ->; reflexivity|intros [= ->]; reflexivity].
    + apply Z.eqb_neq in Hxy. split.
      * destruct (x <? y); discriminate.
      * intros [= -> _]. contradiction.
Qed.

Lemma length_le_bytes (n : nat) (v : Z) : length (le_bytes n v) = n.
Proof.
  revert v. induction n as [|n IH]; intros v; simpl; [reflexivity|].
  rewrite IH. reflexivity.
Qed.

Lemma le_bytes_inj (n : nat) :
  forall v w,
    0 <= v < 256 ^ Z.of_nat n -> 0 <= w < 256 ^ Z.of_nat n ->
    le_bytes n v = le_bytes n w -> v = w.
Proof.
  induction n as [|n IH]; intros v w Hv Hw H.
  - simpl in *. lia.
  - rewrite Nat2Z.inj_succ, Z.pow_succ_r in Hv, Hw by lia.
    simpl in H. injection H as Hlow Hhigh.
    apply IH in Hhigh;
      [|split; [apply Z.div_pos; lia|apply Z.div_lt_upper_bound; lia]
       |split; [apply Z.div_pos; lia|apply Z.div_lt_upper_bound; lia]].
    rewrite (Z.div_mod v 256), (Z.div_mod w 256) by lia.
    rewrite Hlow, Hhigh. reflexivity.
Qed.

Lemma length_object_bytes (bo : byte_order) (T : code_type) (v : Z) :
  length (object_bytes bo T v) = Z.to_nat (sizeof_code T).
Proof.
  destruct bo; simpl; rewrite ?length_rev; apply length_le_bytes.
Qed.

Lemma object_bytes_inj (bo : byte_order) (T : code_type) (v w : Z) :
  is_code T v -> is_code T w ->
  object_bytes bo T v = object_bytes bo T w -> v = w.
Proof.
  unfold is_code. intros Hv Hw H.
  assert (Hpow : 2 ^ code_bits T = 256 ^ Z.of_nat (Z.to_nat (sizeof_code T)))
    by (destruct T; reflexivity).
  rewrite Hpow in *.
  destruct bo; simpl in H.
  - eapply le_bytes_inj; eauto.
  - apply (f_equal (@rev Z)) in H. rewrite !rev_involutive in H.
    eapply le_bytes_inj; eauto.
Qed.

Lemma representation_inj (bo : byte_order) (T : code_type) (xs : list Z) :
  forall ys,
    Forall (is_code T) xs -> Forall (is_code T) ys ->
    length xs = length ys ->
    representation bo T xs = representation bo T ys -> xs = ys.
Proof.
  induction xs as [|x xs IH]; intros [|y ys] Hx Hy Hlen H;
    try discriminate; [reflexivity|].
  inversion Hx as [|? ? Hx0 Hxs]; inversion Hy as [|? ? Hy0 Hys]; subst.
  unfold representation in H. simpl in H.
  apply app_inj_1 in H as [H0 H1];
    [|rewrite !length_object_bytes; reflexivity].
  f_equal.
  - eapply object_bytes_inj; eauto.
  - apply IH; auto.
Qed.

Lemma length_representation (bo : byte_order) (T : code_type) (xs : list Z) :
  length (representation bo T xs)
  = (Z.to_nat (sizeof_code T) * length xs)%nat.
Proof.
  unfold representation. induction xs as [|x xs IH]; simpl; [lia|].
  rewrite length_app, length_object_bytes, IH. lia.
Qed.

Lemma determinate_content (xs : list Z) : determinate (map Some xs) = Some xs.
Proof.
  induction xs as [|x xs IH]; simpl; [reflexivity|]. rewrite IH. reflexivity.
Qed.

Lemma Forall_take_code (T : code_type) (xs : list Z) (k : nat) :
  Forall (is_code T) xs -> Forall (is_code T) (take k xs).
Proof. apply Forall_take. Qed.

(** X27: whatever the byte order, [compare(arr, n)] on a buffer that holds
    [vs] returns 0 exactly when [vs] is the first [n] code units of [arr];
    the state is as it was. *)
Theorem compare_arr_zero_iff_equal (bo : byte_order) (T : code_type)
    (vs arr : list Z) n s :
  represents s vs ->
  Forall (is_code T) vs -> Forall (is_code T) arr ->
  0 <= n <= size arr -> size vs < 2 ^ 60 -> n < 2 ^ 60 ->
  exists r,
    compare_arr bo T arr n s = Ok r s /\
    (r = 0 <-> vs = take (Z.to_nat n) arr).
Proof.
  intros Hrep Hvs Harr Hn Hsize Hn60.
  destruct (represents_bounds s vs Hrep) as [Hlen Hsmall].
  unfold compare_arr, mbind, M_bind, bind, size_, data. rewrite Hlen.
  set (m := if n <? size vs then n else size vs).
  assert (Hm : m = Z.min n (size vs))
    by (unfold m; destruct (n <? size vs) eqn:E0; lia).
  clearbody m.
  assert (Hlenarr : length (take (Z.to_nat n) arr) = Z.to_nat n)
    by (rewrite length_take; unfold size in *; lia).
  assert (Hdiff : n <> size vs -> vs <> take (Z.to_nat n) arr).
  { intros Hne Heq. apply (f_equal (@length Z)) in Heq.
    rewrite Hlenarr in Heq. unfold size in *. lia. }
  assert (Hfinal : forall r0 : Z,
            (r0 = 0 <-> take (Z.to_nat m) vs = take (Z.to_nat m) arr) ->
            exists r,
              (if (r0 =? 0) && negb (n =? size vs)
               then ret (if n <? size vs then 1 else -1)
               else ret r0) s = Ok r s /\
              (r = 0 <-> vs = take (Z.to_nat n) arr)).
  { intros r0 Hr0.
    destruct (r0 =? 0) eqn:E0; destruct (n =? size vs) eqn:E1; simpl.
    - exists r0. split; [reflexivity|].
      assert (Hmn : m = n) by lia. rewrite Hmn in Hr0.
      rewrite Hr0. rewrite (take_ge vs) by (unfold size in *; lia).
      reflexivity.
    - eexists. split; [reflexivity|]. split.
      + destruct (n <? size vs); discriminate.
      + intros Heq. exfalso. apply Hdiff; [lia|exact Heq].
    - exists r0. split; [reflexivity|]. split; [lia|].
      intros Heq. exfalso.
      assert (Hmn : m = n) by lia. rewrite Hmn in Hr0.
      assert (r0 = 0); [|lia].
      apply Hr0. rewrite (take_ge vs) by (unfold size in *; lia).
      exact Heq.
    - exists r0. split; [reflexivity|]. split; [lia|].
      intros Heq. exfalso. apply Hdiff; [lia|exact Heq]. }
  unfold memcmp. rewrite slots_exact by (unfold size in *; lia).
  destruct (m =? 0) eqn:Hm0.
  - apply Hfinal. assert (m = 0) as -> by lia. simpl.
    rewrite !take_0. split; reflexivity.
  - replace (m <=? size arr) with true by lia.
    destruct Hrep as [(rest & _ & _ & a & Hp & Hlive)|[_ ->]];
      [|unfold size in *; cbn [length] in *; exfalso; clear - Hm Hm0 Hn; lia].
    rewrite Hp. unfold mbind, M_bind, bind.
    assert (Hread : read_slots (mk_pointer (Some a) 0) m s
                    = Ok (map Some (take (Z.to_nat m) vs)) s).
    { apply twp_result.
      eapply twp_read_slots; [exact Hlive|lia|lia| |].
      - unfold block, slot, size in *. rewrite length_app, length_map. lia.
      - simpl. f_equal. symmetry.
        apply take_map_Some. unfold size in *. lia. }
    rewrite Hread, determinate_content.
    apply Hfinal. rewrite memcmp_bytes_zero.
    + split; [|intros ->; reflexivity].
      apply representation_inj; try apply Forall_take; auto.
      rewrite !length_take. unfold size in *. lia.
    + rewrite !length_representation. f_equal.
      rewrite !length_take. unfold size in *. lia.
Qed.

Lemma compare_arr_zero_iff_equal_witness :
  exists r,
    compare_arr BigEndian Char32 [0x61; 0x4E2D; 0x62] 2 (holding [0x61; 0x4E2D])
    = Ok r (holding [0x61; 0x4E2D]) /\
    (r = 0 <-> [0x61; 0x4E2D] = take (Z.to_nat 2) [0x61; 0x4E2D; 0x62]).
Proof.
  apply (compare_arr_zero_iff_equal BigEndian Char32 [0x61; 0x4E2D]
           [0x61; 0x4E2D; 0x62] 2).
  - left. exists []. repeat split. exists 0%nat. split; reflexivity.
  - repeat constructor; simpl; lia.
  - repeat constructor; simpl; lia.
  - vm_compute. split; discriminate.
  - vm_compute. reflexivity.
  - lia.
Defined.

(** ** Comparison with UTF-8 text *)

Lemma compare_str_loop_spec (T : code_type) (vs : list Z) s :
  represents s vs -> size vs < 2 ^ 63 ->
  forall cps : list Z,
    Forall (encodable T) cps ->
    forall (pre done rest : list Z) (fuel : nat),
      (length cps < fuel)%nat ->
      size (pre ++ concat (map units cps)) < 2 ^ 63 ->
      vs = done ++ rest ->
      compare_str_loop fuel T (pre ++ concat (map units cps))
        (Z.of_nat (length pre)) (Z.of_nat (length done)) s
      = Ok (Returns (lexicographic rest cps)) s.
Proof.
  intros Hrep Hsize.
  destruct (represents_bounds s vs Hrep) as [Hlen _].
  induction 1 as [|cp cps Hcp Hcps IH]; intros pre done rest fuel Hfuel Hstr Hvs;
    (destruct fuel as [|fuel]; [simpl in Hfuel; lia|]);
    cbn [compare_str_loop].
  - simpl. rewrite app_nil_r. unfold size at 1. rewrite Z.ltb_irrefl.
    unfold mbind, M_bind, bind, size_, ret. rewrite Hlen, Hvs.
    unfold size. rewrite length_app.
    destruct rest as [|v rest]; simpl.
    + rewrite Nat.add_0_r, Z.ltb_irrefl. reflexivity.
    + destruct (Z.ltb_spec (Z.of_nat (length done))
                  (Z.of_nat (length done + S (length rest))));
        [reflexivity|exfalso; clear - H; lia].
  - pose proof Hcp as [Hr _].
    pose proof (units_nonempty cp Hr) as Hne.
    pose proof (length_units cp Hr) as Hl.
    cbn [map concat] in *.
    unfold size in Hstr. rewrite !length_app in Hstr.
    replace (Z.of_nat (length pre) <?
             size (pre ++ units cp ++ concat (map units cps)))
      with true
      by (symmetry; apply Z.ltb_lt; unfold size; rewrite !length_app; lia).
    rewrite advance_app. cbv zeta.
    rewrite width_of_units
      by (try exact Hr; apply encoded_head, (encodable_range T), Hcps).
    rewrite utf8_decode_units by exact Hcp.
    unfold mbind, M_bind, bind, size_, data. rewrite Hlen, Hvs.
    unfold size at 1. rewrite length_app.
    destruct rest as [|v rest].
    + replace (Z.of_nat (length done) =? Z.of_nat (length done + length []))
        with true by (symmetry; apply Z.eqb_eq; simpl; lia).
      reflexivity.
    + replace (Z.of_nat (length done)
               =? Z.of_nat (length done + length (v :: rest)))
        with false by (symmetry; apply Z.eqb_neq; simpl; lia).
      destruct Hrep as [(tl & _ & _ & a & Hp & Hlive)|[_ Hnil]];
        [|rewrite Hnil in Hvs; destruct done; discriminate].
      rewrite Hp.
      assert (Hpeek : peek (mk_pointer (Some a) (Z.of_nat (length done))) s
                      = Ok v s).
      { apply twp_result.
        eapply twp_peek; [exact Hlive|lia| |reflexivity].
        apply lookup_content. rewrite Hvs, Nat2Z.id.
        rewrite lookup_app_r by lia. rewrite Nat.sub_diag. reflexivity. }
      rewrite Hpeek. cbn [lexicographic].
      destruct (v <? cp); [reflexivity|].
      destruct (cp <? v); [reflexivity|].
      assert (Hdone : Z.of_nat (length done) < 2 ^ 63).
      { rewrite Hvs in Hsize. unfold size in Hsize.
        rewrite length_app in Hsize. lia. }
      rewrite !size_t_small by lia.
      replace (Z.of_nat (length pre) + get_codepoint_bytes_cp cp)
        with (Z.of_nat (length (pre ++ units cp)))
        by (rewrite length_app; lia).
      replace (Z.of_nat (length done) + 1)
        with (Z.of_nat (length (done ++ [v])))
        by (rewrite length_app; simpl; lia).
      rewrite (app_assoc pre (units cp)).
      apply IH.
      * simpl in Hfuel. lia.
      * unfold size. rewrite !length_app. lia.
      * rewrite <- app_assoc. exact Hvs.
Qed.

(** X29: [compare(const char*, n)] with the UTF-8 text that [encode] makes of
    the code points [cps], on a buffer that holds [vs], returns the sign of
    the lexicographic order of [vs] against [cps] by code unit value; the
    state is as it was. *)
Theorem compare_str_orders_by_value (T : code_type) (vs cps dest bytes : list Z)
    s :
  represents s vs -> size vs < 2 ^ 63 ->
  Forall (encodable T) cps -> length dest = 8%nat ->
  Z.of_nat (length cps) < 2 ^ 60 ->
  encode dest cps = Some bytes ->
  compare_str T bytes s = Ok (Returns (lexicographic vs cps)) s.
Proof.
  intros Hrep Hsize Hcps Hd Hn Henc.
  pose proof (encodable_range T cps Hcps) as Hr.
  pose proof (encoded_length_bounds cps Hr) as Hb.
  rewrite encode_spec in Henc by (auto; lia). injection Henc as <-.
  unfold compare_str, iterations.
  apply (compare_str_loop_spec T vs s Hrep Hsize cps Hcps [] [] vs).
  - lia.
  - unfold size. simpl. lia.
  - reflexivity.
Qed.

Lemma compare_str_orders_by_value_witness :
  compare_str Char32 [0xC3; 0xBF] (holding [0x100])
  = Ok (Returns (lexicographic [0x100] [0xFF])) (holding [0x100]).
Proof.
  apply (compare_str_orders_by_value Char32 [0x100] [0xFF]
           [0; 0; 0; 0; 0; 0; 0; 0]).
  - left. exists []. repeat split. exists 0%nat. split; reflexivity.
  - vm_compute. reflexivity.
  - repeat constructor; simpl; lia.
  - reflexivity.
  - simpl. lia.
  - reflexivity.
Defined.

(** ** The order of [compare(arr, n)] on a big-endian target *)

Lemma memcmp_bytes_app (a : list Z) :
  forall b c d,
    length a = length b ->
    memcmp_bytes (a ++ c) (b ++ d)
    = if memcmp_bytes a b =? 0 then memcmp_bytes c d else memcmp_bytes a b.
Proof.
  induction a as [|x a IH]; intros [|y b] c d Hlen; try discriminate.
  - reflexivity.
  - simpl. destruct (x =? y).
    + apply IH. simpl in Hlen. lia.
    + destruct (x <? y); reflexivity.
Qed.

Lemma memcmp_bytes_big_endian (n : nat) :
  forall v w,
    0 <= v < 256 ^ Z.of_nat n -> 0 <= w < 256 ^ Z.of_nat n ->
    memcmp_bytes (rev (le_bytes n v)) (rev (le_bytes n w))
    = if v <? w then -1 else if w <? v then 1 else 0.
Proof.
  induction n as [|n IH]; intros v w Hv Hw.
  - simpl in *. replace (v <? w) with false by lia.
    replace (w <? v) with false by lia. reflexivity.
  - rewrite Nat2Z.inj_succ, Z.pow_succ_r in Hv, Hw by lia.
    cbn [le_bytes rev].
    rewrite memcmp_bytes_app by (rewrite !length_rev, !length_le_bytes; reflexivity).
    rewrite IH
      by (split; [apply Z.div_pos; lia|apply Z.div_lt_upper_bound; lia]).
    pose proof (Z.div_mod v 256 ltac:(lia)) as Hdv.
    pose proof (Z.div_mod w 256 ltac:(lia)) as Hdw.
    pose proof (Z.mod_pos_bound v 256 ltac:(lia)) as Hmv.
    pose proof (Z.mod_pos_bound w 256 ltac:(lia)) as Hmw.
    destruct (v / 256 <? w / 256) eqn:E1.
    { simpl. replace (v <? w) with true by lia. reflexivity. }
    destruct (w / 256 <? v / 256) eqn:E2.
    { simpl. replace (v <? w) with false by lia.
      replace (w <? v) with true by lia. reflexivity. }
    simpl.
    destruct (v mod 256 =? w mod 256) eqn:E3.
    + replace (v <? w) with false by lia.
      replace (w <? v) with false by lia. reflexivity.
    + destruct (v mod 256 <? w mod 256) eqn:E4.
      * replace (v <? w) with true by lia. reflexivity.
      * replace (v <? w) with false by lia.
        replace (w <? v) with true by lia. reflexivity.
Qed.

Lemma memcmp_bytes_representation (T : code_type) (xs : list Z) :
  forall ys,
    Forall (is_code T) xs -> Forall (is_code T) ys ->
    length xs = length ys ->
    memcmp_bytes (representation BigEndian T xs)
      (representation BigEndian T ys)
    = lexicographic xs ys.
Proof.
  induction xs as [|x xs IH]; intros [|y ys] Hx Hy Hlen;
    try discriminate; [reflexivity|].
  inversion Hx as [|? ? Hx0 Hxs]; inversion Hy as [|? ? Hy0 Hys]; subst.
  unfold representation. cbn [flat_map lexicographic].
  rewrite memcmp_bytes_app by (rewrite !length_object_bytes; reflexivity).
  assert (Hpow : 2 ^ code_bits T = 256 ^ Z.of_nat (Z.to_nat (sizeof_code T)))
    by (destruct T; reflexivity).
  unfold is_code in Hx0, Hy0. rewrite Hpow in Hx0, Hy0.
  unfold object_bytes.
  rewrite memcmp_bytes_big_endian by assumption.
  destruct (x <? y); [reflexivity|].
  destruct (y <? x); [reflexivity|].
  simpl. apply IH; auto.
Qed.

Lemma lexicographic_prefix (vs : list Z) :
  forall ys,
    lexicographic vs ys
    = if lexicographic (take (min (length vs) (length ys)) vs)
           (take (min (length vs) (length ys)) ys) =? 0
      then if (length ys <? length vs)%nat then 1
           else if (length vs <? length ys)%nat then -1 else 0
      else lexicographic (take (min (length vs) (length ys)) vs)
             (take (min (length vs) (length ys)) ys).
Proof.
  induction vs as [|v vs IH]; intros [|y ys]; try reflexivity.
  cbn [length Nat.min take lexicographic].
  destruct (v <? y); [reflexivity|].
  destruct (y <? v); [reflexivity|].
  rewrite IH at 1. reflexivity.
Qed.

(** X30: on a big-endian target, [compare(arr, n)] on a buffer that holds
    [vs] returns a value whose sign is the lexicographic order of [vs]
    against the first [n] code units of [arr] by code unit value; the state
    is as it was. *)
Theorem compare_arr_big_endian_order (T : code_type) (vs arr : list Z) n s :
  represents s vs ->
  Forall (is_code T) vs -> Forall (is_code T) arr ->
  0 <= n <= size arr -> size vs < 2 ^ 60 -> n < 2 ^ 60 ->
  exists r,
    compare_arr BigEndian T arr n s = Ok r s /\
    Z.sgn r = lexicographic vs (take (Z.to_nat n) arr).
Proof.
  intros Hrep Hvs Harr Hn Hsize Hn60.
  destruct (represents_bounds s vs Hrep) as [Hlen Hsmall].
  unfold compare_arr, mbind, M_bind, bind, size_, data. rewrite Hlen.
  set (m := if n <? size vs then n else size vs).
  assert (Hm : m = Z.min n (size vs))
    by (unfold m; destruct (n <? size vs) eqn:E0; lia).
  clearbody m.
  assert (Hlenarr : length (take (Z.to_nat n) arr) = Z.to_nat n)
    by (rewrite length_take; unfold size in *; lia).
  assert (Hmin : Nat.min (length vs) (length (take (Z.to_nat n) arr))
                 = Z.to_nat m)
    by (rewrite Hlenarr; unfold size in *; lia).
  rewrite (lexicographic_prefix vs (take (Z.to_nat n) arr)), Hmin.
  rewrite take_take.
  replace (Z.to_nat m `min` Z.to_nat n)%nat with (Z.to_nat m) by lia.
  rewrite Hlenarr.
  set (L := lexicographic (take (Z.to_nat m) vs) (take (Z.to_nat m) arr)).
  assert (Hsgn : Z.sgn L = L).
  { unfold L. clear.
    generalize (take (Z.to_nat m) arr).
    induction (take (Z.to_nat m) vs) as [|v l IH]; intros [|y ys];
      try reflexivity.
    cbn [lexicographic].
    destruct (v <? y); [reflexivity|].
    destruct (y <? v); [reflexivity|]. apply IH. }
  assert (Hfinal : forall r0 : Z,
            r0 = L ->
            exists r,
              (if (r0 =? 0) && negb (n =? size vs)
               then ret (if n <? size vs then 1 else -1)
               else ret r0) s = Ok r s /\
              Z.sgn r
              = if L =? 0
                then if (Z.to_nat n <? length vs)%nat then 1
                     else if (length vs <? Z.to_nat n)%nat then -1 else 0
                else L).
  { intros r0 ->. clearbody L.
    destruct (L =? 0) eqn:E0; destruct (n =? size vs) eqn:E1; simpl.
    - exists L. split; [reflexivity|].
      rewrite Hsgn. unfold size in *.
      destruct (Nat.ltb_spec (Z.to_nat n) (length vs)); [lia|].
      destruct (Nat.ltb_spec (length vs) (Z.to_nat n)); lia.
    - eexists. split; [reflexivity|]. unfold size in *.
      destruct (Z.ltb_spec n (Z.of_nat (length vs))).
      + destruct (Nat.ltb_spec (Z.to_nat n) (length vs)); [reflexivity|lia].
      + destruct (Nat.ltb_spec (Z.to_nat n) (length vs)); [lia|].
        destruct (Nat.ltb_spec (length vs) (Z.to_nat n)); [reflexivity|lia].
    - exists L. split; [reflexivity|exact Hsgn].
    - exists L. split; [reflexivity|exact Hsgn]. }
  unfold memcmp. rewrite slots_exact by (unfold size in *; lia).
  destruct (m =? 0) eqn:Hm0.
  - apply Hfinal. unfold L. assert (m = 0) as -> by lia. reflexivity.
  - replace (m <=? size arr) with true by lia.
    destruct Hrep as [(rest & _ & _ & a & Hp & Hlive)|[_ ->]];
      [|unfold size in *; cbn [length] in *; exfalso; clear - Hm Hm0 Hn; lia].
    rewrite Hp. unfold mbind, M_bind, bind.
    assert (Hread : read_slots (mk_pointer (Some a) 0) m s
                    = Ok (map Some (take (Z.to_nat m) vs)) s).
    { apply twp_result.
      eapply twp_read_slots; [exact Hlive|lia|lia| |].
      - unfold block, slot, size in *. rewrite length_app, length_map. lia.
      - simpl. f_equal. symmetry.
        apply take_map_Some. unfold size in *. lia. }
    rewrite Hread, determinate_content.
    apply Hfinal. apply memcmp_bytes_representation.
    + apply Forall_take. exact Hvs.
    + apply Forall_take. exact Harr.
    + rewrite !length_take. unfold size in *. lia.
Qed.

Lemma compare_arr_big_endian_order_witness :
  exists r,
    compare_arr BigEndian Char32 [0xFF] 1 (holding [0x100])
    = Ok r (holding [0x100]) /\
    Z.sgn r = lexicographic [0x100] (take (Z.to_nat 1) [0xFF]).
Proof.
  apply (compare_arr_big_endian_order Char32 [0x100] [0xFF] 1).
  - left. exists []. repeat split. exists 0%nat. split; reflexivity.
  - repeat constructor; simpl; lia.
  - repeat constructor; simpl; lia.
  - vm_compute. split; discriminate.
  - vm_compute. reflexivity.
  - lia.
Defined.
